(** * Verification of the realtime audio pipeline

    A shallow embedding of [RingBuffer.h], [Resampler3x.h],
    [StftProcessor.cpp] and, of [FullDuplexEngine.cpp], [pullTo], the two
    stereo helpers and the priming of the output ring in [start]; the
    properties of the specification that concern them, and further
    properties of the same code: the ring as a bounded queue, and the
    resamplers and the STFT processor on a stream cut into blocks.

    Conventions of the embedding:
    - [int32_t] / [int], [uint64_t] / [size_t] are integers in [Z]; every
      operation that can leave the range of its type is followed by the
      wrap-around of that type ([i32], [u64]).
    - a [float*] argument is the list of the floats of the buffer it points
      to; an access outside the buffer is undefined behaviour in the source
      and a failure ([None]) here.
    - [float] is IEEE-754 binary32 ([spec_float] at precision 24, round to
      nearest even), without contraction of multiply-add. *)

From Stdlib Require Import ZArith List Lia Bool.
From Stdlib Require Import Floats.SpecFloat.
Import ListNotations.
Local Open Scope Z_scope.

(** ** Machine integers *)

Module MachInt.

Definition u64 (z : Z) : Z := z mod 2 ^ 64.

Definition i32 (z : Z) : Z := (z + 2 ^ 31) mod 2 ^ 32 - 2 ^ 31.

Definition i64 (z : Z) : Z := (z + 2 ^ 63) mod 2 ^ 64 - 2 ^ 63.

Definition INT32_MAX : Z := 2 ^ 31 - 1.

Definition in_i32 (z : Z) : Prop := - 2 ^ 31 <= z <= INT32_MAX.

Definition in_u64 (z : Z) : Prop := 0 <= z < 2 ^ 64.

Definition in_i64 (z : Z) : Prop := - 2 ^ 63 <= z < 2 ^ 63.

End MachInt.
Import MachInt.

(** ** Buffers *)

Section Buffers.
Context {A : Type}.

(** [memcpy (dst + doff) (src + soff) n], counted in elements. *)
Definition memcpy (dst : list A) (doff : Z) (src : list A) (soff n : Z)
  : option (list A) :=
  if (0 <=? doff) && (0 <=? soff) && (0 <=? n)
     && (soff + n <=? Z.of_nat (length src))
     && (doff + n <=? Z.of_nat (length dst))
  then Some (firstn (Z.to_nat doff) dst
             ++ firstn (Z.to_nat n) (skipn (Z.to_nat soff) src)
             ++ skipn (Z.to_nat (doff + n)) dst)
  else None.

(** [std::vector::resize (n)] with value-initialised new elements. *)
Definition resize (zero : A) (v : list A) (n : Z) : list A :=
  firstn (Z.to_nat n) v ++ repeat zero (Z.to_nat n - length v).

(** [p[i]] read and [p[i] = x] write through a pointer into a buffer. *)
Definition load (p : list A) (i : Z) : option A :=
  if 0 <=? i then nth_error p (Z.to_nat i) else None.

Definition store (p : list A) (i : Z) (x : A) : option (list A) :=
  if (0 <=? i) && (i <? Z.of_nat (length p))
  then Some (firstn (Z.to_nat i) p ++ x :: skipn (Z.to_nat (i + 1)) p)
  else None.

End Buffers.

(** ** RingBuffer.h *)

Module RingBuffer.
Section Ring.
Context {A : Type} (zero : A).

Record t : Type := mk {
mData : list A;
mChannels : Z;
mCapacityFrames : Z;
mMask : Z;
mRead : Z;
mWrite : Z
}.

(** State of a default-constructed ring. *)
Definition fresh : t :=
{| mData := []; mChannels := 1; mCapacityFrames := 0; mMask := 0;
   mRead := 0; mWrite := 0 |}.

(** The cascade [v |= v >> 1; ... v |= v >> 16] of [nextPow2]. *)
Definition smear (v : Z) : Z :=
let v := Z.lor v (Z.shiftr v 1) in
let v := Z.lor v (Z.shiftr v 2) in
let v := Z.lor v (Z.shiftr v 4) in
let v := Z.lor v (Z.shiftr v 8) in
Z.lor v (Z.shiftr v 16).

Definition nextPow2 (v : Z) : Z :=
let v := i32 (v - 1) in
let v := smear v in
let v := i32 (v + 1) in
if v <? 2 then 2 else v.

Definition init (rb : t) (capacityFrames channels : Z) : bool * t :=
if (capacityFrames <=? 0) || (channels <=? 0) then (false, rb)
else
  let cap := nextPow2 capacityFrames in
  (true,
   {| mData := resize zero (mData rb) (u64 (u64 cap * u64 channels));
      mChannels := channels;
      mCapacityFrames := cap;
      mMask := i32 (cap - 1);
      mRead := 0;
      mWrite := 0 |}).

Definition channels (rb : t) : Z := mChannels rb.
Definition capacityFrames (rb : t) : Z := mCapacityFrames rb.

Definition availableToRead (rb : t) : Z :=
let r := mRead rb in
let w := mWrite rb in
i32 (u64 (w - r)).

Definition availableToWrite (rb : t) : Z :=
i32 (mCapacityFrames rb - availableToRead rb).

(** [c & mMask] on [uint64_t] (the mask is converted to unsigned), and the
  frame index [static_cast<int32_t>(c & mMask)]. *)
Definition masked (rb : t) (c : Z) : Z := Z.land c (u64 (mMask rb)).
Definition slot (rb : t) (c : Z) : Z := i32 (masked rb c).

(** Number of floats of a [memcpy] of [frames * mChannels * sizeof(float)]
  bytes, the product taken in [size_t]. *)
Definition floats (rb : t) (frames : Z) : Z :=
u64 (u64 (u64 frames * u64 (mChannels rb)) * 4) / 4.

(** Offset in floats of frame [f]: [static_cast<size_t>(f) * mChannels]. *)
Definition offset (rb : t) (f : Z) : Z := u64 (u64 f * u64 (mChannels rb)).

Definition writeInterleaved (rb : t) (src : list A) (frames : Z)
: option (t * Z) :=
let frames := Z.max 0 (Z.min frames (availableToWrite rb)) in
if frames =? 0 then Some (rb, 0)
else
  let w := mWrite rb in
  let first := Z.min frames (i32 (mCapacityFrames rb - slot rb w)) in
  let second := i32 (frames - first) in
  match memcpy (mData rb) (offset rb (masked rb w)) src 0
               (floats rb first) with
  | None => None
  | Some d1 =>
      match (if 0 <? second
             then memcpy d1 0 src (offset rb first) (floats rb second)
             else Some d1) with
      | None => None
      | Some d2 =>
          Some ({| mData := d2;
                   mChannels := mChannels rb;
                   mCapacityFrames := mCapacityFrames rb;
                   mMask := mMask rb;
                   mRead := mRead rb;
                   mWrite := u64 (w + frames) |}, frames)
      end
  end.

Definition readInterleaved (rb : t) (dst : list A) (frames : Z)
: option (t * list A * Z) :=
let frames := Z.max 0 (Z.min frames (availableToRead rb)) in
if frames =? 0 then Some (rb, dst, 0)
else
  let r := mRead rb in
  let first := Z.min frames (i32 (mCapacityFrames rb - slot rb r)) in
  let second := i32 (frames - first) in
  match memcpy dst 0 (mData rb) (offset rb (masked rb r))
               (floats rb first) with
  | None => None
  | Some o1 =>
      match (if 0 <? second
             then memcpy o1 (offset rb first) (mData rb) 0
                         (floats rb second)
             else Some o1) with
      | None => None
      | Some o2 =>
          Some ({| mData := mData rb;
                   mChannels := mChannels rb;
                   mCapacityFrames := mCapacityFrames rb;
                   mMask := mMask rb;
                   mRead := u64 (r + frames);
                   mWrite := mWrite rb |}, o2, frames)
      end
  end.

(** Geometry of an initialised ring: a power-of-two capacity with its
  mask, storage of [capacity * channels] floats, counters in range. *)
Definition wf (rb : t) : Prop :=
exists k, 1 <= k <= 30 /\
  mCapacityFrames rb = 2 ^ k /\ mMask rb = 2 ^ k - 1 /\
  1 <= mChannels rb <= INT32_MAX /\
  Z.of_nat (length (mData rb)) = 2 ^ k * mChannels rb /\
  in_u64 (mRead rb) /\ in_u64 (mWrite rb).

(** An initialised ring that holds no more frames than its capacity. *)
Definition ring_inv (rb : t) : Prop :=
  wf rb /\ u64 (mWrite rb - mRead rb) <= mCapacityFrames rb.

(** [rb] has the storage size, channel count, capacity and mask of [rb1]. *)
Definition same_geometry (rb1 rb : t) : Prop :=
mChannels rb = mChannels rb1 /\
mCapacityFrames rb = mCapacityFrames rb1 /\
mMask rb = mMask rb1 /\
length (mData rb) = length (mData rb1).

End Ring.

(** "The capacity rounded up to the next power of two (minimum 2)":
    [p] is the least power of two [2 ^ k], [k >= 1], with [c <= p]. *)
Definition is_next_pow2 (c p : Z) : Prop :=
  exists k, 1 <= k /\ p = 2 ^ k /\ c <= p /\
            forall j, 1 <= j -> c <= 2 ^ j -> p <= 2 ^ j.

End RingBuffer.

(** ** [float]: IEEE-754 binary32 *)

Module F32.

Definition prec : Z := 24.
Definition emax : Z := 128.

Definition float : Type := spec_float.

Definition add : float -> float -> float := SFadd prec emax.
Definition sub : float -> float -> float := SFsub prec emax.
Definition mul : float -> float -> float := SFmul prec emax.
Definition div : float -> float -> float := SFdiv prec emax.

(** [a > b]; false when either side is NaN. *)
Definition gt (a b : float) : bool := SFltb b a.

(** Conversion of an integer, [float (n)], and of a scaled integer
    [m * 2 ^ e] (a literal), both rounded to nearest even. *)
Definition of_Z (n : Z) : float := binary_normalize prec emax n 0 false.
Definition of_scaled (m e : Z) : float :=
  binary_normalize prec emax m e false.

Definition zero : float := S754_zero false.
Definition one : float := of_Z 1.
Definition two : float := of_Z 2.
Definition three : float := of_Z 3.
Definition half : float := of_scaled 1 (-1).

(** The constant [1.0f / 3.0f]. *)
Definition third : float := div one three.

Definition is_nan (x : float) : bool :=
  match x with S754_nan => true | _ => false end.

Definition is_inf (x : float) : bool :=
  match x with S754_infinity _ => true | _ => false end.

Definition is_finite (x : float) : bool :=
  match x with S754_zero _ | S754_finite _ _ _ => true | _ => false end.

(** The rational value [num / 2 ^ den] of a finite float, as the pair
    of an integer numerator and the exponent of the denominator. *)
Definition scaled_value (x : float) (den : Z) : option Z :=
  match x with
  | S754_zero _ => Some 0
  | S754_finite s m e =>
      if 0 <=? e + den
      then Some (cond_Zopp s (Z.pos m) * 2 ^ (e + den))
      else None
  | _ => None
  end.

End F32.

(** ** Resampler3x.h *)

Module Resampler3x.

Import F32.

Inductive Mode : Type := DownBy3 | UpBy3.

Record t : Type := mk {
  mMode : Mode;
  mPrevSample : float;
  mHadPrev : bool
}.

Definition new (m : Mode) : t :=
  {| mMode := m; mPrevSample := zero; mHadPrev := false |}.

Definition reset (self : t) : t :=
  {| mMode := mMode self; mPrevSample := zero; mHadPrev := false |}.

Definition setMode (self : t) (m : Mode) : t :=
  reset {| mMode := m; mPrevSample := mPrevSample self;
           mHadPrev := mHadPrev self |}.

(** [(s0 + s1 + s2) * (1.0f/3.0f)]. *)
Definition mean3 (s0 s1 s2 : float) : float :=
  mul (add (add s0 s1) s2) third.

(** Body of the loop of [processDown3] for group [g]. *)
Definition down3_body (inp out : list float) (g : Z) : option (list float) :=
  match load inp (i32 (i32 (g * 3) + 0)),
        load inp (i32 (i32 (g * 3) + 1)),
        load inp (i32 (i32 (g * 3) + 2)) with
  | Some s0, Some s1, Some s2 => store out g (mean3 s0 s1 s2)
  | _, _, _ => None
  end.

(** [for (g = ...; g < produced; ++g)] with [n] iterations left. *)
Fixpoint down3_loop (n : nat) (inp out : list float) (g : Z)
  : option (list float) :=
  match n with
  | O => Some out
  | S n' =>
      match down3_body inp out g with
      | Some out' => down3_loop n' inp out' (i32 (g + 1))
      | None => None
      end
  end.

Definition processDown3 (self : t) (inp : list float) (inFrames : Z)
    (out : list float) (outMaxFrames : Z) : option (t * list float * Z) :=
  let groups := Z.quot inFrames 3 in
  let produced := Z.min groups outMaxFrames in
  match down3_loop (Z.to_nat produced) inp out 0 with
  | Some out' => Some (self, out', produced)
  | None => None
  end.

(** Body of the loop of [processUp3] for input sample [i]. *)
Definition up3_body (inp out : list float) (inFrames i outIdx : Z)
  : option (list float) :=
  match load inp i with
  | None => None
  | Some x0 =>
      match (if i32 (i + 1) <? inFrames then load inp (i32 (i + 1))
             else Some x0) with
      | None => None
      | Some x1 =>
          let d := mul (sub x1 x0) third in
          match store out outIdx x0 with
          | None => None
          | Some o1 =>
              match store o1 (i32 (outIdx + 1)) (add x0 d) with
              | None => None
              | Some o2 =>
                  store o2 (i32 (outIdx + 2)) (add x0 (mul two d))
              end
          end
      end
  end.

(** [for (i = ...; i < inFrames && (outIdx + 3) <= producedMax; ++i)]
    with [n = inFrames - i] values of [i] left. *)
Fixpoint up3_loop (n : nat) (inp out : list float)
    (inFrames producedMax i outIdx : Z) : option (list float * Z) :=
  match n with
  | O => Some (out, outIdx)
  | S n' =>
      if i32 (outIdx + 3) <=? producedMax then
        match up3_body inp out inFrames i outIdx with
        | Some out' =>
            up3_loop n' inp out' inFrames producedMax
                     (i32 (i + 1)) (i32 (outIdx + 3))
        | None => None
        end
      else Some (out, outIdx)
  end.

Definition processUp3 (self : t) (inp : list float) (inFrames : Z)
    (out : list float) (outMaxFrames : Z) : option (t * list float * Z) :=
  if inFrames <=? 0 then Some (self, out, 0)
  else
    let need := i32 (inFrames * 3) in
    let producedMax := Z.min need outMaxFrames in
    match up3_loop (Z.to_nat inFrames) inp out inFrames producedMax 0 0 with
    | None => None
    | Some (out', outIdx) =>
        match load inp (i32 (inFrames - 1)) with
        | None => None
        | Some last =>
            Some ({| mMode := mMode self; mPrevSample := last;
                     mHadPrev := true |}, out', outIdx)
        end
    end.

(** What iteration [i] of [processUp3] leaves in [out'] at
    [3 * i .. 3 * i + 2]: [x0], [x0 + d], [x0 + 2.0f * d] with
    [d = (x1 - x0) * (1.0f/3.0f)], [x1] the next input or [x0] at the end. *)
Definition up3_triplet_at (inp out' : list float) (N i : Z) : Prop :=
  exists x0 x1,
    load inp i = Some x0 /\
    (if i + 1 <? N then load inp (i + 1) else Some x0) = Some x1 /\
    let d := mul (sub x1 x0) third in
    load out' (3 * i) = Some x0 /\
    load out' (3 * i + 1) = Some (add x0 d) /\
    load out' (3 * i + 2) = Some (add x0 (mul two d)).

Definition process (self : t) (inp : list float) (inFrames : Z)
    (out : list float) (outMaxFrames : Z) : option (t * list float * Z) :=
  match mMode self with
  | DownBy3 => processDown3 self inp inFrames out outMaxFrames
  | UpBy3 => processUp3 self inp inFrames out outMaxFrames
  end.

End Resampler3x.

(** ** Member vectors and counted loops *)

Section Vectors.
Context {A : Type}.

(** [v[i]] and [v[i] = x] on a member vector. The indices the program uses
    on its own vectors are in range by construction (fixed sizes, masked
    ring indices); outside the range a read gives [d] and a write is
    dropped. *)
Definition vget (d : A) (v : list A) (i : Z) : A :=
  if 0 <=? i then nth (Z.to_nat i) v d else d.

Definition vset (v : list A) (i : Z) (x : A) : list A :=
  if (0 <=? i) && (i <? Z.of_nat (length v))
  then firstn (Z.to_nat i) v ++ x :: skipn (Z.to_nat (i + 1)) v
  else v.

(** [std::copy_n (src, length src, dst + off)] inside a member vector. *)
Definition vcopy (dst : list A) (off : Z) (src : list A) : list A :=
  firstn (Z.to_nat off) dst
  ++ firstn (length dst - Z.to_nat off) src
  ++ skipn (Z.to_nat off + length src) dst.

(** [for (i = i0; ...; ++i) body] with [n] iterations. *)
Fixpoint for_loop {S : Type} (n : nat) (i : Z) (body : Z -> S -> S) (s : S)
  : S :=
  match n with
  | O => s
  | Datatypes.S n' => for_loop n' (i + 1) body (body i s)
  end.

End Vectors.

(** ** StftProcessor.h, StftProcessor.cpp *)

Module StftProcessor.

Import F32.

Definition kNFFT : Z := 512.
Definition kHOP : Z := 96.
Definition kFRAME : Z := 480.

(** [1e-8f]. *)
Definition kEps : float := div one (of_Z 100000000).

(** [float (M_PI)]: the double [884279719003555 * 2^-48] rounded. *)
Definition pi : float := of_scaled 884279719003555 (-48).

Definition complex : Type := (float * float)%type.

(** [std::complex<float>]: sum, difference and product by their defining
    formulas, and the product with a real. The product is
    [(ac - bd, ad + bc)]; the library's recovery of an infinite product,
    tried when both parts come out NaN and an operand or a partial product
    is infinite, is left out. *)
Definition czero : complex := (zero, zero).
Definition cadd (a b : complex) : complex :=
  (add (fst a) (fst b), add (snd a) (snd b)).
Definition csub (a b : complex) : complex :=
  (sub (fst a) (fst b), sub (snd a) (snd b)).
Definition cmul (a b : complex) : complex :=
  (sub (mul (fst a) (fst b)) (mul (snd a) (snd b)),
   add (mul (fst a) (snd b)) (mul (snd a) (fst b))).
Definition cscale (a : complex) (x : float) : complex :=
  (mul (fst a) x, mul (snd a) x).

Record t : Type := mk {
  mWin : list float;
  mHopBuf : list float;
  mHopFill : Z;
  mHist384 : list float;
  mFFTIn : list complex;
  mFFTOut : list complex;
  mTime512 : list float;
  mTimeWin : list float;
  mOlaBuf : list float;
  mNormBuf : list float;
  mOlaWrite : Z;
  mOlaRead : Z;
  mOlaMask : Z;
  mAvail : Z;
  mPushed : Z;
  mPopped : Z;
  mHops : Z
}.

(** Assignments to groups of members. *)
Definition set_hop (s : t) (hopBuf : list float) (hopFill : Z) : t :=
  mk (mWin s) hopBuf hopFill (mHist384 s) (mFFTIn s) (mFFTOut s)
     (mTime512 s) (mTimeWin s) (mOlaBuf s) (mNormBuf s)
     (mOlaWrite s) (mOlaRead s) (mOlaMask s) (mAvail s)
     (mPushed s) (mPopped s) (mHops s).

Definition set_history (s : t) (hist : list float) : t :=
  mk (mWin s) (mHopBuf s) (mHopFill s) hist (mFFTIn s) (mFFTOut s)
     (mTime512 s) (mTimeWin s) (mOlaBuf s) (mNormBuf s)
     (mOlaWrite s) (mOlaRead s) (mOlaMask s) (mAvail s)
     (mPushed s) (mPopped s) (mHops s).

Definition set_scratch (s : t) (fftIn fftOut : list complex)
    (time512 timeWin : list float) : t :=
  mk (mWin s) (mHopBuf s) (mHopFill s) (mHist384 s) fftIn fftOut
     time512 timeWin (mOlaBuf s) (mNormBuf s)
     (mOlaWrite s) (mOlaRead s) (mOlaMask s) (mAvail s)
     (mPushed s) (mPopped s) (mHops s).

Definition set_rings (s : t) (olaBuf normBuf : list float) : t :=
  mk (mWin s) (mHopBuf s) (mHopFill s) (mHist384 s) (mFFTIn s) (mFFTOut s)
     (mTime512 s) (mTimeWin s) olaBuf normBuf
     (mOlaWrite s) (mOlaRead s) (mOlaMask s) (mAvail s)
     (mPushed s) (mPopped s) (mHops s).

Definition set_cursors (s : t) (olaWrite olaRead avail : Z) : t :=
  mk (mWin s) (mHopBuf s) (mHopFill s) (mHist384 s) (mFFTIn s) (mFFTOut s)
     (mTime512 s) (mTimeWin s) (mOlaBuf s) (mNormBuf s)
     olaWrite olaRead (mOlaMask s) avail
     (mPushed s) (mPopped s) (mHops s).

Definition set_counters (s : t) (pushed popped hops : Z) : t :=
  mk (mWin s) (mHopBuf s) (mHopFill s) (mHist384 s) (mFFTIn s) (mFFTOut s)
     (mTime512 s) (mTimeWin s) (mOlaBuf s) (mNormBuf s)
     (mOlaWrite s) (mOlaRead s) (mOlaMask s) (mAvail s)
     pushed popped hops.

(** [mAvail += kHOP; mHops += 1;] *)
Definition count_hop (s : t) : t :=
  set_counters (set_cursors s (mOlaWrite s) (mOlaRead s)
                            (u64 (mAvail s + kHOP)))
               (mPushed s) (mPopped s) (u64 (mHops s + 1)).

(** [mPushed += static_cast<uint64_t>(frames);] *)
Definition count_pushed (s : t) (frames : Z) : t :=
  set_counters s (u64 (mPushed s + u64 frames)) (mPopped s) (mHops s).

(** [mOlaRead = (mOlaRead + want) & mOlaMask; mAvail -= want;
    mPopped += static_cast<uint64_t>(want);] *)
Definition count_popped (s : t) (want : Z) : t :=
  set_counters
    (set_cursors s (mOlaWrite s)
                 (Z.land (u64 (mOlaRead s + u64 want)) (mOlaMask s))
                 (u64 (mAvail s - u64 want)))
    (mPushed s) (u64 (mPopped s + u64 want)) (mHops s).

(** [mOlaWrite = (mOlaWrite + kHOP) & mOlaMask;] *)
Definition advance_write (s : t) : t :=
  set_cursors s (Z.land (u64 (mOlaWrite s + kHOP)) (mOlaMask s))
              (mOlaRead s) (mAvail s).

Definition framesPushed (s : t) : Z := mPushed s.
Definition framesPopped (s : t) : Z := mPopped s.
Definition hopsProcessed (s : t) : Z := mHops s.

Section WithLibm.

(** [std::cos] and [std::sin] on [float]: the C library's, not part of the
    repository. *)
Variables cosf sinf : float -> float.

Definition hann512 (n N : Z) : float :=
  mul half
      (sub one (cosf (div (mul (mul two pi) (of_Z n)) (of_Z (i32 (N - 1)))))).

Definition new : t :=
  let cap := 2 ^ 15 in
  {| mWin := for_loop (Z.to_nat kNFFT) 0
                      (fun i w => vset w i (hann512 i kNFFT))
                      (repeat zero (Z.to_nat kNFFT));
     mHopBuf := repeat zero (Z.to_nat kHOP);
     mHopFill := 0;
     mHist384 := repeat zero 384;
     mFFTIn := repeat czero (Z.to_nat kNFFT);
     mFFTOut := repeat czero (Z.to_nat kNFFT);
     mTime512 := repeat zero (Z.to_nat kNFFT);
     mTimeWin := repeat zero (Z.to_nat kNFFT);
     mOlaBuf := repeat zero (Z.to_nat cap);
     mNormBuf := repeat zero (Z.to_nat cap);
     mOlaWrite := 0;
     mOlaRead := 0;
     mOlaMask := cap - 1;
     mAvail := 0;
     mPushed := 0;
     mPopped := 0;
     mHops := 0 |}.

(** *** FFT *)

(** [for (; j & bit; bit >>= 1) j ^= bit;] *)
Fixpoint bitrev_carry (fuel : nat) (j bit : Z) : Z * Z :=
  match fuel with
  | O => (j, bit)
  | S fuel' =>
      if Z.land j bit =? 0 then (j, bit)
      else bitrev_carry fuel' (Z.lxor j bit) (Z.shiftr bit 1)
  end.

Definition bitrev_body (n : Z) (i : Z) (st : Z * list complex)
  : Z * list complex :=
  let '(j, a) := st in
  let '(j, bit) := bitrev_carry 64 j (Z.shiftr n 1) in
  let j := Z.lxor j bit in
  (j, if i <? j
      then vset (vset a i (vget czero a j)) j (vget czero a i)
      else a).

Definition butterfly (i half : Z) (wlen : complex) (k : Z)
    (st : complex * list complex) : complex * list complex :=
  let '(w, a) := st in
  let u := vget czero a (i + k) in
  let v := cmul (vget czero a (i + k + half)) w in
  let a := vset a (i + k) (cadd u v) in
  let a := vset a (i + k + half) (csub u v) in
  (cmul w wlen, a).

(** The block loop [for (i = 0; i < n; i += len)], [m] blocks left. *)
Fixpoint fft_blocks (m : nat) (i len : Z) (wlen : complex) (a : list complex)
  : list complex :=
  match m with
  | O => a
  | S m' =>
      let half := Z.shiftr len 1 in
      let a := snd (for_loop (Z.to_nat half) 0 (butterfly i half wlen)
                             ((one, zero), a)) in
      fft_blocks m' (i + len) len wlen a
  end.

(** The stage loop [for (len = ...; len <= n; len <<= 1)]. *)
Fixpoint fft_stages (fuel : nat) (n len : Z) (inverse : bool)
    (a : list complex) : list complex :=
  match fuel with
  | O => a
  | S fuel' =>
      if len <=? n then
        let ang := div (mul (if inverse then two else of_Z (-2)) pi)
                       (of_Z len) in
        let wlen := (cosf ang, sinf ang) in
        let a := fft_blocks (Z.to_nat ((n + len - 1) / len)) 0 len wlen a in
        fft_stages fuel' n (u64 (Z.shiftl len 1)) inverse a
      else a
  end.

Definition fft (a : list complex) (inverse : bool) : list complex :=
  let n := Z.of_nat (length a) in
  let a := snd (for_loop (Z.to_nat (n - 1)) 1 (bitrev_body n) (0, a)) in
  let a := fft_stages 64 n 2 inverse a in
  if inverse
  then let invN := div one (of_Z n) in map (fun z => cscale z invN) a
  else a.

(** *** Overlap-add *)

Definition olaAdd_body (block512 : list float) (i : Z) (s : t) : t :=
  let idx := Z.land (u64 (mOlaWrite s + u64 i)) (mOlaMask s) in
  let w := vget zero (mWin s) i in
  set_rings s
    (vset (mOlaBuf s) idx
          (add (vget zero (mOlaBuf s) idx) (vget zero block512 i)))
    (vset (mNormBuf s) idx (add (vget zero (mNormBuf s) idx) (mul w w))).

Definition olaAdd (s : t) (block512 : list float) : t :=
  advance_write (for_loop (Z.to_nat kNFFT) 0 (olaAdd_body block512) s).

Definition processOneHop (s : t) : t :=
  let time512 := map (fun _ => zero) (mTime512 s) in
  let time512 := vcopy time512 32 (firstn 384 (mHist384 s)) in
  let time512 :=
    vcopy time512 (32 + 384) (firstn (Z.to_nat kHOP) (mHopBuf s)) in
  let timeWin :=
    for_loop (Z.to_nat kNFFT) 0
      (fun i tw => vset tw i (mul (vget zero time512 i)
                                  (vget zero (mWin s) i)))
      (mTimeWin s) in
  let fftIn :=
    for_loop (Z.to_nat kNFFT) 0
      (fun i fi => vset fi i (vget zero timeWin i, zero)) (mFFTIn s) in
  let fftOut := fft fftIn false in
  let y := fft fftOut true in
  let timeWin :=
    for_loop (Z.to_nat kNFFT) 0
      (fun i tw => vset tw i (mul (fst (vget czero y i))
                                  (vget zero (mWin s) i)))
      timeWin in
  count_hop (olaAdd (set_scratch s fftIn fftOut time512 timeWin) timeWin).

(** *** pushTimeDomain *)

(** [std::copy_n (src + soff, n, dst + doff)]; nothing for [n <= 0]. *)
Definition copy_n (src : list float) (soff n : Z) (dst : list float)
    (doff : Z) : option (list float) :=
  if n <=? 0 then Some dst else memcpy dst doff src soff n.

(** After a hop: [mHopFill = 0], the history drops its first [kHOP] samples
    and takes the hop at its end. *)
Definition roll_history (s : t) : t :=
  let hist := vcopy (mHist384 s) 0 (skipn (Z.to_nat kHOP) (mHist384 s)) in
  let hist := vcopy hist (384 - kHOP) (firstn (Z.to_nat kHOP) (mHopBuf s)) in
  set_history (set_hop s (mHopBuf s) 0) hist.

Definition push_body (s : t) (mono16 : list float) (frames idx : Z)
  : option (t * Z) :=
  let need := i32 (kHOP - mHopFill s) in
  let take := Z.min need (i32 (frames - idx)) in
  match copy_n mono16 idx take (mHopBuf s) (mHopFill s) with
  | None => None
  | Some hb =>
      let s := set_hop s hb (i32 (mHopFill s + take)) in
      let idx := i32 (idx + take) in
      Some (if mHopFill s =? kHOP then roll_history (processOneHop s) else s,
            idx)
  end.

(** [while (idx < frames) ...]; without a result when the fuel runs out. *)
Fixpoint push_loop (fuel : nat) (s : t) (mono16 : list float)
    (frames idx : Z) : option t :=
  if idx <? frames then
    match fuel with
    | O => None
    | S fuel' =>
        match push_body s mono16 frames idx with
        | None => None
        | Some (s', idx') => push_loop fuel' s' mono16 frames idx'
        end
    end
  else Some s.

Definition pushTimeDomain (s : t) (mono16 : list float) (frames : Z)
  : option t :=
  push_loop (Z.to_nat frames) (count_pushed s frames) mono16 frames 0.

(** *** popTimeDomain *)

(** The sample emitted for accumulated value [o] and accumulated squared
    window [n]: [(n > kEps) ? (o / n) : 0.0f]. *)
Definition normalized (o n : float) : float :=
  if gt n kEps then div o n else zero.

Definition pop_body (i : Z) (st : option (t * list float))
  : option (t * list float) :=
  match st with
  | None => None
  | Some (s, out16) =>
      let idx := Z.land (u64 (mOlaRead s + u64 i)) (mOlaMask s) in
      let n := vget zero (mNormBuf s) idx in
      match store out16 i (normalized (vget zero (mOlaBuf s) idx) n) with
      | None => None
      | Some out16 =>
          Some (set_rings s (vset (mOlaBuf s) idx zero)
                          (vset (mNormBuf s) idx zero),
                out16)
      end
  end.

Definition popTimeDomain (s : t) (out16 : list float) (maxFrames : Z)
  : option (t * list float * Z) :=
  let want := Z.min maxFrames (i32 (mAvail s)) in
  match for_loop (Z.to_nat want) 0 pop_body (Some (s, out16)) with
  | None => None
  | Some (s, out16) => Some (count_popped s want, out16, want)
  end.

(** *** Sequences of calls *)

Inductive call : Type :=
| Push (mono16 : list float) (frames : Z)
| Pop (out16 : list float) (maxFrames : Z).

Definition step (s : t) (c : call) : option t :=
  match c with
  | Push mono16 frames => pushTimeDomain s mono16 frames
  | Pop out16 maxFrames =>
      match popTimeDomain s out16 maxFrames with
      | Some (s', _, _) => Some s'
      | None => None
      end
  end.

Fixpoint run (s : t) (calls : list call) : option t :=
  match calls with
  | [] => Some s
  | c :: calls' =>
      match step s c with
      | Some s' => run s' calls'
      | None => None
      end
  end.

End WithLibm.

(** Cumulative number of samples pushed by a sequence of calls. *)
Fixpoint pushed_total (calls : list call) : Z :=
  match calls with
  | [] => 0
  | Push _ frames :: calls' => frames + pushed_total calls'
  | Pop _ _ :: calls' => pushed_total calls'
  end.

(** Samples taken and samples given after [calls], from [P] taken and [Q]
    given: a pop gives what is asked, up to what the completed hops have
    made available. *)
Fixpoint tally (P Q : Z) (calls : list call) : Z * Z :=
  match calls with
  | [] => (P, Q)
  | Push _ frames :: calls' => tally (P + frames) Q calls'
  | Pop _ maxFrames :: calls' =>
      tally P (Q + Z.min maxFrames (kHOP * (P / kHOP) - Q)) calls'
  end.

(** Calls within the limits of their types: a count is non-negative and
    no more than the buffer passed with it, at most [INT32_MAX] samples wait
    at a [popTimeDomain] (the cast of [mAvail] to [int]), and fewer than
    [2 ^ 63] samples are pushed in all. *)
Fixpoint in_limits (P Q : Z) (calls : list call) : Prop :=
  match calls with
  | [] => True
  | Push mono16 frames :: calls' =>
      0 <= frames <= Z.of_nat (length mono16) /\ frames <= INT32_MAX /\
      P + frames < 2 ^ 63 /\
      in_limits (P + frames) Q calls'
  | Pop out16 maxFrames :: calls' =>
      0 <= maxFrames <= Z.of_nat (length out16) /\
      kHOP * (P / kHOP) - Q <= INT32_MAX /\
      in_limits P (Q + Z.min maxFrames (kHOP * (P / kHOP) - Q)) calls'
  end.

(** The members that the loops over the rings and scratch buffers leave
    alone. *)
Definition meta (s : t) : list float * Z * (Z * Z * Z) * (Z * Z * Z * Z) :=
  (mHopBuf s, mHopFill s, (mOlaWrite s, mOlaRead s, mOlaMask s),
   (mAvail s, mPushed s, mPopped s, mHops s)).

(** Counters of a state that has taken [P] samples and given [Q]. *)
Definition counts (s : t) (P Q : Z) : Prop :=
  mPushed s = P /\ mPopped s = Q /\
  mHopFill s = P mod kHOP /\ mHops s = P / kHOP /\
  mAvail s = kHOP * (P / kHOP) - Q /\
  0 <= Q <= kHOP * (P / kHOP) /\ 0 <= P < 2 ^ 63 /\
  length (mHopBuf s) = Z.to_nat kHOP.

(** State of the loop of [pushTimeDomain] when [idx] of the [frames]
    samples are taken, from [P0] taken before the call. *)
Definition push_inv (frames P0 Q : Z) (s : t) (idx : Z) : Prop :=
  mPushed s = P0 + frames /\ mPopped s = Q /\
  mHopFill s = (P0 + idx) mod kHOP /\ mHops s = (P0 + idx) / kHOP /\
  mAvail s = kHOP * ((P0 + idx) / kHOP) - Q /\
  length (mHopBuf s) = Z.to_nat kHOP.

(** Geometry of the overlap-add ring. *)
Definition ring_ok (s : t) : Prop :=
  mOlaMask s = 2 ^ 15 - 1 /\
  Z.of_nat (length (mOlaBuf s)) = 2 ^ 15 /\
  Z.of_nat (length (mNormBuf s)) = 2 ^ 15 /\
  0 <= mOlaRead s < 2 ^ 15.

(** Sizes and mask of the overlap-add ring. *)
Definition rings (s : t) : nat * nat * Z :=
  (length (mOlaBuf s), length (mNormBuf s), mOlaMask s).

(** Ring index of the [i]-th sample to pop: [(mOlaRead + i) & mOlaMask]. *)
Definition read_slot (s : t) (i : Z) : Z :=
  Z.land (u64 (mOlaRead s + u64 i)) (mOlaMask s).

End StftProcessor.

(** ** A model of [cosf] and [sinf] *)

Module Libm.

Import F32.

(** The argument in fixed point, 64 fractional bits. *)
Definition fixed_of (x : float) : option Z :=
  match x with
  | S754_zero _ => Some 0
  | S754_finite s m e => Some (cond_Zopp s (Z.shiftl (Z.pos m) (e + 64)))
  | _ => None
  end.

(** [n] more terms of an alternating Taylor series: the term after [term]
    is [- term * x^2 / ((k + 1) * (k + 2))]. *)
Fixpoint series (n : nat) (k : Z) (term x2 acc : Z) : Z :=
  match n with
  | O => acc
  | S n' =>
      let term' := - (Z.shiftr (term * x2) 128 / ((k + 1) * (k + 2))) in
      series n' (k + 2) term' x2 (acc + term)
  end.

(** Cosine and sine by their Taylor polynomials of 32 terms, evaluated in
    fixed point and rounded to binary32; NaN for an infinite or NaN
    argument. Accurate for the arguments of the program, which lie in
    [[-2 pi, 2 pi]]. *)
Definition cosf (x : float) : float :=
  match fixed_of x with
  | None => S754_nan
  | Some X => of_scaled (series 32 0 (2 ^ 64) (X * X) 0) (-64)
  end.

Definition sinf (x : float) : float :=
  match x with
  | S754_zero _ => x
  | _ =>
      match fixed_of x with
      | None => S754_nan
      | Some X => of_scaled (series 32 1 X (X * X) 0) (-64)
      end
  end.

End Libm.

(** ** FullDuplexEngine.cpp: [pullTo] *)

Module FullDuplexEngine.

Import F32.

(** The members that [pullTo] uses, and the channel count that the output
    stream reports ([mOut->getChannelCount ()]). *)
Record t : Type := mk {
  mOutRing : @RingBuffer.t float;
  outChannelCount : Z;
  mUnderflows : Z;
  mStartTime : Z
}.

(** [std::chrono::milliseconds (300)] in the nanoseconds of the clock. *)
Definition warmup_ns : Z := 300 * 1000000.

(** [mOutRing.readInterleaved (out + off, frames)]. *)
Definition read_at (rb : @RingBuffer.t float) (out : list float) (off : Z)
    (frames : Z) : option (@RingBuffer.t float * list float * Z) :=
  if (0 <=? off) && (off <=? Z.of_nat (length out)) then
    match RingBuffer.readInterleaved rb (skipn (Z.to_nat off) out) frames with
    | Some (rb', d, got) => Some (rb', firstn (Z.to_nat off) out ++ d, got)
    | None => None
    end
  else None.

(** [std::memset (out + off, 0, n * sizeof (float))]. *)
Definition memset0 (out : list float) (off n : Z) : option (list float) :=
  if (0 <=? off) && (0 <=? n) && (off + n <=? Z.of_nat (length out))
  then Some (firstn (Z.to_nat off) out ++ repeat zero (Z.to_nat n)
             ++ skipn (Z.to_nat (off + n)) out)
  else None.

(** [while (total < numFrames) ...]; without a result when the fuel runs
    out. *)
Fixpoint pull_loop (fuel : nat) (rb : @RingBuffer.t float) (ch : Z)
    (out : list float) (numFrames total : Z)
  : option (@RingBuffer.t float * list float * Z) :=
  if total <? numFrames then
    match fuel with
    | O => None
    | S fuel' =>
        match read_at rb out (u64 (u64 total * u64 ch))
                      (i32 (numFrames - total)) with
        | None => None
        | Some (rb', out', got) =>
            if got <=? 0 then Some (rb', out', total)
            else pull_loop fuel' rb' ch out' numFrames (i32 (total + got))
        end
    end
  else Some (rb, out, total).

(** [now] is the reading of [std::chrono::steady_clock] in the call, in
    nanoseconds. *)
Definition pullTo (e : t) (out : list float) (numFrames : Z) (now : Z)
  : option (t * list float * Z) :=
  let ch := outChannelCount e in
  match pull_loop (Z.to_nat numFrames) (mOutRing e) ch out numFrames 0 with
  | None => None
  | Some (rb, out, total) =>
      if total <? numFrames then
        match memset0 out (u64 (u64 total * u64 ch))
                      (u64 (u64 (u64 (i32 (numFrames - total)) * u64 ch) * 4)
                       / 4) with
        | None => None
        | Some out =>
            let warming := i64 (now - mStartTime e) <? warmup_ns in
            Some (mk rb ch
                     (if negb warming
                      then i64 (mUnderflows e + i32 (numFrames - total))
                      else mUnderflows e)
                     (mStartTime e),
                  out, numFrames)
        end
      else Some (mk rb ch (mUnderflows e) (mStartTime e), out, numFrames)
  end.

End FullDuplexEngine.

(** ** RingBuffer: the frames that wait, and sequences of calls *)

Module RingQueue.
Section Queue.
Context {A : Type}.

(** The frames that wait in the ring, oldest first, as interleaved samples:
    [availableToRead ()] frames of the storage from the slot of the read
    counter on, continued at the start of the storage. *)
Definition contents (rb : @RingBuffer.t A) : list A :=
  let ch := RingBuffer.mChannels rb in
  firstn (Z.to_nat (RingBuffer.availableToRead rb * ch))
         (skipn (Z.to_nat (RingBuffer.slot rb (RingBuffer.mRead rb) * ch))
                (RingBuffer.mData rb ++ RingBuffer.mData rb)).

End Queue.
End RingQueue.

Module RingOps.
Section Ops.
Context {A : Type}.

(** A call of the producer or of the consumer, with the buffer it passes. *)
Inductive op : Type :=
| Write (src : list A) (frames : Z)
| Read (dst : list A) (frames : Z).

Definition step (rb : @RingBuffer.t A) (o : op) : option (@RingBuffer.t A) :=
  match o with
  | Write src frames =>
      match RingBuffer.writeInterleaved rb src frames with
      | Some (rb', _) => Some rb'
      | None => None
      end
  | Read dst frames =>
      match RingBuffer.readInterleaved rb dst frames with
      | Some (rb', _, _) => Some rb'
      | None => None
      end
  end.

Fixpoint run (rb : @RingBuffer.t A) (ops : list op)
  : option (@RingBuffer.t A) :=
  match ops with
  | [] => Some rb
  | o :: ops' =>
      match step rb o with
      | Some rb' => run rb' ops'
      | None => None
      end
  end.

(** The buffer passed with a call holds the frames the call asks for. *)
Definition fits (ch : Z) (o : op) : Prop :=
  match o with
  | Write src frames => frames * ch <= Z.of_nat (length src)
  | Read dst frames => frames * ch <= Z.of_nat (length dst)
  end.

(** A bounded queue of [cap] frames of [ch] samples: a write appends the
    frames that fit, a read removes the frames that are there. *)
Definition queue_step (cap ch : Z) (q : list A) (o : op) : list A :=
  let held := Z.of_nat (length q) / ch in
  match o with
  | Write src frames =>
      q ++ firstn (Z.to_nat (Z.max 0 (Z.min frames (cap - held)) * ch)) src
  | Read _ frames =>
      skipn (Z.to_nat (Z.max 0 (Z.min frames held) * ch)) q
  end.

End Ops.
End RingOps.

(** ** FullDuplexEngine.cpp: [deinterleaveStereo], [interleaveStereo] *)

Module Stereo.
Section Helpers.
Context {A : Type}.

(** [L[i] = *p++; R[i] = *p++;] with [p] at offset [p] of [inter]. *)
Definition deinterleave_body (inter : list A) (i p : Z)
    (L R : list A) : option (list A * list A) :=
  match load inter p with
  | None => None
  | Some x =>
      match store L i x with
      | None => None
      | Some L' =>
          match load inter (p + 1) with
          | None => None
          | Some y =>
              match store R i y with
              | None => None
              | Some R' => Some (L', R')
              end
          end
      end
  end.

Fixpoint deinterleave_loop (n : nat) (inter : list A) (i p : Z)
    (L R : list A) : option (list A * list A) :=
  match n with
  | O => Some (L, R)
  | S n' =>
      match deinterleave_body inter i p L R with
      | Some (L', R') =>
          deinterleave_loop n' inter (i32 (i + 1)) (p + 2) L' R'
      | None => None
      end
  end.

Definition deinterleaveStereo (inter : list A) (frames : Z) (L R : list A)
  : option (list A * list A) :=
  deinterleave_loop (Z.to_nat frames) inter 0 0 L R.

(** [*p++ = L[i]; *p++ = R[i];] *)
Definition interleave_body (L R : list A) (i p : Z) (inter : list A)
  : option (list A) :=
  match load L i with
  | None => None
  | Some x =>
      match store inter p x with
      | None => None
      | Some inter' =>
          match load R i with
          | None => None
          | Some y => store inter' (p + 1) y
          end
      end
  end.

Fixpoint interleave_loop (n : nat) (L R : list A) (i p : Z) (inter : list A)
  : option (list A) :=
  match n with
  | O => Some inter
  | S n' =>
      match interleave_body L R i p inter with
      | Some inter' => interleave_loop n' L R (i32 (i + 1)) (p + 2) inter'
      | None => None
      end
  end.

Definition interleaveStereo (L R : list A) (frames : Z) (inter : list A)
  : option (list A) :=
  interleave_loop (Z.to_nat frames) L R 0 0 inter.

End Helpers.
End Stereo.

(** ** FullDuplexEngine.cpp: priming of the output ring in [start] *)

Module EngineStart.
Import F32.

Definition kPrimeBursts : Z := 20.

(** [for (i = ...; i < kPrimeBursts; ++i)
      (void) mOutRing.writeInterleaved (zeros.data (), fpb);]
    with [n] bursts left. *)
Fixpoint prime_loop (n : nat) (rb : @RingBuffer.t float)
    (zeros : list float) (fpb : Z) : option (@RingBuffer.t float) :=
  match n with
  | O => Some rb
  | S n' =>
      match RingBuffer.writeInterleaved rb zeros fpb with
      | Some (rb', _) => prime_loop n' rb' zeros fpb
      | None => None
      end
  end.

(** The priming block of [start ()]: a vector of
    [static_cast<size_t> (fpb) * ch] zeros, written [kPrimeBursts] times to
    the output ring; the results of the writes are dropped. *)
Definition prime (rb : @RingBuffer.t float) (fpb ch : Z)
  : option (@RingBuffer.t float) :=
  let zeros := repeat zero (Z.to_nat (u64 (u64 fpb * u64 ch))) in
  prime_loop (Z.to_nat kPrimeBursts) rb zeros fpb.

End EngineStart.

(** ** StftProcessor: views of the state *)

Module StftViews.
Import F32 StftProcessor.

(** The window, the history and the scratch buffers. *)
Definition statics (s : t)
  : list float * list float * list float * list float
    * list complex * list complex :=
  (mWin s, mHist384 s, mTime512 s, mTimeWin s, mFFTIn s, mFFTOut s).

(** The sizes that the constructor gives to the member vectors. *)
Definition sizes (s : t) : Prop :=
  Z.of_nat (length (mWin s)) = kNFFT /\
  Z.of_nat (length (mHopBuf s)) = kHOP /\
  Z.of_nat (length (mHist384 s)) = 384 /\
  Z.of_nat (length (mFFTIn s)) = kNFFT /\
  Z.of_nat (length (mFFTOut s)) = kNFFT /\
  Z.of_nat (length (mTime512 s)) = kNFFT /\
  Z.of_nat (length (mTimeWin s)) = kNFFT /\
  Z.of_nat (length (mOlaBuf s)) = 2 ^ 15 /\
  Z.of_nat (length (mNormBuf s)) = 2 ^ 15.

(** The cursors of the overlap-add ring follow the counters. *)
Definition cursors (s : t) : Prop :=
  mOlaMask s = 2 ^ 15 - 1 /\
  mOlaWrite s = (kHOP * mHops s) mod 2 ^ 15 /\
  mOlaRead s = mPopped s mod 2 ^ 15.

End StftViews.

Module StftHop.
Import F32 StftProcessor.

(** The hop buffer has its size and is not full. *)
Definition hop_ready (s : t) : Prop :=
  length (mHopBuf s) = Z.to_nat kHOP /\ 0 <= mHopFill s < kHOP.

(** [mPushed = p]. *)
Definition set_pushed (p : Z) (s : t) : t :=
  set_counters s p (mPopped s) (mHops s).

End StftHop.

(** ** binary32: magnitudes *)

Module Magnitude.
Import F32.

(** [x] is zero, or a canonical finite number of magnitude at most
    [2 ^ K]. *)
Definition bnd (K : Z) (x : float) : bool :=
  match x with
  | S754_zero _ => true
  | S754_finite _ m e => bounded prec emax m e && (Z.pos m <=? 2 ^ (K - e))
  | _ => false
  end.

End Magnitude.

(** ** StftProcessor: bounded samples, bounded rings *)

Module StftBounds.
Import F32 Magnitude StftProcessor.

Definition cbnd (K : Z) (z : complex) : bool :=
  bnd K (fst z) && bnd K (snd z).

(** Every entry of a vector has magnitude at most [2 ^ K]. *)
Definition fbounded (K : Z) (v : list float) : Prop :=
  forall i, bnd K (vget zero v i) = true.
Definition cbounded (K : Z) (v : list complex) : Prop :=
  forall i, cbnd K (vget czero v i) = true.

(** The twiddle factors [w, w * wlen, w * wlen^2, ...] that the inner loop
    of [fft] goes through in [n] rounds have parts of magnitude at most 2. *)
Fixpoint twiddles_bounded (n : nat) (w wlen : complex) : bool :=
  match n with
  | O => true
  | S n' => cbnd 1 w && twiddles_bounded n' (cmul w wlen) wlen
  end.

Section WithLibm.
Variables cosf sinf : float -> float.

(** [wlen] of the stage [len] of [fft]. *)
Definition wlen_of (inverse : bool) (len : Z) : complex :=
  let ang := div (mul (if inverse then two else of_Z (-2)) pi) (of_Z len) in
  (cosf ang, sinf ang).

Definition stage_ok (inverse : bool) (len : Z) : bool :=
  twiddles_bounded (Z.to_nat (Z.shiftr len 1)) (one, zero)
                   (wlen_of inverse len).

Definition stages_ok (inverse : bool) : Prop :=
  forall len, In len [2; 4; 8; 16; 32; 64; 128; 256; 512] ->
              stage_ok inverse len = true.

(** What the processor needs of the C library: the 512 values of the window
    and the twiddle factors of the nine stages of both transforms, as this
    [cosf] and [sinf] give them, are finite and of magnitude at most 2 (the
    exact values have magnitude at most 1). *)
Definition libm_ok : bool :=
  forallb (bnd 1) (mWin (new cosf)) &&
  forallb (fun len => stage_ok false len && stage_ok true len)
          [2; 4; 8; 16; 32; 64; 128; 256; 512].

End WithLibm.

(** A sample in range: finite and of magnitude at most [2 ^ 16], which
    contains the nominal range [-1, +1] of a sample. *)
Definition sample_ok (x : float) : bool := bnd 16 x.

Fixpoint samples_ok (calls : list call) : Prop :=
  match calls with
  | [] => True
  | Push mono16 _ :: calls' =>
      forallb sample_ok mono16 = true /\ samples_ok calls'
  | Pop _ _ :: calls' => samples_ok calls'
  end.

(** The consumer drains within [C - N] samples of the producer: after
    every [pushTimeDomain] at most [2 ^ 15 - kNFFT] samples wait. *)
Fixpoint never_overrun (P Q : Z) (calls : list call) : Prop :=
  match calls with
  | [] => True
  | Push _ frames :: calls' =>
      kHOP * ((P + frames) / kHOP) - Q <= 2 ^ 15 - kNFFT /\
      never_overrun (P + frames) Q calls'
  | Pop _ maxFrames :: calls' =>
      never_overrun P (Q + Z.min maxFrames (kHOP * (P / kHOP) - Q)) calls'
  end.

(** Number of additions that a ring slot at distance [d] after the write
    cursor can have received, with [avail] samples waiting before the
    cursor: the slots of the 416 samples of overlap ahead of the cursor are
    partial sums, the slots behind it that wait to be popped are complete,
    and the others are clear. *)
Definition level (d avail : Z) : Z :=
  if d <? 416 then 5 - d / 96
  else if d <? 2 ^ 15 - avail then 0 else 6.

Definition ring_levels (B N : Z) (s : t) : Prop :=
  forall j, 0 <= j < 2 ^ 15 ->
    let L := level ((j - mOlaWrite s) mod 2 ^ 15) (mAvail s) in
    bnd (B + L) (vget zero (mOlaBuf s) j) = true /\
    bnd (N + L) (vget zero (mNormBuf s) j) = true.

(** What the loop of [pushTimeDomain] keeps besides the counters. *)
Definition push_bounds (s : t) : Prop :=
  StftViews.sizes s /\ ring_ok s /\ fbounded 1 (mWin s) /\
  fbounded 16 (mHopBuf s) /\ fbounded 16 (mHist384 s) /\
  ring_levels 63 2 s.

(** What holds of the processor along a run on samples in range that never
    overruns the ring, after [P] samples taken and [Q] given: the counters,
    sizes and cursors are sound, the window, the staged hop and the history
    are bounded, and so are the two rings, slot by slot. *)
Definition bounded_state (s : t) (P Q : Z) : Prop :=
  counts s P Q /\ StftViews.sizes s /\ StftViews.cursors s /\ ring_ok s /\
  fbounded 1 (mWin s) /\ fbounded 16 (mHopBuf s) /\
  fbounded 16 (mHist384 s) /\
  ring_levels 63 2 s /\ mAvail s <= 2 ^ 15 - kNFFT.

End StftBounds.

(** * Properties *)

(** ** Machine integers *)

Lemma i32_id z : in_i32 z -> i32 z = z.
Proof.
  unfold in_i32, INT32_MAX, i32. intros H.
  rewrite Z.mod_small; lia.
Qed.

Lemma u64_id z : in_u64 z -> u64 z = z.
Proof. unfold in_u64, u64. intros H. now rewrite Z.mod_small. Qed.

Lemma u64_range z : in_u64 (u64 z).
Proof. unfold in_u64, u64. apply Z.mod_pos_bound. lia. Qed.

(** ** Smearing the top bit: the cascade of [nextPow2] *)

Lemma lor_shiftr_fill x k m s :
  0 <= m -> 0 < s <= m + 1 ->
  (forall i, k < i -> Z.testbit x i = false) ->
  (forall i, 0 <= i -> k - m <= i <= k -> Z.testbit x i = true) ->
  (forall i, k < i -> Z.testbit (Z.lor x (Z.shiftr x s)) i = false) /\
  (forall i, 0 <= i -> k - (m + s) <= i <= k ->
             Z.testbit (Z.lor x (Z.shiftr x s)) i = true).
Proof.
  intros Hm Hs Hhi Hlo. split.
  - intros i Hi. rewrite Z.lor_spec.
    destruct (Z_lt_le_dec i 0) as [Hn | Hp].
    + now rewrite !Z.testbit_neg_r.
    + rewrite Z.shiftr_spec by lia.
      rewrite Hhi by lia. rewrite Hhi by lia. reflexivity.
  - intros i Hi0 Hi. rewrite Z.lor_spec, Z.shiftr_spec by lia.
    destruct (Z_le_gt_dec (k - m) i) as [Hin | Hout].
    + rewrite Hlo by lia. reflexivity.
    + rewrite (Hlo (i + s)) by lia. apply orb_true_r.
Qed.

Lemma smear_ones x :
  0 < x < 2 ^ 31 -> RingBuffer.smear x = 2 ^ (Z.log2 x + 1) - 1.
Proof.
  intros Hx.
  assert (Hk : 0 <= Z.log2 x < 31).
  { split; [apply Z.log2_nonneg|].
    apply (proj1 (Z.log2_lt_pow2 x 31 ltac:(lia))). lia. }
  set (k := Z.log2 x) in *.
  assert (H0 : (forall i, k < i -> Z.testbit x i = false) /\
               (forall i, 0 <= i -> k - 0 <= i <= k -> Z.testbit x i = true)).
  { split.
    - intros i Hi. apply Z.bits_above_log2; lia.
    - intros i _ Hi. replace i with k by lia. apply Z.bit_log2. lia. }
  destruct H0 as [Hh0 Hl0].
  destruct (lor_shiftr_fill x k 0 1 ltac:(lia) ltac:(lia) Hh0 Hl0) as [Hh1 Hl1].
  destruct (lor_shiftr_fill _ k (0 + 1) 2 ltac:(lia) ltac:(lia) Hh1 Hl1) as [Hh2 Hl2].
  destruct (lor_shiftr_fill _ k (0 + 1 + 2) 4 ltac:(lia) ltac:(lia) Hh2 Hl2) as [Hh3 Hl3].
  destruct (lor_shiftr_fill _ k (0 + 1 + 2 + 4) 8 ltac:(lia) ltac:(lia) Hh3 Hl3) as [Hh4 Hl4].
  destruct (lor_shiftr_fill _ k (0 + 1 + 2 + 4 + 8) 16 ltac:(lia) ltac:(lia) Hh4 Hl4) as [Hh5 Hl5].
  replace (2 ^ (k + 1) - 1) with (Z.ones (k + 1))
    by (rewrite Z.ones_equiv; lia).
  apply Z.bits_inj'. intros i Hi. unfold RingBuffer.smear.
  destruct (Z_le_gt_dec i k) as [Hle | Hgt].
  - rewrite Hl5 by lia. symmetry. apply Z.ones_spec_low. lia.
  - rewrite Hh5 by lia. symmetry. apply Z.ones_spec_high. lia.
Qed.

Lemma nextPow2_unfold v :
  2 <= v <= INT32_MAX ->
  RingBuffer.nextPow2 v =
    let p := i32 (2 ^ (Z.log2 (v - 1) + 1)) in if p <? 2 then 2 else p.
Proof.
  unfold INT32_MAX. intros Hv. unfold RingBuffer.nextPow2.
  rewrite (i32_id (v - 1)) by (unfold in_i32, INT32_MAX; lia).
  rewrite smear_ones by lia.
  replace (2 ^ (Z.log2 (v - 1) + 1) - 1 + 1)
    with (2 ^ (Z.log2 (v - 1) + 1)) by lia.
  reflexivity.
Qed.

Lemma log2_pred_bounds v b :
  0 < b -> 2 <= v <= 2 ^ b -> 0 <= Z.log2 (v - 1) < b.
Proof.
  intros Hb Hv. split; [apply Z.log2_nonneg|].
  apply (proj1 (Z.log2_lt_pow2 (v - 1) b ltac:(lia))). lia.
Qed.

Lemma pow2_le_2_30 k : 0 <= k <= 30 -> 1 <= 2 ^ k <= 2 ^ 30.
Proof.
  intros Hk. split.
  - change 1 with (2 ^ 0). apply Z.pow_le_mono_r; lia.
  - apply Z.pow_le_mono_r; lia.
Qed.

(** In the range of [int32_t] the result is always a power of two between
    [2] and [2 ^ 30]. *)
Lemma nextPow2_pow2 v :
  1 <= v <= INT32_MAX ->
  exists k, 1 <= k <= 30 /\ RingBuffer.nextPow2 v = 2 ^ k.
Proof.
  intros Hv. destruct (Z.eq_dec v 1) as [-> | Hne].
  { exists 1. split; [lia | reflexivity]. }
  rewrite nextPow2_unfold by lia. cbv zeta.
  unfold INT32_MAX in Hv.
  destruct (log2_pred_bounds v 31 ltac:(lia) ltac:(lia)) as [Hk0 Hk1].
  set (k := Z.log2 (v - 1)) in *.
  destruct (Z.eq_dec k 30) as [-> | Hk].
  - exists 1. split; [lia | reflexivity].
  - exists (k + 1). split; [lia|].
    pose proof (pow2_le_2_30 (k + 1) ltac:(lia)) as Hp.
    assert (2 <= 2 ^ (k + 1)).
    { change 2 with (2 ^ 1) at 1. apply Z.pow_le_mono_r; lia. }
    rewrite i32_id by (unfold in_i32, INT32_MAX; lia).
    destruct (Z.ltb_spec (2 ^ (k + 1)) 2); [lia | reflexivity].
Qed.

(** Up to [2 ^ 30] the result is the least power of two that is at least
    [v] and at least [2]. *)
Lemma nextPow2_least v :
  1 <= v <= 2 ^ 30 ->
  exists k, 1 <= k <= 30 /\ RingBuffer.nextPow2 v = 2 ^ k /\ v <= 2 ^ k /\
            (forall j, 1 <= j -> v <= 2 ^ j -> 2 ^ k <= 2 ^ j).
Proof.
  intros Hv. destruct (Z.eq_dec v 1) as [-> | Hne].
  { exists 1. repeat split; try lia.
    intros j Hj _. apply Z.pow_le_mono_r; lia. }
  rewrite nextPow2_unfold by (unfold INT32_MAX; lia). cbv zeta.
  destruct (log2_pred_bounds v 30 ltac:(lia) ltac:(lia)) as [Hk0 Hk1].
  destruct (Z.log2_spec (v - 1) ltac:(lia)) as [Hlo Hhi].
  set (k := Z.log2 (v - 1)) in *.
  exists (k + 1).
  pose proof (pow2_le_2_30 (k + 1) ltac:(lia)) as Hp.
  assert (2 <= 2 ^ (k + 1)).
  { change 2 with (2 ^ 1) at 1. apply Z.pow_le_mono_r; lia. }
  rewrite i32_id by (unfold in_i32, INT32_MAX; lia).
  destruct (Z.ltb_spec (2 ^ (k + 1)) 2); [lia|].
  replace (Z.succ k) with (k + 1) in Hhi by lia.
  repeat split; try lia.
  intros j Hj Hvj.
  destruct (Z_le_gt_dec (k + 1) j) as [Hle | Hgt].
  - apply Z.pow_le_mono_r; lia.
  - assert (2 ^ j <= 2 ^ k) by (apply Z.pow_le_mono_r; lia). lia.
Qed.

(** ** RingBuffer: [init] *)

(** C9 (as amended). For every capacity between 1 and [2 ^ 30] and every
    positive channel count, [init] returns true and afterwards
    [availableToRead () = 0] and [availableToWrite ()] is the capacity
    rounded up to the next power of two (minimum 2); for a non-positive
    capacity or channel count, whatever the other argument is, [init]
    returns false and leaves the ring as it was. *)
Theorem init_postconditions {A : Type} (zero : A) (rb : RingBuffer.t)
    (capacityFrames channels : Z) :
  (1 <= capacityFrames <= 2 ^ 30 -> 1 <= channels ->
   exists rb',
     RingBuffer.init zero rb capacityFrames channels = (true, rb') /\
     RingBuffer.availableToRead rb' = 0 /\
     RingBuffer.is_next_pow2 capacityFrames (RingBuffer.availableToWrite rb'))
  /\
  (capacityFrames <= 0 \/ channels <= 0 ->
   RingBuffer.init zero rb capacityFrames channels = (false, rb)).
Proof.
  split.
  - intros Hc Hch. unfold RingBuffer.init.
    destruct (Z.leb_spec capacityFrames 0); [lia|].
    destruct (Z.leb_spec channels 0); [lia|]. cbn [orb].
    eexists. split; [reflexivity|].
    unfold RingBuffer.availableToWrite, RingBuffer.availableToRead.
    cbn [RingBuffer.mRead RingBuffer.mWrite RingBuffer.mCapacityFrames].
    split; [reflexivity|].
    change (i32 (u64 (0 - 0))) with 0.
    destruct (nextPow2_least capacityFrames ltac:(lia))
      as (k & Hk & Hp & Hle & Hmin).
    rewrite Hp, Z.sub_0_r.
    pose proof (pow2_le_2_30 k ltac:(lia)).
    rewrite i32_id by (unfold in_i32, INT32_MAX; lia).
    exists k. repeat split; try lia. exact Hmin.
  - intros Hneg. unfold RingBuffer.init.
    destruct Hneg as [Hneg | Hneg].
    + destruct (Z.leb_spec capacityFrames 0); [reflexivity | lia].
    + destruct (Z.leb_spec channels 0); [|lia].
      now rewrite orb_true_r.
Qed.

Lemma init_postconditions_witness :
  2 ^ 13 < 9600 <= 2 ^ 14 /\
  (exists rb',
     RingBuffer.init 0 RingBuffer.fresh 9600 2 = (true, rb') /\
     RingBuffer.availableToRead rb' = 0 /\
     RingBuffer.is_next_pow2 9600 (RingBuffer.availableToWrite rb')) /\
  RingBuffer.init 0 RingBuffer.fresh (2 ^ 30 + 1) 0
    = (false, RingBuffer.fresh).
Proof.
  split; [lia|]. split.
  - apply (proj1 (init_postconditions 0 RingBuffer.fresh 9600 2)); lia.
  - apply (proj2 (init_postconditions 0 RingBuffer.fresh (2 ^ 30 + 1) 0)).
    right. lia.
Defined.

(** C9, as stated, fails above [2 ^ 30]: the increment of [nextPow2] leaves
    the range of [int32_t] and the capacity becomes 2. *)
Lemma init_capacity_above_2_30 :
  ~ (exists rb',
       RingBuffer.init 0 RingBuffer.fresh (2 ^ 30 + 1) 1 = (true, rb') /\
       RingBuffer.availableToRead rb' = 0 /\
       RingBuffer.is_next_pow2 (2 ^ 30 + 1)
                               (RingBuffer.availableToWrite rb')).
Proof.
  intros (rb' & Hinit & _ & k & _ & _ & Hle & _).
  assert (Hw : RingBuffer.availableToWrite rb' = 2).
  { injection Hinit as <-. reflexivity. }
  rewrite Hw in Hle. lia.
Qed.

(** ** Buffers: what [memcpy] leaves in the destination *)

Section MemcpyFacts.
Context {A : Type}.
Implicit Types dst src : list A.

Lemma memcpy_ok dst doff src soff n :
  0 <= doff -> 0 <= soff -> 0 <= n ->
  soff + n <= Z.of_nat (length src) ->
  doff + n <= Z.of_nat (length dst) ->
  exists d', memcpy dst doff src soff n = Some d'.
Proof.
  intros H1 H2 H3 H4 H5. unfold memcpy.
  destruct (Z.leb_spec 0 doff); [|lia].
  destruct (Z.leb_spec 0 soff); [|lia].
  destruct (Z.leb_spec 0 n); [|lia].
  destruct (Z.leb_spec (soff + n) (Z.of_nat (length src))); [|lia].
  destruct (Z.leb_spec (doff + n) (Z.of_nat (length dst))); [|lia].
  cbn [andb]. eexists. reflexivity.
Qed.

Lemma memcpy_inv dst doff src soff n d' :
  memcpy dst doff src soff n = Some d' ->
  (0 <= doff /\ 0 <= soff /\ 0 <= n /\
   soff + n <= Z.of_nat (length src) /\
   doff + n <= Z.of_nat (length dst)) /\
  d' = firstn (Z.to_nat doff) dst
         ++ firstn (Z.to_nat n) (skipn (Z.to_nat soff) src)
         ++ skipn (Z.to_nat (doff + n)) dst.
Proof.
  unfold memcpy.
  destruct (Z.leb_spec 0 doff); [|discriminate].
  destruct (Z.leb_spec 0 soff); [|discriminate].
  destruct (Z.leb_spec 0 n); [|discriminate].
  destruct (Z.leb_spec (soff + n) (Z.of_nat (length src))); [|discriminate].
  destruct (Z.leb_spec (doff + n) (Z.of_nat (length dst))); [|discriminate].
  cbn [andb]. intros [= <-]. repeat split; assumption.
Qed.

Lemma memcpy_length dst doff src soff n d' :
  memcpy dst doff src soff n = Some d' -> length d' = length dst.
Proof.
  intros H. apply memcpy_inv in H. destruct H as [Hr ->].
  rewrite !length_app, !length_firstn, !length_skipn. lia.
Qed.

Lemma memcpy_nth_error dst doff src soff n d' (i : nat) :
  memcpy dst doff src soff n = Some d' ->
  nth_error d' i =
    if (doff <=? Z.of_nat i) && (Z.of_nat i <? doff + n)
    then nth_error src (Z.to_nat (soff + Z.of_nat i - doff))
    else nth_error dst i.
Proof.
  intros H. apply memcpy_inv in H. destruct H as [Hr ->].
  rewrite nth_error_app, length_firstn.
  replace (Nat.min (Z.to_nat doff) (length dst)) with (Z.to_nat doff) by lia.
  destruct (Nat.ltb_spec i (Z.to_nat doff)) as [Hlt | Hge].
  - destruct (Z.leb_spec doff (Z.of_nat i)); [lia|]. cbn [andb].
    rewrite nth_error_firstn.
    destruct (Nat.ltb_spec i (Z.to_nat doff)); [reflexivity | lia].
  - destruct (Z.leb_spec doff (Z.of_nat i)); [|lia]. cbn [andb].
    rewrite nth_error_app, length_firstn, length_skipn.
    replace (Nat.min (Z.to_nat n) (length src - Z.to_nat soff))
      with (Z.to_nat n) by lia.
    destruct (Nat.ltb_spec (i - Z.to_nat doff) (Z.to_nat n)) as [Hin | Hout].
    + destruct (Z.ltb_spec (Z.of_nat i) (doff + n)); [|lia].
      rewrite nth_error_firstn.
      destruct (Nat.ltb_spec (i - Z.to_nat doff) (Z.to_nat n)); [|lia].
      rewrite nth_error_skipn. f_equal. lia.
    + destruct (Z.ltb_spec (Z.of_nat i) (doff + n)); [lia|].
      rewrite nth_error_skipn. f_equal. lia.
Qed.

Lemma memcpy_zero dst doff src soff :
  0 <= doff <= Z.of_nat (length dst) ->
  0 <= soff <= Z.of_nat (length src) ->
  memcpy dst doff src soff 0 = Some dst.
Proof.
  intros Hd Hs.
  destruct (memcpy_ok dst doff src soff 0) as [d' Hd']; try lia.
  rewrite Hd'. f_equal. apply nth_error_ext. intros i.
  rewrite (memcpy_nth_error _ _ _ _ _ _ i Hd').
  destruct (Z.leb_spec doff (Z.of_nat i)); [|reflexivity].
  destruct (Z.ltb_spec (Z.of_nat i) (doff + 0)); [lia | reflexivity].
Qed.

(** A block written in two segments, the second wrapped to the start of
    the storage, is read back whole by the same two segments. *)
Lemma segments_roundtrip (data S dst : list A) (a b c : Z) :
  0 <= b -> 0 <= c <= a ->
  a + b <= Z.of_nat (length data) ->
  Z.of_nat (length S) = b + c ->
  b + c <= Z.of_nat (length dst) ->
  exists d1 d2 o1,
    memcpy data a S 0 b = Some d1 /\
    memcpy d1 0 S b c = Some d2 /\
    length d2 = length data /\
    memcpy dst 0 d2 a b = Some o1 /\
    memcpy o1 b d2 0 c = Some (S ++ skipn (length S) dst).
Proof.
  intros Hb Hc Hab HS Hdst.
  destruct (memcpy_ok data a S 0 b) as [d1 H1]; try lia.
  pose proof (memcpy_length _ _ _ _ _ _ H1) as L1.
  destruct (memcpy_ok d1 0 S b c) as [d2 H2]; try lia.
  pose proof (memcpy_length _ _ _ _ _ _ H2) as L2.
  destruct (memcpy_ok dst 0 d2 a b) as [o1 H3]; try lia.
  pose proof (memcpy_length _ _ _ _ _ _ H3) as L3.
  destruct (memcpy_ok o1 b d2 0 c) as [o2 H4]; try lia.
  exists d1, d2, o1. repeat split; try assumption; try congruence.
  rewrite H4. f_equal. apply nth_error_ext. intros i.
  rewrite (memcpy_nth_error _ _ _ _ _ _ i H4).
  rewrite nth_error_app.
  destruct (Nat.ltb_spec i (length S)) as [HiS | HiS].
  - destruct (Z.leb_spec b (Z.of_nat i)) as [Hbi | Hbi]; cbn [andb].
    + destruct (Z.ltb_spec (Z.of_nat i) (b + c)); [|lia].
      rewrite (memcpy_nth_error _ _ _ _ _ _ _ H2).
      destruct (Z.leb_spec 0 (Z.of_nat (Z.to_nat (0 + Z.of_nat i - b))));
        [|lia].
      destruct (Z.ltb_spec (Z.of_nat (Z.to_nat (0 + Z.of_nat i - b)))
                           (0 + c)); [|lia].
      cbn [andb]. f_equal. lia.
    + rewrite (memcpy_nth_error _ _ _ _ _ _ i H3).
      destruct (Z.leb_spec 0 (Z.of_nat i)); [|lia].
      destruct (Z.ltb_spec (Z.of_nat i) (0 + b)); [|lia]. cbn [andb].
      rewrite (memcpy_nth_error _ _ _ _ _ _ _ H2).
      match goal with |- context [?x <=? ?y] =>
        destruct (Z.leb_spec x y); [|lia] end.
      match goal with |- context [?x <? ?y] =>
        destruct (Z.ltb_spec x y); [lia|] end.
      cbn [andb].
      rewrite (memcpy_nth_error _ _ _ _ _ _ _ H1).
      match goal with |- context [?x <=? ?y] =>
        destruct (Z.leb_spec x y); [|lia] end.
      match goal with |- context [?x <? ?y] =>
        destruct (Z.ltb_spec x y); [|lia] end.
      cbn [andb]. f_equal. lia.
  - destruct (Z.leb_spec b (Z.of_nat i)); [|lia].
    destruct (Z.ltb_spec (Z.of_nat i) (b + c)); [lia|]. cbn [andb].
    rewrite (memcpy_nth_error _ _ _ _ _ _ i H3).
    destruct (Z.ltb_spec (Z.of_nat i) (0 + b)); [lia|].
    rewrite andb_false_r, nth_error_skipn. f_equal. lia.
Qed.

End MemcpyFacts.

(** ** RingBuffer: geometry *)

Section RingFacts.
Context {A : Type} (zero : A).
Implicit Types rb : @RingBuffer.t A.

Lemma resize_length (v : list A) n : length (resize zero v n) = Z.to_nat n.
Proof.
  unfold resize. rewrite length_app, length_firstn, repeat_length. lia.
Qed.

Lemma frames_times_channels f ch :
  0 <= f <= 2 ^ 30 -> 1 <= ch <= INT32_MAX -> 0 <= f * ch < 2 ^ 61.
Proof.
  unfold INT32_MAX. intros Hf Hch.
  assert (f * ch <= 2 ^ 30 * (2 ^ 31 - 1))
    by (apply Z.mul_le_mono_nonneg; lia).
  split; [apply Z.mul_nonneg_nonneg; lia | lia].
Qed.

Lemma init_wf rb0 capacityFrames channels rb1 :
  1 <= capacityFrames <= INT32_MAX -> 1 <= channels <= INT32_MAX ->
  RingBuffer.init zero rb0 capacityFrames channels = (true, rb1) ->
  RingBuffer.wf rb1 /\ RingBuffer.mRead rb1 = 0 /\ RingBuffer.mWrite rb1 = 0.
Proof.
  intros Hc Hch. unfold RingBuffer.init.
  destruct (Z.leb_spec capacityFrames 0); [lia|].
  destruct (Z.leb_spec channels 0); [lia|]. cbn [orb].
  intros [= <-]. split; [|split; reflexivity].
  destruct (nextPow2_pow2 capacityFrames Hc) as (k & Hk & Hp).
  pose proof (pow2_le_2_30 k ltac:(lia)) as Hpk.
  pose proof (frames_times_channels (2 ^ k) channels ltac:(lia) Hch) as Hm.
  exists k.
  cbn [RingBuffer.mData RingBuffer.mChannels RingBuffer.mCapacityFrames
       RingBuffer.mMask RingBuffer.mRead RingBuffer.mWrite].
  rewrite Hp. unfold in_u64. repeat split; try lia.
  - apply i32_id. unfold in_i32, INT32_MAX. lia.
  - rewrite resize_length.
    rewrite (u64_id (2 ^ k)) by (unfold in_u64; lia).
    rewrite (u64_id channels) by (unfold in_u64, INT32_MAX in *; lia).
    rewrite u64_id by (unfold in_u64; lia). lia.
Qed.

Lemma offset_mul rb f :
  1 <= RingBuffer.mChannels rb <= INT32_MAX ->
  0 <= f <= 2 ^ 30 ->
  RingBuffer.offset rb f = f * RingBuffer.mChannels rb.
Proof.
  intros Hch Hf. unfold RingBuffer.offset.
  pose proof (frames_times_channels f _ Hf Hch).
  rewrite (u64_id f) by (unfold in_u64; lia).
  rewrite (u64_id (RingBuffer.mChannels rb))
    by (unfold in_u64, INT32_MAX in *; lia).
  apply u64_id. unfold in_u64. lia.
Qed.

Lemma floats_mul rb f :
  1 <= RingBuffer.mChannels rb <= INT32_MAX ->
  0 <= f <= 2 ^ 30 ->
  RingBuffer.floats rb f = f * RingBuffer.mChannels rb.
Proof.
  intros Hch Hf. unfold RingBuffer.floats.
  pose proof (frames_times_channels f _ Hf Hch).
  rewrite (u64_id f) by (unfold in_u64; lia).
  rewrite (u64_id (RingBuffer.mChannels rb))
    by (unfold in_u64, INT32_MAX in *; lia).
  rewrite (u64_id (f * _)) by (unfold in_u64; lia).
  rewrite u64_id by (unfold in_u64; lia).
  apply Z.div_mul. lia.
Qed.

Section Geometry.
Variables (rb : @RingBuffer.t A) (k : Z).
Hypothesis Hk : 1 <= k <= 30.
Hypothesis Hmask : RingBuffer.mMask rb = 2 ^ k - 1.

Lemma masked_mod c : RingBuffer.masked rb c = c mod 2 ^ k.
Proof.
  unfold RingBuffer.masked. rewrite Hmask.
  pose proof (pow2_le_2_30 k ltac:(lia)).
  rewrite u64_id by (unfold in_u64; lia).
  replace (2 ^ k - 1) with (Z.ones k) by (rewrite Z.ones_equiv; lia).
  apply Z.land_ones. lia.
Qed.

Lemma masked_range c : 0 <= RingBuffer.masked rb c < 2 ^ k.
Proof. rewrite masked_mod. apply Z.mod_pos_bound. lia. Qed.

Lemma slot_mod c : RingBuffer.slot rb c = c mod 2 ^ k.
Proof.
  unfold RingBuffer.slot.
  pose proof (masked_range c). pose proof (pow2_le_2_30 k ltac:(lia)).
  rewrite i32_id by (unfold in_i32, INT32_MAX; lia).
  apply masked_mod.
Qed.

End Geometry.

Lemma wf_write_read (rb : @RingBuffer.t A) (S dst : list A) (n : Z) :
  RingBuffer.wf rb ->
  RingBuffer.mWrite rb = RingBuffer.mRead rb ->
  0 <= n <= RingBuffer.mCapacityFrames rb ->
  Z.of_nat (length S) = n * RingBuffer.mChannels rb ->
  n * RingBuffer.mChannels rb <= Z.of_nat (length dst) ->
  exists rb' rb'',
    RingBuffer.writeInterleaved rb S n = Some (rb', n) /\
    RingBuffer.readInterleaved rb' dst n =
      Some (rb'', S ++ skipn (length S) dst, n) /\
    RingBuffer.availableToRead rb'' = 0 /\
    RingBuffer.same_geometry rb rb'' /\
    RingBuffer.mRead rb'' = u64 (RingBuffer.mRead rb + n) /\
    RingBuffer.mWrite rb'' = RingBuffer.mRead rb''.
Proof.
  intros (k & Hk & Hcap & Hmask & Hch & Hlen & Hr & Hw) Heq Hn HS Hdst.
  pose proof (pow2_le_2_30 k ltac:(lia)) as Hpk.
  set (p := RingBuffer.mRead rb) in *.
  set (ch := RingBuffer.mChannels rb) in *.
  assert (HavR : RingBuffer.availableToRead rb = 0).
  { unfold RingBuffer.availableToRead. rewrite Heq. fold p.
    now rewrite Z.sub_diag. }
  assert (HavW : RingBuffer.availableToWrite rb = 2 ^ k).
  { unfold RingBuffer.availableToWrite. rewrite HavR, Hcap, Z.sub_0_r.
    apply i32_id. unfold in_i32, INT32_MAX. lia. }
  unfold RingBuffer.writeInterleaved. rewrite HavW.
  replace (Z.max 0 (Z.min n (2 ^ k))) with n by lia.
  destruct (Z.eqb_spec n 0) as [-> | Hn0].
  { exists rb, rb. split; [reflexivity|].
    unfold RingBuffer.readInterleaved. rewrite HavR. cbn.
    destruct S; [|cbn in HS; lia]. cbn [app skipn length].
    rewrite Z.add_0_r, (u64_id p) by exact Hr.
    unfold RingBuffer.same_geometry. auto 10. }
  pose proof (slot_mod rb k Hk Hmask p) as Hslot.
  pose proof (masked_mod rb k Hk Hmask p) as Hmasked.
  pose proof (Z.mod_pos_bound p (2 ^ k) ltac:(lia)) as Hpos.
  set (pos := p mod 2 ^ k) in *.
  rewrite Heq. fold p. rewrite Hslot, Hmasked, Hcap.
  rewrite (i32_id (2 ^ k - pos)) by (unfold in_i32, INT32_MAX; lia).
  set (first := Z.min n (2 ^ k - pos)).
  rewrite (i32_id (n - first)) by (unfold in_i32, INT32_MAX; lia).
  set (second := n - first).
  rewrite !(offset_mul rb) by (fold ch; lia).
  rewrite !(floats_mul rb) by (fold ch; lia).
  fold ch.
  assert (Hsec : 0 <= second <= pos) by (unfold second, first; lia).
  assert (Hfirst : 1 <= first <= 2 ^ k - pos) by (unfold first; lia).
  assert (Hsum : first + second = n) by (unfold second; lia).
  assert (Hb : 0 <= first * ch) by (apply Z.mul_nonneg_nonneg; lia).
  assert (Hc : 0 <= second * ch <= pos * ch).
  { split; [apply Z.mul_nonneg_nonneg; lia|].
    apply Z.mul_le_mono_nonneg_r; lia. }
  assert (Ha : pos * ch + first * ch <= 2 ^ k * ch).
  { rewrite <- Z.mul_add_distr_r. apply Z.mul_le_mono_nonneg_r; lia. }
  assert (Hn' : first * ch + second * ch = n * ch).
  { rewrite <- Z.mul_add_distr_r. now rewrite Hsum. }
  destruct (segments_roundtrip (RingBuffer.mData rb) S dst
              (pos * ch) (first * ch) (second * ch))
    as (d1 & d2 & o1 & H1 & H2 & L2 & H3 & H4); try lia.
  rewrite H1.
  assert (Hif : (if 0 <? second
                 then memcpy d1 0 S (first * ch) (second * ch)
                 else Some d1) = Some d2).
  { destruct (Z.ltb_spec 0 second) as [Hs | Hs]; [exact H2|].
    assert (Hz : second = 0) by lia.
    rewrite Hz, Z.mul_0_l in H2. rewrite <- H2. symmetry.
    apply memcpy_zero; lia. }
  rewrite Hif. do 2 eexists. split; [reflexivity|].
  match goal with |- RingBuffer.readInterleaved ?r _ _ = _ /\ _ =>
    set (rb' := r) end.
  assert (HavR' : RingBuffer.availableToRead rb' = n).
  { unfold RingBuffer.availableToRead, rb', u64.
    cbn [RingBuffer.mRead RingBuffer.mWrite].
    rewrite Zminus_mod_idemp_l.
    replace (p + n - p) with n by lia.
    rewrite Z.mod_small by lia.
    apply i32_id. unfold in_i32, INT32_MAX. lia. }
  assert (Hmask' : RingBuffer.mMask rb' = 2 ^ k - 1) by exact Hmask.
  assert (Hch' : 1 <= RingBuffer.mChannels rb' <= INT32_MAX) by exact Hch.
  unfold RingBuffer.readInterleaved. rewrite HavR'.
  replace (Z.max 0 (Z.min n n)) with n by lia.
  destruct (Z.eqb_spec n 0) as [? | _]; [contradiction|].
  rewrite (slot_mod rb' k Hk Hmask'), (masked_mod rb' k Hk Hmask').
  change (RingBuffer.mRead rb') with p. fold pos.
  change (RingBuffer.mCapacityFrames rb') with (2 ^ k).
  rewrite (i32_id (2 ^ k - pos))
    by (unfold in_i32, INT32_MAX; lia).
  fold first. rewrite (i32_id (n - first))
    by (unfold in_i32, INT32_MAX; lia).
  fold second.
  rewrite !(offset_mul rb') by (exact Hch' || lia).
  rewrite !(floats_mul rb') by (exact Hch' || lia).
  change (RingBuffer.mChannels rb') with ch.
  change (RingBuffer.mData rb') with d2.
  rewrite H3.
  assert (Hif' : (if 0 <? second
                  then memcpy o1 (first * ch) d2 0 (second * ch)
                  else Some o1) = Some (S ++ skipn (length S) dst)).
  { destruct (Z.ltb_spec 0 second) as [Hs | Hs]; [exact H4|].
    assert (Hz : second = 0) by lia.
    rewrite Hz, Z.mul_0_l in H4. rewrite <- H4. symmetry.
    pose proof (memcpy_length _ _ _ _ _ _ H3).
    apply memcpy_zero; lia. }
  rewrite Hif'. split; [reflexivity|].
  unfold RingBuffer.availableToRead, RingBuffer.same_geometry.
  cbn [RingBuffer.mData RingBuffer.mChannels RingBuffer.mCapacityFrames
       RingBuffer.mMask RingBuffer.mRead RingBuffer.mWrite].
  rewrite Z.sub_diag. auto 10.
Qed.

End RingFacts.

(** ** RingBuffer: round trip *)

(** C1. For every positive channel count and capacity, take the ring that
    [init] produces, at any position of its two counters at which it is
    empty (so also positions from which a write or a read spans the end of
    the storage). Writing a sequence [S] of [n <= capacityFrames ()]
    interleaved frames with [writeInterleaved] and reading [n] frames with
    [readInterleaved] returns [n] both times and leaves exactly the
    samples of [S] in the destination; the ring is empty again, [n] frames
    further. *)
Theorem ring_roundtrip {A : Type} (zero : A) (rb0 rb1 rb : RingBuffer.t)
    (capacityFrames channels : Z) (S dst : list A) (n : Z) :
  1 <= capacityFrames <= INT32_MAX ->
  1 <= channels <= INT32_MAX ->
  RingBuffer.init zero rb0 capacityFrames channels = (true, rb1) ->
  RingBuffer.same_geometry rb1 rb ->
  in_u64 (RingBuffer.mRead rb) ->
  RingBuffer.mWrite rb = RingBuffer.mRead rb ->
  0 <= n <= RingBuffer.capacityFrames rb ->
  Z.of_nat (length S) = n * channels ->
  n * channels <= Z.of_nat (length dst) ->
  exists rb' rb'',
    RingBuffer.writeInterleaved rb S n = Some (rb', n) /\
    RingBuffer.readInterleaved rb' dst n =
      Some (rb'', S ++ skipn (length S) dst, n) /\
    RingBuffer.availableToRead rb'' = 0 /\
    RingBuffer.same_geometry rb1 rb'' /\
    RingBuffer.mRead rb'' = u64 (RingBuffer.mRead rb + n) /\
    RingBuffer.mWrite rb'' = RingBuffer.mRead rb''.
Proof.
  intros Hc Hch Hinit (G1 & G2 & G3 & G4) Hp Heq Hn HS Hdst.
  destruct (init_wf zero rb0 capacityFrames channels rb1 Hc Hch Hinit)
    as ((k & Hk & Hcap & Hmask & Hch1 & Hlen & _ & _) & _ & _).
  assert (Hchan : RingBuffer.mChannels rb1 = channels).
  { revert Hinit. unfold RingBuffer.init.
    destruct (_ || _); [discriminate|]. now intros [= <-]. }
  assert (Hwf : RingBuffer.wf rb).
  { exists k. rewrite G1, G2, G3, G4, Heq. auto 10. }
  destruct (wf_write_read rb S dst n Hwf Heq Hn) as
    (rb' & rb'' & Hw & Hr & Hav & (S1 & S2 & S3 & S4) & Hpos & Hemp).
  - rewrite G1, Hchan. exact HS.
  - rewrite G1, Hchan. exact Hdst.
  - exists rb', rb''. unfold RingBuffer.same_geometry.
    repeat split; try assumption; congruence.
Qed.

Lemma ring_roundtrip_witness :
  let rb1 := snd (RingBuffer.init 0 RingBuffer.fresh 3 2) in
  let rb := {| RingBuffer.mData := [11; 12; 13; 14; 15; 16; 17; 18];
               RingBuffer.mChannels := 2;
               RingBuffer.mCapacityFrames := 4;
               RingBuffer.mMask := 3;
               RingBuffer.mRead := 3;
               RingBuffer.mWrite := 3 |} in
  exists rb' rb'',
    RingBuffer.writeInterleaved rb [1; 2; 3; 4; 5; 6] 3 = Some (rb', 3) /\
    RingBuffer.readInterleaved rb' [0; 0; 0; 0; 0; 0; 0] 3 =
      Some (rb'', [1; 2; 3; 4; 5; 6; 0], 3) /\
    RingBuffer.availableToRead rb'' = 0 /\
    RingBuffer.same_geometry rb1 rb'' /\
    RingBuffer.mRead rb'' = u64 (3 + 3) /\
    RingBuffer.mWrite rb'' = RingBuffer.mRead rb''.
Proof.
  intros rb1 rb.
  apply (ring_roundtrip 0 RingBuffer.fresh rb1 rb 3 2
           [1; 2; 3; 4; 5; 6] [0; 0; 0; 0; 0; 0; 0] 3).
  - unfold INT32_MAX. lia.
  - unfold INT32_MAX. lia.
  - reflexivity.
  - repeat split.
  - unfold in_u64. cbn. lia.
  - reflexivity.
  - cbn. lia.
  - reflexivity.
  - cbn. lia.
Defined.

(** The write of the witness wraps: frame 0 of the block goes to slot 3 of
    the storage, frames 1 and 2 to slots 0 and 1. *)
Example ring_wrap_storage :
  let rb := {| RingBuffer.mData := [11; 12; 13; 14; 15; 16; 17; 18];
               RingBuffer.mChannels := 2;
               RingBuffer.mCapacityFrames := 4;
               RingBuffer.mMask := 3;
               RingBuffer.mRead := 3;
               RingBuffer.mWrite := 3 |} in
  option_map (fun r => RingBuffer.mData (fst r))
             (RingBuffer.writeInterleaved rb [1; 2; 3; 4; 5; 6] 3)
  = Some [3; 4; 5; 6; 15; 16; 1; 2].
Proof. reflexivity. Qed.

(** ** Buffers: [load] and [store] *)

Section LoadStoreFacts.
Context {A : Type}.
Implicit Types p : list A.

Lemma load_ok p i :
  0 <= i < Z.of_nat (length p) -> exists x, load p i = Some x.
Proof.
  intros Hi. unfold load. destruct (Z.leb_spec 0 i); [|lia].
  destruct (nth_error p (Z.to_nat i)) as [x|] eqn:E; [now exists x|].
  apply nth_error_None in E. lia.
Qed.

Lemma load_Some p i x :
  load p i = Some x -> 0 <= i < Z.of_nat (length p).
Proof.
  unfold load. destruct (Z.leb_spec 0 i); [|discriminate].
  intros E. assert (nth_error p (Z.to_nat i) <> None) by congruence.
  apply nth_error_Some in H0. lia.
Qed.

Lemma load_app_l p q i :
  i < Z.of_nat (length p) -> load (p ++ q) i = load p i.
Proof.
  intros Hi. unfold load. destruct (Z.leb_spec 0 i); [|reflexivity].
  apply nth_error_app1. lia.
Qed.

Lemma store_ok p i x :
  0 <= i < Z.of_nat (length p) -> exists p', store p i x = Some p'.
Proof.
  intros Hi. unfold store.
  destruct (Z.leb_spec 0 i); [|lia].
  destruct (Z.ltb_spec i (Z.of_nat (length p))); [|lia].
  cbn [andb]. eexists. reflexivity.
Qed.

Lemma store_inv p i x p' :
  store p i x = Some p' ->
  0 <= i < Z.of_nat (length p) /\
  length p' = length p /\
  forall j, load p' j = if j =? i then Some x else load p j.
Proof.
  unfold store.
  destruct (Z.leb_spec 0 i); [|discriminate].
  destruct (Z.ltb_spec i (Z.of_nat (length p))); [|discriminate].
  cbn [andb]. intros [= <-]. split; [lia|]. split.
  - rewrite length_app, length_firstn. cbn [length].
    rewrite length_skipn. lia.
  - intros j. unfold load.
    destruct (Z.leb_spec 0 j) as [Hj | Hj].
    2:{ destruct (Z.eqb_spec j i); [lia | reflexivity]. }
    rewrite nth_error_app, length_firstn.
    replace (Nat.min (Z.to_nat i) (length p)) with (Z.to_nat i) by lia.
    destruct (Nat.ltb_spec (Z.to_nat j) (Z.to_nat i)) as [Hlt | Hge].
    + destruct (Z.eqb_spec j i); [lia|].
      rewrite nth_error_firstn.
      destruct (Nat.ltb_spec (Z.to_nat j) (Z.to_nat i)); [reflexivity|lia].
    + destruct (Z.eqb_spec j i) as [-> | Hne].
      * now rewrite Nat.sub_diag.
      * destruct (Z.to_nat j - Z.to_nat i)%nat as [|m] eqn:E; [lia|].
        cbn [nth_error]. rewrite nth_error_skipn. f_equal. lia.
Qed.

End LoadStoreFacts.

(** ** Resampler3x: down by 3 *)

Section Down3Facts.
Import F32 Resampler3x.

Lemma down3_body_spec inp out g :
  0 <= g -> 3 * g + 2 < Z.of_nat (length inp) -> 3 * g + 2 <= INT32_MAX ->
  g < Z.of_nat (length out) ->
  exists s0 s1 s2 out',
    load inp (3 * g) = Some s0 /\ load inp (3 * g + 1) = Some s1 /\
    load inp (3 * g + 2) = Some s2 /\
    down3_body inp out g = Some out' /\
    length out' = length out /\
    forall j, load out' j =
                if j =? g then Some (mean3 s0 s1 s2) else load out j.
Proof.
  unfold INT32_MAX. intros Hg Hin Hmax Hout. unfold down3_body.
  rewrite (i32_id (g * 3)) by (unfold in_i32, INT32_MAX; lia).
  rewrite !i32_id by (unfold in_i32, INT32_MAX; lia).
  replace (g * 3 + 0) with (3 * g) by lia.
  replace (g * 3 + 1) with (3 * g + 1) by lia.
  replace (g * 3 + 2) with (3 * g + 2) by lia.
  destruct (load_ok inp (3 * g) ltac:(lia)) as [s0 E0].
  destruct (load_ok inp (3 * g + 1) ltac:(lia)) as [s1 E1].
  destruct (load_ok inp (3 * g + 2) ltac:(lia)) as [s2 E2].
  rewrite E0, E1, E2.
  destruct (store_ok out g (mean3 s0 s1 s2) ltac:(lia)) as [out' Es].
  exists s0, s1, s2, out'. rewrite Es.
  destruct (store_inv _ _ _ _ Es) as (_ & Hl & Hj). auto 10.
Qed.

Lemma down3_loop_spec n : forall inp out g,
  0 <= g ->
  3 * (g + Z.of_nat n) <= Z.of_nat (length inp) ->
  3 * (g + Z.of_nat n) <= INT32_MAX ->
  g + Z.of_nat n <= Z.of_nat (length out) ->
  exists out',
    down3_loop n inp out g = Some out' /\
    length out' = length out /\
    (forall j, g <= j < g + Z.of_nat n ->
       exists s0 s1 s2,
         load inp (3 * j) = Some s0 /\ load inp (3 * j + 1) = Some s1 /\
         load inp (3 * j + 2) = Some s2 /\
         load out' j = Some (mean3 s0 s1 s2)) /\
    (forall j, j < g \/ g + Z.of_nat n <= j -> load out' j = load out j).
Proof.
  induction n as [|n IH]; intros inp out g Hg Hin Hmax Hout.
  - exists out. cbn [down3_loop]. repeat split; try reflexivity.
    intros j Hj. lia.
  - cbn [down3_loop].
    destruct (down3_body_spec inp out g) as
      (s0 & s1 & s2 & o1 & E0 & E1 & E2 & Eb & L1 & P1); try lia.
    rewrite Eb.
    rewrite i32_id by (unfold in_i32, INT32_MAX in *; lia).
    destruct (IH inp o1 (g + 1)) as (out' & El & L2 & Pin & Pout);
      try lia.
    exists out'. split; [exact El|]. split; [congruence|]. split.
    + intros j Hj. destruct (Z.eq_dec j g) as [-> | Hne].
      * exists s0, s1, s2. repeat split; try assumption.
        rewrite Pout by lia. rewrite P1, Z.eqb_refl. reflexivity.
      * apply Pin. lia.
    + intros j Hj. rewrite Pout by lia. rewrite P1.
      destruct (Z.eqb_spec j g); [lia | reflexivity].
Qed.

(** The loop reads the input below [3 * (g + n)] only. *)
Lemma down3_loop_ext n : forall inp inp' out g,
  0 <= g ->
  3 * (g + Z.of_nat n) <= INT32_MAX ->
  (forall j, 0 <= j < 3 * (g + Z.of_nat n) -> load inp j = load inp' j) ->
  down3_loop n inp out g = down3_loop n inp' out g.
Proof.
  induction n as [|n IH]; intros inp inp' out g Hg Hmax Heq;
    [reflexivity|].
  cbn [down3_loop].
  assert (Hb : down3_body inp out g = down3_body inp' out g).
  { unfold down3_body.
    rewrite (i32_id (g * 3)) by (unfold in_i32, INT32_MAX in *; lia).
    rewrite !i32_id by (unfold in_i32, INT32_MAX in *; lia).
    rewrite !Heq by lia. reflexivity. }
  rewrite Hb. destruct (down3_body inp' out g) as [o1|]; [|reflexivity].
  rewrite i32_id by (unfold in_i32, INT32_MAX in *; lia).
  apply IH; try lia. intros j Hj. apply Heq. lia.
Qed.

End Down3Facts.

(** C7 (as amended). For every input whose frame count is a multiple of 3,
    with [inFrames / 3 <= outMaxFrames], [processDown3] returns
    [inFrames / 3] and output sample [g] is, for every group [g], the
    binary32 value [((in[3g] + in[3g+1]) + in[3g+2]) * (1.0f/3.0f)]: the
    sum taken left to right and multiplied by the rounded reciprocal of 3. *)
Theorem down3_triplet_mean (self : Resampler3x.t) (inp : list F32.float)
    (inFrames : Z) (out : list F32.float) (outMaxFrames : Z) :
  0 <= inFrames <= INT32_MAX ->
  inFrames mod 3 = 0 ->
  inFrames / 3 <= outMaxFrames ->
  inFrames <= Z.of_nat (length inp) ->
  inFrames / 3 <= Z.of_nat (length out) ->
  exists out',
    Resampler3x.processDown3 self inp inFrames out outMaxFrames
      = Some (self, out', inFrames / 3) /\
    forall g, 0 <= g < inFrames / 3 ->
      exists s0 s1 s2,
        load inp (3 * g) = Some s0 /\ load inp (3 * g + 1) = Some s1 /\
        load inp (3 * g + 2) = Some s2 /\
        load out' g = Some (F32.mul (F32.add (F32.add s0 s1) s2) F32.third).
Proof.
  intros Hn Hmod Hmax Hin Hout. unfold Resampler3x.processDown3.
  rewrite Z.quot_div_nonneg by lia.
  pose proof (Z.div_mod inFrames 3 ltac:(lia)) as Hdm.
  pose proof (Z.div_pos inFrames 3 ltac:(lia) ltac:(lia)) as Hq.
  replace (Z.min (inFrames / 3) outMaxFrames) with (inFrames / 3) by lia.
  destruct (down3_loop_spec (Z.to_nat (inFrames / 3)) inp out 0)
    as (out' & El & _ & Pin & _); try lia.
  rewrite El. exists out'. split; [reflexivity|].
  intros g Hg. apply Pin. lia.
Qed.

Lemma down3_triplet_mean_witness :
  let inp := map F32.of_Z [1; 2; 3; 4; 5; 7] in
  let out := [F32.zero; F32.zero] in
  exists out',
    Resampler3x.processDown3 (Resampler3x.new Resampler3x.DownBy3) inp 6 out 2
      = Some (Resampler3x.new Resampler3x.DownBy3, out', 6 / 3) /\
    forall g, 0 <= g < 6 / 3 ->
      exists s0 s1 s2,
        load inp (3 * g) = Some s0 /\ load inp (3 * g + 1) = Some s1 /\
        load inp (3 * g + 2) = Some s2 /\
        load out' g = Some (F32.mul (F32.add (F32.add s0 s1) s2) F32.third).
Proof.
  intros inp out.
  apply (down3_triplet_mean (Resampler3x.new Resampler3x.DownBy3) inp 6 out 2).
  - unfold INT32_MAX. lia.
  - reflexivity.
  - vm_compute. discriminate.
  - cbn. lia.
  - cbn. lia.
Defined.

(** C7, as stated, fails in binary32: for the triplet [5, 0, 0] the output
    is [13981014 * 2^-23], the quotient [(5 + 0 + 0) / 3.0f] is
    [13981013 * 2^-23], and three times the output is not the sum
    either (so the output is not the exact mean). *)
Lemma down3_mean_not_exact :
  let inp := [F32.of_Z 5; F32.zero; F32.zero] in
  let y := S754_finite false 13981014 (-23) in
  Resampler3x.processDown3 (Resampler3x.new Resampler3x.DownBy3)
                           inp 3 [F32.zero] 1
    = Some (Resampler3x.new Resampler3x.DownBy3, [y], 1) /\
  y <> F32.div (F32.add (F32.add (F32.of_Z 5) F32.zero) F32.zero) F32.three /\
  (exists vy v5, F32.scaled_value y 23 = Some vy /\
                 F32.scaled_value (F32.of_Z 5) 23 = Some v5 /\
                 3 * vy <> v5 + 0 + 0).
Proof.
  intros inp y. split; [reflexivity|]. split.
  - vm_compute. discriminate.
  - exists 13981014, (5 * 2 ^ 23). repeat split. lia.
Qed.

(** C10. Called with [n >= 0] input frames, a multiple of 3 or not,
    [processDown3] returns [min (n / 3, outMaxFrames)] and writes that
    many output samples, each computed from one complete triplet. The
    [n mod 3] trailing input samples are never read: replacing them, and
    replacing the state of the resampler, changes neither the output nor
    the count, and the state is returned as it was - nothing is kept for a
    later call. *)
Theorem down3_trailing_samples_discarded (self self' : Resampler3x.t)
    (body tail tail' : list F32.float) (n : Z)
    (out : list F32.float) (outMaxFrames : Z) :
  0 <= n <= INT32_MAX ->
  Z.of_nat (length body) = 3 * (n / 3) ->
  Z.of_nat (length tail) = n mod 3 ->
  Z.of_nat (length tail') = n mod 3 ->
  Z.min (n / 3) outMaxFrames <= Z.of_nat (length out) ->
  exists out',
    Resampler3x.processDown3 self (body ++ tail) n out outMaxFrames
      = Some (self, out', Z.min (n / 3) outMaxFrames) /\
    Resampler3x.processDown3 self' (body ++ tail') n out outMaxFrames
      = Some (self', out', Z.min (n / 3) outMaxFrames) /\
    length out' = length out /\
    (forall g, 0 <= g < Z.min (n / 3) outMaxFrames ->
       exists s0 s1 s2,
         load body (3 * g) = Some s0 /\ load body (3 * g + 1) = Some s1 /\
         load body (3 * g + 2) = Some s2 /\
         load out' g = Some (Resampler3x.mean3 s0 s1 s2)) /\
    (forall j, Z.min (n / 3) outMaxFrames <= j -> load out' j = load out j).
Proof.
  intros Hn Hbody Htail Htail' Hout. unfold Resampler3x.processDown3.
  rewrite Z.quot_div_nonneg by lia.
  pose proof (Z.div_mod n 3 ltac:(lia)) as Hdm.
  pose proof (Z.mod_pos_bound n 3 ltac:(lia)) as Hm.
  pose proof (Z.div_pos n 3 ltac:(lia) ltac:(lia)) as Hq.
  set (P := Z.min (n / 3) outMaxFrames) in *.
  assert (HP : Z.of_nat (Z.to_nat P) = Z.max 0 P) by lia.
  destruct (down3_loop_spec (Z.to_nat P) body out 0)
    as (out' & El & Hl & Pin & Pout); try lia.
  assert (Hext : forall tl,
             Resampler3x.down3_loop (Z.to_nat P) (body ++ tl) out 0
             = Some out').
  { intros tl. rewrite <- El. apply down3_loop_ext; try lia.
    intros j Hj. apply load_app_l. lia. }
  rewrite !Hext. exists out'. repeat split; try assumption.
  - intros g Hg. apply Pin. lia.
  - intros j Hj. apply Pout. lia.
Qed.

Lemma down3_trailing_samples_discarded_witness :
  let body := map F32.of_Z [3; 6; 9] in
  exists out',
    Resampler3x.processDown3 (Resampler3x.new Resampler3x.DownBy3)
      (body ++ map F32.of_Z [100; 200]) 5 [F32.zero; F32.one] 7
      = Some (Resampler3x.new Resampler3x.DownBy3, out', Z.min (5 / 3) 7) /\
    Resampler3x.processDown3 (Resampler3x.mk Resampler3x.UpBy3 F32.one true)
      (body ++ [S754_nan; S754_infinity true]) 5 [F32.zero; F32.one] 7
      = Some (Resampler3x.mk Resampler3x.UpBy3 F32.one true, out',
              Z.min (5 / 3) 7) /\
    length out' = 2%nat /\
    (forall g, 0 <= g < Z.min (5 / 3) 7 ->
       exists s0 s1 s2,
         load body (3 * g) = Some s0 /\ load body (3 * g + 1) = Some s1 /\
         load body (3 * g + 2) = Some s2 /\
         load out' g = Some (Resampler3x.mean3 s0 s1 s2)) /\
    (forall j, Z.min (5 / 3) 7 <= j ->
       load out' j = load [F32.zero; F32.one] j).
Proof.
  intros body.
  apply (down3_trailing_samples_discarded
           (Resampler3x.new Resampler3x.DownBy3)
           (Resampler3x.mk Resampler3x.UpBy3 F32.one true)
           body (map F32.of_Z [100; 200]) [S754_nan; S754_infinity true]
           5 [F32.zero; F32.one] 7).
  - unfold INT32_MAX. lia.
  - reflexivity.
  - reflexivity.
  - reflexivity.
  - vm_compute. discriminate.
Defined.

(** ** binary32: the step of a held sample *)

Lemma f32_sub_self (x : F32.float) :
  F32.is_finite x = true -> F32.sub x x = F32.zero.
Proof.
  destruct x as [s | s | | s m e]; cbn [F32.is_finite]; try discriminate;
    intros _.
  - now destruct s.
  - unfold F32.sub, SFsub. rewrite Z.sub_diag. reflexivity.
Qed.

Lemma f32_held_step (x : F32.float) :
  F32.is_finite x = true -> F32.mul (F32.sub x x) F32.third = F32.zero.
Proof. intros H. rewrite f32_sub_self by exact H. reflexivity. Qed.

(** ** Resampler3x: up by 3 *)

Section Up3Facts.
Import F32 Resampler3x.

Lemma up3_body_spec inp out N i :
  0 <= i < N -> N <= Z.of_nat (length inp) -> 3 * N <= INT32_MAX ->
  3 * i + 2 < Z.of_nat (length out) ->
  exists out',
    up3_body inp out N i (3 * i) = Some out' /\
    length out' = length out /\
    up3_triplet_at inp out' N i /\
    (forall q, q < 3 * i \/ 3 * i + 3 <= q -> load out' q = load out q).
Proof.
  unfold INT32_MAX. intros Hi Hin Hmax Hout. unfold up3_body.
  destruct (load_ok inp i ltac:(lia)) as [x0 E0]. rewrite E0.
  rewrite !i32_id by (unfold in_i32, INT32_MAX; lia).
  assert (E1 : exists x1,
             (if i + 1 <? N then load inp (i + 1) else Some x0) = Some x1).
  { destruct (Z.ltb_spec (i + 1) N); [|now exists x0].
    apply load_ok. lia. }
  destruct E1 as [x1 E1]. rewrite E1.
  set (d := mul (sub x1 x0) third).
  destruct (store_ok out (3 * i) x0 ltac:(lia)) as [o1 S1]. rewrite S1.
  destruct (store_inv _ _ _ _ S1) as (_ & L1 & P1).
  destruct (store_ok o1 (3 * i + 1) (add x0 d) ltac:(lia)) as [o2 S2].
  rewrite S2. destruct (store_inv _ _ _ _ S2) as (_ & L2 & P2).
  destruct (store_ok o2 (3 * i + 2) (add x0 (mul two d)) ltac:(lia))
    as [o3 S3].
  rewrite S3. destruct (store_inv _ _ _ _ S3) as (_ & L3 & P3).
  exists o3. split; [reflexivity|]. split; [congruence|]. split.
  - exists x0, x1. split; [exact E0|]. split; [exact E1|]. cbv zeta.
    fold d. rewrite !P3, !P2, !P1.
    repeat match goal with |- context [?a =? ?b] =>
      destruct (Z.eqb_spec a b); try lia end.
    auto.
  - intros q Hq. rewrite P3, P2, P1.
    repeat match goal with |- context [?a =? ?b] =>
      destruct (Z.eqb_spec a b); try lia end.
    reflexivity.
Qed.

Lemma up3_triplet_at_frame inp o1 o2 N i :
  (forall q, 3 * i <= q < 3 * i + 3 -> load o2 q = load o1 q) ->
  up3_triplet_at inp o1 N i -> up3_triplet_at inp o2 N i.
Proof.
  intros Hf (x0 & x1 & E0 & E1 & H0 & H1 & H2).
  exists x0, x1. split; [exact E0|]. split; [exact E1|]. cbv zeta.
  rewrite !Hf by lia. auto.
Qed.

Lemma up3_loop_spec n : forall inp out N pm i,
  0 <= i -> i + Z.of_nat n = N ->
  N <= Z.of_nat (length inp) -> 3 * N <= INT32_MAX ->
  3 * Z.max i (Z.min N (pm / 3)) <= Z.of_nat (length out) ->
  exists out',
    up3_loop n inp out N pm i (3 * i)
      = Some (out', 3 * Z.max i (Z.min N (pm / 3))) /\
    length out' = length out /\
    (forall j, i <= j < Z.max i (Z.min N (pm / 3)) ->
               up3_triplet_at inp out' N j) /\
    (forall q, q < 3 * i \/ 3 * Z.max i (Z.min N (pm / 3)) <= q ->
               load out' q = load out q).
Proof.
  unfold INT32_MAX.
  induction n as [|n IH]; intros inp out N pm i Hi HN Hin Hmax Hout.
  - cbn [up3_loop]. replace (Z.max i (Z.min N (pm / 3))) with i by lia.
    exists out. repeat split; try reflexivity. intros j Hj. lia.
  - cbn [up3_loop].
    rewrite (i32_id (3 * i + 3)) by (unfold in_i32, INT32_MAX; lia).
    assert (Hcond : 3 * i + 3 <= pm <-> i + 1 <= pm / 3).
    { split; intros H.
      - apply Z.div_le_lower_bound; lia.
      - pose proof (Z.mul_div_le pm 3 ltac:(lia)). lia. }
    destruct (Z.leb_spec (3 * i + 3) pm) as [Hgo | Hstop].
    + apply Hcond in Hgo.
      replace (Z.max i (Z.min N (pm / 3)))
        with (Z.max (i + 1) (Z.min N (pm / 3))) in * by lia.
      destruct (up3_body_spec inp out N i) as (o1 & Eb & L1 & T1 & F1);
        try (unfold INT32_MAX; lia).
      rewrite Eb. rewrite (i32_id (i + 1))
        by (unfold in_i32, INT32_MAX; lia).
      replace (3 * i + 3) with (3 * (i + 1)) by lia.
      destruct (IH inp o1 N pm (i + 1)) as (out' & El & L2 & Pin & Pout);
        try lia.
      exists out'. split; [exact El|]. split; [congruence|]. split.
      * intros j Hj. destruct (Z.eq_dec j i) as [-> | Hne].
        -- apply (up3_triplet_at_frame inp o1); [|exact T1].
           intros q Hq. apply Pout. lia.
        -- apply Pin. lia.
      * intros q Hq. rewrite Pout by lia. apply F1. lia.
    + assert (pm / 3 <= i) by lia.
      replace (Z.max i (Z.min N (pm / 3))) with i by lia.
      exists out. repeat split; try reflexivity. intros j Hj. lia.
Qed.

Lemma min_div3 N m : Z.min (3 * N) m / 3 = Z.min N (m / 3).
Proof.
  destruct (Z.le_gt_cases (3 * N) m) as [Hle | Hgt].
  - rewrite Z.min_l by lia.
    replace (3 * N) with (N * 3) by lia. rewrite Z.div_mul by lia.
    assert (N <= m / 3) by (apply Z.div_le_lower_bound; lia). lia.
  - rewrite Z.min_r by lia.
    assert (m / 3 < N) by (apply Z.div_lt_upper_bound; lia). lia.
Qed.

End Up3Facts.

(** C6 (as amended). For every input of length [N >= 1] (with [3 * N] in
    the range of [int]) and every [outMaxFrames], [processUp3] emits whole
    triplets only: it returns [3 * K] with
    [K = max (0, min (N, outMaxFrames / 3))], which is [3 * N] when
    [outMaxFrames >= 3 * N]. For each [i < K] the triplet is [x_i],
    [x_i + d], [x_i + 2.0f * d] with [d = (x_(i+1) - x_i) * (1.0f/3.0f)] in
    binary32, where [x_N] stands for [x_(N-1)]: at [i = N - 1] the step is
    [(x_i - x_i) * (1.0f/3.0f)], which is [+0] when the last sample is
    finite. The rest of the output buffer is untouched and the last input
    sample is kept in [mPrevSample]. *)
Theorem up3_triplets (self : Resampler3x.t) (inp : list F32.float)
    (N : Z) (out : list F32.float) (outMaxFrames : Z) :
  1 <= N ->
  3 * N <= INT32_MAX ->
  Z.of_nat (length inp) = N ->
  3 * Z.max 0 (Z.min N (outMaxFrames / 3)) <= Z.of_nat (length out) ->
  let K := Z.max 0 (Z.min N (outMaxFrames / 3)) in
  exists out' last,
    Resampler3x.processUp3 self inp N out outMaxFrames
      = Some (Resampler3x.mk (Resampler3x.mMode self) last true,
              out', 3 * K) /\
    load inp (N - 1) = Some last /\
    (3 * N <= outMaxFrames -> K = N) /\
    (forall i, 0 <= i < K -> Resampler3x.up3_triplet_at inp out' N i) /\
    (forall q, 3 * K <= q -> load out' q = load out q) /\
    (F32.is_finite last = true ->
     F32.mul (F32.sub last last) F32.third = F32.zero).
Proof.
  intros HN Hmax Hin Hout K. unfold Resampler3x.processUp3.
  destruct (Z.leb_spec N 0); [lia|].
  rewrite (i32_id (N * 3)) by (unfold in_i32, INT32_MAX in *; lia).
  replace (N * 3) with (3 * N) by lia.
  destruct (up3_loop_spec (Z.to_nat N) inp out N
              (Z.min (3 * N) outMaxFrames) 0)
    as (out' & El & Hl & Pin & Pout); try lia.
  { rewrite min_div3.
    replace (Z.min N (Z.min N (outMaxFrames / 3)))
      with (Z.min N (outMaxFrames / 3)) by lia. exact Hout. }
  rewrite min_div3 in El, Pin, Pout.
  replace (Z.min N (Z.min N (outMaxFrames / 3)))
    with (Z.min N (outMaxFrames / 3)) in * by lia.
  fold K in El, Pin, Pout. change (3 * 0) with 0 in El. rewrite El.
  rewrite (i32_id (N - 1)) by (unfold in_i32, INT32_MAX in *; lia).
  destruct (load_ok inp (N - 1) ltac:(lia)) as [last Elast]. rewrite Elast.
  exists out', last. split; [reflexivity|]. split; [reflexivity|].
  split; [|split; [|split]].
  - intros Hroom. assert (N <= outMaxFrames / 3)
      by (apply Z.div_le_lower_bound; lia). unfold K. lia.
  - intros i Hi. apply Pin. lia.
  - intros q Hq. apply Pout. lia.
  - apply f32_held_step.
Qed.

Lemma up3_triplets_witness :
  let inp := map F32.of_Z [1; 4] in
  let out := repeat F32.zero 7 in
  exists out' last,
    Resampler3x.processUp3 (Resampler3x.new Resampler3x.UpBy3) inp 2 out 7
      = Some (Resampler3x.mk Resampler3x.UpBy3 last true, out', 3 * 2) /\
    load inp (2 - 1) = Some last /\
    (3 * 2 <= 7 -> 2 = 2) /\
    (forall i, 0 <= i < 2 -> Resampler3x.up3_triplet_at inp out' 2 i) /\
    (forall q, 3 * 2 <= q -> load out' q = load out q) /\
    (F32.is_finite last = true ->
     F32.mul (F32.sub last last) F32.third = F32.zero).
Proof.
  intros inp out.
  apply (up3_triplets (Resampler3x.new Resampler3x.UpBy3) inp 2 out 7).
  - lia.
  - unfold INT32_MAX. lia.
  - reflexivity.
  - vm_compute. discriminate.
Defined.

(** C6, as stated, fails in three places. (1) Two input samples with
    [outMaxFrames = 4] give 3 output samples, not [min (6, 4) = 4]: a
    triplet that does not fit is not started. (2) The step is the product
    with the rounded [1.0f/3.0f], which differs from the quotient by 3:
    for [0, 5] the middle sample is [13981014 * 2^-23], not
    [5.0f / 3.0f = 13981013 * 2^-23]. (3) A last sample that is infinite
    is not held: its step is NaN. *)
Lemma up3_claim_counterexample :
  (exists st out',
     Resampler3x.processUp3 (Resampler3x.new Resampler3x.UpBy3)
       (map F32.of_Z [1; 4]) 2 (repeat F32.zero 4) 4 = Some (st, out', 3)
     /\ 3 <> Z.min (3 * 2) 4) /\
  (exists st out' y,
     Resampler3x.processUp3 (Resampler3x.new Resampler3x.UpBy3)
       (map F32.of_Z [0; 5]) 2 (repeat F32.zero 6) 6 = Some (st, out', 6)
     /\ load out' 1 = Some y
     /\ y <> F32.add (F32.of_Z 0)
                     (F32.div (F32.sub (F32.of_Z 5) (F32.of_Z 0)) F32.three))
  /\
  (exists st,
     Resampler3x.processUp3 (Resampler3x.new Resampler3x.UpBy3)
       [S754_infinity false] 1 (repeat F32.zero 3) 3
     = Some (st, [S754_infinity false; S754_nan; S754_nan], 3)).
Proof.
  split; [|split].
  - do 2 eexists. split; [reflexivity | lia].
  - do 3 eexists. split; [reflexivity|]. split; [reflexivity|].
    vm_compute. discriminate.
  - eexists. reflexivity.
Qed.

(** ** Member vectors *)

Section VectorFacts.
Context {A : Type}.

Lemma vset_length (v : list A) i x : length (vset v i x) = length v.
Proof.
  unfold vset.
  destruct (Z.leb_spec 0 i); [|reflexivity].
  destruct (Z.ltb_spec i (Z.of_nat (length v))); [|reflexivity].
  cbn [andb]. rewrite length_app, length_firstn. cbn [length].
  rewrite length_skipn. lia.
Qed.

Lemma vget_vset (d : A) (v : list A) i j x :
  0 <= i < Z.of_nat (length v) -> 0 <= j ->
  vget d (vset v i x) j = if j =? i then x else vget d v j.
Proof.
  intros Hi Hj. unfold vget, vset.
  destruct (Z.leb_spec 0 i); [|lia].
  destruct (Z.ltb_spec i (Z.of_nat (length v))); [|lia].
  destruct (Z.leb_spec 0 j); [|lia]. cbn [andb].
  destruct (Z.eqb_spec j i) as [-> | Hne].
  - rewrite app_nth2 by (rewrite length_firstn; lia).
    rewrite length_firstn.
    replace (Z.to_nat i - Nat.min (Z.to_nat i) (length v))%nat with 0%nat
      by lia.
    reflexivity.
  - destruct (Z_lt_le_dec j i) as [Hlt | Hgt].
    + rewrite app_nth1 by (rewrite length_firstn; lia).
      rewrite nth_firstn.
      destruct (Nat.ltb_spec (Z.to_nat j) (Z.to_nat i)); [reflexivity|lia].
    + rewrite app_nth2 by (rewrite length_firstn; lia).
      rewrite length_firstn.
      replace (Z.to_nat j - Nat.min (Z.to_nat i) (length v))%nat
        with (S (Z.to_nat j - Z.to_nat (i + 1)))%nat by lia.
      cbn [nth]. rewrite nth_skipn. f_equal. lia.
Qed.
End VectorFacts.

(** Projections of the assignments to members. *)
Ltac stft_fields :=
  cbn [StftProcessor.set_hop StftProcessor.set_history
       StftProcessor.set_scratch StftProcessor.set_rings
       StftProcessor.set_cursors StftProcessor.set_counters
       StftProcessor.mWin StftProcessor.mHopBuf StftProcessor.mHopFill
       StftProcessor.mHist384 StftProcessor.mFFTIn StftProcessor.mFFTOut
       StftProcessor.mTime512 StftProcessor.mTimeWin StftProcessor.mOlaBuf
       StftProcessor.mNormBuf StftProcessor.mOlaWrite StftProcessor.mOlaRead
       StftProcessor.mOlaMask StftProcessor.mAvail StftProcessor.mPushed
       StftProcessor.mPopped StftProcessor.mHops].

Ltac stft_fields_in H :=
  cbn [StftProcessor.set_hop StftProcessor.set_history
       StftProcessor.set_scratch StftProcessor.set_rings
       StftProcessor.set_cursors StftProcessor.set_counters
       StftProcessor.mWin StftProcessor.mHopBuf StftProcessor.mHopFill
       StftProcessor.mHist384 StftProcessor.mFFTIn StftProcessor.mFFTOut
       StftProcessor.mTime512 StftProcessor.mTimeWin StftProcessor.mOlaBuf
       StftProcessor.mNormBuf StftProcessor.mOlaWrite StftProcessor.mOlaRead
       StftProcessor.mOlaMask StftProcessor.mAvail StftProcessor.mPushed
       StftProcessor.mPopped StftProcessor.mHops] in H.

Section StftFacts.
Import F32 StftProcessor.
Variables cosf sinf : float -> float.

Lemma meta_set_rings s a b : meta (set_rings s a b) = meta s.
Proof. reflexivity. Qed.

Lemma meta_set_scratch s a b c d : meta (set_scratch s a b c d) = meta s.
Proof. reflexivity. Qed.

Lemma meta_set_history s h : meta (set_history s h) = meta s.
Proof. reflexivity. Qed.

Lemma meta_for_loop (body : Z -> t -> t) :
  (forall i s, meta (body i s) = meta s) ->
  forall n i s, meta (for_loop n i body s) = meta s.
Proof.
  intros Hb. induction n as [|n IH]; intros i s; cbn [for_loop].
  - reflexivity.
  - rewrite IH. apply Hb.
Qed.

Lemma meta_olaAdd_body blk i s : meta (olaAdd_body blk i s) = meta s.
Proof. reflexivity. Qed.

Lemma meta_olaAdd s blk :
  meta (olaAdd s blk) =
  (mHopBuf s, mHopFill s,
   (Z.land (u64 (mOlaWrite s + kHOP)) (mOlaMask s), mOlaRead s, mOlaMask s),
   (mAvail s, mPushed s, mPopped s, mHops s)).
Proof.
  unfold olaAdd.
  pose proof (meta_for_loop (olaAdd_body blk) (meta_olaAdd_body blk)
                (Z.to_nat kNFFT) 0 s) as H.
  revert H. generalize (for_loop (Z.to_nat kNFFT) 0 (olaAdd_body blk) s).
  intros s1 H. unfold meta in *. unfold advance_write.
  cbn [set_cursors mHopBuf mHopFill mOlaWrite mOlaRead mOlaMask mAvail
       mPushed mPopped mHops].
  congruence.
Qed.

Lemma meta_processOneHop s :
  meta (processOneHop cosf sinf s) =
  (mHopBuf s, mHopFill s,
   (Z.land (u64 (mOlaWrite s + kHOP)) (mOlaMask s), mOlaRead s, mOlaMask s),
   (u64 (mAvail s + kHOP), mPushed s, mPopped s, u64 (mHops s + 1))).
Proof.
  unfold processOneHop. cbv zeta.
  match goal with |- context [olaAdd ?a ?b] =>
    pose proof (meta_olaAdd a b) as H; revert H;
    generalize (olaAdd a b); generalize b end.
  intros blk s1 H. unfold meta in *.
  cbn [set_scratch mHopBuf mHopFill mOlaWrite mOlaRead mOlaMask mAvail
       mPushed mPopped mHops] in H.
  unfold count_hop.
  cbn [set_cursors set_counters mHopBuf mHopFill mOlaWrite mOlaRead mOlaMask
       mAvail mPushed mPopped mHops].
  congruence.
Qed.

Lemma meta_inv s s' :
  meta s' = meta s ->
  mHopBuf s' = mHopBuf s /\ mHopFill s' = mHopFill s /\
  mOlaWrite s' = mOlaWrite s /\ mOlaRead s' = mOlaRead s /\
  mOlaMask s' = mOlaMask s /\ mAvail s' = mAvail s /\
  mPushed s' = mPushed s /\ mPopped s' = mPopped s /\ mHops s' = mHops s.
Proof. unfold meta. intros H. injection H. intros. repeat split; assumption. Qed.

Lemma push_body_spec s mono16 frames idx :
  length (mHopBuf s) = Z.to_nat kHOP ->
  0 <= mHopFill s < kHOP ->
  0 <= idx < frames -> frames <= Z.of_nat (length mono16) ->
  frames <= INT32_MAX ->
  let take := Z.min (kHOP - mHopFill s) (frames - idx) in
  exists s',
    push_body cosf sinf s mono16 frames idx = Some (s', idx + take) /\
    length (mHopBuf s') = Z.to_nat kHOP /\
    mPushed s' = mPushed s /\ mPopped s' = mPopped s /\
    (if mHopFill s + take =? kHOP
     then mHopFill s' = 0 /\ mAvail s' = u64 (mAvail s + kHOP) /\
          mHops s' = u64 (mHops s + 1)
     else mHopFill s' = mHopFill s + take /\ mAvail s' = mAvail s /\
          mHops s' = mHops s).
Proof.
  intros Hlen Hfill Hidx Hbuf Hmax take.
  unfold kHOP, INT32_MAX in *. unfold push_body. unfold kHOP.
  rewrite (i32_id (96 - mHopFill s)) by (unfold in_i32, INT32_MAX; lia).
  rewrite (i32_id (frames - idx)) by (unfold in_i32, INT32_MAX; lia).
  fold take. assert (Htake : 1 <= take <= 96 - mHopFill s) by lia.
  unfold copy_n. destruct (Z.leb_spec take 0); [lia|].
  destruct (memcpy_ok (mHopBuf s) (mHopFill s) mono16 idx take)
    as [hb Hhb]; try lia.
  rewrite Hhb. pose proof (memcpy_length _ _ _ _ _ _ Hhb) as Lhb.
  rewrite (i32_id (mHopFill s + take)) by (unfold in_i32, INT32_MAX; lia).
  rewrite (i32_id (idx + take)) by (unfold in_i32, INT32_MAX; lia).
  eexists. split; [reflexivity|]. stft_fields.
  destruct (Z.eqb_spec (mHopFill s + take) 96) as [Heq | Hne].
  - unfold roll_history.
    match goal with |- context [processOneHop cosf sinf ?a] =>
      pose proof (meta_processOneHop a) as Hm; revert Hm;
      generalize (processOneHop cosf sinf a) end.
    intros s1 Hm. unfold meta in Hm. stft_fields. stft_fields_in Hm.
    injection Hm as H1 H2 H3 H4 H5 H6 H7 H8 H9.
    rewrite H1, H6, H7, H8, H9. unfold kHOP. repeat split; congruence.
  - stft_fields. repeat split; congruence.
Qed.

Section PushLoop.
Variables (mono16 : list float) (frames P0 Q : Z).
Hypothesis HP0 : 0 <= P0.
Hypothesis Hframes : 0 <= frames <= Z.of_nat (length mono16).
Hypothesis Hint : frames <= INT32_MAX.
Hypothesis Hmax : P0 + frames < 2 ^ 63.
Hypothesis HQ : 0 <= Q <= kHOP * (P0 / kHOP).

Lemma push_loop_spec fuel : forall s idx,
  0 <= idx <= frames -> frames - idx <= Z.of_nat fuel ->
  push_inv frames P0 Q s idx ->
  exists s', push_loop cosf sinf fuel s mono16 frames idx = Some s' /\
             push_inv frames P0 Q s' frames.
Proof.
  unfold INT32_MAX, kHOP in *.
  induction fuel as [|fuel IH]; intros s idx Hidx Hfuel Hinv.
  - cbn [push_loop]. destruct (Z.ltb_spec idx frames); [lia|].
    exists s. split; [reflexivity|].
    assert (E : idx = frames) by lia. rewrite E in Hinv. exact Hinv.
  - cbn [push_loop]. destruct (Z.ltb_spec idx frames) as [Hlt | Hge].
    2:{ exists s. split; [reflexivity|].
    assert (E : idx = frames) by lia. rewrite E in Hinv. exact Hinv. }
    destruct Hinv as (Hp & Hq & Hf & Hh & Ha & Hl). unfold kHOP in *.
    pose proof (Z.mod_pos_bound (P0 + idx) 96 ltac:(lia)) as Hr.
    destruct (push_body_spec s mono16 frames idx) as
      (s' & Eb & Hl' & Hp' & Hq' & Hcase);
      try (unfold kHOP, INT32_MAX; lia).
    unfold kHOP in Eb, Hcase, Hl'. rewrite Hf in Eb, Hcase.
    rewrite Eb.
    set (take := Z.min (96 - (P0 + idx) mod 96) (frames - idx)) in *.
    assert (Htake : 1 <= take <= 96 - (P0 + idx) mod 96) by lia.
    apply IH; try lia.
    unfold push_inv, kHOP. rewrite Hp', Hq'.
    replace (P0 + (idx + take)) with (P0 + idx + take) by lia.
    destruct (Z.eqb_spec ((P0 + idx) mod 96 + take) 96) as [Heq | Hne].
    + destruct Hcase as (Hf' & Ha' & Hh'). rewrite Hf', Ha', Hh', Ha, Hh.
      assert (Hd : (P0 + idx + take) / 96 = (P0 + idx) / 96 + 1
                   /\ (P0 + idx + take) mod 96 = 0).
      { Z.div_mod_to_equations. lia. }
      destruct Hd as [Hd1 Hd2]. rewrite Hd1, Hd2.
      assert (0 <= (P0 + idx) / 96 /\ 96 * ((P0 + idx) / 96) <= P0 + idx)
        by (Z.div_mod_to_equations; lia).
      assert (P0 / 96 <= (P0 + idx) / 96)
        by (apply Z.div_le_mono; lia).
      rewrite !u64_id by (unfold in_u64; lia).
      repeat split; try assumption; lia.
    + destruct Hcase as (Hf' & Ha' & Hh'). rewrite Hf', Ha', Hh', Ha, Hh.
      assert (Hd : (P0 + idx + take) / 96 = (P0 + idx) / 96
                   /\ (P0 + idx + take) mod 96 = (P0 + idx) mod 96 + take).
      { Z.div_mod_to_equations. lia. }
      destruct Hd as [Hd1 Hd2]. rewrite Hd1, Hd2.
      repeat split; try assumption; lia.
Qed.
End PushLoop.

Lemma pushTimeDomain_counts s mono16 frames P Q :
  counts s P Q ->
  0 <= frames <= Z.of_nat (length mono16) ->
  frames <= INT32_MAX -> P + frames < 2 ^ 63 ->
  exists s', pushTimeDomain cosf sinf s mono16 frames = Some s' /\
             counts s' (P + frames) Q.
Proof.
  intros (Hp & Hq & Hf & Hh & Ha & HQ & HP & Hl) Hframes Hint Hmax.
  unfold pushTimeDomain.
  destruct (push_loop_spec mono16 frames P Q ltac:(lia) Hframes Hint Hmax HQ
              (Z.to_nat frames) (count_pushed s frames) 0) as (s' & El & Hinv);
    try lia.
  { unfold push_inv, count_pushed. stft_fields. rewrite Z.add_0_r.
    unfold INT32_MAX in *.
    rewrite (u64_id frames) by (unfold in_u64; lia).
    rewrite Hp, u64_id by (unfold in_u64; lia). auto 10. }
  exists s'. split; [exact El|].
  destruct Hinv as (Hp' & Hq' & Hf' & Hh' & Ha' & Hl').
  unfold counts. repeat split; try assumption; try lia.
  unfold kHOP in *.
  assert (P / 96 <= (P + frames) / 96) by (apply Z.div_le_mono; lia). lia.
Qed.

Lemma read_slot_mod s i :
  ring_ok s -> 0 <= i <= INT32_MAX ->
  read_slot s i = (mOlaRead s + i) mod 2 ^ 15.
Proof.
  unfold INT32_MAX. intros (Hm & _ & _ & Hr) Hi. unfold read_slot.
  rewrite Hm. rewrite (u64_id i) by (unfold in_u64; lia).
  rewrite u64_id by (unfold in_u64; lia).
  change (2 ^ 15 - 1) with (Z.ones 15). apply Z.land_ones. lia.
Qed.

Lemma read_slot_range s i :
  ring_ok s -> 0 <= i <= INT32_MAX -> 0 <= read_slot s i < 2 ^ 15.
Proof.
  intros Hs Hi. rewrite read_slot_mod by assumption.
  apply Z.mod_pos_bound. lia.
Qed.

Lemma read_slot_distinct s i j :
  ring_ok s -> 0 <= i -> i < j -> j <= INT32_MAX -> j - i < 2 ^ 15 ->
  read_slot s j <> read_slot s i.
Proof.
  intros Hs Hi Hij Hj Hd. rewrite !read_slot_mod by (assumption || lia).
  destruct Hs as (_ & _ & _ & Hr). change (2 ^ 15) with 32768 in *.
  Z.div_mod_to_equations. lia.
Qed.

Lemma pop_loop_spec n : forall i s out,
  ring_ok s -> 0 <= i ->
  i + Z.of_nat n <= Z.of_nat (length out) ->
  i + Z.of_nat n <= INT32_MAX -> Z.of_nat n <= 2 ^ 15 ->
  exists s' out',
    for_loop n i pop_body (Some (s, out)) = Some (s', out') /\
    meta s' = meta s /\ ring_ok s' /\ length out' = length out /\
    (forall j, i <= j < i + Z.of_nat n ->
       load out' j =
         Some (normalized (vget zero (mOlaBuf s) (read_slot s j))
                          (vget zero (mNormBuf s) (read_slot s j))) /\
       vget zero (mOlaBuf s') (read_slot s j) = zero /\
       vget zero (mNormBuf s') (read_slot s j) = zero) /\
    (forall q, q < i \/ i + Z.of_nat n <= q -> load out' q = load out q) /\
    (forall k, 0 <= k ->
       (forall j, i <= j < i + Z.of_nat n -> k <> read_slot s j) ->
       vget zero (mOlaBuf s') k = vget zero (mOlaBuf s) k /\
       vget zero (mNormBuf s') k = vget zero (mNormBuf s) k).
Proof.
  induction n as [|n IH]; intros i s out Hs Hi Hout Hmax Hn.
  - exists s, out. cbn [for_loop].
    split; [reflexivity|]. split; [reflexivity|]. split; [exact Hs|].
    split; [reflexivity|]. split; [intros j Hj; lia|].
    split; [reflexivity|]. intros k _ _. split; reflexivity.
  - cbn [for_loop]. cbn [pop_body]. fold (read_slot s i).
    pose proof (read_slot_range s i Hs ltac:(lia)) as Hri.
    set (idx := read_slot s i) in *.
    destruct (store_ok out i
                (normalized (vget zero (mOlaBuf s) idx)
                            (vget zero (mNormBuf s) idx)) ltac:(lia))
      as [o1 Es].
    rewrite Es. destruct (store_inv _ _ _ _ Es) as (_ & L1 & P1).
    set (s1 := set_rings s (vset (mOlaBuf s) idx zero)
                          (vset (mNormBuf s) idx zero)).
    assert (Hs1 : ring_ok s1).
    { destruct Hs as (Hm & Ho & Hn' & Hr). unfold ring_ok, s1. stft_fields.
      rewrite !vset_length. auto. }
    assert (Hslot : forall j, read_slot s1 j = read_slot s j) by reflexivity.
    destruct (IH (i + 1) s1 o1 Hs1) as
      (s' & out' & El & Hmeta & Hs' & L2 & Pin & Pout & Pkeep); try lia.
    exists s', out'. split; [exact El|].
    split; [rewrite Hmeta; reflexivity|]. split; [exact Hs'|].
    split; [congruence|].
    destruct Hs as (Hm & Ho & Hno & Hr).
    split; [|split].
    + intros j Hj. destruct (Z.eq_dec j i) as [-> | Hne].
      * fold idx. rewrite Pout by lia. rewrite P1, Z.eqb_refl.
        split; [reflexivity|].
        destruct (Pkeep idx ltac:(lia)) as [K1 K2].
        { intros j Hj'. rewrite Hslot.
          intros Heq. symmetry in Heq. revert Heq.
          apply read_slot_distinct; try lia.
          unfold ring_ok; auto. }
        rewrite K1, K2. unfold s1. stft_fields.
        rewrite !vget_vset by lia. now rewrite Z.eqb_refl.
      * destruct (Pin j ltac:(lia)) as (Q1 & Q2 & Q3).
        rewrite Hslot in Q1, Q2, Q3. unfold s1 in Q1. stft_fields_in Q1.
        assert (Hd : read_slot s j <> idx).
        { apply read_slot_distinct; try lia. unfold ring_ok; auto. }
        pose proof (read_slot_range s j ltac:(unfold ring_ok; auto)
                      ltac:(lia)) as Hrj.
        rewrite !vget_vset in Q1 by lia.
        destruct (Z.eqb_spec (read_slot s j) idx); [contradiction|].
        auto.
    + intros q Hq. rewrite Pout by lia. rewrite P1.
      destruct (Z.eqb_spec q i); [lia | reflexivity].
    + intros k Hk Hnot.
      destruct (Pkeep k Hk) as [K1 K2].
      { intros j Hj. rewrite Hslot. apply Hnot. lia. }
      rewrite K1, K2. unfold s1. stft_fields.
      assert (k <> idx) by (apply Hnot; lia).
      rewrite !vget_vset by lia.
      destruct (Z.eqb_spec k idx); [contradiction|]. auto.
Qed.

Lemma pop_loop_meta n : forall i s out,
  0 <= i -> i + Z.of_nat n <= Z.of_nat (length out) ->
  exists s' out',
    for_loop n i pop_body (Some (s, out)) = Some (s', out') /\
    meta s' = meta s /\ length out' = length out.
Proof.
  induction n as [|n IH]; intros i s out Hi Hout.
  - exists s, out. cbn [for_loop]. auto.
  - cbn [for_loop]. cbn [pop_body].
    match goal with |- context [store out i ?x] =>
      destruct (store_ok out i x ltac:(lia)) as [o1 Es] end.
    rewrite Es. destruct (store_inv _ _ _ _ Es) as (_ & L1 & _).
    match goal with |- context [for_loop n (i + 1) pop_body (Some (?a, o1))] =>
      destruct (IH (i + 1) a o1) as (s' & out' & El & Hm & L2); try lia end.
    exists s', out'. split; [exact El|]. split; [|congruence].
    rewrite Hm. reflexivity.
Qed.

Lemma popTimeDomain_counts s out16 maxFrames P Q :
  counts s P Q ->
  0 <= maxFrames <= Z.of_nat (length out16) ->
  kHOP * (P / kHOP) - Q <= INT32_MAX ->
  let want := Z.min maxFrames (kHOP * (P / kHOP) - Q) in
  exists s' out',
    popTimeDomain s out16 maxFrames = Some (s', out', want) /\
    counts s' P (Q + want) /\ length out' = length out16.
Proof.
  intros (Hp & Hq & Hf & Hh & Ha & HQ & HP & Hl) Hmax Hav want.
  unfold popTimeDomain. rewrite Ha.
  rewrite i32_id by (unfold in_i32, INT32_MAX in *; lia).
  fold want. assert (Hw : 0 <= want <= kHOP * (P / kHOP) - Q) by lia.
  destruct (pop_loop_meta (Z.to_nat want) 0 s out16) as
    (s1 & out' & El & Hm & L); try lia.
  rewrite El. exists (count_popped s1 want), out'.
  split; [reflexivity|]. split; [|exact L].
  apply meta_inv in Hm.
  destruct Hm as (M1 & M2 & M3 & M4 & M5 & M6 & M7 & M8 & M9).
  unfold counts, count_popped. stft_fields.
  rewrite M1, M2, M6, M7, M8, M9, Hp, Hq, Hf, Hh, Ha.
  unfold INT32_MAX, kHOP in *.
  assert (96 * (P / 96) <= P) by (Z.div_mod_to_equations; lia).
  rewrite (u64_id want) by (unfold in_u64; lia).
  rewrite !u64_id by (unfold in_u64; lia).
  repeat split; try assumption; lia.
Qed.

Lemma new_counts : counts (new cosf) 0 0.
Proof.
  unfold counts, new. cbv zeta. stft_fields.
  rewrite repeat_length. unfold kHOP. repeat split; try reflexivity; lia.
Qed.

Lemma step_counts s c P Q :
  counts s P Q -> in_limits P Q [c] ->
  exists s', step cosf sinf s c = Some s' /\
             counts s' (fst (tally P Q [c])) (snd (tally P Q [c])).
Proof.
  intros Hc Hl. destruct c as [mono16 frames | out16 maxFrames];
    cbn [in_limits] in Hl; cbn [step tally fst snd].
  - destruct Hl as (H1 & H2 & H3 & _).
    apply pushTimeDomain_counts; assumption.
  - destruct Hl as (H1 & H2 & _).
    destruct (popTimeDomain_counts s out16 maxFrames P Q Hc H1 H2)
      as (s' & out' & E & Hc' & _).
    rewrite E. exists s'. split; [reflexivity | exact Hc'].
Qed.

Lemma run_counts calls : forall s P Q,
  counts s P Q -> in_limits P Q calls ->
  exists s', run cosf sinf s calls = Some s' /\
             counts s' (fst (tally P Q calls)) (snd (tally P Q calls)).
Proof.
  induction calls as [|c calls IH]; intros s P Q Hc Hl.
  - exists s. split; [reflexivity | exact Hc].
  - assert (Hl1 : in_limits P Q [c]).
    { destruct c; cbn [in_limits] in *; intuition. }
    destruct (step_counts s c P Q Hc Hl1) as (s1 & E1 & Hc1).
    cbn [run]. rewrite E1.
    assert (Hl2 : in_limits (fst (tally P Q [c])) (snd (tally P Q [c]))
                            calls).
    { destruct c; cbn [in_limits tally fst snd] in *; intuition. }
    destruct (IH s1 _ _ Hc1 Hl2) as (s' & E & Hc').
    exists s'. split; [exact E|].
    destruct c; cbn [tally fst snd] in *; exact Hc'.
Qed.

Lemma tally_pushed calls : forall P Q,
  fst (tally P Q calls) = P + pushed_total calls.
Proof.
  induction calls as [|c calls IH]; intros P Q; cbn [tally pushed_total].
  - cbn. lia.
  - destruct c; rewrite IH; lia.
Qed.

Lemma in_limits_app a : forall b P Q,
  in_limits P Q (a ++ b) ->
  in_limits P Q a /\
  in_limits (fst (tally P Q a)) (snd (tally P Q a)) b.
Proof.
  induction a as [|c a IH]; intros b P Q H; cbn [app in_limits tally] in *.
  - cbn. auto.
  - destruct c.
    + destruct H as (H1 & H2 & H3 & H4). destruct (IH _ _ _ H4). auto 10.
    + destruct H as (H1 & H2 & H3). destruct (IH _ _ _ H3). auto 10.
Qed.

Lemma pushed_total_app a b :
  pushed_total (a ++ b) = pushed_total a + pushed_total b.
Proof.
  induction a as [|c a IH]; cbn [app pushed_total]; [lia|].
  destruct c; lia.
Qed.

End StftFacts.

(** ** StftProcessor: hops and counters *)

(** C2. Take any sequence of calls within the limits of their types,
    followed by a [pushTimeDomain] of [frames] samples. Each multiple of
    [H = 96] that the cumulative number of pushed samples crosses during
    that call makes exactly 96 new output samples available:
    [mAvail] grows by [96 * ((P + frames) / 96 - P / 96)]. When at least
    one hop completes, a [popTimeDomain (out, 96)] issued next returns
    exactly 96 and takes 96 samples. *)
Theorem stft_hop_quantum (cosf sinf : F32.float -> F32.float)
    (calls : list StftProcessor.call)
    (mono16 : list F32.float) (frames : Z) (out16 : list F32.float) :
  StftProcessor.in_limits 0 0
    (calls ++ [StftProcessor.Push mono16 frames; StftProcessor.Pop out16 96]) ->
  let P := StftProcessor.pushed_total calls in
  exists s1 s2,
    StftProcessor.run cosf sinf (StftProcessor.new cosf) calls = Some s1 /\
    StftProcessor.pushTimeDomain cosf sinf s1 mono16 frames = Some s2 /\
    StftProcessor.mAvail s2 =
      StftProcessor.mAvail s1 + 96 * ((P + frames) / 96 - P / 96) /\
    (P / 96 < (P + frames) / 96 ->
     exists s3 out',
       StftProcessor.popTimeDomain s2 out16 96 = Some (s3, out', 96) /\
       StftProcessor.mAvail s3 = StftProcessor.mAvail s2 - 96).
Proof.
  intros Hlim P.
  apply in_limits_app in Hlim. destruct Hlim as [Hl1 Hl2].
  destruct (run_counts cosf sinf calls _ 0 0 (new_counts cosf) Hl1)
    as (s1 & E1 & Hc1).
  rewrite tally_pushed in Hc1, Hl2. fold P in Hc1, Hl2.
  replace (0 + P) with P in * by lia.
  set (Q := snd (StftProcessor.tally 0 0 calls)) in *.
  cbn [StftProcessor.in_limits] in Hl2.
  destruct Hl2 as (H1 & H2 & H3 & H4 & H5 & _).
  destruct (pushTimeDomain_counts cosf sinf s1 mono16 frames P Q Hc1 H1 H2 H3)
    as (s2 & E2 & Hc2).
  exists s1, s2. split; [exact E1|]. split; [exact E2|].
  pose proof Hc1 as (_ & _ & _ & _ & Ha1 & _).
  pose proof Hc2 as (_ & _ & _ & _ & Ha2 & HQ2 & _).
  unfold StftProcessor.kHOP in *. split; [lia|].
  intros Hhop.
  destruct (popTimeDomain_counts s2 out16 96 (P + frames) Q Hc2 H4 H5)
    as (s3 & out' & E3 & (_ & _ & _ & _ & Ha3 & _) & _).
  unfold StftProcessor.kHOP in *.
  assert (Hq : 0 <= Q <= 96 * (P / 96)) by (destruct Hc1; intuition).
  replace (Z.min 96 (96 * ((P + frames) / 96) - Q)) with 96 in * by lia.
  exists s3, out'. split; [exact E3 | lia].
Qed.

Lemma stft_hop_quantum_witness :
  let calls := [StftProcessor.Push (repeat F32.one 50) 50] in
  let mono16 := repeat F32.one 100 in
  let out16 := repeat F32.zero 96 in
  let P := StftProcessor.pushed_total calls in
  exists s1 s2,
    StftProcessor.run Libm.cosf Libm.sinf (StftProcessor.new Libm.cosf) calls
      = Some s1 /\
    StftProcessor.pushTimeDomain Libm.cosf Libm.sinf s1 mono16 100 = Some s2
    /\
    StftProcessor.mAvail s2 =
      StftProcessor.mAvail s1 + 96 * ((P + 100) / 96 - P / 96) /\
    (P / 96 < (P + 100) / 96 ->
     exists s3 out',
       StftProcessor.popTimeDomain s2 out16 96 = Some (s3, out', 96) /\
       StftProcessor.mAvail s3 = StftProcessor.mAvail s2 - 96).
Proof.
  intros calls mono16 out16.
  apply (stft_hop_quantum Libm.cosf Libm.sinf calls mono16 100 out16).
  vm_compute. repeat split; discriminate.
Defined.

(** C4. Along any sequence of [pushTimeDomain] and [popTimeDomain] calls
    within the limits of their types, each call leaves [framesPushed],
    [framesPopped] and [hopsProcessed] equal or larger, and after it
    [framesPushed] is the cumulative number of samples pushed,
    [hopsProcessed] is that number divided by 96, rounded down, and
    [framesPopped <= framesPushed]. *)
Theorem stft_counter_invariant (cosf sinf : F32.float -> F32.float)
    (calls : list StftProcessor.call) (c : StftProcessor.call) :
  StftProcessor.in_limits 0 0 (calls ++ [c]) ->
  exists s1 s2,
    StftProcessor.run cosf sinf (StftProcessor.new cosf) calls = Some s1 /\
    StftProcessor.step cosf sinf s1 c = Some s2 /\
    StftProcessor.framesPushed s1 <= StftProcessor.framesPushed s2 /\
    StftProcessor.framesPopped s1 <= StftProcessor.framesPopped s2 /\
    StftProcessor.hopsProcessed s1 <= StftProcessor.hopsProcessed s2 /\
    StftProcessor.framesPushed s2 = StftProcessor.pushed_total (calls ++ [c])
    /\
    StftProcessor.hopsProcessed s2 =
      StftProcessor.pushed_total (calls ++ [c]) / 96 /\
    StftProcessor.framesPopped s2 <= StftProcessor.framesPushed s2.
Proof.
  intros Hlim.
  apply in_limits_app in Hlim. destruct Hlim as [Hl1 Hl2].
  destruct (run_counts cosf sinf calls _ 0 0 (new_counts cosf) Hl1)
    as (s1 & E1 & Hc1).
  destruct (step_counts cosf sinf s1 c _ _ Hc1 Hl2) as (s2 & E2 & Hc2).
  exists s1, s2. split; [exact E1|]. split; [exact E2|].
  rewrite pushed_total_app.
  assert (HP : fst (StftProcessor.tally 0 0 calls)
               = StftProcessor.pushed_total calls)
    by (rewrite tally_pushed; lia).
  set (P := StftProcessor.pushed_total calls) in *.
  set (Q := snd (StftProcessor.tally 0 0 calls)) in *.
  unfold StftProcessor.framesPushed, StftProcessor.framesPopped,
    StftProcessor.hopsProcessed.
  destruct c as [mono16 frames | out16 maxFrames];
    cbn [StftProcessor.tally StftProcessor.in_limits
         StftProcessor.pushed_total fst snd] in *;
    rewrite HP in *;
    destruct Hc1 as (Hp1 & Hq1 & _ & Hh1 & _ & HQ1 & HP1 & _);
    destruct Hc2 as (Hp2 & Hq2 & _ & Hh2 & _ & HQ2 & HP2 & _);
    rewrite Hp1, Hq1, Hh1, Hp2, Hq2, Hh2, Z.add_0_r;
    unfold StftProcessor.kHOP in *.
  - destruct Hl2 as (Hf & _).
    assert (P / 96 <= (P + frames) / 96) by (apply Z.div_le_mono; lia).
    assert (96 * ((P + frames) / 96) <= P + frames)
      by (Z.div_mod_to_equations; lia).
    repeat split; lia.
  - destruct Hl2 as (Hm & _).
    assert (96 * (P / 96) <= P) by (Z.div_mod_to_equations; lia).
    repeat split; lia.
Qed.

Lemma stft_counter_invariant_witness :
  let calls := [StftProcessor.Push (repeat F32.one 100) 100;
                StftProcessor.Pop (repeat F32.zero 200) 200;
                StftProcessor.Push (repeat F32.one 100) 100] in
  let c := StftProcessor.Pop (repeat F32.zero 96) 96 in
  exists s1 s2,
    StftProcessor.run Libm.cosf Libm.sinf (StftProcessor.new Libm.cosf) calls
      = Some s1 /\
    StftProcessor.step Libm.cosf Libm.sinf s1 c = Some s2 /\
    StftProcessor.framesPushed s1 <= StftProcessor.framesPushed s2 /\
    StftProcessor.framesPopped s1 <= StftProcessor.framesPopped s2 /\
    StftProcessor.hopsProcessed s1 <= StftProcessor.hopsProcessed s2 /\
    StftProcessor.framesPushed s2 = StftProcessor.pushed_total (calls ++ [c])
    /\
    StftProcessor.hopsProcessed s2 =
      StftProcessor.pushed_total (calls ++ [c]) / 96 /\
    StftProcessor.framesPopped s2 <= StftProcessor.framesPushed s2.
Proof.
  intros calls c.
  apply (stft_counter_invariant Libm.cosf Libm.sinf calls c).
  vm_compute. repeat split; discriminate.
Defined.

(** ** binary32: a quotient of finite numbers is not NaN *)

Lemma shr_1_nonneg mrs : 0 <= shr_m mrs -> 0 <= shr_m (shr_1 mrs).
Proof.
  destruct mrs as [m r s]. cbn [shr_m shr_1].
  destruct m as [|p|p]; [cbn; lia | destruct p; cbn; lia | lia].
Qed.

Lemma iter_shr_1_nonneg p : forall mrs,
  0 <= shr_m mrs -> 0 <= shr_m (iter_pos shr_1 p mrs).
Proof.
  induction p as [p IH | p IH |]; intros mrs H; cbn [iter_pos].
  - apply IH, IH, shr_1_nonneg, H.
  - apply IH, IH, H.
  - apply shr_1_nonneg, H.
Qed.

Lemma shr_nonneg mrs e n : 0 <= shr_m mrs -> 0 <= shr_m (fst (shr mrs e n)).
Proof.
  intros H. unfold shr. destruct n; cbn [fst]; try exact H.
  apply iter_shr_1_nonneg, H.
Qed.

Lemma shr_fexp_nonneg prec emax m e l :
  0 <= m -> 0 <= shr_m (fst (shr_fexp prec emax m e l)).
Proof.
  intros H. unfold shr_fexp. apply shr_nonneg.
  destruct l as [|[]]; exact H.
Qed.

Lemma round_nearest_even_nonneg m l : 0 <= m -> 0 <= round_nearest_even m l.
Proof.
  intros H. unfold round_nearest_even.
  destruct l as [|[]]; try lia. destruct (Z.even m); lia.
Qed.

Lemma binary_round_aux_not_nan prec emax sx mx ex lx :
  0 <= mx -> binary_round_aux prec emax sx mx ex lx <> S754_nan.
Proof.
  intros H. unfold binary_round_aux.
  pose proof (shr_fexp_nonneg prec emax mx ex lx H) as H1.
  destruct (shr_fexp prec emax mx ex lx) as [mrs' e']. cbn [fst] in H1.
  pose proof (shr_fexp_nonneg prec emax
                (round_nearest_even (shr_m mrs') (loc_of_shr_record mrs'))
                e' loc_Exact
                (round_nearest_even_nonneg _ _ H1)) as H2.
  destruct (shr_fexp prec emax _ e' loc_Exact) as [mrs'' e''].
  cbn [fst] in H2.
  destruct (shr_m mrs'') as [|p|p]; [discriminate | | lia].
  destruct (e'' <=? emax - prec); discriminate.
Qed.

Lemma SFdiv_core_nonneg prec emax m1 e1 m2 e2 :
  let '(q, _, _) := SFdiv_core_binary prec emax (Z.pos m1) e1 (Z.pos m2) e2 in
  0 <= q.
Proof.
  unfold SFdiv_core_binary.
  set (s := _ - _ - _).
  set (m' := match s with Z0 => Z.pos m1 | Z.pos _ => Z.shiftl (Z.pos m1) s
                        | Z.neg _ => 0 end).
  assert (Hm : 0 <= m').
  { unfold m'. destruct s; try lia. apply Z.shiftl_nonneg. lia. }
  pose proof (Z_div_mod m' (Z.pos m2) ltac:(lia)) as Hd.
  destruct (Z.div_eucl m' (Z.pos m2)) as [q r].
  destruct Hd as [Hd Hr]. nia.
Qed.

Lemma f32_div_finite_not_nan (o n : F32.float) :
  F32.is_finite o = true -> F32.gt n StftProcessor.kEps = true ->
  F32.is_nan (F32.div o n) = false.
Proof.
  intros Ho Hn.
  destruct n as [sn | sn | | sn mn en]; try discriminate Hn.
  - destruct o as [so | so | | so mo eo]; try discriminate Ho; reflexivity.
  - destruct o as [so | so | | so mo eo]; try discriminate Ho;
      [reflexivity|].
    unfold F32.div, SFdiv.
    pose proof (SFdiv_core_nonneg F32.prec F32.emax mo eo mn en) as Hq.
    destruct (SFdiv_core_binary F32.prec F32.emax (Z.pos mo) eo (Z.pos mn) en)
      as [[q e] l].
    pose proof (binary_round_aux_not_nan F32.prec F32.emax
                  (xorb so sn) q e l Hq) as Hnan.
    destruct (binary_round_aux _ _ _ _ _ _); try reflexivity.
    contradiction.
Qed.

Lemma f32_div_nan (o n : F32.float) :
  F32.is_nan o = true -> F32.div o n = S754_nan.
Proof.
  destruct o; try discriminate. intros _. destruct n; reflexivity.
Qed.

Lemma f32_protected_zero (o n : F32.float) :
  F32.gt n StftProcessor.kEps = false -> StftProcessor.normalized o n = F32.zero.
Proof. intros H. unfold StftProcessor.normalized. now rewrite H. Qed.

(** ** StftProcessor: what [popTimeDomain] emits *)

Section StftRing.
Import F32 StftProcessor.
Variables cosf sinf : float -> float.

Lemma rings_for_loop (body : Z -> t -> t) :
  (forall i s, rings (body i s) = rings s) ->
  forall n i s, rings (for_loop n i body s) = rings s.
Proof.
  intros Hb. induction n as [|n IH]; intros i s; cbn [for_loop].
  - reflexivity.
  - rewrite IH. apply Hb.
Qed.

Lemma rings_olaAdd_body blk i s : rings (olaAdd_body blk i s) = rings s.
Proof.
  unfold rings, olaAdd_body. stft_fields. now rewrite !vset_length.
Qed.

Lemma rings_processOneHop s : rings (processOneHop cosf sinf s) = rings s.
Proof.
  unfold processOneHop. cbv zeta. unfold olaAdd.
  match goal with |- context [for_loop ?n ?i (olaAdd_body ?b) ?a] =>
    pose proof (rings_for_loop (olaAdd_body b) (rings_olaAdd_body b) n i a)
      as H; revert H; generalize (for_loop n i (olaAdd_body b) a) end.
  intros s1 H. unfold rings in *. unfold count_hop, advance_write. stft_fields.
  stft_fields_in H. exact H.
Qed.

Lemma push_body_ring s mono16 frames idx s' idx' :
  push_body cosf sinf s mono16 frames idx = Some (s', idx') ->
  rings s' = rings s /\ mOlaRead s' = mOlaRead s.
Proof.
  unfold push_body.
  destruct (copy_n mono16 idx _ (mHopBuf s) (mHopFill s)) as [hb|];
    [|discriminate].
  intros [= <- _]. stft_fields.
  destruct (_ =? kHOP); [|split; reflexivity].
  unfold roll_history.
  match goal with |- context [processOneHop cosf sinf ?a] =>
    pose proof (rings_processOneHop a) as Hr;
    pose proof (meta_processOneHop cosf sinf a) as Hm;
    revert Hr Hm; generalize (processOneHop cosf sinf a) end.
  intros s1 Hr Hm. apply (f_equal (fun m => snd (fst (snd (fst m))))) in Hm.
  unfold rings in *. unfold meta in Hm. stft_fields. stft_fields_in Hr.
  cbn [fst snd] in Hm. stft_fields_in Hm. auto.
Qed.

Lemma push_loop_ring fuel : forall s mono16 frames idx s',
  push_loop cosf sinf fuel s mono16 frames idx = Some s' ->
  rings s' = rings s /\ mOlaRead s' = mOlaRead s.
Proof.
  induction fuel as [|fuel IH]; intros s mono16 frames idx s';
    cbn [push_loop]; destruct (idx <? frames);
    try discriminate; try (intros [= <-]; split; reflexivity).
  destruct (push_body cosf sinf s mono16 frames idx) as [[s1 idx1]|] eqn:E;
    [|discriminate].
  intros H. apply IH in H. apply push_body_ring in E.
  destruct H as [H1 H2], E as [E1 E2]. split; congruence.
Qed.

Lemma pop_loop_none n : forall i, for_loop n i pop_body None = None.
Proof. induction n as [|n IH]; intros i; cbn [for_loop]; auto. Qed.

Lemma pop_loop_ring n : forall i s out s' out',
  for_loop n i pop_body (Some (s, out)) = Some (s', out') ->
  rings s' = rings s /\ meta s' = meta s.
Proof.
  induction n as [|n IH]; intros i s out s' out'; cbn [for_loop].
  - intros [= <- _]. split; reflexivity.
  - cbn [pop_body]. destruct (store out i _) as [o1|].
    2:{ rewrite pop_loop_none. discriminate. }
    intros H. apply IH in H. destruct H as [H1 H2].
    rewrite H1, H2. unfold rings. stft_fields.
    now rewrite !vset_length.
Qed.

Lemma step_ring_ok s c s' :
  ring_ok s -> step cosf sinf s c = Some s' -> ring_ok s'.
Proof.
  intros (Hm & Ho & Hn & Hr). destruct c as [mono16 frames | out16 maxFrames];
    cbn [step].
  - unfold pushTimeDomain. intros H. apply push_loop_ring in H.
    destruct H as [H1 H2]. unfold rings, count_pushed in H1.
    stft_fields_in H1. injection H1 as L1 L2 L3.
    unfold count_pushed in H2. stft_fields_in H2.
    unfold ring_ok. rewrite L1, L2, L3, H2. auto.
  - unfold popTimeDomain.
    destruct (for_loop _ 0 pop_body (Some (s, out16))) as [[s1 o1]|] eqn:E;
      [|discriminate].
    intros [= <-]. apply pop_loop_ring in E. destruct E as [H1 H2].
    apply meta_inv in H2.
    destruct H2 as (_ & _ & _ & M4 & M5 & _).
    unfold rings in H1. injection H1 as L1 L2 L3.
    unfold ring_ok, count_popped. stft_fields.
    rewrite L1, L2, M5, Hm. repeat split; try assumption.
    + change (2 ^ 15 - 1) with (Z.ones 15). rewrite Z.land_ones by lia.
      apply Z.mod_pos_bound. lia.
    + change (2 ^ 15 - 1) with (Z.ones 15). rewrite Z.land_ones by lia.
      apply Z.mod_pos_bound. lia.
Qed.

Lemma new_ring_ok : ring_ok (new cosf).
Proof.
  unfold ring_ok, new. cbv zeta. stft_fields.
  rewrite !repeat_length.
  assert (E : Z.of_nat (Z.to_nat (2 ^ 15)) = 2 ^ 15) by (apply Z2Nat.id; lia).
  rewrite E. repeat split; lia.
Qed.

(** Every state that a sequence of calls reaches has a sound ring. *)
Lemma run_ring_ok calls : forall s s',
  ring_ok s -> run cosf sinf s calls = Some s' -> ring_ok s'.
Proof.
  induction calls as [|c calls IH]; intros s s' Hs; cbn [run].
  - now intros [= <-].
  - destruct (step cosf sinf s c) as [s1|] eqn:E; [|discriminate].
    apply IH. eapply step_ring_ok; eassumption.
Qed.

End StftRing.

(** What [popTimeDomain] emits on any state with a sound ring, reachable or
    not. A call of [popTimeDomain] that takes at most the 32768 samples of the ring emits,
    for each [i] below the returned count, the binary32 quotient
    [ola_ring[idx] / norm_ring[idx]] when [norm_ring[idx] > 1e-8f] and
    [0] otherwise (also when the norm is NaN), with
    [idx = (mOlaRead + i) & mOlaMask]; both ring slots hold [0] after the
    call. No division by a norm at or below the threshold takes place,
    and a sample whose accumulated value is finite is never emitted as
    NaN; an accumulated NaN over a norm above the threshold is emitted as
    NaN. *)
Theorem pop_normalization (s : StftProcessor.t) (out16 : list F32.float)
    (maxFrames : Z) :
  StftProcessor.ring_ok s ->
  0 <= StftProcessor.mAvail s <= INT32_MAX ->
  0 <= maxFrames <= Z.of_nat (length out16) ->
  Z.min maxFrames (StftProcessor.mAvail s) <= 2 ^ 15 ->
  let want := Z.min maxFrames (StftProcessor.mAvail s) in
  exists s' out',
    StftProcessor.popTimeDomain s out16 maxFrames = Some (s', out', want) /\
    forall i, 0 <= i < want ->
      let idx := StftProcessor.read_slot s i in
      let o := vget F32.zero (StftProcessor.mOlaBuf s) idx in
      let n := vget F32.zero (StftProcessor.mNormBuf s) idx in
      load out' i =
        Some (if F32.gt n StftProcessor.kEps then F32.div o n else F32.zero)
      /\
      vget F32.zero (StftProcessor.mOlaBuf s') idx = F32.zero /\
      vget F32.zero (StftProcessor.mNormBuf s') idx = F32.zero /\
      (F32.gt n StftProcessor.kEps = false -> load out' i = Some F32.zero) /\
      (F32.is_finite o = true ->
       exists y, load out' i = Some y /\ F32.is_nan y = false) /\
      (F32.is_nan o = true -> F32.gt n StftProcessor.kEps = true ->
       load out' i = Some S754_nan).
Proof.
  intros Hs Hav Hmax Hcap want. unfold StftProcessor.popTimeDomain.
  rewrite i32_id by (unfold in_i32, INT32_MAX in *; lia). fold want.
  destruct (pop_loop_spec (Z.to_nat want) 0 s out16 Hs) as
    (s1 & out' & El & _ & _ & _ & Pin & _); unfold INT32_MAX in *; try lia.
  rewrite El. do 2 eexists. split; [reflexivity|].
  intros i Hi. cbv zeta. destruct (Pin i ltac:(lia)) as (Q1 & Q2 & Q3).
  set (idx := StftProcessor.read_slot s i) in *.
  set (o := vget F32.zero (StftProcessor.mOlaBuf s) idx) in *.
  set (n := vget F32.zero (StftProcessor.mNormBuf s) idx) in *.
  unfold StftProcessor.normalized in Q1.
  unfold StftProcessor.count_popped. stft_fields.
  split; [exact Q1|]. split; [exact Q2|]. split; [exact Q3|].
  split; [|split].
  - intros Hn. rewrite Q1, Hn. reflexivity.
  - intros Ho. rewrite Q1. eexists. split; [reflexivity|].
    destruct (F32.gt n StftProcessor.kEps) eqn:Hn; [|reflexivity].
    apply f32_div_finite_not_nan; assumption.
  - intros Ho Hn. rewrite Q1, Hn. f_equal. apply f32_div_nan, Ho.
Qed.

Lemma ring_ok_set_rings (s : StftProcessor.t) (ola norm : list F32.float)
    (olaRead avail : Z) :
  StftProcessor.mOlaMask s = 2 ^ 15 - 1 ->
  Z.of_nat (length ola) = 2 ^ 15 -> Z.of_nat (length norm) = 2 ^ 15 ->
  0 <= olaRead < 2 ^ 15 ->
  StftProcessor.ring_ok
    (StftProcessor.set_cursors (StftProcessor.set_rings s ola norm)
                               0 olaRead avail).
Proof. intros H1 H2 H3 H4. unfold StftProcessor.ring_ok. auto. Qed.

Lemma pop_normalization_witness :
  let ola := vset (vset (vset (vset (repeat F32.zero (Z.to_nat 32768))
               32766 (F32.of_Z 6)) 32767 S754_nan) 0 F32.one) 1 (F32.of_Z 5) in
  let norm := vset (vset (vset (vset (repeat F32.zero (Z.to_nat 32768))
               32766 F32.two) 32767 F32.zero) 0 (F32.of_scaled 1 (-30)))
               1 F32.one in
  let s := StftProcessor.set_cursors
             (StftProcessor.set_rings (StftProcessor.new Libm.cosf) ola norm)
             0 32766 4 in
  let out16 := repeat F32.zero 4 in
  exists s' out',
    StftProcessor.popTimeDomain s out16 4 = Some (s', out', 4) /\
    forall i, 0 <= i < 4 ->
      let idx := StftProcessor.read_slot s i in
      let o := vget F32.zero (StftProcessor.mOlaBuf s) idx in
      let n := vget F32.zero (StftProcessor.mNormBuf s) idx in
      load out' i =
        Some (if F32.gt n StftProcessor.kEps then F32.div o n else F32.zero)
      /\
      vget F32.zero (StftProcessor.mOlaBuf s') idx = F32.zero /\
      vget F32.zero (StftProcessor.mNormBuf s') idx = F32.zero /\
      (F32.gt n StftProcessor.kEps = false -> load out' i = Some F32.zero) /\
      (F32.is_finite o = true ->
       exists y, load out' i = Some y /\ F32.is_nan y = false) /\
      (F32.is_nan o = true -> F32.gt n StftProcessor.kEps = true ->
       load out' i = Some S754_nan).
Proof.
  intros ola norm s out16.
  apply (pop_normalization s out16 4).
  - apply ring_ok_set_rings.
    + reflexivity.
    + unfold ola. now rewrite !vset_length, repeat_length, Z2Nat.id by lia.
    + unfold norm. now rewrite !vset_length, repeat_length, Z2Nat.id by lia.
    + lia.
  - change (StftProcessor.mAvail s) with 4. unfold INT32_MAX. lia.
  - change (Z.of_nat (length out16)) with 4. lia.
  - change (StftProcessor.mAvail s) with 4. lia.
Defined.

(** The call of the witness: the read wraps from slot 32767 to slot 0; the
    zero norm and the norm [2^-30] below the threshold give [0]. *)
Example pop_wrap_values :
  let ola := vset (vset (vset (vset (repeat F32.zero (Z.to_nat 32768))
               32766 (F32.of_Z 6)) 32767 S754_nan) 0 F32.one) 1 (F32.of_Z 5) in
  let norm := vset (vset (vset (vset (repeat F32.zero (Z.to_nat 32768))
               32766 F32.two) 32767 F32.zero) 0 (F32.of_scaled 1 (-30)))
               1 F32.one in
  let s := StftProcessor.set_cursors
             (StftProcessor.set_rings (StftProcessor.new Libm.cosf) ola norm)
             0 32766 4 in
  option_map (fun r => (snd (fst r), StftProcessor.mOlaRead (fst (fst r)),
                        StftProcessor.mAvail (fst (fst r))))
             (StftProcessor.popTimeDomain s (repeat F32.zero 4) 4)
  = Some ([F32.of_Z 3; F32.zero; F32.zero; F32.of_Z 5], 2, 0).
Proof. lazy. reflexivity. Qed.

(** Outside the range of samples: after one hop of NaN input every sample
    of the overlap-added block is NaN, and the samples whose squared window
    is above the threshold are emitted as NaN (here sample 95 of the first
    96; samples 0 and 1, with norm at most [1e-8], are 0). The guard tests
    the norm, not the accumulated value. *)
Lemma pop_emits_nan :
  match StftProcessor.pushTimeDomain Libm.cosf Libm.sinf
          (StftProcessor.new Libm.cosf) (repeat S754_nan 96) 96 with
  | None => None
  | Some s1 =>
      match StftProcessor.popTimeDomain s1 (repeat F32.zero 96) 96 with
      | None => None
      | Some (_, out', n) => Some (n, load out' 0, load out' 1, load out' 95)
      end
  end = Some (96, Some F32.zero, Some F32.zero, Some S754_nan).
Proof. vm_compute. reflexivity. Qed.

(** ** RingBuffer: reading *)

Section ReadFacts.
Context {A : Type}.
Implicit Types rb : @RingBuffer.t A.

Lemma ring_inv_available rb :
  RingBuffer.ring_inv rb ->
  RingBuffer.availableToRead rb
    = u64 (RingBuffer.mWrite rb - RingBuffer.mRead rb) /\
  0 <= RingBuffer.availableToRead rb <= RingBuffer.mCapacityFrames rb.
Proof.
  intros [(k & Hk & Hcap & _) Hle]. unfold RingBuffer.availableToRead.
  pose proof (pow2_le_2_30 k ltac:(lia)).
  pose proof (u64_range (RingBuffer.mWrite rb - RingBuffer.mRead rb)) as Hr.
  unfold in_u64 in Hr.
  rewrite i32_id by (unfold in_i32, INT32_MAX; lia). lia.
Qed.

Lemma readInterleaved_spec rb (dst : list A) n :
  RingBuffer.ring_inv rb ->
  let got := Z.max 0 (Z.min n (RingBuffer.availableToRead rb)) in
  got * RingBuffer.mChannels rb <= Z.of_nat (length dst) ->
  exists rb' o1,
    RingBuffer.readInterleaved rb dst n = Some (rb', o1, got) /\
    RingBuffer.ring_inv rb' /\
    RingBuffer.mChannels rb' = RingBuffer.mChannels rb /\
    RingBuffer.availableToRead rb' = RingBuffer.availableToRead rb - got /\
    length o1 = length dst /\
    (forall i : nat, got * RingBuffer.mChannels rb <= Z.of_nat i ->
                     nth_error o1 i = nth_error dst i) /\
    (got = 0 -> rb' = rb /\ o1 = dst).
Proof.
  intros Hinv got Hdst.
  destruct (ring_inv_available rb Hinv) as [Hav Hrange].
  destruct Hinv as [Hwf Hle]. pose proof Hwf as Hwf0.
  destruct Hwf as (k & Hk & Hcap & Hmask & Hch & Hlen & Hr & Hw).
  pose proof (pow2_le_2_30 k ltac:(lia)) as Hpk.
  set (a := RingBuffer.availableToRead rb) in *.
  set (ch := RingBuffer.mChannels rb) in *.
  unfold RingBuffer.readInterleaved. fold a. fold got.
  destruct (Z.eqb_spec got 0) as [Hz | Hnz].
  { exists rb, dst. rewrite Hz, Z.sub_0_r.
    split; [reflexivity|]. split; [split; assumption|]. auto 10. }
  assert (Hgot : 1 <= got <= a) by lia.
  rewrite (slot_mod rb k Hk Hmask), (masked_mod rb k Hk Hmask), Hcap.
  pose proof (Z.mod_pos_bound (RingBuffer.mRead rb) (2 ^ k) ltac:(lia)) as Hpos.
  set (pos := RingBuffer.mRead rb mod 2 ^ k) in *.
  rewrite (i32_id (2 ^ k - pos)) by (unfold in_i32, INT32_MAX; lia).
  set (first := Z.min got (2 ^ k - pos)).
  rewrite (i32_id (got - first)) by (unfold in_i32, INT32_MAX; lia).
  set (second := got - first).
  rewrite !(offset_mul rb) by (fold ch; lia).
  rewrite !(floats_mul rb) by (fold ch; lia).
  fold ch.
  assert (Hsec : 0 <= second <= pos) by (unfold second, first; lia).
  assert (Hfirst : 1 <= first <= 2 ^ k - pos) by (unfold first; lia).
  assert (Hsum : first + second = got) by (unfold second; lia).
  assert (Hb : 0 <= first * ch) by (apply Z.mul_nonneg_nonneg; lia).
  assert (Hp : 0 <= pos * ch) by (apply Z.mul_nonneg_nonneg; lia).
  assert (Hc : 0 <= second * ch <= pos * ch).
  { split; [apply Z.mul_nonneg_nonneg; lia|].
    apply Z.mul_le_mono_nonneg_r; lia. }
  assert (Ha : pos * ch + first * ch <= 2 ^ k * ch).
  { rewrite <- Z.mul_add_distr_r. apply Z.mul_le_mono_nonneg_r; lia. }
  assert (Hn' : first * ch + second * ch = got * ch).
  { rewrite <- Z.mul_add_distr_r. now rewrite Hsum. }
  destruct (memcpy_ok dst 0 (RingBuffer.mData rb) (pos * ch) (first * ch))
    as [o1 H1]; try lia.
  pose proof (memcpy_length _ _ _ _ _ _ H1) as L1.
  destruct (memcpy_ok o1 (first * ch) (RingBuffer.mData rb) 0 (second * ch))
    as [o2 H2]; try lia.
  pose proof (memcpy_length _ _ _ _ _ _ H2) as L2.
  rewrite H1.
  assert (Hif : exists o,
             (if 0 <? second
              then memcpy o1 (first * ch) (RingBuffer.mData rb) 0 (second * ch)
              else Some o1) = Some o /\
             length o = length dst /\
             forall i : nat, got * ch <= Z.of_nat i ->
                             nth_error o i = nth_error dst i).
  { assert (Ho1 : forall i : nat, first * ch <= Z.of_nat i ->
                                  nth_error o1 i = nth_error dst i).
    { intros i Hi. rewrite (memcpy_nth_error _ _ _ _ _ _ i H1).
      destruct (Z.ltb_spec (Z.of_nat i) (0 + first * ch)); [lia|].
      now rewrite andb_false_r. }
    destruct (Z.ltb_spec 0 second).
    - exists o2. split; [exact H2|]. split; [congruence|].
      intros i Hi. rewrite (memcpy_nth_error _ _ _ _ _ _ i H2).
      destruct (Z.ltb_spec (Z.of_nat i) (first * ch + second * ch)); [lia|].
      rewrite andb_false_r. apply Ho1. lia.
    - exists o1. split; [reflexivity|]. split; [exact L1|].
      intros i Hi. apply Ho1. lia. }
  destruct Hif as (o & Eo & Lo & Po). rewrite Eo.
  do 2 eexists. split; [reflexivity|].
  assert (Hnew : u64 (RingBuffer.mWrite rb
                      - u64 (RingBuffer.mRead rb + got)) = a - got).
  { unfold u64 in *. rewrite Zminus_mod_idemp_r.
    replace (RingBuffer.mWrite rb - (RingBuffer.mRead rb + got))
      with (RingBuffer.mWrite rb - RingBuffer.mRead rb - got) by lia.
    rewrite <- Zminus_mod_idemp_l. rewrite <- Hav.
    apply Z.mod_small. lia. }
  split; [|split; [reflexivity|split; [|split; [assumption|split;
    [assumption | intros; contradiction]]]]].
  - split.
    + exists k. cbn [RingBuffer.mData RingBuffer.mChannels
                     RingBuffer.mCapacityFrames RingBuffer.mMask
                     RingBuffer.mRead RingBuffer.mWrite].
      split; [exact Hk|]. split; [reflexivity || exact Hcap|].
      split; [reflexivity || exact Hmask|].
      split; [exact Hch|]. split; [exact Hlen|].
      split; [apply u64_range | exact Hw].
    + cbn [RingBuffer.mRead RingBuffer.mWrite RingBuffer.mCapacityFrames].
      rewrite Hnew. lia.
  - unfold RingBuffer.availableToRead.
    cbn [RingBuffer.mRead RingBuffer.mWrite]. rewrite Hnew.
    apply i32_id. unfold in_i32, INT32_MAX. lia.
Qed.

End ReadFacts.

(** ** FullDuplexEngine: [pullTo] *)

Section PullFacts.
Import F32 FullDuplexEngine.

Lemma read_at_0 rb out n :
  read_at rb out 0 n = RingBuffer.readInterleaved rb out n.
Proof.
  unfold read_at. cbn [Z.leb Z.compare andb Z.to_nat skipn firstn app].
  destruct (Z.leb_spec 0 (Z.of_nat (length out))); [|lia].
  destruct (RingBuffer.readInterleaved rb out n) as [[[rb' d] got]|];
    reflexivity.
Qed.

Lemma read_at_empty rb out off n :
  RingBuffer.ring_inv rb -> RingBuffer.availableToRead rb = 0 ->
  0 <= off <= Z.of_nat (length out) ->
  read_at rb out off n = Some (rb, out, 0).
Proof.
  intros Hinv Hav Hoff. unfold read_at.
  destruct (Z.leb_spec 0 off); [|lia].
  destruct (Z.leb_spec off (Z.of_nat (length out))); [|lia]. cbn [andb].
  unfold RingBuffer.readInterleaved. rewrite Hav.
  replace (Z.max 0 (Z.min n 0)) with 0 by lia.
  cbn [Z.eqb]. now rewrite firstn_skipn.
Qed.

Lemma memset0_spec out off n :
  0 <= off -> 0 <= n -> off + n <= Z.of_nat (length out) ->
  exists out',
    memset0 out off n = Some out' /\ length out' = length out /\
    forall i : nat,
      nth_error out' i =
        if (off <=? Z.of_nat i) && (Z.of_nat i <? off + n)
        then Some zero else nth_error out i.
Proof.
  intros Hoff Hn Hlen. unfold memset0.
  destruct (Z.leb_spec 0 off); [|lia]. destruct (Z.leb_spec 0 n); [|lia].
  destruct (Z.leb_spec (off + n) (Z.of_nat (length out))); [|lia].
  cbn [andb]. eexists. split; [reflexivity|]. split.
  - rewrite !length_app, length_firstn, repeat_length, length_skipn. lia.
  - intros i. rewrite nth_error_app, length_firstn.
    replace (Nat.min (Z.to_nat off) (length out)) with (Z.to_nat off) by lia.
    destruct (Nat.ltb_spec i (Z.to_nat off)).
    + destruct (Z.leb_spec off (Z.of_nat i)); [lia|]. cbn [andb].
      rewrite nth_error_firstn.
      destruct (Nat.ltb_spec i (Z.to_nat off)); [reflexivity | lia].
    + destruct (Z.leb_spec off (Z.of_nat i)); [|lia]. cbn [andb].
      rewrite nth_error_app, repeat_length.
      destruct (Nat.ltb_spec (i - Z.to_nat off) (Z.to_nat n)).
      * destruct (Z.ltb_spec (Z.of_nat i) (off + n)); [|lia].
        apply nth_error_repeat. lia.
      * destruct (Z.ltb_spec (Z.of_nat i) (off + n)); [lia|].
        rewrite nth_error_skipn. f_equal. lia.
Qed.

(** Offsets and counts of [pullTo] stay in the range of [size_t]. *)
Lemma pull_offset f ch :
  0 <= f <= INT32_MAX -> 1 <= ch <= INT32_MAX ->
  u64 (u64 f * u64 ch) = f * ch /\
  u64 (u64 (u64 f * u64 ch) * 4) / 4 = f * ch.
Proof.
  unfold INT32_MAX. intros Hf Hch.
  assert (0 <= f * ch <= (2 ^ 31 - 1) * (2 ^ 31 - 1)).
  { split; [apply Z.mul_nonneg_nonneg; lia|].
    apply Z.mul_le_mono_nonneg; lia. }
  rewrite (u64_id f), (u64_id ch) by (unfold in_u64; lia).
  rewrite (u64_id (f * ch)) by (unfold in_u64; lia).
  split; [reflexivity|].
  rewrite u64_id by (unfold in_u64; lia). apply Z.div_mul. lia.
Qed.

End PullFacts.

(** C8. With the clock reading of the call as an input and no write to the
    ring during the call: for every [numFrames], [pullTo] returns
    [numFrames]. It delivers the [got = min (numFrames, available)] frames
    (none for a negative count) that [readInterleaved] gives; when
    [got < numFrames] the remainder of [out], up to [numFrames] frames, is
    filled with [0.0f], and the deficit [numFrames - got] is added to
    [mUnderflows] if and only if the clock is at least 300 ms past
    [mStartTime]; otherwise the counter is unchanged. *)
Theorem pullTo_semantics (e : FullDuplexEngine.t) (out : list F32.float)
    (numFrames now : Z) :
  RingBuffer.ring_inv (FullDuplexEngine.mOutRing e) ->
  RingBuffer.mChannels (FullDuplexEngine.mOutRing e)
    = FullDuplexEngine.outChannelCount e ->
  in_i32 numFrames ->
  numFrames * FullDuplexEngine.outChannelCount e <= Z.of_nat (length out) ->
  in_i64 (now - FullDuplexEngine.mStartTime e) ->
  0 <= FullDuplexEngine.mUnderflows e < 2 ^ 62 ->
  let ch := FullDuplexEngine.outChannelCount e in
  let got :=
    Z.max 0 (Z.min numFrames
                   (RingBuffer.availableToRead (FullDuplexEngine.mOutRing e)))
  in
  exists e' out' rb' o1,
    FullDuplexEngine.pullTo e out numFrames now = Some (e', out', numFrames)
    /\
    RingBuffer.readInterleaved (FullDuplexEngine.mOutRing e) out numFrames
      = Some (rb', o1, got) /\
    FullDuplexEngine.mOutRing e' = rb' /\
    (forall i : nat, Z.of_nat i < got * ch ->
                     nth_error out' i = nth_error o1 i) /\
    (forall i : nat, got * ch <= Z.of_nat i < numFrames * ch ->
                     nth_error out' i = Some F32.zero) /\
    (forall i : nat, got * ch <= Z.of_nat i -> numFrames * ch <= Z.of_nat i ->
                     nth_error out' i = nth_error out i) /\
    FullDuplexEngine.mUnderflows e' =
      if (got <? numFrames)
         && (FullDuplexEngine.warmup_ns
             <=? now - FullDuplexEngine.mStartTime e)
      then FullDuplexEngine.mUnderflows e + (numFrames - got)
      else FullDuplexEngine.mUnderflows e.
Proof.
  intros Hinv Hchan Hn Hout Hnow Hund ch got.
  set (rb := FullDuplexEngine.mOutRing e) in *.
  destruct (ring_inv_available rb Hinv) as [_ Hav].
  pose proof Hinv as [(k & Hk & Hcap & _ & Hch & _) _].
  rewrite Hchan in Hch. fold ch in Hch, Hout.
  pose proof (pow2_le_2_30 k ltac:(lia)) as Hpk.
  set (a := RingBuffer.availableToRead rb) in *.
  assert (Hgotr : 0 <= got <= a) by (unfold got; lia).
  assert (Hgc : got * ch <= Z.of_nat (length out)).
  { destruct (Z_le_gt_dec numFrames 0).
    - replace got with 0 by (unfold got; lia). lia.
    - assert (got * ch <= numFrames * ch)
        by (apply Z.mul_le_mono_nonneg_r; unfold got; lia). lia. }
  destruct (readInterleaved_spec rb out numFrames Hinv) as
    (rb1 & o1 & E1 & Hinv1 & Hch1 & Hav1 & L1 & P1 & Pz).
  { fold a. fold got. rewrite Hchan. exact Hgc. }
  fold a in E1, Hav1. fold got in E1, Hav1, P1, Pz.
  rewrite Hchan in P1. fold ch in P1.
  unfold in_i32, INT32_MAX, in_i64 in *.
  unfold FullDuplexEngine.pullTo. fold rb. fold ch.
  destruct (Z_le_gt_dec numFrames 0) as [Hneg | Hpos].
  - (* nothing is asked for *)
    assert (Hg0 : got = 0) by (unfold got; lia).
    destruct (Pz Hg0) as [-> ->].
    replace (Z.to_nat numFrames) with 0%nat by lia.
    cbn [FullDuplexEngine.pull_loop].
    assert (E0 : (0 <? numFrames) = false) by (apply Z.ltb_ge; lia).
    rewrite E0. cbv beta iota. rewrite E0.
    exists (FullDuplexEngine.mk rb ch (FullDuplexEngine.mUnderflows e)
                                (FullDuplexEngine.mStartTime e)), out, rb, out.
    rewrite Hg0 in *. split; [reflexivity|]. split; [exact E1|].
    split; [reflexivity|]. split; [reflexivity|].
    split; [intros i Hi; lia|]. split; [reflexivity|].
    cbn [FullDuplexEngine.mUnderflows]. rewrite E0. reflexivity.
  - assert (Hg : got = Z.min numFrames a) by (unfold got; lia).
    destruct (Z.to_nat numFrames) as [|fuel] eqn:Efuel; [lia|].
    cbn [FullDuplexEngine.pull_loop].
    destruct (Z.ltb_spec 0 numFrames); [|lia].
    change (u64 0) with 0. rewrite Z.mul_0_l. change (u64 0) with 0.
    rewrite Z.sub_0_r, (i32_id numFrames)
      by (unfold in_i32, INT32_MAX; lia).
    rewrite read_at_0, E1.
    (* the state after the loop *)
    assert (Hloop :
      (if got <=? 0 then Some (rb1, o1, 0)
       else FullDuplexEngine.pull_loop fuel rb1 ch o1 numFrames
              (i32 (0 + got))) = Some (rb1, o1, got)).
    { destruct (Z.leb_spec got 0) as [Hz | Hnz].
      - replace got with 0 by lia. reflexivity.
      - rewrite Z.add_0_l, (i32_id got)
          by (unfold in_i32, INT32_MAX; lia).
        destruct fuel as [|fuel']; cbn [FullDuplexEngine.pull_loop];
          destruct (Z.ltb_spec got numFrames) as [Hlt | Hge];
          try reflexivity; try lia.
        destruct (pull_offset got ch ltac:(unfold INT32_MAX; lia) Hch)
          as [Eoff _].
        rewrite Eoff, read_at_empty; try assumption; try lia.
        reflexivity. }
    rewrite Hloop. cbv beta iota.
    destruct (Z.ltb_spec got numFrames) as [Hshort | Hfull].
    + (* short: zero fill *)
      destruct (pull_offset got ch ltac:(unfold INT32_MAX; lia) Hch)
        as [Eoff _].
      rewrite (i32_id (numFrames - got))
        by (unfold in_i32, INT32_MAX; lia).
      destruct (pull_offset (numFrames - got) ch
                  ltac:(unfold INT32_MAX; lia) Hch) as [_ Ecnt].
      rewrite Eoff, Ecnt.
      assert (Hg0 : 0 <= got * ch) by (apply Z.mul_nonneg_nonneg; lia).
      assert (Hr0 : 0 <= (numFrames - got) * ch)
        by (apply Z.mul_nonneg_nonneg; lia).
      assert (Hsum : got * ch + (numFrames - got) * ch = numFrames * ch)
        by (rewrite <- Z.mul_add_distr_r; f_equal; lia).
      destruct (memset0_spec o1 (got * ch) ((numFrames - got) * ch))
        as (o2 & E2 & L2 & P2); try lia.
      rewrite E2. do 4 eexists. split; [reflexivity|].
      split; [reflexivity|]. split; [reflexivity|].
      split; [|split; [|split]].
      * intros i Hi. rewrite P2.
        destruct (Z.leb_spec (got * ch) (Z.of_nat i)); [lia | reflexivity].
      * intros i Hi. rewrite P2.
        destruct (Z.leb_spec (got * ch) (Z.of_nat i)); [|lia].
        destruct (Z.ltb_spec (Z.of_nat i)
                             (got * ch + (numFrames - got) * ch)); [|lia].
        reflexivity.
      * intros i Hi1 Hi2. rewrite P2.
        destruct (Z.ltb_spec (Z.of_nat i)
                             (got * ch + (numFrames - got) * ch)); [lia|].
        rewrite andb_false_r. apply P1. exact Hi1.
      * cbn [FullDuplexEngine.mUnderflows andb].
        unfold i64. rewrite (Z.mod_small (now - _ + 2 ^ 63)) by lia.
        replace (now - FullDuplexEngine.mStartTime e + 2 ^ 63 - 2 ^ 63)
          with (now - FullDuplexEngine.mStartTime e) by lia.
        destruct (Z.ltb_spec (now - FullDuplexEngine.mStartTime e)
                             FullDuplexEngine.warmup_ns);
          destruct (Z.leb_spec FullDuplexEngine.warmup_ns
                               (now - FullDuplexEngine.mStartTime e));
          try lia; cbn [negb]; [reflexivity|].
        rewrite Z.mod_small by lia. lia.
    + (* all frames delivered *)
      assert (got = numFrames) by lia.
      do 4 eexists. split; [reflexivity|]. split; [reflexivity|].
      split; [reflexivity|]. split; [reflexivity|].
      split; [intros i Hi; lia|]. split; [intros i Hi _; apply P1, Hi|].
      reflexivity.
Qed.

Lemma pullTo_semantics_witness :
  let rb := {| RingBuffer.mData :=
                 map F32.of_Z [1; 2; 3; 4; 0; 0; 0; 0];
               RingBuffer.mChannels := 2;
               RingBuffer.mCapacityFrames := 4;
               RingBuffer.mMask := 3;
               RingBuffer.mRead := 0;
               RingBuffer.mWrite := 2 |} in
  let e := FullDuplexEngine.mk rb 2 7 1000 in
  let out := repeat F32.one 8 in
  let now := 1000 + 300 * 1000000 in
  exists e' out' rb' o1,
    FullDuplexEngine.pullTo e out 3 now = Some (e', out', 3) /\
    RingBuffer.readInterleaved rb out 3 = Some (rb', o1, 2) /\
    FullDuplexEngine.mOutRing e' = rb' /\
    (forall i : nat, Z.of_nat i < 2 * 2 -> nth_error out' i = nth_error o1 i)
    /\
    (forall i : nat, 2 * 2 <= Z.of_nat i < 3 * 2 ->
                     nth_error out' i = Some F32.zero) /\
    (forall i : nat, 2 * 2 <= Z.of_nat i -> 3 * 2 <= Z.of_nat i ->
                     nth_error out' i = nth_error out i) /\
    FullDuplexEngine.mUnderflows e' = 7 + (3 - 2).
Proof.
  intros rb e out now.
  apply (pullTo_semantics e out 3 now).
  - split.
    + exists 2. unfold in_u64, INT32_MAX. cbn. repeat split; lia.
    + vm_compute. discriminate.
  - reflexivity.
  - unfold in_i32, INT32_MAX. lia.
  - cbn. lia.
  - unfold in_i64. cbn. lia.
  - cbn. lia.
Defined.

(** The call of the witness, and the same call inside the warm-up window:
    two frames delivered, one frame of silence; the counter moves only in
    the first. *)
Example pullTo_short_ring :
  let rb := {| RingBuffer.mData :=
                 map F32.of_Z [1; 2; 3; 4; 0; 0; 0; 0];
               RingBuffer.mChannels := 2;
               RingBuffer.mCapacityFrames := 4;
               RingBuffer.mMask := 3;
               RingBuffer.mRead := 0;
               RingBuffer.mWrite := 2 |} in
  let e := FullDuplexEngine.mk rb 2 7 1000 in
  let run now :=
    option_map (fun r => (snd (fst r), snd r,
                          FullDuplexEngine.mUnderflows (fst (fst r))))
               (FullDuplexEngine.pullTo e (repeat F32.one 8) 3 now) in
  run (1000 + 300 * 1000000)
    = Some (map F32.of_Z [1; 2; 3; 4; 0; 0] ++ [F32.one; F32.one], 3, 8) /\
  run (1000 + 300 * 1000000 - 1)
    = Some (map F32.of_Z [1; 2; 3; 4; 0; 0] ++ [F32.one; F32.one], 3, 7).
Proof. split; reflexivity. Qed.

(** ** RingBuffer: the ring as a bounded queue *)

Ltac split_test :=
  match goal with
  | |- context [Z.ltb ?a ?b] => destruct (Z.ltb_spec a b)
  | |- context [Z.leb ?a ?b] => destruct (Z.leb_spec a b)
  | |- context [Nat.ltb ?a ?b] => destruct (Nat.ltb_spec a b)
  end; cbn [andb]; try lia.

Ltac split_tests := repeat split_test.

Section Circular.
Context {A : Type}.
Implicit Types data src dst : list A.

Lemma two_segments_nth data src d1 d2 (W first sec : Z) (j : nat) :
  memcpy data W src 0 first = Some d1 ->
  memcpy d1 0 src first sec = Some d2 ->
  nth_error d2 j =
    if Z.of_nat j <? sec
    then nth_error src (Z.to_nat (first + Z.of_nat j))
    else if (W <=? Z.of_nat j) && (Z.of_nat j <? W + first)
         then nth_error src (Z.to_nat (Z.of_nat j - W))
         else nth_error data j.
Proof.
  intros H1 H2.
  rewrite (memcpy_nth_error _ _ _ _ _ _ j H2),
          (memcpy_nth_error _ _ _ _ _ _ j H1).
  split_tests; try reflexivity; f_equal; lia.
Qed.

Lemma circ_write data src d1 d2 (R Aa F W : Z) :
  let L := Z.of_nat (length data) in
  0 <= R < L -> 0 <= Aa -> 0 <= F -> Aa + F <= L ->
  F <= Z.of_nat (length src) ->
  (W = R + Aa /\ R + Aa < L) \/ (W = R + Aa - L /\ L <= R + Aa) ->
  let first := Z.min F (L - W) in
  memcpy data W src 0 first = Some d1 ->
  memcpy d1 0 src first (F - first) = Some d2 ->
  firstn (Z.to_nat (Aa + F)) (skipn (Z.to_nat R) (d2 ++ d2))
  = firstn (Z.to_nat Aa) (skipn (Z.to_nat R) (data ++ data))
    ++ firstn (Z.to_nat F) src.
Proof.
  intros L HR HA HF Hfit Hsrc HW first H1 H2.
  assert (Ld2 : length d2 = length data).
  { rewrite (memcpy_length _ _ _ _ _ _ H2).
    apply (memcpy_length _ _ _ _ _ _ H1). }
  pose proof (fun j => two_segments_nth data src d1 d2 W first _ j H1 H2) as N.
  apply nth_error_ext. intros i.
  rewrite nth_error_app, length_firstn, length_skipn, length_app.
  rewrite !nth_error_firstn, !nth_error_skipn, !nth_error_app, Ld2, !N.
  fold L. subst first.
  destruct (Z.min_spec F (L - W)) as [[Hm ->] | [Hm ->]];
  destruct HW as [[-> HW] | [-> HW]]; try lia;
  split_tests; try reflexivity; try (f_equal; lia).
Qed.

Lemma circ_read data dst o1 o2 (R G : Z) :
  let L := Z.of_nat (length data) in
  0 <= R < L -> 0 <= G <= L -> G <= Z.of_nat (length dst) ->
  let first := Z.min G (L - R) in
  memcpy dst 0 data R first = Some o1 ->
  memcpy o1 first data 0 (G - first) = Some o2 ->
  o2 = firstn (Z.to_nat G) (skipn (Z.to_nat R) (data ++ data))
       ++ skipn (Z.to_nat G) dst.
Proof.
  intros L HR HG Hdst first H1 H2.
  apply nth_error_ext. intros i.
  rewrite (memcpy_nth_error _ _ _ _ _ _ i H2),
          (memcpy_nth_error _ _ _ _ _ _ i H1).
  rewrite nth_error_app, length_firstn, length_skipn, length_app.
  rewrite !nth_error_firstn, !nth_error_skipn, !nth_error_app.
  fold L. subst first.
  destruct (Z.min_spec G (L - R)) as [[Hm ->] | [Hm ->]];
  split_tests; try reflexivity; try (f_equal; lia).
Qed.

Lemma circ_advance data (R Aa G R' : Z) :
  let L := Z.of_nat (length data) in
  0 <= R < L -> 0 <= G <= Aa -> Aa <= L ->
  (R' = R + G /\ R + G < L) \/ (R' = R + G - L /\ L <= R + G) ->
  firstn (Z.to_nat (Aa - G)) (skipn (Z.to_nat R') (data ++ data))
  = skipn (Z.to_nat G)
          (firstn (Z.to_nat Aa) (skipn (Z.to_nat R) (data ++ data))).
Proof.
  intros L HR HG HA HR'.
  apply nth_error_ext. intros i.
  rewrite !nth_error_skipn, !nth_error_firstn, !nth_error_skipn,
          !nth_error_app.
  fold L.
  destruct HR' as [[-> HR'] | [-> HR']];
  split_tests; try reflexivity; try (f_equal; lia).
  all: rewrite nth_error_None_iff || symmetry; apply nth_error_None; lia.
Qed.

End Circular.

Section QueueFacts.
Context {A : Type}.
Implicit Types rb : @RingBuffer.t A.

Lemma mod_pow2_u64 x k : 0 <= k <= 64 -> (x mod 2 ^ 64) mod 2 ^ k = x mod 2 ^ k.
Proof.
  intros Hk. apply Z.mod_mod_divide.
  exists (2 ^ (64 - k)). rewrite <- Z.pow_add_r by lia. f_equal. lia.
Qed.

(** The slot of the write counter is the slot of the read counter advanced by
    the number of waiting frames. *)
Lemma write_slot rb k :
  1 <= k <= 30 ->
  let C := 2 ^ k in
  let a := u64 (RingBuffer.mWrite rb - RingBuffer.mRead rb) in
  a <= C ->
  let rp := RingBuffer.mRead rb mod C in
  let wp := RingBuffer.mWrite rb mod C in
  (wp = rp + a /\ rp + a < C) \/ (wp = rp + a - C /\ C <= rp + a).
Proof.
  intros Hk C a Ha rp wp.
  pose proof (pow2_le_2_30 k ltac:(lia)) as Hpk. fold C in Hpk.
  assert (E : wp = (rp + a) mod C).
  { unfold wp, rp, a, u64, C.
    rewrite Zplus_mod_idemp_l, <- Zplus_mod_idemp_r, mod_pow2_u64 by lia.
    rewrite Zplus_mod_idemp_r. f_equal. lia. }
  pose proof (Z.mod_pos_bound (RingBuffer.mRead rb) C ltac:(lia)) as Hr.
  fold rp in Hr.
  pose proof (u64_range (RingBuffer.mWrite rb - RingBuffer.mRead rb)) as Hu.
  unfold in_u64 in Hu. fold a in Hu.
  destruct (Z_lt_le_dec (rp + a) C).
  - left. split; [|assumption]. rewrite E. apply Z.mod_small. lia.
  - right. split; [|assumption]. rewrite E. symmetry.
    apply (Z.mod_unique _ _ 1); lia.
Qed.

Lemma contents_eq rb k :
  1 <= k <= 30 -> RingBuffer.mMask rb = 2 ^ k - 1 ->
  RingBuffer.ring_inv rb ->
  RingQueue.contents rb =
    firstn (Z.to_nat (u64 (RingBuffer.mWrite rb - RingBuffer.mRead rb)
                      * RingBuffer.mChannels rb))
           (skipn (Z.to_nat (RingBuffer.mRead rb mod 2 ^ k
                             * RingBuffer.mChannels rb))
                  (RingBuffer.mData rb ++ RingBuffer.mData rb)).
Proof.
  intros Hk Hmask Hinv. unfold RingQueue.contents.
  rewrite (slot_mod rb k Hk Hmask).
  now rewrite (proj1 (ring_inv_available rb Hinv)).
Qed.

(** What a write does to the frames that wait; the runs of calls, the
    priming and the theorem below rest on it. *)
Lemma write_queue_spec rb (src : list A) (frames : Z) :
  RingBuffer.ring_inv rb ->
  let ch := RingBuffer.mChannels rb in
  let n := Z.max 0 (Z.min frames (RingBuffer.availableToWrite rb)) in
  n * ch <= Z.of_nat (length src) ->
  exists rb',
    RingBuffer.writeInterleaved rb src frames = Some (rb', n) /\
    RingBuffer.ring_inv rb' /\
    RingBuffer.same_geometry rb rb' /\
    RingBuffer.mRead rb' = RingBuffer.mRead rb /\
    RingBuffer.availableToRead rb' = RingBuffer.availableToRead rb + n /\
    RingQueue.contents rb' =
      RingQueue.contents rb ++ firstn (Z.to_nat (n * ch)) src /\
    (n = 0 -> rb' = rb).
Proof.
  intros Hinv ch n Hsrc.
  destruct (ring_inv_available rb Hinv) as [Hav Hrange].
  pose proof Hinv as [Hwf Hle].
  destruct Hwf as (k & Hk & Hcap & Hmask & Hch & Hlen & Hr & Hw).
  pose proof (pow2_le_2_30 k ltac:(lia)) as Hpk.
  pose proof (contents_eq rb k Hk Hmask Hinv) as Hc0.
  pose proof (write_slot rb k Hk ltac:(lia)) as Hslotw. cbv zeta in Hslotw.
  rewrite <- Hav in Hc0, Hslotw.
  set (a := RingBuffer.availableToRead rb) in *.
  assert (HavW : RingBuffer.availableToWrite rb = 2 ^ k - a).
  { unfold RingBuffer.availableToWrite. fold a. rewrite Hcap.
    apply i32_id. unfold in_i32, INT32_MAX. lia. }
  unfold RingBuffer.writeInterleaved. fold n.
  assert (Hn : 0 <= n <= 2 ^ k - a) by (unfold n; rewrite HavW; lia).
  destruct (Z.eqb_spec n 0) as [Hz | Hnz].
  { exists rb. rewrite Hz, Z.add_0_r. cbn [Z.mul Z.to_nat firstn].
    rewrite app_nil_r. unfold RingBuffer.same_geometry. auto 10. }
  rewrite (slot_mod rb k Hk Hmask), (masked_mod rb k Hk Hmask), Hcap.
  pose proof (Z.mod_pos_bound (RingBuffer.mWrite rb) (2 ^ k) ltac:(lia)) as Hwp.
  pose proof (Z.mod_pos_bound (RingBuffer.mRead rb) (2 ^ k) ltac:(lia)) as Hrp.
  set (wp := RingBuffer.mWrite rb mod 2 ^ k) in *.
  set (rp := RingBuffer.mRead rb mod 2 ^ k) in *.
  rewrite (i32_id (2 ^ k - wp)) by (unfold in_i32, INT32_MAX; lia).
  set (first := Z.min n (2 ^ k - wp)).
  rewrite (i32_id (n - first)) by (unfold in_i32, INT32_MAX; lia).
  set (second := n - first).
  rewrite !(offset_mul rb) by (fold ch; lia).
  rewrite !(floats_mul rb) by (fold ch; lia).
  fold ch in Hch, Hlen, Hc0 |- *.
  assert (Hsec : 0 <= second) by (unfold second, first; lia).
  assert (Hfirst : 1 <= first <= 2 ^ k - wp) by (unfold first; lia).
  assert (Hb : 0 <= first * ch) by (apply Z.mul_nonneg_nonneg; lia).
  assert (Hs : 0 <= second * ch) by (apply Z.mul_nonneg_nonneg; lia).
  assert (Hwc : 0 <= wp * ch) by (apply Z.mul_nonneg_nonneg; lia).
  assert (Hac : 0 <= a * ch) by (apply Z.mul_nonneg_nonneg; lia).
  assert (Hn' : first * ch + second * ch = n * ch)
    by (unfold second; lia).
  assert (Hfit : a * ch + n * ch <= 2 ^ k * ch).
  { rewrite <- Z.mul_add_distr_r. apply Z.mul_le_mono_nonneg_r; lia. }
  assert (Hrc : 0 <= rp * ch < 2 ^ k * ch).
  { split; [apply Z.mul_nonneg_nonneg; lia|].
    apply Z.mul_lt_mono_pos_r; lia. }
  assert (Hmin : first * ch = Z.min (n * ch) (2 ^ k * ch - wp * ch)).
  { unfold first. rewrite <- Z.mul_sub_distr_r.
    symmetry. apply Z.mul_min_distr_nonneg_r. lia. }
  assert (Hwfit : wp * ch + first * ch <= 2 ^ k * ch).
  { rewrite <- Z.mul_add_distr_r. apply Z.mul_le_mono_nonneg_r; lia. }
  destruct (memcpy_ok (RingBuffer.mData rb) (wp * ch) src 0 (first * ch))
    as [d1 H1]; try lia.
  pose proof (memcpy_length _ _ _ _ _ _ H1) as L1.
  destruct (memcpy_ok d1 0 src (first * ch) (second * ch))
    as [d2 H2]; try lia.
  pose proof (memcpy_length _ _ _ _ _ _ H2) as L2.
  rewrite H1.
  assert (Hif : (if 0 <? second
                 then memcpy d1 0 src (first * ch) (second * ch)
                 else Some d1) = Some d2).
  { destruct (Z.ltb_spec 0 second); [exact H2|].
    assert (Hz : second = 0) by lia.
    rewrite Hz, Z.mul_0_l in H2. rewrite <- H2. symmetry.
    apply memcpy_zero; lia. }
  rewrite Hif. eexists. split; [reflexivity|].
  match goal with |- RingBuffer.ring_inv ?r /\ _ => set (rb' := r) end.
  assert (Hnew : u64 (u64 (RingBuffer.mWrite rb + n) - RingBuffer.mRead rb)
                 = a + n).
  { unfold u64 in Hav |- *. rewrite Zminus_mod_idemp_l.
    replace (RingBuffer.mWrite rb + n - RingBuffer.mRead rb)
      with (RingBuffer.mWrite rb - RingBuffer.mRead rb + n) by lia.
    rewrite <- Zplus_mod_idemp_l, <- Hav. apply Z.mod_small. lia. }
  assert (Hinv' : RingBuffer.ring_inv rb').
  { split.
    - exists k. unfold rb'.
      cbn [RingBuffer.mData RingBuffer.mChannels RingBuffer.mCapacityFrames
           RingBuffer.mMask RingBuffer.mRead RingBuffer.mWrite].
      fold ch.
      split; [exact Hk|]. split; [reflexivity|]. split; [exact Hmask|].
      split; [exact Hch|]. split; [lia|].
      split; [exact Hr | apply u64_range].
    - unfold rb'.
      cbn [RingBuffer.mRead RingBuffer.mWrite RingBuffer.mCapacityFrames].
      rewrite Hnew. lia. }
  split; [exact Hinv'|].
  split; [unfold RingBuffer.same_geometry, rb';
          cbn [RingBuffer.mData RingBuffer.mChannels
               RingBuffer.mCapacityFrames RingBuffer.mMask];
          repeat split; lia|].
  split; [reflexivity|].
  assert (Hav' : RingBuffer.availableToRead rb' = a + n).
  { rewrite (proj1 (ring_inv_available rb' Hinv')). exact Hnew. }
  split; [exact Hav'|]. split; [|intros; contradiction].
  rewrite (contents_eq rb' k Hk Hmask Hinv').
  rewrite <- (proj1 (ring_inv_available rb' Hinv')), Hav', Hc0.
  change (RingBuffer.mChannels rb') with ch.
  change (RingBuffer.mRead rb') with (RingBuffer.mRead rb). fold rp.
  change (RingBuffer.mData rb') with d2.
  rewrite Z.mul_add_distr_r.
  apply (circ_write (RingBuffer.mData rb) src d1 d2
           (rp * ch) (a * ch) (n * ch) (wp * ch)); try lia.
  - rewrite Hlen, <- Hmin. exact H1.
  - rewrite Hlen, <- Hmin.
    replace (n * ch - first * ch) with (second * ch) by lia. exact H2.
Qed.

(** [writeInterleaved] appends to the queue.  On a ring that satisfies
    [ring_inv], with a source that holds the frames written, the call
    returns [n = max 0 (min frames (availableToWrite ()))], leaves the read
    counter and the geometry alone, makes [n] more frames readable, and the
    frames that wait are the old ones followed by the first [n * channels]
    samples of the source, across the end of the storage if need be.  With
    [n = 0] (a full ring, or a count [<= 0]) the ring is unchanged. *)
Theorem write_appends rb (src : list A) (frames : Z) :
  RingBuffer.ring_inv rb ->
  let ch := RingBuffer.mChannels rb in
  let n := Z.max 0 (Z.min frames (RingBuffer.availableToWrite rb)) in
  n * ch <= Z.of_nat (length src) ->
  exists rb',
    RingBuffer.writeInterleaved rb src frames = Some (rb', n) /\
    RingBuffer.ring_inv rb' /\
    RingBuffer.same_geometry rb rb' /\
    RingBuffer.mRead rb' = RingBuffer.mRead rb /\
    RingBuffer.availableToRead rb' = RingBuffer.availableToRead rb + n /\
    RingQueue.contents rb' =
      RingQueue.contents rb ++ firstn (Z.to_nat (n * ch)) src /\
    (n = 0 -> rb' = rb).
Proof. exact (write_queue_spec rb src frames). Qed.

End QueueFacts.

Section QueueRead.
Context {A : Type}.
Implicit Types rb : @RingBuffer.t A.

(** What a read does to the frames that wait and to its destination. *)
Lemma read_queue_spec rb (dst : list A) (frames : Z) :
  RingBuffer.ring_inv rb ->
  let ch := RingBuffer.mChannels rb in
  let n := Z.max 0 (Z.min frames (RingBuffer.availableToRead rb)) in
  n * ch <= Z.of_nat (length dst) ->
  exists rb',
    RingBuffer.readInterleaved rb dst frames =
      Some (rb',
            firstn (Z.to_nat (n * ch)) (RingQueue.contents rb)
            ++ skipn (Z.to_nat (n * ch)) dst, n) /\
    RingBuffer.ring_inv rb' /\
    RingBuffer.same_geometry rb rb' /\
    RingBuffer.mData rb' = RingBuffer.mData rb /\
    RingBuffer.mWrite rb' = RingBuffer.mWrite rb /\
    RingBuffer.availableToRead rb' = RingBuffer.availableToRead rb - n /\
    RingQueue.contents rb' = skipn (Z.to_nat (n * ch)) (RingQueue.contents rb)
    /\ (n = 0 -> rb' = rb).
Proof.
  intros Hinv ch n Hdst.
  destruct (ring_inv_available rb Hinv) as [Hav Hrange].
  pose proof Hinv as [Hwf Hle].
  destruct Hwf as (k & Hk & Hcap & Hmask & Hch & Hlen & Hr & Hw).
  pose proof (pow2_le_2_30 k ltac:(lia)) as Hpk.
  pose proof (contents_eq rb k Hk Hmask Hinv) as Hc0.
  rewrite <- Hav in Hc0.
  set (a := RingBuffer.availableToRead rb) in *.
  unfold RingBuffer.readInterleaved. fold a. fold n.
  assert (Hn : 0 <= n <= a) by (unfold n; lia).
  destruct (Z.eqb_spec n 0) as [Hz | Hnz].
  { exists rb. rewrite Hz, Z.sub_0_r. cbn [Z.mul Z.to_nat firstn skipn app].
    unfold RingBuffer.same_geometry. auto 10. }
  rewrite (slot_mod rb k Hk Hmask), (masked_mod rb k Hk Hmask), Hcap.
  pose proof (Z.mod_pos_bound (RingBuffer.mRead rb) (2 ^ k) ltac:(lia)) as Hrp.
  set (rp := RingBuffer.mRead rb mod 2 ^ k) in *.
  rewrite (i32_id (2 ^ k - rp)) by (unfold in_i32, INT32_MAX; lia).
  set (first := Z.min n (2 ^ k - rp)).
  rewrite (i32_id (n - first)) by (unfold in_i32, INT32_MAX; lia).
  set (second := n - first).
  rewrite !(offset_mul rb) by (fold ch; lia).
  rewrite !(floats_mul rb) by (fold ch; lia).
  fold ch in Hch, Hlen, Hc0 |- *.
  rewrite Hcap in Hrange.
  assert (Hsec : 0 <= second <= rp) by (unfold second, first; lia).
  assert (Hfirst : 1 <= first <= 2 ^ k - rp) by (unfold first; lia).
  assert (Hb : 0 <= first * ch) by (apply Z.mul_nonneg_nonneg; lia).
  assert (Hs : 0 <= second * ch <= rp * ch).
  { split; [apply Z.mul_nonneg_nonneg; lia|].
    apply Z.mul_le_mono_nonneg_r; lia. }
  assert (Hac : 0 <= n * ch <= a * ch).
  { split; [apply Z.mul_nonneg_nonneg; lia|].
    apply Z.mul_le_mono_nonneg_r; lia. }
  assert (Hacap : a * ch <= 2 ^ k * ch)
    by (apply Z.mul_le_mono_nonneg_r; lia).
  assert (Hn' : first * ch + second * ch = n * ch)
    by (unfold second; lia).
  assert (Hrc : 0 <= rp * ch < 2 ^ k * ch).
  { split; [apply Z.mul_nonneg_nonneg; lia|].
    apply Z.mul_lt_mono_pos_r; lia. }
  assert (Hmin : first * ch = Z.min (n * ch) (2 ^ k * ch - rp * ch)).
  { unfold first. rewrite <- Z.mul_sub_distr_r.
    symmetry. apply Z.mul_min_distr_nonneg_r. lia. }
  assert (Hrfit : rp * ch + first * ch <= 2 ^ k * ch).
  { rewrite <- Z.mul_add_distr_r. apply Z.mul_le_mono_nonneg_r; lia. }
  destruct (memcpy_ok dst 0 (RingBuffer.mData rb) (rp * ch) (first * ch))
    as [o1 H1]; try lia.
  pose proof (memcpy_length _ _ _ _ _ _ H1) as L1.
  destruct (memcpy_ok o1 (first * ch) (RingBuffer.mData rb) 0 (second * ch))
    as [o2 H2]; try lia.
  rewrite H1.
  assert (Hif : (if 0 <? second
                 then memcpy o1 (first * ch) (RingBuffer.mData rb) 0
                             (second * ch)
                 else Some o1) = Some o2).
  { destruct (Z.ltb_spec 0 second); [exact H2|].
    assert (Hz : second = 0) by lia.
    rewrite Hz, Z.mul_0_l in H2. rewrite <- H2. symmetry.
    apply memcpy_zero; lia. }
  rewrite Hif.
  assert (Ho2 : o2 = firstn (Z.to_nat (n * ch)) (RingQueue.contents rb)
                     ++ skipn (Z.to_nat (n * ch)) dst).
  { rewrite Hc0, firstn_firstn.
    replace (Nat.min (Z.to_nat (n * ch)) (Z.to_nat (a * ch)))
      with (Z.to_nat (n * ch)) by lia.
    apply (circ_read (RingBuffer.mData rb) dst o1 o2 (rp * ch) (n * ch));
      try lia.
    - rewrite Hlen, <- Hmin. exact H1.
    - rewrite Hlen, <- Hmin.
      replace (n * ch - first * ch) with (second * ch) by lia. exact H2. }
  rewrite <- Ho2. eexists. split; [reflexivity|].
  match goal with |- RingBuffer.ring_inv ?r /\ _ => set (rb' := r) end.
  assert (Hnew : u64 (RingBuffer.mWrite rb
                      - u64 (RingBuffer.mRead rb + n)) = a - n).
  { unfold u64 in Hav |- *. rewrite Zminus_mod_idemp_r.
    replace (RingBuffer.mWrite rb - (RingBuffer.mRead rb + n))
      with (RingBuffer.mWrite rb - RingBuffer.mRead rb - n) by lia.
    rewrite <- Zminus_mod_idemp_l, <- Hav. apply Z.mod_small. lia. }
  assert (Hinv' : RingBuffer.ring_inv rb').
  { split.
    - exists k. unfold rb'.
      cbn [RingBuffer.mData RingBuffer.mChannels RingBuffer.mCapacityFrames
           RingBuffer.mMask RingBuffer.mRead RingBuffer.mWrite].
      fold ch.
      split; [exact Hk|]. split; [reflexivity|]. split; [exact Hmask|].
      split; [exact Hch|]. split; [exact Hlen|].
      split; [apply u64_range | exact Hw].
    - unfold rb'.
      cbn [RingBuffer.mRead RingBuffer.mWrite RingBuffer.mCapacityFrames].
      rewrite Hnew. lia. }
  split; [exact Hinv'|].
  split; [unfold RingBuffer.same_geometry, rb';
          cbn [RingBuffer.mData RingBuffer.mChannels
               RingBuffer.mCapacityFrames RingBuffer.mMask];
          repeat split; lia|].
  split; [reflexivity|]. split; [reflexivity|].
  assert (Hav' : RingBuffer.availableToRead rb' = a - n).
  { rewrite (proj1 (ring_inv_available rb' Hinv')). exact Hnew. }
  split; [exact Hav'|]. split; [|intros; contradiction].
  rewrite (contents_eq rb' k Hk Hmask Hinv').
  rewrite <- (proj1 (ring_inv_available rb' Hinv')), Hav', Hc0.
  change (RingBuffer.mChannels rb') with ch.
  change (RingBuffer.mData rb') with (RingBuffer.mData rb).
  change (RingBuffer.mRead rb') with (u64 (RingBuffer.mRead rb + n)).
  rewrite Z.mul_sub_distr_r.
  assert (Hrp' : (u64 (RingBuffer.mRead rb + n) mod 2 ^ k = rp + n
                  /\ rp + n < 2 ^ k)
                 \/ (u64 (RingBuffer.mRead rb + n) mod 2 ^ k = rp + n - 2 ^ k
                     /\ 2 ^ k <= rp + n)).
  { unfold u64. rewrite mod_pow2_u64 by lia.
    rewrite <- Zplus_mod_idemp_l. fold rp.
    destruct (Z_lt_le_dec (rp + n) (2 ^ k)); [left | right];
      (split; [|assumption]).
    - apply Z.mod_small. lia.
    - symmetry. apply (Z.mod_unique _ _ 1); lia. }
  apply (circ_advance (RingBuffer.mData rb) (rp * ch) (a * ch) (n * ch));
    try lia.
  destruct Hrp' as [[E Hlt] | [E Hge]]; rewrite E; [left | right].
  - split; [lia|]. rewrite Hlen, <- Z.mul_add_distr_r.
    apply Z.mul_lt_mono_pos_r; lia.
  - split; [lia|]. rewrite Hlen, <- Z.mul_add_distr_r.
    apply Z.mul_le_mono_nonneg_r; lia.
Qed.

(** [readInterleaved] takes from the front of the queue.  On a ring that
    satisfies [ring_inv], with a destination that holds the frames read, the
    call returns [n = max 0 (min frames (availableToRead ()))]; the first
    [n * channels] samples of the destination are the oldest samples that
    waited, in order, and the rest of the destination is untouched; the
    storage and the write counter are unchanged, [n] fewer frames are
    readable and the frames that wait are the old ones without those [n].
    With [n = 0] (an empty ring, or a count [<= 0]) the ring is unchanged. *)
Theorem read_takes_front rb (dst : list A) (frames : Z) :
  RingBuffer.ring_inv rb ->
  let ch := RingBuffer.mChannels rb in
  let n := Z.max 0 (Z.min frames (RingBuffer.availableToRead rb)) in
  n * ch <= Z.of_nat (length dst) ->
  exists rb',
    RingBuffer.readInterleaved rb dst frames =
      Some (rb',
            firstn (Z.to_nat (n * ch)) (RingQueue.contents rb)
            ++ skipn (Z.to_nat (n * ch)) dst, n) /\
    RingBuffer.ring_inv rb' /\
    RingBuffer.same_geometry rb rb' /\
    RingBuffer.mData rb' = RingBuffer.mData rb /\
    RingBuffer.mWrite rb' = RingBuffer.mWrite rb /\
    RingBuffer.availableToRead rb' = RingBuffer.availableToRead rb - n /\
    RingQueue.contents rb' = skipn (Z.to_nat (n * ch)) (RingQueue.contents rb)
    /\ (n = 0 -> rb' = rb).
Proof. exact (read_queue_spec rb dst frames). Qed.

End QueueRead.

Lemma read_takes_front_witness :
  let rb := {| RingBuffer.mData := [11; 12; 13; 14; 15; 16; 17; 18];
               RingBuffer.mChannels := 2;
               RingBuffer.mCapacityFrames := 4;
               RingBuffer.mMask := 3;
               RingBuffer.mRead := 3;
               RingBuffer.mWrite := 5 |} in
  let dst := [0; 0; 0; 0; 0; 0; 0] in
  exists rb',
    RingBuffer.readInterleaved rb dst 3 =
      Some (rb', [17; 18; 11; 12] ++ [0; 0; 0], 2) /\
    RingBuffer.ring_inv rb' /\
    RingBuffer.same_geometry rb rb' /\
    RingBuffer.mData rb' = RingBuffer.mData rb /\
    RingBuffer.mWrite rb' = RingBuffer.mWrite rb /\
    RingBuffer.availableToRead rb' = RingBuffer.availableToRead rb - 2 /\
    RingQueue.contents rb' = [] /\
    (2 = 0 -> rb' = rb).
Proof.
  intros rb dst.
  apply (read_takes_front rb dst 3).
  - split.
    + exists 2. unfold in_u64, INT32_MAX. cbn. repeat split; lia.
    + vm_compute. discriminate.
  - vm_compute. discriminate.
Defined.

Section QueueRuns.
Context {A : Type} (zero : A).
Implicit Types rb : @RingBuffer.t A.

Lemma contents_length rb :
  RingBuffer.ring_inv rb ->
  Z.of_nat (length (RingQueue.contents rb))
  = RingBuffer.availableToRead rb * RingBuffer.mChannels rb.
Proof.
  intros Hinv.
  destruct (ring_inv_available rb Hinv) as [Hav Hrange].
  pose proof Hinv as [(k & Hk & Hcap & Hmask & Hch & Hlen & Hr & Hw) Hle].
  pose proof (pow2_le_2_30 k ltac:(lia)) as Hpk.
  rewrite (contents_eq rb k Hk Hmask Hinv), <- Hav.
  pose proof (Z.mod_pos_bound (RingBuffer.mRead rb) (2 ^ k) ltac:(lia)) as Hrp.
  set (rp := RingBuffer.mRead rb mod 2 ^ k) in *.
  set (a := RingBuffer.availableToRead rb) in *.
  set (ch := RingBuffer.mChannels rb) in *.
  assert (0 <= a * ch <= 2 ^ k * ch).
  { split; [apply Z.mul_nonneg_nonneg; lia|].
    apply Z.mul_le_mono_nonneg_r; lia. }
  assert (0 <= rp * ch <= 2 ^ k * ch).
  { split; [apply Z.mul_nonneg_nonneg; lia|].
    apply Z.mul_le_mono_nonneg_r; lia. }
  rewrite length_firstn, length_skipn, length_app. lia.
Qed.

Lemma step_refines rb (o : RingOps.op) :
  RingBuffer.ring_inv rb ->
  RingOps.fits (RingBuffer.mChannels rb) o ->
  exists rb',
    RingOps.step rb o = Some rb' /\
    RingBuffer.ring_inv rb' /\
    RingBuffer.same_geometry rb rb' /\
    RingQueue.contents rb' =
      RingOps.queue_step (RingBuffer.mCapacityFrames rb)
                         (RingBuffer.mChannels rb) (RingQueue.contents rb) o.
Proof.
  intros Hinv Hfit.
  destruct (ring_inv_available rb Hinv) as [Hav Hrange].
  pose proof (contents_length rb Hinv) as HL.
  pose proof Hinv as [(k & Hk & Hcap & Hmask & Hch & Hlen & Hr & Hw) Hle].
  pose proof (pow2_le_2_30 k ltac:(lia)) as Hpk.
  assert (Hheld : Z.of_nat (length (RingQueue.contents rb))
                  / RingBuffer.mChannels rb = RingBuffer.availableToRead rb).
  { rewrite HL. apply Z.div_mul. lia. }
  assert (HavW : RingBuffer.availableToWrite rb
                 = RingBuffer.mCapacityFrames rb
                   - RingBuffer.availableToRead rb).
  { unfold RingBuffer.availableToWrite.
    apply i32_id. unfold in_i32, INT32_MAX. lia. }
  destruct o as [src frames | dst frames]; cbn [RingOps.fits] in Hfit;
    unfold RingOps.step, RingOps.queue_step; rewrite Hheld.
  - destruct (write_queue_spec rb src frames Hinv) as
      (rb' & E & Hinv' & Hg & _ & _ & Hc & _).
    { destruct (Z_le_gt_dec frames 0).
      - replace (Z.max 0 _) with 0 by lia. lia.
      - assert (Z.max 0 (Z.min frames (RingBuffer.availableToWrite rb))
                * RingBuffer.mChannels rb
                <= frames * RingBuffer.mChannels rb); [|lia].
        apply Z.mul_le_mono_nonneg_r; lia. }
    rewrite E. exists rb'. rewrite <- HavW. auto.
  - destruct (read_queue_spec rb dst frames Hinv) as
      (rb' & E & Hinv' & Hg & _ & _ & _ & Hc & _).
    { destruct (Z_le_gt_dec frames 0).
      - replace (Z.max 0 _) with 0 by lia. lia.
      - assert (Z.max 0 (Z.min frames (RingBuffer.availableToRead rb))
                * RingBuffer.mChannels rb
                <= frames * RingBuffer.mChannels rb); [|lia].
        apply Z.mul_le_mono_nonneg_r; lia. }
    rewrite E. exists rb'. auto.
Qed.

Lemma run_refines (ops : list RingOps.op) : forall rb,
  RingBuffer.ring_inv rb ->
  Forall (RingOps.fits (RingBuffer.mChannels rb)) ops ->
  exists rb',
    RingOps.run rb ops = Some rb' /\
    RingBuffer.ring_inv rb' /\
    RingBuffer.same_geometry rb rb' /\
    RingQueue.contents rb' =
      fold_left (RingOps.queue_step (RingBuffer.mCapacityFrames rb)
                                    (RingBuffer.mChannels rb))
                ops (RingQueue.contents rb).
Proof.
  induction ops as [|o ops IH]; intros rb Hinv Hfit.
  - exists rb. unfold RingBuffer.same_geometry. cbn. auto 10.
  - inversion Hfit as [|? ? Ho Hops]; subst.
    destruct (step_refines rb o Hinv Ho) as (rb1 & E1 & Hinv1 & Hg1 & Hc1).
    pose proof Hg1 as (G1 & G2 & G3 & G4).
    destruct (IH rb1 Hinv1) as (rb' & E & Hinv' & Hg & Hc).
    { rewrite G1. exact Hops. }
    exists rb'. cbn [RingOps.run fold_left]. rewrite E1.
    split; [exact E|]. split; [exact Hinv'|]. split.
    + destruct Hg as (F1 & F2 & F3 & F4).
      unfold RingBuffer.same_geometry. repeat split; congruence.
    + rewrite Hc, Hc1, G1, G2. reflexivity.
Qed.

(** The ring is a bounded queue.  After a successful [init], any sequence of
    [writeInterleaved] and [readInterleaved] calls whose buffers hold the
    frames asked for runs without a fault, and the frames that wait in the
    ring are exactly those of a queue bounded by [capacityFrames ()] that is
    fed the same calls (a write appends the frames that fit, a read removes
    the frames that are there).  The queue holds [availableToRead ()]
    frames, between 0 and the capacity, and [availableToRead ()] and
    [availableToWrite ()] add up to the capacity. *)
Theorem ring_refines_queue (rb0 rb1 : RingBuffer.t)
    (capacityFrames channels : Z) (ops : list RingOps.op) :
  1 <= capacityFrames <= INT32_MAX ->
  1 <= channels <= INT32_MAX ->
  RingBuffer.init zero rb0 capacityFrames channels = (true, rb1) ->
  Forall (RingOps.fits channels) ops ->
  exists rb,
    RingOps.run rb1 ops = Some rb /\
    RingQueue.contents rb =
      fold_left (RingOps.queue_step (RingBuffer.capacityFrames rb1) channels)
                ops [] /\
    Z.of_nat (length (RingQueue.contents rb))
      = RingBuffer.availableToRead rb * channels /\
    0 <= RingBuffer.availableToRead rb <= RingBuffer.capacityFrames rb1 /\
    RingBuffer.availableToRead rb + RingBuffer.availableToWrite rb
      = RingBuffer.capacityFrames rb1.
Proof.
  intros Hc Hch Hinit Hfit.
  destruct (init_wf zero rb0 capacityFrames channels rb1 Hc Hch Hinit)
    as (Hwf & Hr0 & Hw0).
  assert (Hchan : RingBuffer.mChannels rb1 = channels).
  { revert Hinit. unfold RingBuffer.init.
    destruct (_ || _); [discriminate|]. now intros [= <-]. }
  assert (Hinv1 : RingBuffer.ring_inv rb1).
  { split; [exact Hwf|]. rewrite Hr0, Hw0.
    destruct Hwf as (k & Hk & Hcap & _). rewrite Hcap.
    pose proof (pow2_le_2_30 k ltac:(lia)). cbn. lia. }
  assert (Hempty : RingQueue.contents rb1 = []).
  { unfold RingQueue.contents, RingBuffer.availableToRead.
    rewrite Hr0, Hw0. reflexivity. }
  destruct (run_refines ops rb1 Hinv1) as (rb & E & Hinv & Hg & Hcont).
  { rewrite Hchan. exact Hfit. }
  destruct Hg as (G1 & G2 & G3 & G4).
  destruct (ring_inv_available rb Hinv) as [Hav Hrange].
  pose proof (contents_length rb Hinv) as HL.
  pose proof Hinv as [(k & Hk & Hcap & _) _].
  pose proof (pow2_le_2_30 k ltac:(lia)) as Hpk.
  exists rb. unfold RingBuffer.capacityFrames.
  rewrite Hcont, Hempty, Hchan in *. rewrite G1 in HL.
  split; [exact E|]. split; [reflexivity|]. split; [exact HL|].
  rewrite <- G2. split; [exact Hrange|].
  unfold RingBuffer.availableToWrite.
  rewrite i32_id by (unfold in_i32, INT32_MAX; lia). lia.
Qed.

End QueueRuns.

(** [nextPow2] is idempotent.  For [1 <= v <= 2 ^ 30] the capacity
    [p = nextPow2 v] is a fixed point of [nextPow2], is at least [v] and,
    from [v = 2] on, less than [2 v]: rounding up never doubles. *)
Theorem nextPow2_idempotent (v : Z) :
  1 <= v <= 2 ^ 30 ->
  let p := RingBuffer.nextPow2 v in
  RingBuffer.nextPow2 p = p /\ v <= p /\ (2 <= v -> p < 2 * v).
Proof.
  intros Hv p.
  destruct (nextPow2_least v Hv) as (k & Hk & Hp & Hle & Hmin).
  fold p in Hp.
  pose proof (pow2_le_2_30 k ltac:(lia)) as Hpk.
  assert (H2 : 2 <= 2 ^ k).
  { change 2 with (2 ^ 1) at 1. apply Z.pow_le_mono_r; lia. }
  split; [|split].
  - destruct (nextPow2_least p ltac:(lia)) as (j & Hj & Hq & Hlej & Hminj).
    rewrite Hq. apply Z.le_antisymm.
    + rewrite Hp. apply Hminj; lia.
    + exact Hlej.
  - lia.
  - intros Hv2. rewrite Hp.
    destruct (Z.eq_dec k 1) as [-> | Hk1]; [lia|].
    destruct (Z_lt_le_dec (2 ^ k) (2 * v)) as [|Hge]; [assumption|].
    exfalso.
    assert (E : 2 ^ k = 2 * 2 ^ (k - 1)).
    { rewrite <- Z.pow_succ_r by lia. f_equal. lia. }
    specialize (Hmin (k - 1) ltac:(lia) ltac:(lia)).
    assert (0 < 2 ^ (k - 1)) by (apply Z.pow_pos_nonneg; lia). lia.
Qed.

Lemma ring_refines_queue_witness :
  let rb1 := snd (RingBuffer.init 0 RingBuffer.fresh 3 2) in
  let ops := [RingOps.Write [1; 2; 3; 4; 5; 6] 3;
              RingOps.Read [0; 0; 0; 0] 2;
              RingOps.Write [7; 8; 9; 10; 11; 12; 13; 14] 4;
              RingOps.Read [] (-1)] in
  exists rb,
    RingOps.run rb1 ops = Some rb /\
    RingQueue.contents rb = [5; 6; 7; 8; 9; 10; 11; 12] /\
    Z.of_nat (length (RingQueue.contents rb))
      = RingBuffer.availableToRead rb * 2 /\
    0 <= RingBuffer.availableToRead rb <= RingBuffer.capacityFrames rb1 /\
    RingBuffer.availableToRead rb + RingBuffer.availableToWrite rb
      = RingBuffer.capacityFrames rb1.
Proof.
  intros rb1 ops.
  apply (ring_refines_queue 0 RingBuffer.fresh rb1 3 2 ops).
  - unfold INT32_MAX. lia.
  - unfold INT32_MAX. lia.
  - reflexivity.
  - repeat constructor; cbn; lia.
Defined.

Lemma nextPow2_idempotent_witness :
  let p := RingBuffer.nextPow2 9600 in
  RingBuffer.nextPow2 p = p /\ 9600 <= p /\ (2 <= 9600 -> p < 2 * 9600).
Proof. apply (nextPow2_idempotent 9600). lia. Defined.

Lemma write_appends_witness :
  let rb := {| RingBuffer.mData := [11; 12; 13; 14; 15; 16; 17; 18];
               RingBuffer.mChannels := 2;
               RingBuffer.mCapacityFrames := 4;
               RingBuffer.mMask := 3;
               RingBuffer.mRead := 3;
               RingBuffer.mWrite := 5 |} in
  let src := [1; 2; 3; 4; 5; 6] in
  exists rb',
    RingBuffer.writeInterleaved rb src 3 = Some (rb', 2) /\
    RingBuffer.ring_inv rb' /\
    RingBuffer.same_geometry rb rb' /\
    RingBuffer.mRead rb' = RingBuffer.mRead rb /\
    RingBuffer.availableToRead rb' = RingBuffer.availableToRead rb + 2 /\
    RingQueue.contents rb' = [17; 18; 11; 12] ++ [1; 2; 3; 4] /\
    (2 = 0 -> rb' = rb).
Proof.
  intros rb src.
  apply (write_appends rb src 3).
  - split.
    + exists 2. unfold in_u64, INT32_MAX. cbn. repeat split; lia.
    + vm_compute. discriminate.
  - vm_compute. discriminate.
Defined.

(** ** FullDuplexEngine: the stereo helpers *)

Section StereoFacts.
Context {A : Type}.
Implicit Types inter L R : list A.
Import Stereo.

Lemma load_nth_error (p : list A) (i : nat) :
  load p (Z.of_nat i) = nth_error p i.
Proof.
  unfold load. destruct (Z.leb_spec 0 (Z.of_nat i)); [|lia].
  now rewrite Nat2Z.id.
Qed.

Lemma load_ext (p q : list A) :
  (forall j, load p j = load q j) -> p = q.
Proof.
  intros H. apply nth_error_ext. intros i.
  rewrite <- !load_nth_error. apply H.
Qed.

Lemma load_firstn_skipn (p q : list A) (n j : Z) :
  0 <= n <= Z.of_nat (length p) ->
  load (firstn (Z.to_nat n) p ++ skipn (Z.to_nat n) q) j =
    if j <? n then load p j else load q j.
Proof.
  intros Hn. unfold load.
  destruct (Z.leb_spec 0 j).
  2:{ destruct (j <? n); reflexivity. }
  rewrite nth_error_app, length_firstn.
  replace (Nat.min (Z.to_nat n) (length p)) with (Z.to_nat n) by lia.
  destruct (Z.ltb_spec j n);
    destruct (Nat.ltb_spec (Z.to_nat j) (Z.to_nat n)); try lia.
  - rewrite nth_error_firstn.
    destruct (Nat.ltb_spec (Z.to_nat j) (Z.to_nat n)); [reflexivity | lia].
  - rewrite nth_error_skipn. f_equal. lia.
Qed.

Lemma deinterleave_loop_spec n : forall inter i L R,
  0 <= i -> i + Z.of_nat n <= INT32_MAX ->
  2 * (i + Z.of_nat n) <= Z.of_nat (length inter) ->
  i + Z.of_nat n <= Z.of_nat (length L) ->
  i + Z.of_nat n <= Z.of_nat (length R) ->
  exists L' R',
    deinterleave_loop n inter i (2 * i) L R = Some (L', R') /\
    length L' = length L /\ length R' = length R /\
    (forall j, load L' j = if (i <=? j) && (j <? i + Z.of_nat n)
                           then load inter (2 * j) else load L j) /\
    (forall j, load R' j = if (i <=? j) && (j <? i + Z.of_nat n)
                           then load inter (2 * j + 1) else load R j).
Proof.
  induction n as [|n IH]; intros inter i L R Hi Hmax Hin HL HR.
  - exists L, R. cbn [deinterleave_loop]. repeat split; try reflexivity;
      intros j; destruct (Z.leb_spec i j);
      destruct (Z.ltb_spec j (i + Z.of_nat 0)); try lia; reflexivity.
  - cbn [deinterleave_loop]. unfold deinterleave_body.
    destruct (load_ok inter (2 * i) ltac:(lia)) as [x Ex].
    destruct (load_ok inter (2 * i + 1) ltac:(lia)) as [y Ey].
    destruct (store_ok L i x ltac:(lia)) as [L1 EL].
    destruct (store_ok R i y ltac:(lia)) as [R1 ER].
    rewrite Ex, EL, Ey, ER.
    destruct (store_inv _ _ _ _ EL) as (_ & LL & PL).
    destruct (store_inv _ _ _ _ ER) as (_ & LR & PR).
    rewrite i32_id by (unfold in_i32, INT32_MAX in *; lia).
    replace (2 * i + 2) with (2 * (i + 1)) by lia.
    destruct (IH inter (i + 1) L1 R1) as (L' & R' & E & LL' & LR' & PL' & PR');
      try lia.
    exists L', R'. split; [exact E|]. split; [congruence|].
    split; [congruence|]. split; intros j.
    + rewrite PL', PL.
      destruct (Z.leb_spec (i + 1) j); destruct (Z.leb_spec i j);
        destruct (Z.ltb_spec j (i + 1 + Z.of_nat n));
        destruct (Z.ltb_spec j (i + Z.of_nat (S n)));
        destruct (Z.eqb_spec j i); cbn [andb]; try lia; try reflexivity.
      subst j. symmetry. exact Ex.
    + rewrite PR', PR.
      destruct (Z.leb_spec (i + 1) j); destruct (Z.leb_spec i j);
        destruct (Z.ltb_spec j (i + 1 + Z.of_nat n));
        destruct (Z.ltb_spec j (i + Z.of_nat (S n)));
        destruct (Z.eqb_spec j i); cbn [andb]; try lia; try reflexivity.
      subst j. symmetry. exact Ey.
Qed.

Lemma interleave_loop_spec n : forall L R i inter,
  0 <= i -> i + Z.of_nat n <= INT32_MAX ->
  2 * (i + Z.of_nat n) <= Z.of_nat (length inter) ->
  i + Z.of_nat n <= Z.of_nat (length L) ->
  i + Z.of_nat n <= Z.of_nat (length R) ->
  exists inter',
    interleave_loop n L R i (2 * i) inter = Some inter' /\
    length inter' = length inter /\
    (forall j, i <= j < i + Z.of_nat n ->
       load inter' (2 * j) = load L j /\ load inter' (2 * j + 1) = load R j) /\
    (forall q, q < 2 * i \/ 2 * (i + Z.of_nat n) <= q ->
       load inter' q = load inter q).
Proof.
  induction n as [|n IH]; intros L R i inter Hi Hmax Hin HL HR.
  - exists inter. cbn [interleave_loop]. repeat split; try reflexivity; lia.
  - cbn [interleave_loop]. unfold interleave_body.
    destruct (load_ok L i ltac:(lia)) as [x Ex].
    destruct (load_ok R i ltac:(lia)) as [y Ey].
    destruct (store_ok inter (2 * i) x ltac:(lia)) as [o1 E1].
    destruct (store_inv _ _ _ _ E1) as (_ & L1 & P1).
    destruct (store_ok o1 (2 * i + 1) y ltac:(lia)) as [o2 E2].
    destruct (store_inv _ _ _ _ E2) as (_ & L2 & P2).
    rewrite Ex, E1, Ey, E2.
    rewrite i32_id by (unfold in_i32, INT32_MAX in *; lia).
    replace (2 * i + 2) with (2 * (i + 1)) by lia.
    destruct (IH L R (i + 1) o2) as (o' & E & L' & Pin & Pout); try lia.
    exists o'. split; [exact E|]. split; [congruence|]. split.
    + intros j Hj. destruct (Z.eq_dec j i) as [-> | Hne].
      * rewrite !Pout by lia. rewrite !P2, !P1.
        destruct (Z.eqb_spec (2 * i) (2 * i + 1)); [lia|].
        rewrite !Z.eqb_refl. split; symmetry; assumption.
      * apply Pin. lia.
    + intros q Hq. rewrite Pout by lia. rewrite P2, P1.
      destruct (Z.eqb_spec q (2 * i + 1)); [lia|].
      destruct (Z.eqb_spec q (2 * i)); [lia | reflexivity].
Qed.

End StereoFacts.

Section StereoTheorems.
Context {A : Type}.
Implicit Types inter L R : list A.
Import Stereo.

(** [deinterleaveStereo] splits the frames: with buffers that hold [frames]
    frames, [L[j]] receives sample [2 j] and [R[j]] sample [2 j + 1] of the
    interleaved input for every [j < frames]; the sizes of [L] and [R] and
    their samples from [frames] on are unchanged. *)
Theorem deinterleave_splits inter (frames : Z) L R :
  0 <= frames <= INT32_MAX ->
  2 * frames <= Z.of_nat (length inter) ->
  frames <= Z.of_nat (length L) -> frames <= Z.of_nat (length R) ->
  exists L' R',
    deinterleaveStereo inter frames L R = Some (L', R') /\
    length L' = length L /\ length R' = length R /\
    (forall j, 0 <= j < frames ->
       load L' j = load inter (2 * j) /\ load R' j = load inter (2 * j + 1))
    /\
    (forall j, frames <= j -> load L' j = load L j /\ load R' j = load R j).
Proof.
  intros Hf Hin HL HR. unfold deinterleaveStereo.
  destruct (deinterleave_loop_spec (Z.to_nat frames) inter 0 L R)
    as (L' & R' & E & LL & LR & PL & PR); try lia.
  exists L', R'. change (2 * 0) with 0 in E.
  split; [exact E|]. split; [exact LL|]. split; [exact LR|].
  rewrite Z2Nat.id in PL, PR by lia.
  split; intros j Hj; rewrite PL, PR;
    destruct (Z.leb_spec 0 j); destruct (Z.ltb_spec j (0 + frames));
    cbn [andb]; try lia; split; try reflexivity.
  all: unfold load; destruct (Z.leb_spec 0 j); try lia; reflexivity.
Qed.

(** Round trip from interleaved samples: [deinterleaveStereo] followed by
    [interleaveStereo] on its two results writes the first [2 * frames]
    samples of the input to the destination, and leaves the rest of the
    destination alone. *)
Theorem interleave_deinterleave inter (frames : Z) L R (out : list A) :
  0 <= frames <= INT32_MAX ->
  2 * frames <= Z.of_nat (length inter) ->
  frames <= Z.of_nat (length L) -> frames <= Z.of_nat (length R) ->
  2 * frames <= Z.of_nat (length out) ->
  exists L' R',
    deinterleaveStereo inter frames L R = Some (L', R') /\
    interleaveStereo L' R' frames out =
      Some (firstn (Z.to_nat (2 * frames)) inter
            ++ skipn (Z.to_nat (2 * frames)) out).
Proof.
  intros Hf Hin HL HR Hout. unfold deinterleaveStereo, interleaveStereo.
  destruct (deinterleave_loop_spec (Z.to_nat frames) inter 0 L R)
    as (L' & R' & E & LL & LR & PL & PR); try lia.
  change (2 * 0) with 0 in E. exists L', R'. split; [exact E|].
  destruct (interleave_loop_spec (Z.to_nat frames) L' R' 0 out)
    as (o & Eo & Lo & Pin & Pout); try lia.
  change (2 * 0) with 0 in Eo. rewrite Eo. f_equal.
  rewrite Z2Nat.id in PL, PR, Pin, Pout by lia.
  apply load_ext. intros q.
  rewrite load_firstn_skipn by lia.
  destruct (Z.ltb_spec q (2 * frames)) as [Hlt | Hge].
  - destruct (Z_lt_le_dec q 0) as [Hneg | Hpos].
    { unfold load. destruct (Z.leb_spec 0 q); [lia | reflexivity]. }
    assert (Hh : exists h, 0 <= h < frames /\ (q = 2 * h \/ q = 2 * h + 1)).
    { exists (q / 2). Z.div_mod_to_equations. lia. }
    destruct Hh as (h & Hh & Hq).
    destruct (Pin h ltac:(lia)) as [Pe Po].
    specialize (PL h). specialize (PR h).
    destruct (Z.leb_spec 0 h); [|lia].
    destruct (Z.ltb_spec h (0 + frames)); [|lia]. cbn [andb] in PL, PR.
    destruct Hq as [-> | ->]; congruence.
  - apply Pout. lia.
Qed.

(** Round trip from two channels: [interleaveStereo] followed by
    [deinterleaveStereo] gives back the first [frames] samples of [L] and of
    [R]; the rest of the two destinations is unchanged. *)
Theorem deinterleave_interleave L R (frames : Z) (inter L0 R0 : list A) :
  0 <= frames <= INT32_MAX ->
  frames <= Z.of_nat (length L) -> frames <= Z.of_nat (length R) ->
  2 * frames <= Z.of_nat (length inter) ->
  frames <= Z.of_nat (length L0) -> frames <= Z.of_nat (length R0) ->
  exists inter',
    interleaveStereo L R frames inter = Some inter' /\
    deinterleaveStereo inter' frames L0 R0 =
      Some (firstn (Z.to_nat frames) L ++ skipn (Z.to_nat frames) L0,
            firstn (Z.to_nat frames) R ++ skipn (Z.to_nat frames) R0).
Proof.
  intros Hf HL HR Hin HL0 HR0. unfold deinterleaveStereo, interleaveStereo.
  destruct (interleave_loop_spec (Z.to_nat frames) L R 0 inter)
    as (o & Eo & Lo & Pin & Pout); try lia.
  change (2 * 0) with 0 in Eo. exists o. split; [exact Eo|].
  destruct (deinterleave_loop_spec (Z.to_nat frames) o 0 L0 R0)
    as (L' & R' & E & LL & LR & PL & PR); try lia.
  change (2 * 0) with 0 in E. rewrite E.
  rewrite Z2Nat.id in PL, PR, Pin, Pout by lia.
  f_equal. f_equal; apply load_ext; intros j;
    rewrite load_firstn_skipn by lia; rewrite ?PL, ?PR;
    destruct (Z.leb_spec 0 j); destruct (Z.ltb_spec j (0 + frames));
    destruct (Z.ltb_spec j frames); cbn [andb]; try lia;
    try reflexivity; try (apply Pin; lia).
  all: unfold load; destruct (Z.leb_spec 0 j); try lia; reflexivity.
Qed.

End StereoTheorems.

Lemma deinterleave_splits_witness :
  exists L' R',
    Stereo.deinterleaveStereo [1; 2; 3; 4; 5; 6; 7] 3 [0; 0; 0; 0] [9; 9; 9]
      = Some (L', R') /\
    length L' = 4%nat /\ length R' = 3%nat /\
    (forall j, 0 <= j < 3 ->
       load L' j = load [1; 2; 3; 4; 5; 6; 7] (2 * j) /\
       load R' j = load [1; 2; 3; 4; 5; 6; 7] (2 * j + 1)) /\
    (forall j, 3 <= j ->
       load L' j = load [0; 0; 0; 0] j /\ load R' j = load [9; 9; 9] j).
Proof.
  apply (deinterleave_splits [1; 2; 3; 4; 5; 6; 7] 3 [0; 0; 0; 0] [9; 9; 9]);
    unfold INT32_MAX; cbn; lia.
Defined.

Lemma interleave_deinterleave_witness :
  exists L' R',
    Stereo.deinterleaveStereo [1; 2; 3; 4; 5; 6; 7] 3 [0; 0; 0; 0] [9; 9; 9]
      = Some (L', R') /\
    Stereo.interleaveStereo L' R' 3 [0; 0; 0; 0; 0; 0; 0; 0] =
      Some ([1; 2; 3; 4; 5; 6] ++ [0; 0]).
Proof.
  apply (interleave_deinterleave [1; 2; 3; 4; 5; 6; 7] 3 [0; 0; 0; 0]
           [9; 9; 9] [0; 0; 0; 0; 0; 0; 0; 0]);
    unfold INT32_MAX; cbn; lia.
Defined.

Lemma deinterleave_interleave_witness :
  exists inter',
    Stereo.interleaveStereo [1; 3; 5] [2; 4; 6; 8] 3 [0; 0; 0; 0; 0; 0; 0]
      = Some inter' /\
    Stereo.deinterleaveStereo inter' 3 [7; 7; 7; 7] [9; 9; 9] =
      Some ([1; 3; 5] ++ [7], [2; 4; 6] ++ []).
Proof.
  apply (deinterleave_interleave [1; 3; 5] [2; 4; 6; 8] 3
           [0; 0; 0; 0; 0; 0; 0] [7; 7; 7; 7] [9; 9; 9]);
    unfold INT32_MAX; cbn; lia.
Defined.

(** ** Resampler3x: processing in blocks *)

Section MoreLoadFacts.
Context {A : Type}.

Lemma load_app (p q : list A) j :
  load (p ++ q) j =
    if j <? Z.of_nat (length p) then load p j
    else load q (j - Z.of_nat (length p)).
Proof.
  unfold load. destruct (Z.leb_spec 0 j).
  - rewrite nth_error_app.
    destruct (Z.ltb_spec j (Z.of_nat (length p)));
      destruct (Nat.ltb_spec (Z.to_nat j) (length p)); try lia.
    + reflexivity.
    + destruct (Z.leb_spec 0 (j - Z.of_nat (length p))); [|lia].
      f_equal. lia.
  - destruct (Z.ltb_spec j (Z.of_nat (length p))); [reflexivity|lia].
Qed.

Lemma load_repeat (x : A) (n : nat) j :
  load (repeat x n) j = if (0 <=? j) && (j <? Z.of_nat n) then Some x else None.
Proof.
  unfold load. destruct (Z.leb_spec 0 j); [|reflexivity]. cbn [andb].
  destruct (Z.ltb_spec j (Z.of_nat n)).
  - rewrite nth_error_repeat by lia. reflexivity.
  - apply nth_error_None. rewrite repeat_length. lia.
Qed.

Lemma load_neg (p : list A) j : j < 0 -> load p j = None.
Proof. intros H. unfold load. destruct (Z.leb_spec 0 j); [lia|reflexivity]. Qed.

Lemma load_beyond (p : list A) j :
  Z.of_nat (length p) <= j -> load p j = None.
Proof.
  intros H. unfold load. destruct (Z.leb_spec 0 j); [|reflexivity].
  apply nth_error_None. lia.
Qed.

End MoreLoadFacts.

Section ResamplerBlocks.
Import F32 Resampler3x.

(** Down by 3 in blocks.  When the first block holds a multiple of 3
    frames (and its output buffer holds exactly its [na / 3] samples),
    [processDown3] on a block [a] and then on a block [b] writes the same
    samples as one call on [a ++ b], and the counts add up: the means do not
    depend on where the stream is cut, as long as it is cut between
    triplets.  The resampler state is the same after each call. *)
Theorem down3_blocks_compose (self : Resampler3x.t)
    (a b oa ob : list float) (mA mB M : Z) :
  let na := Z.of_nat (length a) in
  let nb := Z.of_nat (length b) in
  na mod 3 = 0 -> na + nb <= INT32_MAX ->
  Z.of_nat (length oa) = na / 3 -> nb / 3 <= Z.of_nat (length ob) ->
  na / 3 <= mA -> nb / 3 <= mB -> (na + nb) / 3 <= M ->
  exists oa' ob',
    processDown3 self a na oa mA = Some (self, oa', na / 3) /\
    processDown3 self b nb ob mB = Some (self, ob', nb / 3) /\
    processDown3 self (a ++ b) (na + nb) (oa ++ ob) M
      = Some (self, oa' ++ ob', na / 3 + nb / 3).
Proof.
  intros na nb Hmod Hmax Hoa Hob HmA HmB HM.
  assert (Hna : 0 <= na) by (unfold na; lia).
  assert (Hnb : 0 <= nb) by (unfold nb; lia).
  assert (Hsum : (na + nb) / 3 = na / 3 + nb / 3)
    by (Z.div_mod_to_equations; lia).
  assert (Hqa : 0 <= na / 3 /\ 3 * (na / 3) = na)
    by (Z.div_mod_to_equations; lia).
  assert (Hqb : 0 <= nb / 3 /\ 3 * (nb / 3) <= nb)
    by (Z.div_mod_to_equations; lia).
  unfold processDown3. rewrite !Z.quot_div_nonneg by lia.
  rewrite Hsum.
  replace (Z.min (na / 3) mA) with (na / 3) by lia.
  replace (Z.min (nb / 3) mB) with (nb / 3) by lia.
  replace (Z.min (na / 3 + nb / 3) M) with (na / 3 + nb / 3) by lia.
  destruct (down3_loop_spec (Z.to_nat (na / 3)) a oa 0)
    as (oa' & Ea & La & Pa & Fa); try lia.
  destruct (down3_loop_spec (Z.to_nat (nb / 3)) b ob 0)
    as (ob' & Eb & Lb & Pb & Fb); try lia.
  destruct (down3_loop_spec (Z.to_nat (na / 3 + nb / 3)) (a ++ b)
              (oa ++ ob) 0)
    as (o' & Eo & Lo & Po & Fo); try lia; try (rewrite length_app; lia).
  rewrite Ea, Eb, Eo. exists oa', ob'.
  split; [reflexivity|]. split; [reflexivity|]. do 3 f_equal.
  apply load_ext. intros j. rewrite load_app, La, Hoa.
  destruct (Z_lt_le_dec j 0) as [Hneg | Hpos].
  { rewrite !load_neg by lia.
    destruct (j <? na / 3); reflexivity. }
  destruct (Z.ltb_spec j (na / 3)) as [Hlt | Hge].
  - destruct (Po j ltac:(lia)) as (s0 & s1 & s2 & E0 & E1 & E2 & Ej).
    destruct (Pa j ltac:(lia)) as (t0 & t1 & t2 & F0 & F1 & F2 & Fj).
    rewrite load_app_l in E0, E1, E2 by (fold na; lia).
    rewrite Ej, Fj. congruence.
  - destruct (Z_lt_le_dec j (na / 3 + nb / 3)) as [Hin | Hout].
    + destruct (Po j ltac:(lia)) as (s0 & s1 & s2 & E0 & E1 & E2 & Ej).
      destruct (Pb (j - na / 3) ltac:(lia))
        as (t0 & t1 & t2 & F0 & F1 & F2 & Fj).
      rewrite load_app in E0, E1, E2. fold na in E0, E1, E2.
      destruct (Z.ltb_spec (3 * j) na); [lia|].
      destruct (Z.ltb_spec (3 * j + 1) na); [lia|].
      destruct (Z.ltb_spec (3 * j + 2) na); [lia|].
      replace (3 * j - na) with (3 * (j - na / 3)) in E0 by lia.
      replace (3 * j + 1 - na) with (3 * (j - na / 3) + 1) in E1 by lia.
      replace (3 * j + 2 - na) with (3 * (j - na / 3) + 2) in E2 by lia.
      rewrite Ej, Fj. congruence.
    + rewrite Fo, Fb by lia. rewrite load_app, Hoa.
      destruct (Z.ltb_spec j (na / 3)); [lia | reflexivity].
Qed.

Lemma f32_add_zero_r (x : float) :
  is_finite x = true -> x <> S754_zero true -> add x zero = x.
Proof.
  destruct x as [[|] | s | | s m e]; cbn [is_finite]; try discriminate;
    intros _ Hx; try reflexivity. contradiction.
Qed.

(** Up by 3 of a constant.  For a finite sample [c] other than [-0], [N]
    frames equal to [c] come out as [3 N] frames equal to [c], bit for bit,
    whatever the state of the resampler was; the call leaves
    [mPrevSample = c] and [mHadPrev = true]. *)
Theorem up3_constant (self : Resampler3x.t) (c : float) (N : Z)
    (out : list float) (outMaxFrames : Z) :
  is_finite c = true -> c <> S754_zero true ->
  1 <= N -> 3 * N <= INT32_MAX ->
  3 * N <= outMaxFrames -> 3 * N <= Z.of_nat (length out) ->
  processUp3 self (repeat c (Z.to_nat N)) N out outMaxFrames
  = Some (Resampler3x.mk (mMode self) c true,
          repeat c (Z.to_nat (3 * N)) ++ skipn (Z.to_nat (3 * N)) out,
          3 * N).
Proof.
  intros Hfin Hnz HN Hmax Hroom Hout. unfold processUp3.
  destruct (Z.leb_spec N 0); [lia|].
  rewrite (i32_id (N * 3)) by (unfold in_i32, INT32_MAX in *; lia).
  replace (N * 3) with (3 * N) by lia.
  rewrite Z.min_l by lia.
  destruct (up3_loop_spec (Z.to_nat N) (repeat c (Z.to_nat N)) out N
              (3 * N) 0)
    as (out' & El & Hl & Pin & Pout); try lia.
  { rewrite repeat_length. lia. }
  replace (3 * N / 3) with N in * by (Z.div_mod_to_equations; lia).
  replace (Z.max 0 (Z.min N N)) with N in * by lia.
  change (3 * 0) with 0 in El. rewrite El.
  rewrite (i32_id (N - 1)) by (unfold in_i32, INT32_MAX in *; lia).
  rewrite load_repeat.
  destruct (Z.leb_spec 0 (N - 1)); [|lia].
  destruct (Z.ltb_spec (N - 1) (Z.of_nat (Z.to_nat N))); [|lia].
  cbn [andb]. do 3 f_equal.
  apply load_ext. intros q. rewrite load_app, repeat_length, load_repeat.
  rewrite Z2Nat.id by lia.
  destruct (Z_lt_le_dec q 0) as [Hneg | Hpos].
  { rewrite load_neg by lia.
    destruct (Z.ltb_spec q (3 * N)); [|lia].
    destruct (Z.leb_spec 0 q); [lia | reflexivity]. }
  destruct (Z.ltb_spec q (3 * N)) as [Hlt | Hge].
  - destruct (Z.leb_spec 0 q); [|lia]. cbn [andb].
    destruct (Pin (q / 3) ltac:(Z.div_mod_to_equations; lia))
      as (x0 & x1 & E0 & E1 & T0 & T1 & T2).
    rewrite load_repeat in E0.
    assert (Hx0 : x0 = c).
    { destruct ((0 <=? q / 3) && (q / 3 <? Z.of_nat (Z.to_nat N)));
        congruence. }
    assert (Hx1 : x1 = c).
    { destruct (q / 3 + 1 <? N); [|congruence].
      rewrite load_repeat in E1.
      destruct ((0 <=? q / 3 + 1) && (q / 3 + 1 <? Z.of_nat (Z.to_nat N)));
        congruence. }
    subst x0 x1. rewrite f32_held_step in T1, T2 by exact Hfin.
    change (mul two zero) with zero in T2.
    rewrite f32_add_zero_r in T1, T2 by assumption.
    assert (Hq : q = 3 * (q / 3) \/ q = 3 * (q / 3) + 1
                 \/ q = 3 * (q / 3) + 2) by (Z.div_mod_to_equations; lia).
    destruct Hq as [Hq | [Hq | Hq]]; rewrite Hq; assumption.
  - rewrite Pout by lia.
    unfold load. destruct (Z.leb_spec 0 q); [|lia].
    destruct (Z.leb_spec 0 (q - 3 * N)); [|lia].
    rewrite nth_error_skipn. f_equal. lia.
Qed.

End ResamplerBlocks.

Lemma down3_blocks_compose_witness :
  let self := Resampler3x.new Resampler3x.DownBy3 in
  let a := map F32.of_Z [1; 2; 3] in
  let b := map F32.of_Z [4; 5; 6; 7] in
  exists oa' ob',
    Resampler3x.processDown3 self a 3 [F32.zero] 1 = Some (self, oa', 1) /\
    Resampler3x.processDown3 self b 4 [F32.zero; F32.one] 5
      = Some (self, ob', 1) /\
    Resampler3x.processDown3 self (a ++ b) (3 + 4)
        ([F32.zero] ++ [F32.zero; F32.one]) 2
      = Some (self, oa' ++ ob', 1 + 1).
Proof.
  intros self a b.
  apply (down3_blocks_compose self a b [F32.zero] [F32.zero; F32.one] 1 5 2);
    try reflexivity; vm_compute; discriminate.
Defined.

Lemma up3_constant_witness :
  Resampler3x.processUp3 (Resampler3x.new Resampler3x.UpBy3)
    (repeat F32.half (Z.to_nat 2)) 2 (repeat F32.zero 7) 6
  = Some (Resampler3x.mk Resampler3x.UpBy3 F32.half true,
          repeat F32.half (Z.to_nat (3 * 2))
          ++ skipn (Z.to_nat (3 * 2)) (repeat F32.zero 7),
          3 * 2).
Proof.
  apply (up3_constant (Resampler3x.new Resampler3x.UpBy3) F32.half 2
           (repeat F32.zero 7) 6);
    try reflexivity; try discriminate; unfold INT32_MAX; cbn; lia.
Defined.

Section UpBlocks.
Import F32 Resampler3x.

Lemma up3_full (self : Resampler3x.t) (inp out : list float) :
  let N := Z.of_nat (length inp) in
  1 <= N -> 3 * N <= INT32_MAX -> 3 * N <= Z.of_nat (length out) ->
  exists out' last,
    processUp3 self inp N out (3 * N)
      = Some (Resampler3x.mk (mMode self) last true, out', 3 * N) /\
    load inp (N - 1) = Some last /\
    length out' = length out /\
    (forall i, 0 <= i < N -> up3_triplet_at inp out' N i) /\
    (forall q, 3 * N <= q -> load out' q = load out q).
Proof.
  intros N HN Hmax Hout. unfold processUp3.
  destruct (Z.leb_spec N 0); [lia|].
  rewrite (i32_id (N * 3)) by (unfold in_i32, INT32_MAX in *; lia).
  replace (N * 3) with (3 * N) by lia.
  rewrite Z.min_l by lia.
  destruct (up3_loop_spec (Z.to_nat N) inp out N (3 * N) 0)
    as (out' & El & Hl & Pin & Pout); try lia.
  replace (3 * N / 3) with N in * by (Z.div_mod_to_equations; lia).
  replace (Z.max 0 (Z.min N N)) with N in * by lia.
  change (3 * 0) with 0 in El. rewrite El.
  rewrite (i32_id (N - 1)) by (unfold in_i32, INT32_MAX in *; lia).
  destruct (load_ok inp (N - 1) ltac:(lia)) as [last Elast]. rewrite Elast.
  exists out', last. split; [reflexivity|]. split; [reflexivity|].
  split; [exact Hl|]. split; [exact Pin|].
  intros q Hq. apply Pout. lia.
Qed.

(** The samples that [processUp3] writes do not depend on the state of the
    resampler. *)
Lemma up3_state_free (self self1 : Resampler3x.t) (inp out out' : list float)
    (N M k : Z) (last : float) :
  0 < N ->
  processUp3 self inp N out M
    = Some (Resampler3x.mk (mMode self) last true, out', k) ->
  processUp3 self1 inp N out M
    = Some (Resampler3x.mk (mMode self1) last true, out', k).
Proof.
  intros HN. unfold processUp3. destruct (Z.leb_spec N 0); [lia|].
  destruct (up3_loop _ _ _ _ _ _ _) as [[o idx]|]; [|discriminate].
  destruct (load inp (i32 (N - 1))) as [l|]; [|discriminate].
  intros [= -> -> ->]. reflexivity.
Qed.

(** Up by 3 in blocks.  [processUp3] on a block [a] and then, from the
    state that this call leaves ([mPrevSample] the last sample [la] of [a],
    [mHadPrev] true), on a block [b] gives the samples of one call on
    [a ++ b] everywhere except at the two interpolated samples after the
    last frame of [a] (indices [3 na - 2] and [3 na - 1]): the call on [a]
    holds [la] there (step [(la - la) / 3]), the call on [a ++ b] steps
    towards the first sample [b0] of [b] (step [(b0 - la) / 3]).  The
    call on [b] writes the same samples from every state, so it does not
    use the sample kept by the first call, and the final state is the same
    in both runs. *)
Theorem up3_block_boundary (self : Resampler3x.t) (a b oa ob : list float) :
  let na := Z.of_nat (length a) in
  let nb := Z.of_nat (length b) in
  1 <= na -> 1 <= nb -> 3 * (na + nb) <= INT32_MAX ->
  Z.of_nat (length oa) = 3 * na -> 3 * nb <= Z.of_nat (length ob) ->
  exists oa' ob' o' la lb b0,
    processUp3 self a na oa (3 * na)
      = Some (Resampler3x.mk (mMode self) la true, oa', 3 * na) /\
    processUp3 (Resampler3x.mk (mMode self) la true) b nb ob (3 * nb)
      = Some (Resampler3x.mk (mMode self) lb true, ob', 3 * nb) /\
    (forall self1 : Resampler3x.t,
       processUp3 self1 b nb ob (3 * nb)
       = Some (Resampler3x.mk (mMode self1) lb true, ob', 3 * nb)) /\
    processUp3 self (a ++ b) (na + nb) (oa ++ ob) (3 * (na + nb))
      = Some (Resampler3x.mk (mMode self) lb true, o', 3 * (na + nb)) /\
    load a (na - 1) = Some la /\ load b 0 = Some b0 /\
    (forall q, q <> 3 * na - 2 -> q <> 3 * na - 1 ->
       load o' q = load (oa' ++ ob') q) /\
    load oa' (3 * na - 2) = Some (add la (mul (sub la la) third)) /\
    load oa' (3 * na - 1) = Some (add la (mul two (mul (sub la la) third))) /\
    load o' (3 * na - 2) = Some (add la (mul (sub b0 la) third)) /\
    load o' (3 * na - 1) = Some (add la (mul two (mul (sub b0 la) third))).
Proof.
  intros na nb Hna Hnb Hmax Hoa Hob.
  destruct (up3_full self a oa) as (oa' & la & Ea & Ela & La & Pa & Fa);
    try (fold na; lia).
  destruct (up3_full (Resampler3x.mk (mMode self) la true) b ob)
    as (ob' & lb & Eb & Elb & Lb & Pb & Fb); try (fold nb; lia).
  cbn [mMode] in Eb.
  destruct (up3_full self (a ++ b) (oa ++ ob))
    as (o' & l & Eo & El & Lo & Po & Fo);
    try (rewrite ?length_app, ?Nat2Z.inj_add; fold na nb; lia).
  rewrite length_app, Nat2Z.inj_add in Eo, El, Po, Fo.
  fold na nb in Ea, Ela, Pa, Fa, Eb, Elb, Pb, Fb, Eo, El, Po, Fo.
  assert (Hl : l = lb).
  { rewrite load_app in El. fold na in El.
    destruct (Z.ltb_spec (na + nb - 1) na); [lia|].
    replace (na + nb - 1 - na) with (nb - 1) in El by lia. congruence. }
  subst l.
  destruct (load_ok b 0 ltac:(lia)) as [b0 Eb0].
  exists oa', ob', o', la, lb, b0.
  split; [exact Ea|]. split; [exact Eb|].
  split.
  { intros self1.
    exact (up3_state_free (Resampler3x.mk (mMode self) la true) self1 b ob ob'
             nb (3 * nb) (3 * nb) lb ltac:(lia) Eb). }
  split; [exact Eo|].
  split; [exact Ela|]. split; [exact Eb0|].
  (* the triplet of the last sample of [a], in both runs *)
  destruct (Pa (na - 1) ltac:(lia)) as (x0 & x1 & A0 & A1 & TA0 & TA1 & TA2).
  destruct (Z.ltb_spec (na - 1 + 1) na); [lia|].
  assert (x0 = la) by congruence. assert (x1 = la) by congruence.
  subst x0 x1.
  destruct (Po (na - 1) ltac:(lia)) as (y0 & y1 & O0 & O1 & TO0 & TO1 & TO2).
  destruct (Z.ltb_spec (na - 1 + 1) (na + nb)); [|lia].
  rewrite load_app_l in O0 by (fold na; lia).
  rewrite load_app in O1. fold na in O1.
  destruct (Z.ltb_spec (na - 1 + 1) na); [lia|].
  replace (na - 1 + 1 - na) with 0 in O1 by lia.
  assert (y0 = la) by congruence. assert (y1 = b0) by congruence.
  subst y0 y1.
  replace (3 * (na - 1) + 1) with (3 * na - 2) in * by lia.
  replace (3 * (na - 1) + 2) with (3 * na - 1) in * by lia.
  split; [|auto].
  intros q Hq1 Hq2. rewrite load_app, La, Hoa.
  destruct (Z_lt_le_dec q 0) as [Hneg | Hpos].
  { rewrite !load_neg by lia. destruct (q <? 3 * na); reflexivity. }
  destruct (Z_lt_le_dec q (3 * (na + nb))) as [Hin | Hout].
  2:{ rewrite Fo by lia. rewrite load_app, Hoa.
      destruct (Z.ltb_spec q (3 * na)); [lia|]. rewrite Fb by lia.
      reflexivity. }
  assert (Hq : q = 3 * (q / 3) \/ q = 3 * (q / 3) + 1
               \/ q = 3 * (q / 3) + 2) by (Z.div_mod_to_equations; lia).
  set (i := q / 3) in *.
  assert (Hi : 0 <= i < na + nb) by lia.
  destruct (Po i Hi) as (z0 & z1 & Z0 & Z1 & T0 & T1 & T2).
  destruct (Z.ltb_spec q (3 * na)) as [Hlt | Hge].
  - assert (Hia : i < na) by lia.
    destruct (Z.eq_dec i (na - 1)) as [Heq | Hne].
    + assert (q = 3 * (na - 1)) by lia. subst q.
      rewrite Heq in T0. congruence.
    + destruct (Pa i ltac:(lia)) as (w0 & w1 & W0 & W1 & U0 & U1 & U2).
      rewrite load_app_l in Z0 by (fold na; lia).
      destruct (Z.ltb_spec (i + 1) (na + nb)); [|lia].
      destruct (Z.ltb_spec (i + 1) na); [|lia].
      rewrite load_app_l in Z1 by (fold na; lia).
      assert (z0 = w0) by congruence. assert (z1 = w1) by congruence.
      subst z0 z1.
      destruct Hq as [Hq | [Hq | Hq]]; rewrite Hq; congruence.
  - assert (Hib : na <= i) by lia.
    destruct (Pb (i - na) ltac:(lia)) as (w0 & w1 & W0 & W1 & U0 & U1 & U2).
    rewrite load_app in Z0, Z1. fold na in Z0, Z1.
    destruct (Z.ltb_spec i na); [lia|].
    destruct (Z.ltb_spec (i + 1) na); [lia|].
    replace (i + 1 - na) with (i - na + 1) in Z1 by lia.
    assert (z0 = w0) by congruence.
    assert (z1 = w1).
    { destruct (Z.ltb_spec (i + 1) (na + nb));
        destruct (Z.ltb_spec (i - na + 1) nb); try lia; congruence. }
    subst z0 z1.
    replace (3 * (i - na)) with (3 * i - 3 * na) in U0 by lia.
    replace (3 * (i - na) + 1) with (3 * i + 1 - 3 * na) in U1 by lia.
    replace (3 * (i - na) + 2) with (3 * i + 2 - 3 * na) in U2 by lia.
    destruct Hq as [Hq | [Hq | Hq]]; rewrite Hq; congruence.
Qed.

End UpBlocks.

Lemma up3_block_boundary_witness :
  let self := Resampler3x.new Resampler3x.UpBy3 in
  let a := map F32.of_Z [1; 4] in
  let b := map F32.of_Z [7] in
  let oa := repeat F32.zero 6 in
  let ob := repeat F32.zero 4 in
  exists oa' ob' o' la lb b0,
    Resampler3x.processUp3 self a 2 oa (3 * 2)
      = Some (Resampler3x.mk Resampler3x.UpBy3 la true, oa', 3 * 2) /\
    Resampler3x.processUp3 (Resampler3x.mk Resampler3x.UpBy3 la true)
                           b 1 ob (3 * 1)
      = Some (Resampler3x.mk Resampler3x.UpBy3 lb true, ob', 3 * 1) /\
    (forall self1 : Resampler3x.t,
       Resampler3x.processUp3 self1 b 1 ob (3 * 1)
       = Some (Resampler3x.mk (Resampler3x.mMode self1) lb true, ob', 3 * 1))
    /\
    Resampler3x.processUp3 self (a ++ b) (2 + 1) (oa ++ ob) (3 * (2 + 1))
      = Some (Resampler3x.mk Resampler3x.UpBy3 lb true, o', 3 * (2 + 1)) /\
    load a (2 - 1) = Some la /\ load b 0 = Some b0 /\
    (forall q, q <> 3 * 2 - 2 -> q <> 3 * 2 - 1 ->
       load o' q = load (oa' ++ ob') q) /\
    load oa' (3 * 2 - 2)
      = Some (F32.add la (F32.mul (F32.sub la la) F32.third)) /\
    load oa' (3 * 2 - 1)
      = Some (F32.add la (F32.mul F32.two (F32.mul (F32.sub la la) F32.third)))
    /\
    load o' (3 * 2 - 2)
      = Some (F32.add la (F32.mul (F32.sub b0 la) F32.third)) /\
    load o' (3 * 2 - 1)
      = Some (F32.add la (F32.mul F32.two (F32.mul (F32.sub b0 la) F32.third))).
Proof.
  intros self a b oa ob.
  apply (up3_block_boundary self a b oa ob);
    unfold INT32_MAX; cbn; lia.
Defined.

(** ** StftProcessor: sizes, cursors and conservation *)

Section LoopFacts.
Context {S : Type}.

Lemma for_loop_inv (P : S -> Prop) (body : Z -> S -> S) :
  (forall i s, P s -> P (body i s)) ->
  forall n i s, P s -> P (for_loop n i body s).
Proof.
  intros Hb. induction n as [|n IH]; intros i s Hs; cbn [for_loop].
  - exact Hs.
  - apply IH, Hb, Hs.
Qed.

Lemma for_loop_add (body : Z -> S -> S) n1 : forall n2 i s,
  for_loop (n1 + n2) i body s
  = for_loop n2 (i + Z.of_nat n1) body (for_loop n1 i body s).
Proof.
  induction n1 as [|n1 IH]; intros n2 i s.
  - cbn [for_loop Nat.add]. f_equal. lia.
  - cbn [for_loop Nat.add]. rewrite IH. f_equal. lia.
Qed.

End LoopFacts.

Section FftFacts.
Import F32 StftProcessor.
Variables cosf sinf : float -> float.

Lemma bitrev_body_length n i st :
  length (snd (bitrev_body n i st)) = length (snd st).
Proof.
  unfold bitrev_body. destruct st as [j a].
  destruct (bitrev_carry 64 j (Z.shiftr n 1)) as [j' bit].
  cbn [snd]. destruct (i <? Z.lxor j' bit); [|reflexivity].
  now rewrite !vset_length.
Qed.

Lemma butterfly_length i half wlen k st :
  length (snd (butterfly i half wlen k st)) = length (snd st).
Proof.
  unfold butterfly. destruct st as [w a]. cbn [snd].
  now rewrite !vset_length.
Qed.

Lemma fft_blocks_length m : forall i len wlen a,
  length (fft_blocks m i len wlen a) = length a.
Proof.
  induction m as [|m IH]; intros i len wlen a; cbn [fft_blocks].
  - reflexivity.
  - rewrite IH.
    apply (for_loop_inv (fun st => length (snd st) = length a)).
    + intros k st Hst. now rewrite butterfly_length.
    + reflexivity.
Qed.

Lemma fft_stages_length fuel : forall n len inverse a,
  length (fft_stages cosf sinf fuel n len inverse a) = length a.
Proof.
  induction fuel as [|fuel IH]; intros n len inverse a; cbn [fft_stages].
  - reflexivity.
  - destruct (len <=? n); [|reflexivity].
    rewrite IH. apply fft_blocks_length.
Qed.

Lemma fft_length a inverse :
  length (fft cosf sinf a inverse) = length a.
Proof.
  unfold fft.
  assert (H : length (snd (for_loop (Z.to_nat (Z.of_nat (length a) - 1)) 1
                             (bitrev_body (Z.of_nat (length a))) (0, a)))
              = length a).
  { apply (for_loop_inv (fun st => length (snd st) = length a)).
    - intros i st Hst. now rewrite bitrev_body_length.
    - reflexivity. }
  destruct inverse; rewrite ?length_map, fft_stages_length; exact H.
Qed.

End FftFacts.

Section VcopyFacts.
Context {A : Type}.

Lemma vcopy_length (dst src : list A) off :
  0 <= off -> off + Z.of_nat (length src) <= Z.of_nat (length dst) ->
  length (vcopy dst off src) = length dst.
Proof.
  intros Hoff Hfit. unfold vcopy.
  rewrite !length_app, !length_firstn, length_skipn. lia.
Qed.

Lemma vcopy_eq (dst src : list A) off :
  0 <= off -> off + Z.of_nat (length src) <= Z.of_nat (length dst) ->
  vcopy dst off src =
    firstn (Z.to_nat off) dst ++ src
    ++ skipn (Z.to_nat off + length src) dst.
Proof.
  intros Hoff Hfit. unfold vcopy. do 2 f_equal.
  apply firstn_all2. lia.
Qed.

Lemma for_loop_vset_length (f : Z -> list A -> A) n : forall i v,
  length (for_loop n i (fun i v => vset v i (f i v)) v) = length v.
Proof.
  induction n as [|n IH]; intros i v; cbn [for_loop].
  - reflexivity.
  - rewrite IH. apply vset_length.
Qed.

End VcopyFacts.

Section StftStatics.
Import F32 StftProcessor StftViews.
Variables cosf sinf : float -> float.

Lemma statics_for_loop (body : Z -> t -> t) :
  (forall i s, statics (body i s) = statics s) ->
  forall n i s, statics (for_loop n i body s) = statics s.
Proof.
  intros Hb. induction n as [|n IH]; intros i s; cbn [for_loop].
  - reflexivity.
  - rewrite IH. apply Hb.
Qed.

Lemma statics_olaAdd s blk : statics (olaAdd s blk) = statics s.
Proof.
  unfold olaAdd.
  pose proof (statics_for_loop (olaAdd_body blk)
                (fun i s => eq_refl) (Z.to_nat kNFFT) 0 s) as H.
  revert H. generalize (for_loop (Z.to_nat kNFFT) 0 (olaAdd_body blk) s).
  intros s1 H. rewrite <- H. reflexivity.
Qed.

Lemma vset_loop_length {A : Type} (f : Z -> list A -> A) n i (v : list A) :
  length (for_loop n i (fun i v => vset v i (f i v)) v) = length v.
Proof.
  apply (for_loop_inv (fun w => length w = length v)); [|reflexivity].
  intros j w Hw. now rewrite vset_length.
Qed.

(** What a hop leaves in the window, the history and the scratch buffers:
    the analysis frame is 32 zeros, the history and the hop. *)
Lemma statics_processOneHop s :
  exists tw fi fo,
    statics (processOneHop cosf sinf s) =
      (mWin s, mHist384 s,
       vcopy (vcopy (map (fun _ => zero) (mTime512 s)) 32
                    (firstn 384 (mHist384 s)))
             (32 + 384) (firstn (Z.to_nat kHOP) (mHopBuf s)),
       tw, fi, fo) /\
    length tw = length (mTimeWin s) /\
    length fi = length (mFFTIn s) /\
    length fo = length (mFFTIn s).
Proof.
  unfold processOneHop. cbv zeta.
  match goal with
  | |- context [olaAdd (set_scratch s ?fi ?fo ?t ?tw) ?tw] =>
      assert (Lfi : length fi = length (mFFTIn s))
        by (apply (vset_loop_length (fun i _ => _)));
      assert (Lfo : length fo = length (mFFTIn s))
        by (rewrite fft_length; exact Lfi);
      assert (Ltw : length tw = length (mTimeWin s))
        by (rewrite (vset_loop_length (fun i _ => _));
            apply (vset_loop_length (fun i _ => _)));
      pose proof (statics_olaAdd (set_scratch s fi fo t tw) tw) as H;
      revert Lfi Lfo Ltw H;
      generalize (olaAdd (set_scratch s fi fo t tw) tw);
      generalize tw; generalize fo; generalize fi
  end.
  intros fi fo tw s1 Lfi Lfo Ltw H.
  exists tw, fi, fo. split; [|auto].
  unfold count_hop, statics in *. stft_fields. stft_fields_in H. exact H.
Qed.

End StftStatics.

Section StftSizes.
Import F32 StftProcessor StftViews.
Variables cosf sinf : float -> float.

Lemma sizes_eq s s' :
  statics s' = statics s -> rings s' = rings s -> mHopBuf s' = mHopBuf s ->
  sizes s -> sizes s'.
Proof.
  unfold statics, rings, sizes. intros H1 H2 H3.
  injection H1 as -> -> -> -> -> ->. injection H2 as -> -> _. rewrite H3.
  auto.
Qed.

Lemma sizes_processOneHop s : sizes s -> sizes (processOneHop cosf sinf s).
Proof.
  intros (S1 & S2 & S3 & S4 & S5 & S6 & S7 & S8 & S9).
  destruct (statics_processOneHop cosf sinf s)
    as (tw & fi & fo & Hst & Ltw & Lfi & Lfo).
  pose proof (rings_processOneHop cosf sinf s) as Hr.
  pose proof (meta_processOneHop cosf sinf s) as Hm.
  apply (f_equal (fun m => fst (fst (fst m)))) in Hm.
  unfold kNFFT, kHOP in *.
  match type of Hst with _ = (_, _, ?f, _, _, _) =>
    assert (Lf : Z.of_nat (length f) = 512);
    [|revert Lf Hst; generalize f; intros frame Lf Hst] end.
  { repeat first [rewrite vcopy_length | rewrite length_map
                  | rewrite length_firstn]; lia. }
  revert Hst Hr Hm. generalize (processOneHop cosf sinf s). intros s1.
  unfold statics, rings, meta, sizes, kNFFT, kHOP in *. cbn [fst].
  intros Hst Hr Hm.
  injection Hst as -> -> -> -> -> ->. injection Hr as -> -> _. rewrite Hm.
  rewrite Ltw, Lfi, Lfo.
  repeat split; assumption.
Qed.

Lemma sizes_roll_history s : sizes s -> sizes (roll_history s).
Proof.
  intros (S1 & S2 & S3 & S4 & S5 & S6 & S7 & S8 & S9).
  unfold roll_history, sizes, kNFFT, kHOP in *. stft_fields.
  repeat split; try assumption.
  repeat first [rewrite vcopy_length | rewrite length_skipn
                | rewrite length_firstn]; lia.
Qed.

Lemma copy_n_length src soff n dst doff hb :
  copy_n src soff n dst doff = Some hb -> length hb = length dst.
Proof.
  unfold copy_n. destruct (n <=? 0).
  - now intros [= <-].
  - apply memcpy_length.
Qed.

Lemma push_body_sizes s mono16 frames idx s' idx' :
  push_body cosf sinf s mono16 frames idx = Some (s', idx') ->
  sizes s -> sizes s'.
Proof.
  unfold push_body.
  destruct (copy_n mono16 idx _ (mHopBuf s) (mHopFill s)) as [hb|] eqn:E;
    [|discriminate].
  apply copy_n_length in E.
  intros [= <- _] Hs.
  assert (Hs1 : forall f, sizes (set_hop s hb f)).
  { intros f. revert Hs. unfold sizes. stft_fields. rewrite E. auto. }
  stft_fields. destruct (_ =? kHOP); [|apply Hs1].
  apply sizes_roll_history, sizes_processOneHop, Hs1.
Qed.

Lemma push_loop_sizes fuel : forall s mono16 frames idx s',
  push_loop cosf sinf fuel s mono16 frames idx = Some s' ->
  sizes s -> sizes s'.
Proof.
  induction fuel as [|fuel IH]; intros s mono16 frames idx s';
    cbn [push_loop]; destruct (idx <? frames);
    try discriminate; try (intros [= <-]; auto).
  destruct (push_body cosf sinf s mono16 frames idx) as [[s1 idx1]|] eqn:E;
    [|discriminate].
  intros H Hs. apply (IH _ _ _ _ _ H). eapply push_body_sizes; eassumption.
Qed.

Lemma pop_loop_statics n : forall i s out s' out',
  for_loop n i pop_body (Some (s, out)) = Some (s', out') ->
  statics s' = statics s.
Proof.
  induction n as [|n IH]; intros i s out s' out'; cbn [for_loop].
  - now intros [= <- _].
  - cbn [pop_body]. destruct (store out i _) as [o1|].
    2:{ rewrite pop_loop_none. discriminate. }
    intros H. apply IH in H. rewrite H. reflexivity.
Qed.

Lemma step_sizes s c s' :
  step cosf sinf s c = Some s' -> sizes s -> sizes s'.
Proof.
  destruct c as [mono16 frames | out16 maxFrames]; cbn [step].
  - unfold pushTimeDomain. intros H Hs.
    apply (push_loop_sizes _ _ _ _ _ _ H). exact Hs.
  - unfold popTimeDomain.
    destruct (for_loop _ 0 pop_body (Some (s, out16))) as [[s1 o1]|] eqn:E;
      [|discriminate].
    intros [= <-].
    pose proof (pop_loop_statics _ _ _ _ _ _ E) as Hst.
    apply pop_loop_ring in E. destruct E as [H1 H2].
    apply meta_inv in H2. destruct H2 as (M1 & _).
    apply sizes_eq; assumption.
Qed.

Lemma new_sizes : sizes (new cosf).
Proof.
  unfold sizes, new. cbv zeta. stft_fields.
  rewrite (vset_loop_length (fun i _ => _)), !repeat_length.
  unfold kNFFT, kHOP.
  assert (E : Z.of_nat (Z.to_nat (2 ^ 15)) = 2 ^ 15) by (apply Z2Nat.id; lia).
  rewrite E. repeat split; lia.
Qed.

Lemma run_sizes calls : forall s s',
  run cosf sinf s calls = Some s' -> sizes s -> sizes s'.
Proof.
  induction calls as [|c calls IH]; intros s s'; cbn [run].
  - now intros [= <-].
  - destruct (step cosf sinf s c) as [s1|] eqn:E; [|discriminate].
    intros H Hs. apply (IH _ _ H). eapply step_sizes; eassumption.
Qed.

(** *** Cursors *)

Lemma land_mask x : Z.land (u64 x) (2 ^ 15 - 1) = x mod 2 ^ 15.
Proof.
  change (2 ^ 15 - 1) with (Z.ones 15). rewrite Z.land_ones by lia.
  unfold u64. apply Z.mod_mod_divide. exists (2 ^ 49). reflexivity.
Qed.

Lemma mod_u64_15 x : u64 x mod 2 ^ 15 = x mod 2 ^ 15.
Proof.
  unfold u64. apply Z.mod_mod_divide. exists (2 ^ 49). reflexivity.
Qed.

Lemma hop_cursor h :
  ((96 * h) mod 2 ^ 15 + 96) mod 2 ^ 15 = (96 * u64 (h + 1)) mod 2 ^ 15.
Proof.
  rewrite Zplus_mod_idemp_l. symmetry.
  rewrite <- Zmult_mod_idemp_r, mod_u64_15, Zmult_mod_idemp_r.
  f_equal. lia.
Qed.

Lemma pop_cursor q w :
  (q mod 2 ^ 15 + u64 w) mod 2 ^ 15 = u64 (q + u64 w) mod 2 ^ 15.
Proof. rewrite mod_u64_15. now rewrite Zplus_mod_idemp_l. Qed.

Lemma push_body_cursors s mono16 frames idx s' idx' :
  push_body cosf sinf s mono16 frames idx = Some (s', idx') ->
  cursors s -> cursors s'.
Proof.
  unfold push_body.
  destruct (copy_n mono16 idx _ (mHopBuf s) (mHopFill s)) as [hb|];
    [|discriminate].
  match goal with |- context [set_hop s hb ?f] => generalize f end.
  intros f. stft_fields.
  destruct (f =? kHOP); [|intros [= <- _]; auto].
  unfold roll_history.
  pose proof (meta_processOneHop cosf sinf (set_hop s hb f)) as Hm.
  revert Hm. generalize (processOneHop cosf sinf (set_hop s hb f)).
  intros s1 Hm [= <- _]. unfold meta in Hm. stft_fields_in Hm.
  injection Hm as _ _ M3 M4 M5 _ _ M8 M9.
  unfold cursors, kHOP. stft_fields. intros (C1 & C2 & C3).
  rewrite M3, M4, M5, M8, M9, C1, land_mask, C2.
  split; [reflexivity|]. split; [|exact C3].
  apply hop_cursor.
Qed.

Lemma push_loop_cursors fuel : forall s mono16 frames idx s',
  push_loop cosf sinf fuel s mono16 frames idx = Some s' ->
  cursors s -> cursors s'.
Proof.
  induction fuel as [|fuel IH]; intros s mono16 frames idx s';
    cbn [push_loop]; destruct (idx <? frames);
    try discriminate; try (intros [= <-]; auto).
  destruct (push_body cosf sinf s mono16 frames idx) as [[s1 idx1]|] eqn:E;
    [|discriminate].
  intros H Hs. apply (IH _ _ _ _ _ H). eapply push_body_cursors; eassumption.
Qed.

Lemma step_cursors s c s' :
  step cosf sinf s c = Some s' -> cursors s -> cursors s'.
Proof.
  destruct c as [mono16 frames | out16 maxFrames]; cbn [step].
  - unfold pushTimeDomain. intros H Hs.
    apply (push_loop_cursors _ _ _ _ _ _ H). exact Hs.
  - unfold popTimeDomain.
    destruct (for_loop _ 0 pop_body (Some (s, out16))) as [[s1 o1]|] eqn:E;
      [|discriminate].
    intros [= <-]. apply pop_loop_ring in E. destruct E as [_ H2].
    apply meta_inv in H2.
    destruct H2 as (_ & _ & M3 & M4 & M5 & _ & _ & M8 & M9).
    unfold cursors, count_popped. stft_fields. intros (C1 & C2 & C3).
    rewrite M3, M4, M5, M8, M9, C1, land_mask, C3.
    split; [reflexivity|]. split; [exact C2|].
    apply pop_cursor.
Qed.

Lemma new_cursors : cursors (new cosf).
Proof. unfold cursors, new. cbv zeta. stft_fields. auto. Qed.

Lemma run_cursors calls : forall s s',
  run cosf sinf s calls = Some s' -> cursors s -> cursors s'.
Proof.
  induction calls as [|c calls IH]; intros s s'; cbn [run].
  - now intros [= <-].
  - destruct (step cosf sinf s c) as [s1|] eqn:E; [|discriminate].
    intros H Hs. apply (IH _ _ H). eapply step_cursors; eassumption.
Qed.

End StftSizes.

(** Conservation of samples.  After any sequence of [pushTimeDomain] and
    [popTimeDomain] calls within the limits of their types, the samples
    produced are those waiting plus those popped,
    [mAvail + framesPopped = 96 * hopsProcessed]; the samples pushed are
    those of the completed hops plus those staged in the hop buffer,
    [framesPushed = 96 * hopsProcessed + mHopFill] with [0 <= mHopFill < 96];
    and the write and read cursors of the overlap-add ring are
    [96 * hopsProcessed] and [framesPopped] modulo the ring size [2 ^ 15]. *)
Theorem stft_conservation (cosf sinf : F32.float -> F32.float)
    (calls : list StftProcessor.call) :
  StftProcessor.in_limits 0 0 calls ->
  exists s,
    StftProcessor.run cosf sinf (StftProcessor.new cosf) calls = Some s /\
    StftProcessor.mAvail s + StftProcessor.framesPopped s
      = 96 * StftProcessor.hopsProcessed s /\
    StftProcessor.framesPushed s
      = 96 * StftProcessor.hopsProcessed s + StftProcessor.mHopFill s /\
    0 <= StftProcessor.mHopFill s < 96 /\
    StftProcessor.mOlaWrite s
      = (96 * StftProcessor.hopsProcessed s) mod 2 ^ 15 /\
    StftProcessor.mOlaRead s = StftProcessor.framesPopped s mod 2 ^ 15.
Proof.
  intros Hlim.
  destruct (run_counts cosf sinf calls _ 0 0 (new_counts cosf) Hlim)
    as (s & E & Hc).
  pose proof (run_cursors cosf sinf calls _ _ E (new_cursors cosf))
    as (_ & C2 & C3).
  exists s. split; [exact E|].
  destruct Hc as (Hp & Hq & Hf & Hh & Ha & HQ & HP & _).
  unfold StftProcessor.framesPushed, StftProcessor.framesPopped,
    StftProcessor.hopsProcessed, StftProcessor.kHOP in *.
  set (P := fst (StftProcessor.tally 0 0 calls)) in *.
  set (Q := snd (StftProcessor.tally 0 0 calls)) in *.
  rewrite C2, C3, Hp, Hq, Hf, Hh, Ha.
  repeat split; try reflexivity; Z.div_mod_to_equations; lia.
Qed.

(** The member vectors keep the sizes of the constructor along any sequence
    of calls within the limits of their types: 512 for the window and the
    four scratch buffers, 96 for the hop buffer, 384 for the history and
    [2 ^ 15] for the two rings. *)
Theorem stft_sizes_invariant (cosf sinf : F32.float -> F32.float)
    (calls : list StftProcessor.call) :
  StftProcessor.in_limits 0 0 calls ->
  exists s,
    StftProcessor.run cosf sinf (StftProcessor.new cosf) calls = Some s /\
    StftViews.sizes s.
Proof.
  intros Hlim.
  destruct (run_counts cosf sinf calls _ 0 0 (new_counts cosf) Hlim)
    as (s & E & _).
  exists s. split; [exact E|].
  exact (run_sizes cosf sinf calls _ _ E (new_sizes cosf)).
Qed.

Lemma stft_conservation_witness :
  let calls := [StftProcessor.Push (repeat F32.one 100) 100;
                StftProcessor.Pop (repeat F32.zero 200) 200;
                StftProcessor.Push (repeat F32.one 100) 100] in
  exists s,
    StftProcessor.run Libm.cosf Libm.sinf (StftProcessor.new Libm.cosf) calls
      = Some s /\
    StftProcessor.mAvail s + StftProcessor.framesPopped s
      = 96 * StftProcessor.hopsProcessed s /\
    StftProcessor.framesPushed s
      = 96 * StftProcessor.hopsProcessed s + StftProcessor.mHopFill s /\
    0 <= StftProcessor.mHopFill s < 96 /\
    StftProcessor.mOlaWrite s
      = (96 * StftProcessor.hopsProcessed s) mod 2 ^ 15 /\
    StftProcessor.mOlaRead s = StftProcessor.framesPopped s mod 2 ^ 15.
Proof.
  intros calls.
  apply (stft_conservation Libm.cosf Libm.sinf calls).
  vm_compute. repeat split; discriminate.
Defined.

Lemma stft_sizes_invariant_witness :
  let calls := [StftProcessor.Push (repeat F32.one 100) 100;
                StftProcessor.Pop (repeat F32.zero 200) 200] in
  exists s,
    StftProcessor.run Libm.cosf Libm.sinf (StftProcessor.new Libm.cosf) calls
      = Some s /\
    StftViews.sizes s.
Proof.
  intros calls.
  apply (stft_sizes_invariant Libm.cosf Libm.sinf calls).
  vm_compute. repeat split; discriminate.
Defined.

(** ** StftProcessor: popping in chunks *)

Section VgetExt.
Context {A : Type}.

Lemma vget_ext (d : A) (v w : list A) :
  length v = length w ->
  (forall k, 0 <= k < Z.of_nat (length v) -> vget d v k = vget d w k) ->
  v = w.
Proof.
  intros Hl H. apply (nth_ext v w d d Hl). intros n Hn.
  specialize (H (Z.of_nat n) ltac:(lia)). unfold vget in H.
  destruct (Z.leb_spec 0 (Z.of_nat n)); [|lia].
  now rewrite Nat2Z.id in H.
Qed.

End VgetExt.

Section PopChunks.
Import F32 StftProcessor StftViews.

Lemma pop_loop_form n : forall i s out s' out',
  for_loop n i pop_body (Some (s, out)) = Some (s', out') ->
  s' = set_rings s (mOlaBuf s') (mNormBuf s').
Proof.
  induction n as [|n IH]; intros i s out s' out'; cbn [for_loop].
  - intros [= <- _]. destruct s. reflexivity.
  - cbn [pop_body]. destruct (store out i _) as [o1|].
    2:{ rewrite pop_loop_none. discriminate. }
    intros H. apply IH in H. rewrite H at 1. reflexivity.
Qed.

Lemma count_popped_ring_ok s want : ring_ok s -> ring_ok (count_popped s want).
Proof.
  intros (Hm & Ho & Hn & Hr). unfold ring_ok, count_popped. stft_fields.
  rewrite Hm, land_mask. repeat split; try assumption;
    apply Z.mod_pos_bound; lia.
Qed.

Lemma count_popped_twice s a b :
  mOlaMask s = 2 ^ 15 - 1 -> 0 <= a -> 0 <= b -> a + b < 2 ^ 64 ->
  count_popped (count_popped s a) b = count_popped s (a + b).
Proof.
  intros Hm Ha Hb Hab. unfold count_popped. stft_fields.
  rewrite Hm, !land_mask.
  rewrite (u64_id a), (u64_id b), (u64_id (a + b)) by (unfold in_u64; lia).
  unfold set_counters, set_cursors. stft_fields. f_equal.
  - rewrite Zplus_mod_idemp_l. f_equal. lia.
  - unfold u64. rewrite Zminus_mod_idemp_l. f_equal. lia.
  - unfold u64. rewrite Zplus_mod_idemp_l. f_equal. lia.
Qed.

Lemma pop_states_agree s s1 s2 s3 a b :
  mOlaMask s = 2 ^ 15 - 1 -> 0 <= a -> 0 <= b -> a + b < 2 ^ 64 ->
  s1 = set_rings s (mOlaBuf s1) (mNormBuf s1) ->
  s2 = set_rings (count_popped s1 a) (mOlaBuf s2) (mNormBuf s2) ->
  s3 = set_rings s (mOlaBuf s3) (mNormBuf s3) ->
  mOlaBuf s3 = mOlaBuf s2 -> mNormBuf s3 = mNormBuf s2 ->
  count_popped s3 (a + b) = count_popped s2 b.
Proof.
  intros Hm Ha Hb Hab E1 E2 E3 Ho Hn. rewrite Ho, Hn in E3.
  revert E1 E2 E3.
  generalize (mOlaBuf s2) (mNormBuf s2) (mOlaBuf s1) (mNormBuf s1).
  intros o n o1 n1 -> -> ->.
  change (set_rings (count_popped (set_rings s o1 n1) a) o n)
    with (count_popped (set_rings s o n) a).
  symmetry. apply count_popped_twice; assumption.
Qed.

(** Popping in chunks.  When [a + b] samples are available ([a + b] no more
    than the ring size), [popTimeDomain] of [a] samples into a buffer of
    [a] samples followed by [popTimeDomain] of [b] samples into a buffer of
    [b] samples returns the same samples and leaves the
    same state as one [popTimeDomain] of [a + b] samples into the two
    buffers laid end to end. *)
Theorem pop_chunks_agree (s : StftProcessor.t) (oa ob : list float) :
  let a := Z.of_nat (length oa) in
  let b := Z.of_nat (length ob) in
  ring_ok s ->
  a + b <= mAvail s -> mAvail s <= INT32_MAX -> a + b <= 2 ^ 15 ->
  exists s1 oa' s2 ob',
    popTimeDomain s oa a = Some (s1, oa', a) /\
    popTimeDomain s1 ob b = Some (s2, ob', b) /\
    popTimeDomain s (oa ++ ob) (a + b) = Some (s2, oa' ++ ob', a + b).
Proof.
  intros a b Hs Hav Hmax Hcap.
  assert (Ha : 0 <= a) by (unfold a; lia).
  assert (Hb : 0 <= b) by (unfold b; lia).
  unfold INT32_MAX in *.
  pose proof Hs as (Hmask & Hlo & Hln & Hr).
  (* first call *)
  destruct (pop_loop_spec (Z.to_nat a) 0 s oa Hs)
    as (s1 & oa' & E1 & M1 & Hs1 & L1 & Pin1 & Pout1 & Pk1);
    try (unfold INT32_MAX; lia).
  set (s1c := count_popped s1 a).
  assert (Hs1c : ring_ok s1c) by (apply count_popped_ring_ok, Hs1).
  apply meta_inv in M1.
  destruct M1 as (_ & _ & _ & M14 & M15 & M16 & _).
  assert (Hav1 : mAvail s1c = mAvail s - a).
  { unfold s1c, count_popped. stft_fields. rewrite M16.
    rewrite (u64_id a) by (unfold in_u64; lia).
    apply u64_id. unfold in_u64. lia. }
  (* second call *)
  destruct (pop_loop_spec (Z.to_nat b) 0 s1c ob Hs1c)
    as (s2 & ob' & E2 & M2 & Hs2 & L2 & Pin2 & Pout2 & Pk2);
    try (unfold INT32_MAX; lia).
  (* the call for both *)
  destruct (pop_loop_spec (Z.to_nat (a + b)) 0 s (oa ++ ob) Hs)
    as (s3 & o3 & E3 & M3 & Hs3 & L3 & Pin3 & Pout3 & Pk3);
    try (rewrite ?length_app; unfold INT32_MAX; lia).
  rewrite Z2Nat.id in Pin1, Pout1, Pk1, Pin2, Pout2, Pk2, Pin3, Pout3, Pk3
    by lia.
  cbn [Z.add] in Pin1, Pout1, Pk1, Pin2, Pout2, Pk2, Pin3, Pout3, Pk3.
  (* slots *)
  assert (Hslot : forall j, 0 <= j <= 2 ^ 15 ->
             read_slot s1c j = read_slot s (a + j)).
  { intros j Hj.
    rewrite (read_slot_mod s1c) by (assumption || unfold INT32_MAX; lia).
    rewrite (read_slot_mod s) by (assumption || unfold INT32_MAX; lia).
    unfold s1c, count_popped. stft_fields.
    rewrite M14, M15, Hmask, land_mask.
    rewrite (u64_id a) by (unfold in_u64; lia).
    rewrite Zplus_mod_idemp_l. f_equal. lia. }
  assert (Hrange : forall j, 0 <= j <= 2 ^ 15 ->
             0 <= read_slot s j < 2 ^ 15).
  { intros j Hj. apply read_slot_range; [assumption | unfold INT32_MAX; lia]. }
  assert (Hdist : forall i j, 0 <= i < a + b -> 0 <= j < a + b -> i <> j ->
             read_slot s i <> read_slot s j).
  { intros i j Hi Hj Hne. destruct (Z_lt_le_dec i j).
    - intros Heq. symmetry in Heq. revert Heq.
      apply read_slot_distinct; try assumption; unfold INT32_MAX; lia.
    - apply read_slot_distinct; try assumption; unfold INT32_MAX; lia. }
  (* the samples *)
  assert (Ho : o3 = oa' ++ ob').
  { apply load_ext. intros q. rewrite load_app, L1. fold a.
    destruct (Z_lt_le_dec q 0) as [Hneg | Hpos].
    { rewrite !load_neg by lia. destruct (q <? a); reflexivity. }
    destruct (Z.ltb_spec q a) as [Hlt | Hge].
    - destruct (Pin3 q ltac:(lia)) as (Q3 & _).
      destruct (Pin1 q ltac:(lia)) as (Q1 & _). congruence.
    - destruct (Z_lt_le_dec q (a + b)) as [Hin | Hout].
      + destruct (Pin3 q ltac:(lia)) as (Q3 & _).
        destruct (Pin2 (q - a) ltac:(lia)) as (Q2 & _).
        rewrite Hslot in Q2 by lia.
        replace (a + (q - a)) with q in Q2 by lia.
        destruct (Pk1 (read_slot s q) ltac:(apply Hrange; lia)) as [K1 K2].
        { intros j Hj. apply Hdist; lia. }
        unfold s1c in Q2 at 1 2. unfold count_popped in Q2.
        stft_fields_in Q2. rewrite K1, K2 in Q2. congruence.
      + rewrite Pout3 by lia. rewrite Pout2 by lia.
        rewrite load_app. fold a.
        destruct (Z.ltb_spec q a); [lia | reflexivity]. }
  (* the rings *)
  assert (Hbuf : mOlaBuf s3 = mOlaBuf s2 /\ mNormBuf s3 = mNormBuf s2).
  { destruct Hs3 as (_ & Lo3 & Ln3 & _). destruct Hs2 as (_ & Lo2 & Ln2 & _).
    assert (Hk : forall k, 0 <= k < 2 ^ 15 ->
               vget zero (mOlaBuf s3) k = vget zero (mOlaBuf s2) k /\
               vget zero (mNormBuf s3) k = vget zero (mNormBuf s2) k).
    { intros k Hk.
      set (q := (k - mOlaRead s) mod 2 ^ 15).
      assert (Hq : 0 <= q < 2 ^ 15) by (apply Z.mod_pos_bound; lia).
      assert (Hkq : read_slot s q = k).
      { rewrite read_slot_mod by (assumption || unfold INT32_MAX; lia).
        unfold q. rewrite Zplus_mod_idemp_r.
        replace (mOlaRead s + (k - mOlaRead s)) with k by lia.
        apply Z.mod_small. lia. }
      assert (Hother : forall j, 0 <= j < a + b -> j <> q ->
                 k <> read_slot s j).
      { intros j Hj Hne Heq. rewrite <- Hkq in Heq.
        destruct (Z_lt_le_dec q (a + b)).
        - revert Heq. apply Hdist; lia.
        - rewrite !read_slot_mod in Heq
            by (assumption || unfold INT32_MAX; lia).
          change (2 ^ 15) with 32768 in *. Z.div_mod_to_equations. lia. }
      destruct (Z_lt_le_dec q a) as [Hq1 | Hq1].
      - (* cleared by the first call *)
        destruct (Pin3 q ltac:(lia)) as (_ & Z3a & Z3b).
        destruct (Pin1 q ltac:(lia)) as (_ & Z1a & Z1b).
        destruct (Pk2 k ltac:(lia)) as [K2a K2b].
        { intros j Hj. rewrite Hslot by lia. apply Hother; lia. }
        rewrite Hkq in *. rewrite K2a, K2b.
        unfold s1c, count_popped. stft_fields. split; congruence.
      - destruct (Z_lt_le_dec q (a + b)) as [Hq2 | Hq2].
        + (* cleared by the second call *)
          destruct (Pin3 q ltac:(lia)) as (_ & Z3a & Z3b).
          destruct (Pin2 (q - a) ltac:(lia)) as (_ & Z2a & Z2b).
          rewrite Hslot in Z2a, Z2b by lia.
          replace (a + (q - a)) with q in Z2a, Z2b by lia.
          rewrite Hkq in *. split; congruence.
        + (* not touched *)
          destruct (Pk3 k ltac:(lia)) as [K3a K3b].
          { intros j Hj. apply Hother; lia. }
          destruct (Pk2 k ltac:(lia)) as [K2a K2b].
          { intros j Hj. rewrite Hslot by lia. apply Hother; lia. }
          destruct (Pk1 k ltac:(lia)) as [K1a K1b].
          { intros j Hj. apply Hother; lia. }
          rewrite K3a, K3b, K2a, K2b.
          unfold s1c, count_popped. stft_fields. split; congruence. }
    split; apply (vget_ext zero); try lia; intros k Hk'; apply Hk; lia. }
  destruct Hbuf as [Hbo Hbn].
  exists s1c, oa', (count_popped s2 b), ob'.
  split; [|split].
  - unfold popTimeDomain.
    rewrite (i32_id (mAvail s)) by (unfold in_i32, INT32_MAX; lia).
    replace (Z.min a (mAvail s)) with a by lia. rewrite E1. reflexivity.
  - unfold popTimeDomain. rewrite Hav1.
    rewrite (i32_id (mAvail s - a)) by (unfold in_i32, INT32_MAX; lia).
    replace (Z.min b (mAvail s - a)) with b by lia. rewrite E2. reflexivity.
  - unfold popTimeDomain.
    rewrite (i32_id (mAvail s)) by (unfold in_i32, INT32_MAX; lia).
    replace (Z.min (a + b) (mAvail s)) with (a + b) by lia.
    rewrite E3, Ho. do 3 f_equal.
    apply pop_loop_form in E1, E2, E3.
    apply (pop_states_agree s s1 s2 s3 a b); try assumption; lia.
Qed.

End PopChunks.

Lemma pop_chunks_agree_witness :
  let ola := vset (vset (vset (vset (repeat F32.zero (Z.to_nat 32768))
               32766 (F32.of_Z 6)) 32767 F32.two) 0 F32.one) 1 (F32.of_Z 5) in
  let norm := vset (vset (vset (vset (repeat F32.zero (Z.to_nat 32768))
               32766 F32.two) 32767 F32.zero) 0 F32.two) 1 F32.one in
  let s := StftProcessor.set_cursors
             (StftProcessor.set_rings (StftProcessor.new Libm.cosf) ola norm)
             0 32766 4 in
  let oa := repeat F32.zero 1 in
  let ob := repeat F32.zero 2 in
  exists s1 oa' s2 ob',
    StftProcessor.popTimeDomain s oa 1 = Some (s1, oa', 1) /\
    StftProcessor.popTimeDomain s1 ob 2 = Some (s2, ob', 2) /\
    StftProcessor.popTimeDomain s (oa ++ ob) (1 + 2)
      = Some (s2, oa' ++ ob', 1 + 2).
Proof.
  intros ola norm s oa ob.
  apply (pop_chunks_agree s oa ob).
  - apply ring_ok_set_rings.
    + reflexivity.
    + unfold ola. now rewrite !vset_length, repeat_length, Z2Nat.id by lia.
    + unfold norm. now rewrite !vset_length, repeat_length, Z2Nat.id by lia.
    + lia.
  - change (StftProcessor.mAvail s) with 4. cbn. lia.
  - change (StftProcessor.mAvail s) with 4. unfold INT32_MAX. lia.
  - cbn. lia.
Defined.

(** ** StftProcessor: the analysis frame and the history *)

Section PushBody.
Import F32 StftProcessor StftViews StftHop.
Variables cosf sinf : float -> float.

Lemma hop_ready_processOneHop s hb :
  length hb = Z.to_nat kHOP ->
  hop_ready (roll_history (processOneHop cosf sinf (set_hop s hb kHOP))).
Proof.
  intros Hl. unfold roll_history.
  pose proof (meta_processOneHop cosf sinf (set_hop s hb kHOP)) as Hm.
  revert Hm. generalize (processOneHop cosf sinf (set_hop s hb kHOP)).
  intros s1 Hm. apply (f_equal (fun m => fst (fst (fst m)))) in Hm.
  unfold meta in Hm. cbn [fst] in Hm. stft_fields_in Hm.
  unfold hop_ready. stft_fields. rewrite Hm. unfold kHOP in *. lia.
Qed.

(** One turn of the loop of [pushTimeDomain]: [take] samples go to the hop
    buffer, and a full buffer is processed. *)
Lemma push_body_eq s mono16 frames idx :
  hop_ready s ->
  0 <= idx < frames -> frames <= Z.of_nat (length mono16) ->
  frames <= INT32_MAX ->
  let take := Z.min (kHOP - mHopFill s) (frames - idx) in
  exists hb,
    memcpy (mHopBuf s) (mHopFill s) mono16 idx take = Some hb /\
    length hb = Z.to_nat kHOP /\
    push_body cosf sinf s mono16 frames idx =
      Some (if mHopFill s + take =? kHOP
            then roll_history (processOneHop cosf sinf (set_hop s hb kHOP))
            else set_hop s hb (mHopFill s + take),
            idx + take) /\
    hop_ready (if mHopFill s + take =? kHOP
               then roll_history (processOneHop cosf sinf (set_hop s hb kHOP))
               else set_hop s hb (mHopFill s + take)).
Proof.
  intros [Hlen Hfill] Hidx Hbuf Hmax take.
  unfold kHOP, INT32_MAX in *. unfold push_body. unfold kHOP.
  rewrite (i32_id (96 - mHopFill s)) by (unfold in_i32, INT32_MAX; lia).
  rewrite (i32_id (frames - idx)) by (unfold in_i32, INT32_MAX; lia).
  fold take. assert (Htake : 1 <= take <= 96 - mHopFill s) by lia.
  unfold copy_n. destruct (Z.leb_spec take 0); [lia|].
  destruct (memcpy_ok (mHopBuf s) (mHopFill s) mono16 idx take)
    as [hb Hhb]; try lia.
  rewrite Hhb. pose proof (memcpy_length _ _ _ _ _ _ Hhb) as Lhb.
  rewrite (i32_id (mHopFill s + take)) by (unfold in_i32, INT32_MAX; lia).
  rewrite (i32_id (idx + take)) by (unfold in_i32, INT32_MAX; lia).
  exists hb. split; [reflexivity|]. split; [unfold kHOP; congruence|].
  stft_fields.
  destruct (Z.eqb_spec (mHopFill s + take) 96) as [Heq | Hne].
  - rewrite Heq. split; [reflexivity|].
    apply (hop_ready_processOneHop s hb). unfold kHOP. congruence.
  - split; [reflexivity|]. unfold hop_ready, kHOP. stft_fields.
    split; [congruence | lia].
Qed.

Lemma push_loop_invariant (I : t -> Z -> Prop) mono16 frames :
  (forall s idx, idx < frames -> I s idx ->
     exists s' idx', push_body cosf sinf s mono16 frames idx = Some (s', idx')
                     /\ idx < idx' <= frames /\ I s' idx') ->
  forall fuel s idx,
    idx <= frames -> frames - idx <= Z.of_nat fuel -> I s idx ->
    exists s', push_loop cosf sinf fuel s mono16 frames idx = Some s' /\
               I s' frames.
Proof.
  intros Hstep. induction fuel as [|fuel IH]; intros s idx Hidx Hfuel Hs;
    cbn [push_loop]; destruct (Z.ltb_spec idx frames) as [Hlt | Hge];
    try lia;
    try (exists s; split; [reflexivity|];
         replace frames with idx by lia; exact Hs).
  destruct (Hstep s idx Hlt Hs) as (s1 & idx1 & E & Hi & Hs1).
  rewrite E. apply IH; try lia. exact Hs1.
Qed.

Lemma push_loop_fuel fuel : forall fuel' s mono16 frames idx s',
  push_loop cosf sinf fuel s mono16 frames idx = Some s' ->
  (fuel <= fuel')%nat ->
  push_loop cosf sinf fuel' s mono16 frames idx = Some s'.
Proof.
  induction fuel as [|fuel IH]; intros fuel' s mono16 frames idx s';
    cbn [push_loop]; destruct (idx <? frames) eqn:E; try discriminate.
  - intros [= <-] _. destruct fuel'; cbn [push_loop]; rewrite E; reflexivity.
  - destruct (push_body cosf sinf s mono16 frames idx) as [[s1 idx1]|] eqn:Eb;
      [|discriminate].
    intros H Hf. destruct fuel' as [|fuel']; [lia|].
    cbn [push_loop]. rewrite E, Eb. apply IH; [exact H | lia].
  - intros [= <-] _. destruct fuel'; cbn [push_loop]; rewrite E; reflexivity.
Qed.

Lemma push_loop_total mono16 frames fuel s idx :
  hop_ready s -> 0 <= idx <= frames ->
  frames <= Z.of_nat (length mono16) -> frames <= INT32_MAX ->
  frames - idx <= Z.of_nat fuel ->
  exists s', push_loop cosf sinf fuel s mono16 frames idx = Some s' /\
             hop_ready s'.
Proof.
  intros Hs Hidx Hbuf Hmax Hfuel.
  assert (Hstep : forall s0 i, i < frames -> hop_ready s0 /\ 0 <= i ->
            exists s' idx',
              push_body cosf sinf s0 mono16 frames i = Some (s', idx') /\
              i < idx' <= frames /\ (hop_ready s' /\ 0 <= idx')).
  { intros s0 i Hi [Hs0 Hi0].
    destruct (push_body_eq s0 mono16 frames i Hs0 ltac:(lia) Hbuf Hmax)
      as (hb & _ & _ & E & Hr).
    destruct Hs0 as [_ Hf]. unfold kHOP in *.
    eexists _, _. split; [exact E|]. split; [lia|].
    split; [exact Hr | lia]. }
  destruct (push_loop_invariant (fun s i => hop_ready s /\ 0 <= i)
              mono16 frames Hstep fuel s idx)
    as (s' & E & Hs' & _); [lia | lia | split; [assumption | lia] |].
  exists s'. auto.
Qed.

End PushBody.

Section LoadMore.
Context {A : Type}.

Lemma load_vcopy (dst src : list A) off j :
  0 <= off -> off + Z.of_nat (length src) <= Z.of_nat (length dst) ->
  load (vcopy dst off src) j =
    if (off <=? j) && (j <? off + Z.of_nat (length src))
    then load src (j - off) else load dst j.
Proof.
  intros Hoff Hfit. rewrite vcopy_eq by assumption.
  unfold load. destruct (Z.leb_spec 0 j).
  2:{ destruct (Z.leb_spec off j); [lia | reflexivity]. }
  rewrite !nth_error_app, length_firstn.
  replace (Nat.min (Z.to_nat off) (length dst)) with (Z.to_nat off) by lia.
  split_tests; rewrite ?nth_error_firstn, ?nth_error_skipn; split_tests;
    try reflexivity; f_equal; lia.
Qed.

Lemma load_skipn (l : list A) n j :
  0 <= n -> load (skipn (Z.to_nat n) l) j = if 0 <=? j then load l (j + n) else None.
Proof.
  intros Hn. unfold load. destruct (Z.leb_spec 0 j); [|reflexivity].
  destruct (Z.leb_spec 0 (j + n)); [|lia].
  rewrite nth_error_skipn. f_equal. lia.
Qed.

Lemma load_firstn (l : list A) n j :
  load (firstn (Z.to_nat n) l) j = if j <? n then load l j else None.
Proof.
  unfold load. destruct (Z.leb_spec 0 j).
  - rewrite nth_error_firstn. split_tests; reflexivity.
  - destruct (j <? n); reflexivity.
Qed.

Lemma load_map_const {B : Type} (c : A) (l : list B) j :
  load (map (fun _ => c) l) j =
    if (0 <=? j) && (j <? Z.of_nat (length l)) then Some c else None.
Proof.
  unfold load. destruct (Z.leb_spec 0 j); [|reflexivity]. cbn [andb].
  destruct (Z.ltb_spec j (Z.of_nat (length l))).
  - destruct (nth_error l (Z.to_nat j)) as [b|] eqn:E.
    + now rewrite (map_nth_error _ _ _ E).
    + apply nth_error_None in E. lia.
  - apply nth_error_None. rewrite length_map. lia.
Qed.

Lemma firstn_full (l : list A) n :
  Z.of_nat (length l) <= n -> firstn (Z.to_nat n) l = l.
Proof. intros H. apply firstn_all2. lia. Qed.

End LoadMore.

Ltac len_solve :=
  repeat first [rewrite vcopy_length | rewrite length_map
               | rewrite length_skipn | rewrite length_firstn
               | rewrite repeat_length];
  lia.

Section HopFrame.
Import F32 StftProcessor StftViews StftHop.
Variables cosf sinf : float -> float.

Lemma statics_inv s' (a b c d : list float) (e f : list complex) :
  statics s' = (a, b, c, d, e, f) ->
  mWin s' = a /\ mHist384 s' = b /\ mTime512 s' = c /\ mTimeWin s' = d /\
  mFFTIn s' = e /\ mFFTOut s' = f.
Proof.
  unfold statics. intros H. repeat split.
  - exact (f_equal (fun m => fst (fst (fst (fst (fst m))))) H).
  - exact (f_equal (fun m => snd (fst (fst (fst (fst m))))) H).
  - exact (f_equal (fun m => snd (fst (fst (fst m)))) H).
  - exact (f_equal (fun m => snd (fst (fst m))) H).
  - exact (f_equal (fun m => snd (fst m)) H).
  - exact (f_equal (fun m => snd m) H).
Qed.

Lemma frame_eq (T H hb : list float) :
  Z.of_nat (length T) = 512 -> Z.of_nat (length H) = 384 ->
  Z.of_nat (length hb) = 96 ->
  vcopy (vcopy (map (fun _ => zero) T) 32 (firstn 384 H))
        (32 + 384) (firstn (Z.to_nat kHOP) hb)
  = repeat zero 32 ++ H ++ hb.
Proof.
  intros HT HH Hhb. unfold kHOP.
  change 384%nat with (Z.to_nat 384). rewrite !firstn_full by lia.
  apply load_ext. intros j.
  rewrite load_vcopy; [|len_solve..].
  rewrite load_vcopy; [|len_solve..].
  rewrite !load_app, repeat_length, load_map_const, load_repeat.
  destruct (Z_lt_le_dec j 0) as [Hneg | Hpos].
  { split_tests; rewrite ?(load_neg _ j) by lia; reflexivity. }
  split_tests; try reflexivity; try (f_equal; lia).
  rewrite !load_beyond by lia. reflexivity.
Qed.

Lemma hist_eq (H hb : list float) :
  Z.of_nat (length H) = 384 -> Z.of_nat (length hb) = 96 ->
  vcopy (vcopy H 0 (skipn (Z.to_nat kHOP) H)) (384 - kHOP)
        (firstn (Z.to_nat kHOP) hb)
  = skipn (Z.to_nat kHOP) H ++ hb.
Proof.
  intros HH Hhb. unfold kHOP. rewrite !firstn_full by lia.
  apply load_ext. intros j.
  rewrite load_vcopy; [|len_solve..].
  rewrite load_vcopy; [|len_solve..].
  rewrite load_app, length_skipn, !load_skipn by lia.
  destruct (Z_lt_le_dec j 0) as [Hneg | Hpos].
  { split_tests; rewrite ?(load_neg _ j) by lia; reflexivity. }
  split_tests; try reflexivity; try (f_equal; lia).
  rewrite !load_beyond by lia. reflexivity.
Qed.

Lemma sizes_set_hop s hb f :
  length hb = Z.to_nat kHOP -> sizes s -> sizes (set_hop s hb f).
Proof.
  intros Hl. unfold sizes, kHOP in *. stft_fields. rewrite Hl.
  intros (S1 & S2 & S3 & S4 & S5 & S6 & S7 & S8 & S9).
  repeat split; try assumption; lia.
Qed.

(** A hop: the frame is 32 zeros, the history and the hop; the history
    drops its oldest 96 samples and takes the hop. *)
Lemma hop_frame s hb :
  sizes s -> length hb = Z.to_nat kHOP ->
  let s' := roll_history (processOneHop cosf sinf (set_hop s hb kHOP)) in
  mHist384 s' = skipn (Z.to_nat kHOP) (mHist384 s) ++ hb /\
  mTime512 s' = repeat zero 32 ++ mHist384 s ++ hb /\
  mHopFill s' = 0 /\ mHopBuf s' = hb /\ sizes s'.
Proof.
  intros Hs Hl s'.
  assert (Hsz : sizes s').
  { apply sizes_roll_history, sizes_processOneHop, sizes_set_hop;
      assumption. }
  destruct Hs as (S1 & S2 & S3 & S4 & S5 & S6 & S7 & S8 & S9).
  destruct (statics_processOneHop cosf sinf (set_hop s hb kHOP))
    as (tw & fi & fo & Hst & _).
  stft_fields_in Hst.
  rewrite frame_eq in Hst by (unfold kHOP, kNFFT in *; lia).
  apply statics_inv in Hst. destruct Hst as (_ & Hh & Ht & _).
  pose proof (meta_processOneHop cosf sinf (set_hop s hb kHOP)) as Hm.
  apply (f_equal (fun m => fst (fst (fst m)))) in Hm.
  unfold meta in Hm. cbn [fst] in Hm. stft_fields_in Hm.
  subst s'. revert Hh Ht Hm Hsz.
  generalize (processOneHop cosf sinf (set_hop s hb kHOP)).
  intros p Hh Ht Hm Hsz. unfold roll_history. stft_fields.
  rewrite Hh, Hm, hist_eq by (unfold kHOP, kNFFT in *; lia).
  split; [reflexivity|]. split; [exact Ht|]. split; [reflexivity|].
  split; [reflexivity|].
  revert Hsz. unfold roll_history. stft_fields.
  rewrite Hh, Hm, hist_eq by (unfold kHOP, kNFFT in *; lia). auto.
Qed.

End HopFrame.

Section Windows.
Context {A : Type}.

Lemma firstn_plus (a b : nat) (x : list A) :
  firstn (a + b) x = firstn a x ++ firstn b (skipn a x).
Proof.
  revert x. induction a as [|a IH]; intros x; [reflexivity|].
  destruct x as [|y x]; cbn [Nat.add firstn skipn app].
  - now rewrite firstn_nil.
  - now rewrite IH.
Qed.

(** The last samples of a stream that grows by a block. *)
Lemma window_step (H x : list A) (idx n : nat) :
  (idx + n <= length x)%nat ->
  skipn idx (H ++ firstn idx x) ++ firstn n (skipn idx x)
  = skipn idx (H ++ firstn (idx + n) x).
Proof.
  intros Hx. rewrite firstn_plus, app_assoc.
  rewrite (skipn_app idx (H ++ firstn idx x)).
  assert (E : (idx - length (H ++ firstn idx x) = 0)%nat)
    by (rewrite length_app, length_firstn; lia).
  rewrite E. reflexivity.
Qed.

End Windows.

Section History.
Import F32 StftProcessor StftViews StftHop.
Variables cosf sinf : float -> float.

Lemma sizes_hop_ready s : sizes s -> mHopFill s = 0 -> hop_ready s.
Proof.
  intros (_ & S2 & _) Hf. unfold hop_ready, kHOP in *. rewrite Hf. lia.
Qed.

Lemma full_hop_buffer (hopBuf x hb : list float) idx :
  Z.of_nat (length hopBuf) = 96 ->
  memcpy hopBuf 0 x idx 96 = Some hb ->
  hb = firstn (Z.to_nat 96) (skipn (Z.to_nat idx) x).
Proof.
  intros Hl E. apply memcpy_inv in E. destruct E as [_ ->].
  change (Z.to_nat 0) with 0%nat. rewrite firstn_O.
  rewrite (skipn_all2 hopBuf) by lia.
  rewrite app_nil_r. reflexivity.
Qed.

Lemma count_pushed_statics s n :
  statics (count_pushed s n) = statics s.
Proof. reflexivity. Qed.

(** The history is a sliding window over the input.  From a state with the
    sizes of the constructor and an empty hop buffer, pushing [h >= 1] whole hops [x] leaves the hop buffer
    empty, [mHist384] equal to the last 384 samples of the old history
    followed by [x], and [mTime512], the analysis frame of the last hop,
    equal to 32 zeros followed by the last 480 samples of the same
    sequence. *)
Theorem stft_history_window (s : StftProcessor.t) (x : list float) (h : Z) :
  sizes s -> mHopFill s = 0 ->
  1 <= h -> Z.of_nat (length x) = 96 * h -> 96 * h <= INT32_MAX ->
  exists s',
    pushTimeDomain cosf sinf s x (96 * h) = Some s' /\
    mHopFill s' = 0 /\
    mHist384 s' = skipn (Z.to_nat (96 * h)) (mHist384 s ++ x) /\
    mTime512 s' =
      repeat zero 32 ++ skipn (Z.to_nat (96 * (h - 1))) (mHist384 s ++ x) /\
    sizes s'.
Proof.
  intros Hs Hf Hh Hx Hmax. unfold pushTimeDomain.
  set (frames := 96 * h) in *.
  set (H0 := mHist384 s).
  set (I := fun (st : t) (idx : Z) =>
    sizes st /\ mHopFill st = 0 /\ 0 <= idx /\ idx mod 96 = 0 /\
    mHist384 st
      = skipn (Z.to_nat idx) (H0 ++ firstn (Z.to_nat idx) x) /\
    (96 <= idx ->
     mTime512 st = repeat zero 32
                   ++ skipn (Z.to_nat (idx - 96))
                            (H0 ++ firstn (Z.to_nat idx) x))).
  assert (Hstep : forall st idx, idx < frames -> I st idx ->
            exists s' idx',
              push_body cosf sinf st x frames idx = Some (s', idx') /\
              idx < idx' <= frames /\ I s' idx').
  { intros st idx Hlt (Hst & Hfill & Hidx & Hmod & Hhist & Hframe).
    assert (Hroom : idx + 96 <= frames)
      by (unfold frames in *; Z.div_mod_to_equations; lia).
    destruct (push_body_eq cosf sinf st x frames idx
                (sizes_hop_ready st Hst Hfill) ltac:(lia) ltac:(lia) Hmax)
      as (hb & Ehb & Lhb & Eb & _).
    rewrite Hfill in Ehb, Eb.
    replace (Z.min (kHOP - 0) (frames - idx)) with kHOP in Ehb, Eb
      by (unfold kHOP; lia).
    change (0 + kHOP =? kHOP) with true in Eb. cbv iota in Eb.
    unfold kHOP in Ehb.
    pose proof Hst as (_ & S2 & S3 & _). unfold kHOP in S2.
    apply (full_hop_buffer _ _ _ _ S2) in Ehb.
    destruct (hop_frame cosf sinf st hb Hst Lhb) as (F1 & F2 & F3 & F4 & F5).
    eexists _, _. split; [exact Eb|]. split; [unfold kHOP; lia|].
    assert (Hw : mHist384 st ++ hb
                 = skipn (Z.to_nat idx)
                         (H0 ++ firstn (Z.to_nat (idx + 96)) x)).
    { rewrite Hhist, Ehb. change (Z.to_nat 96) with 96%nat.
      replace (Z.to_nat (idx + 96)) with (Z.to_nat idx + 96)%nat by lia.
      apply window_step. lia. }
    unfold kHOP in *.
    split; [exact F5|]. split; [exact F3|].
    split; [lia|].
    split; [Z.div_mod_to_equations; lia|]. split.
    - rewrite F1.
      assert (E : skipn (Z.to_nat 96) (mHist384 st) ++ hb
                  = skipn (Z.to_nat 96) (mHist384 st ++ hb)).
      { rewrite skipn_app.
        replace (Z.to_nat 96 - length (mHist384 st))%nat with 0%nat by lia.
        reflexivity. }
      rewrite E, Hw, skipn_skipn. f_equal. lia.
    - intros _. rewrite F2, Hw. do 2 f_equal. lia. }
  destruct (push_loop_invariant cosf sinf I x frames Hstep
              (Z.to_nat frames) (count_pushed s frames) 0)
    as (s' & E & Hs' & Hf' & _ & _ & Hhist & Hframe); try lia.
  { unfold I. split; [exact Hs|]. split; [exact Hf|]. split; [lia|].
    split; [reflexivity|]. split; [|lia].
    change (mHist384 (count_pushed s frames)) with H0.
    change (Z.to_nat 0) with 0%nat. cbn [firstn skipn].
    now rewrite app_nil_r. }
  exists s'. split; [exact E|]. split; [exact Hf'|].
  assert (Hall : firstn (Z.to_nat frames) x = x)
    by (apply firstn_all2; lia).
  rewrite Hall in Hhist, Hframe.
  split; [exact Hhist|]. split; [|exact Hs'].
  rewrite Hframe by (unfold frames; lia). do 3 f_equal.
  unfold frames. lia.
Qed.

End History.

Lemma stft_history_window_witness :
  let s := StftProcessor.new Libm.cosf in
  let x := map F32.of_Z (map Z.of_nat (seq 1 192)) in
  exists s',
    StftProcessor.pushTimeDomain Libm.cosf Libm.sinf s x (96 * 2) = Some s' /\
    StftProcessor.mHopFill s' = 0 /\
    StftProcessor.mHist384 s'
      = skipn (Z.to_nat (96 * 2)) (StftProcessor.mHist384 s ++ x) /\
    StftProcessor.mTime512 s' =
      repeat F32.zero 32
      ++ skipn (Z.to_nat (96 * (2 - 1))) (StftProcessor.mHist384 s ++ x) /\
    StftViews.sizes s'.
Proof.
  intros s x.
  apply (stft_history_window Libm.cosf Libm.sinf s x 2).
  - apply new_sizes.
  - reflexivity.
  - lia.
  - unfold x. rewrite !length_map, length_seq. reflexivity.
  - unfold INT32_MAX. lia.
Defined.

(** ** StftProcessor: pushing in chunks *)

Section MemcpyMore.
Context {A : Type}.

Lemma memcpy_split (dst src h1 h2 h : list A) d so n1 n2 :
  0 <= n1 -> 0 <= n2 ->
  memcpy dst d src so n1 = Some h1 ->
  memcpy h1 (d + n1) src (so + n1) n2 = Some h2 ->
  memcpy dst d src so (n1 + n2) = Some h ->
  h2 = h.
Proof.
  intros Hn1 Hn2 E1 E2 E. apply nth_error_ext. intros i.
  rewrite (memcpy_nth_error _ _ _ _ _ _ i E2),
          (memcpy_nth_error _ _ _ _ _ _ i E1),
          (memcpy_nth_error _ _ _ _ _ _ i E).
  split_tests; try reflexivity; f_equal; lia.
Qed.

Lemma memcpy_view (dst m m' : list A) d so n delta h h' :
  (forall j, so <= j < so + n -> load m' (j + delta) = load m j) ->
  0 <= so ->
  memcpy dst d m so n = Some h ->
  memcpy dst d m' (so + delta) n = Some h' ->
  h' = h.
Proof.
  intros Hv Hso E E'. apply nth_error_ext. intros i.
  rewrite (memcpy_nth_error _ _ _ _ _ _ i E),
          (memcpy_nth_error _ _ _ _ _ _ i E').
  destruct ((d <=? Z.of_nat i) && (Z.of_nat i <? d + n)) eqn:T;
    [|reflexivity].
  apply andb_prop in T. destruct T as [T1 T2].
  apply Z.leb_le in T1. apply Z.ltb_lt in T2.
  specialize (Hv (so + Z.of_nat i - d) ltac:(lia)).
  unfold load in Hv.
  destruct (Z.leb_spec 0 (so + Z.of_nat i - d + delta));
    destruct (Z.leb_spec 0 (so + Z.of_nat i - d)); try lia.
  - rewrite <- Hv. f_equal. lia.
  - apply memcpy_inv in E'. lia.
Qed.

End MemcpyMore.

Section LoopCommute.
Context {S : Type}.

Lemma for_loop_commute (f : S -> S) (body : Z -> S -> S) :
  (forall i s, body i (f s) = f (body i s)) ->
  forall n i s, for_loop n i body (f s) = f (for_loop n i body s).
Proof.
  intros Hb. induction n as [|n IH]; intros i s; cbn [for_loop].
  - reflexivity.
  - rewrite Hb. apply IH.
Qed.

End LoopCommute.

Section Pushed.
Import F32 StftProcessor StftViews StftHop.
Variables cosf sinf : float -> float.

Lemma advance_write_pushed p s :
  advance_write (set_pushed p s) = set_pushed p (advance_write s).
Proof. destruct s. reflexivity. Qed.

Lemma count_hop_pushed p s :
  count_hop (set_pushed p s) = set_pushed p (count_hop s).
Proof. destruct s. reflexivity. Qed.

Lemma roll_history_pushed p s :
  roll_history (set_pushed p s) = set_pushed p (roll_history s).
Proof. destruct s. reflexivity. Qed.

Lemma olaAdd_body_pushed p blk i s :
  olaAdd_body blk i (set_pushed p s) = set_pushed p (olaAdd_body blk i s).
Proof. destruct s. reflexivity. Qed.

Lemma olaAdd_pushed p s blk :
  olaAdd (set_pushed p s) blk = set_pushed p (olaAdd s blk).
Proof.
  unfold olaAdd.
  rewrite (for_loop_commute (set_pushed p) (olaAdd_body blk)
             (olaAdd_body_pushed p blk)).
  apply advance_write_pushed.
Qed.

(** A hop depends on the state through six members only. *)
Lemma processOneHop_fields s s' :
  mTime512 s' = mTime512 s -> mHist384 s' = mHist384 s ->
  mHopBuf s' = mHopBuf s -> mWin s' = mWin s ->
  mTimeWin s' = mTimeWin s -> mFFTIn s' = mFFTIn s ->
  exists fi fo t tw,
    processOneHop cosf sinf s
      = count_hop (olaAdd (set_scratch s fi fo t tw) tw) /\
    processOneHop cosf sinf s'
      = count_hop (olaAdd (set_scratch s' fi fo t tw) tw).
Proof.
  intros H1 H2 H3 H4 H5 H6. unfold processOneHop. cbv zeta.
  rewrite H1, H2, H3, H4, H5, H6.
  do 4 eexists. split; reflexivity.
Qed.

Lemma set_scratch_pushed p s fi fo t tw :
  set_scratch (set_pushed p s) fi fo t tw
  = set_pushed p (set_scratch s fi fo t tw).
Proof. destruct s. reflexivity. Qed.

Lemma processOneHop_pushed p s :
  processOneHop cosf sinf (set_pushed p s)
  = set_pushed p (processOneHop cosf sinf s).
Proof.
  destruct (processOneHop_fields s (set_pushed p s)
              eq_refl eq_refl eq_refl eq_refl eq_refl eq_refl)
    as (fi & fo & t & tw & E1 & E2).
  rewrite E1, E2, set_scratch_pushed, olaAdd_pushed.
  apply count_hop_pushed.
Qed.

Lemma push_body_pushed p s mono16 frames idx :
  push_body cosf sinf (set_pushed p s) mono16 frames idx
  = match push_body cosf sinf s mono16 frames idx with
    | Some (s', idx') => Some (set_pushed p s', idx')
    | None => None
    end.
Proof.
  unfold push_body.
  change (mHopFill (set_pushed p s)) with (mHopFill s).
  change (mHopBuf (set_pushed p s)) with (mHopBuf s).
  destruct (copy_n mono16 idx _ (mHopBuf s) (mHopFill s)) as [hb|];
    [|reflexivity].
  match goal with |- context [set_hop s hb ?f] => generalize f end.
  intros f.
  change (set_hop (set_pushed p s) hb f) with (set_pushed p (set_hop s hb f)).
  change (mHopFill (set_pushed p (set_hop s hb f))) with f.
  change (mHopFill (set_hop s hb f)) with f.
  destruct (f =? kHOP); [|reflexivity].
  rewrite processOneHop_pushed, roll_history_pushed. reflexivity.
Qed.

Lemma push_loop_pushed p fuel : forall s mono16 frames idx,
  push_loop cosf sinf fuel (set_pushed p s) mono16 frames idx
  = match push_loop cosf sinf fuel s mono16 frames idx with
    | Some s' => Some (set_pushed p s')
    | None => None
    end.
Proof.
  induction fuel as [|fuel IH]; intros s mono16 frames idx;
    cbn [push_loop]; destruct (idx <? frames); try reflexivity.
  rewrite push_body_pushed.
  destruct (push_body cosf sinf s mono16 frames idx) as [[s1 idx1]|];
    [|reflexivity].
  apply IH.
Qed.

End Pushed.

Section PushChunks.
Import F32 StftProcessor StftViews StftHop.
Variables cosf sinf : float -> float.

(** The loop reads the samples from [idx] to [frames] only: a buffer that
    holds them [delta] places further gives the same result. *)
Lemma push_loop_view (m m' : list float) (frames delta : Z) :
  (forall j, 0 <= j < frames -> load m' (j + delta) = load m j) ->
  0 <= delta ->
  frames <= Z.of_nat (length m) ->
  frames + delta <= Z.of_nat (length m') ->
  frames + delta <= INT32_MAX ->
  forall fuel s idx,
    hop_ready s -> 0 <= idx <= frames ->
    push_loop cosf sinf fuel s m' (frames + delta) (idx + delta)
    = push_loop cosf sinf fuel s m frames idx.
Proof.
  intros Hv Hd Hm Hm' Hmax.
  induction fuel as [|fuel IH]; intros s idx Hs Hidx; cbn [push_loop];
    destruct (Z.ltb_spec idx frames);
    destruct (Z.ltb_spec (idx + delta) (frames + delta)); try lia;
    try reflexivity.
  destruct (push_body_eq cosf sinf s m frames idx Hs ltac:(lia) Hm
              ltac:(lia)) as (hb & Eh & _ & Eb & Hr).
  destruct (push_body_eq cosf sinf s m' (frames + delta) (idx + delta) Hs
              ltac:(lia) Hm' Hmax) as (hb' & Eh' & _ & Eb' & _).
  cbv zeta in *.
  replace (frames + delta - (idx + delta)) with (frames - idx) in Eh', Eb'
    by lia.
  assert (Hhb : hb' = hb).
  { apply (memcpy_view _ m m' _ _ _ delta hb hb' ) with (3 := Eh) (4 := Eh');
      [|lia].
    intros j Hj. apply Hv. lia. }
  rewrite Eb, Eb', Hhb.
  replace (idx + delta + Z.min (kHOP - mHopFill s) (frames - idx))
    with (idx + Z.min (kHOP - mHopFill s) (frames - idx) + delta) by lia.
  apply IH; [exact Hr|]. destruct Hs as [_ Hf]. unfold kHOP in *. lia.
Qed.

Lemma push_loop_split (m : list float) (frames mid : Z) :
  0 <= mid <= frames -> frames <= Z.of_nat (length m) ->
  frames <= INT32_MAX ->
  forall n s idx,
    hop_ready s -> 0 <= idx <= mid -> mid - idx <= Z.of_nat n ->
    exists s1 s2,
      push_loop cosf sinf (Z.to_nat (mid - idx)) s m mid idx = Some s1 /\
      hop_ready s1 /\
      push_loop cosf sinf (Z.to_nat (frames - mid)) s1 m frames mid = Some s2
      /\
      push_loop cosf sinf (Z.to_nat (frames - idx)) s m frames idx = Some s2.
Proof.
  intros Hmid Hm Hmax.
  induction n as [|n IH]; intros s idx Hs Hidx Hn.
  - assert (idx = mid) by lia. subst idx.
    destruct (push_loop_total cosf sinf m frames (Z.to_nat (frames - mid))
                s mid Hs ltac:(lia) Hm Hmax ltac:(lia)) as (s2 & E2 & _).
    exists s, s2. rewrite Z.sub_diag. cbn [Z.to_nat push_loop].
    rewrite Z.ltb_irrefl. auto.
  - destruct (Z.eq_dec idx mid) as [-> | Hne].
    { destruct (push_loop_total cosf sinf m frames (Z.to_nat (frames - mid))
                  s mid Hs ltac:(lia) Hm Hmax ltac:(lia)) as (s2 & E2 & _).
      exists s, s2. rewrite Z.sub_diag. cbn [Z.to_nat push_loop].
      rewrite Z.ltb_irrefl. auto. }
    pose proof Hs as [Hlen Hfill]. unfold kHOP in Hfill.
    destruct (push_body_eq cosf sinf s m mid idx Hs ltac:(lia) ltac:(lia)
                ltac:(lia)) as (hb1 & Eh1 & L1 & Eb1 & Hr1).
    destruct (push_body_eq cosf sinf s m frames idx Hs ltac:(lia) Hm Hmax)
      as (hb & Eh & L & Eb & Hr).
    cbv zeta in *. unfold kHOP in Eh1, Eb1, Hr1, Eh, Eb, Hr.
    set (t1 := Z.min (96 - mHopFill s) (mid - idx)) in *.
    set (t := Z.min (96 - mHopFill s) (frames - idx)) in *.
    assert (Ht1 : 1 <= t1 <= t) by (unfold t1, t; lia).
    assert (Ht : idx + t <= frames /\ mHopFill s + t <= 96)
      by (unfold t; lia).
    assert (F1 : exists k1, Z.to_nat (mid - idx) = S k1
                            /\ (Z.to_nat (mid - (idx + t1)) <= k1)%nat).
    { exists (Z.to_nat (mid - idx) - 1)%nat. lia. }
    assert (F3 : exists k3, Z.to_nat (frames - idx) = S k3
                            /\ (Z.to_nat (frames - (idx + t)) <= k3)%nat).
    { exists (Z.to_nat (frames - idx) - 1)%nat. lia. }
    destruct F1 as (k1 & F1 & G1). destruct F3 as (k3 & F3 & G3).
    rewrite F1, F3. cbn [push_loop].
    destruct (Z.ltb_spec idx mid); [|lia].
    destruct (Z.ltb_spec idx frames); [|lia].
    rewrite Eb1, Eb.
    destruct (Z.eq_dec t1 t) as [Heq | Hlt].
    + (* the same turn in both loops *)
      assert (Hhb : hb1 = hb) by (rewrite Heq in Eh1; congruence).
      rewrite Heq, Hhb in *.
      destruct (IH _ (idx + t) Hr ltac:(unfold t1 in *; lia) ltac:(lia))
        as (s1 & s2 & E1 & Hs1 & E2 & E3).
      exists s1, s2. split; [|split; [exact Hs1|split; [exact E2|]]].
      * apply (push_loop_fuel cosf sinf _ _ _ _ _ _ _ E1). exact G1.
      * apply (push_loop_fuel cosf sinf _ _ _ _ _ _ _ E3). exact G3.
    + (* the block ends inside the turn *)
      assert (Hmid1 : idx + t1 = mid) by (unfold t1, t in *; lia).
      assert (Hno : mHopFill s + t1 <> 96) by (unfold t1, t in *; lia).
      destruct (Z.eqb_spec (mHopFill s + t1) 96) as [|_]; [contradiction|].
      rewrite Hmid1 in *.
      set (s1 := set_hop s hb1 (mHopFill s + t1)) in *.
      assert (E1 : push_loop cosf sinf k1 s1 m mid mid = Some s1).
      { destruct k1; cbn [push_loop]; rewrite Z.ltb_irrefl; reflexivity. }
      (* the rest of the turn, from [mid] *)
      destruct (push_body_eq cosf sinf s1 m frames mid Hr1 ltac:(lia) Hm Hmax)
        as (hb2 & Eh2 & L2 & Eb2 & Hr2).
      cbv zeta in *. unfold kHOP in Eh2, Eb2, Hr2.
      change (mHopFill s1) with (mHopFill s + t1) in Eh2, Eb2, Hr2.
      change (mHopBuf s1) with hb1 in Eh2.
      replace (Z.min (96 - (mHopFill s + t1)) (frames - mid))
        with (t - t1) in Eh2, Eb2, Hr2 by (unfold t1, t in *; lia).
      assert (Hhb : hb2 = hb).
      { apply (memcpy_split (mHopBuf s) m hb1 hb2 hb (mHopFill s) idx
                 t1 (t - t1)); try lia; try assumption.
        - rewrite Hmid1. exact Eh2.
        - replace (t1 + (t - t1)) with t by lia. exact Eh. }
      replace (mHopFill s + t1 + (t - t1)) with (mHopFill s + t)
        in Eb2, Hr2 by lia.
      replace (mid + (t - t1)) with (idx + t) in Eb2 by lia.
      rewrite Hhb in Eb2, Hr2.
      change (set_hop s1 hb kHOP) with (set_hop s hb kHOP) in Eb2, Hr2.
      change (set_hop s1 hb (mHopFill s + t))
        with (set_hop s hb (mHopFill s + t)) in Eb2, Hr2.
      destruct (push_loop_total cosf sinf m frames
                  (Z.to_nat (frames - (idx + t))) _ (idx + t) Hr
                  ltac:(lia) Hm Hmax ltac:(lia)) as (s2 & E2 & _).
      exists s1, s2. split; [exact E1|]. split; [exact Hr1|]. split.
      * assert (F2 : exists k2, Z.to_nat (frames - mid) = S k2
                       /\ (Z.to_nat (frames - (idx + t)) <= k2)%nat).
        { exists (Z.to_nat (frames - mid) - 1)%nat. lia. }
        destruct F2 as (k2 & F2 & G2). rewrite F2. cbn [push_loop].
        destruct (Z.ltb_spec mid frames); [|lia].
        rewrite Eb2.
        apply (push_loop_fuel cosf sinf _ _ _ _ _ _ _ E2). exact G2.
      * apply (push_loop_fuel cosf sinf _ _ _ _ _ _ _ E2). exact G3.
Qed.

End PushChunks.

Section PushChunksTheorem.
Import F32 StftProcessor StftViews StftHop.
Variables cosf sinf : float -> float.

Lemma count_pushed_eq s n :
  count_pushed s n = set_pushed (u64 (mPushed s + u64 n)) s.
Proof. reflexivity. Qed.

Lemma set_pushed_twice p q s : set_pushed q (set_pushed p s) = set_pushed q s.
Proof. destruct s. reflexivity. Qed.

Lemma mPushed_set_pushed p s : mPushed (set_pushed p s) = p.
Proof. reflexivity. Qed.

Lemma u64_add_twice p a b :
  0 <= a < 2 ^ 64 -> 0 <= b < 2 ^ 64 -> 0 <= a + b < 2 ^ 64 ->
  u64 (u64 (p + u64 a) + u64 b) = u64 (p + u64 (a + b)).
Proof.
  intros Ha Hb Hab.
  rewrite (u64_id a), (u64_id b), (u64_id (a + b)) by (unfold in_u64; lia).
  unfold u64. rewrite Zplus_mod_idemp_l. f_equal. lia.
Qed.

(** Pushing in chunks.  From a state whose hop buffer has its size and is
    not full, [pushTimeDomain] of [a] followed by [pushTimeDomain] of [b]
    ends in the same state as one [pushTimeDomain] of [a ++ b], wherever
    the cut falls with respect to the hops: the result does not depend on
    the block sizes of the caller. *)
Theorem push_chunks_agree (s : StftProcessor.t) (a b : list float) :
  let na := Z.of_nat (length a) in
  let nb := Z.of_nat (length b) in
  hop_ready s -> na + nb <= INT32_MAX ->
  exists s1 s2,
    pushTimeDomain cosf sinf s a na = Some s1 /\
    pushTimeDomain cosf sinf s1 b nb = Some s2 /\
    pushTimeDomain cosf sinf s (a ++ b) (na + nb) = Some s2.
Proof.
  intros na nb Hs Hmax.
  assert (Hna : 0 <= na) by (unfold na; lia).
  assert (Hnb : 0 <= nb) by (unfold nb; lia).
  assert (Hlen : Z.of_nat (length (a ++ b)) = na + nb)
    by (rewrite length_app; unfold na, nb; lia).
  destruct (push_loop_split cosf sinf (a ++ b) (na + nb) na
              ltac:(lia) ltac:(lia) Hmax (Z.to_nat na) s 0 Hs
              ltac:(lia) ltac:(lia))
    as (r1 & r2 & L1 & Hr1 & L2 & L3).
  rewrite Z.sub_0_r in L1, L3.
  replace (na + nb - na) with nb in L2 by lia.
  (* the first block alone *)
  assert (V1 : push_loop cosf sinf (Z.to_nat na) s a na 0 = Some r1).
  { rewrite <- L1. symmetry.
    pose proof (push_loop_view cosf sinf a (a ++ b) na 0) as V.
    rewrite !Z.add_0_r in V. change (0 + 0) with 0 in V.
    specialize (V ltac:(intros j Hj; rewrite Z.add_0_r; apply load_app_l;
                        fold na; lia)
                  ltac:(lia) ltac:(fold na; lia) ltac:(lia) ltac:(lia)
                  (Z.to_nat na) s 0 Hs ltac:(lia)).
    rewrite Z.add_0_l in V. exact V. }
  (* the second block alone *)
  assert (V2 : push_loop cosf sinf (Z.to_nat nb) r1 b nb 0 = Some r2).
  { rewrite <- L2. symmetry.
    pose proof (push_loop_view cosf sinf b (a ++ b) nb na) as V.
    specialize (V ltac:(intros j Hj; rewrite load_app; fold na;
                        destruct (Z.ltb_spec (j + na) na); [lia|];
                        f_equal; lia)
                  ltac:(lia) ltac:(fold nb; lia) ltac:(lia) ltac:(lia)
                  (Z.to_nat nb) r1 0 Hr1 ltac:(lia)).
    rewrite Z.add_0_l in V. replace (nb + na) with (na + nb) in V by lia.
    exact V. }
  unfold INT32_MAX in Hmax.
  exists (set_pushed (u64 (mPushed s + u64 na)) r1),
         (set_pushed (u64 (mPushed s + u64 (na + nb))) r2).
  unfold pushTimeDomain. rewrite !count_pushed_eq, mPushed_set_pushed.
  rewrite set_pushed_twice, !push_loop_pushed, V1, V2, L3.
  rewrite u64_add_twice by lia. auto.
Qed.

End PushChunksTheorem.

Lemma push_chunks_agree_witness :
  let s := StftProcessor.new Libm.cosf in
  let a := repeat F32.one 50 in
  let b := repeat F32.two 100 in
  exists s1 s2,
    StftProcessor.pushTimeDomain Libm.cosf Libm.sinf s a 50 = Some s1 /\
    StftProcessor.pushTimeDomain Libm.cosf Libm.sinf s1 b 100 = Some s2 /\
    StftProcessor.pushTimeDomain Libm.cosf Libm.sinf s (a ++ b) (50 + 100)
      = Some s2.
Proof.
  intros s a b.
  apply (push_chunks_agree Libm.cosf Libm.sinf s a b).
  - split; [reflexivity|]. change (StftProcessor.mHopFill s) with 0.
    unfold StftProcessor.kHOP. lia.
  - unfold a, b. rewrite !repeat_length. unfold INT32_MAX. lia.
Defined.

(** ** StftProcessor: a negative request *)

Section NegativeCounts.
Import F32 StftProcessor.
Lemma u64_neg x m :
  u64 (x + u64 m) = (x + m) mod 2 ^ 64.
Proof. unfold u64. now rewrite Zplus_mod_idemp_r. Qed.

(** A negative request.  [popTimeDomain] with [maxFrames = m < 0] writes
    nothing and returns [m]; it moves the counters by [m] all the same:
    [mAvail] grows by [- m], so that samples the ring does not hold count as
    available; [framesPopped] drops by [- m] (modulo [2 ^ 64]) and the read
    cursor moves back by [- m] (modulo the ring size).  The rings, the write
    cursor and the other counters are unchanged. *)
Theorem pop_negative_request (s : t) (out16 : list float) (m : Z) :
  0 <= mAvail s <= INT32_MAX ->
  mOlaMask s = 2 ^ 15 - 1 ->
  - 2 ^ 31 <= m < 0 ->
  exists s',
    popTimeDomain s out16 m = Some (s', out16, m) /\
    mAvail s' = mAvail s - m /\
    framesPopped s' = (framesPopped s + m) mod 2 ^ 64 /\
    mOlaRead s' = (mOlaRead s + m) mod 2 ^ 15 /\
    mOlaBuf s' = mOlaBuf s /\ mNormBuf s' = mNormBuf s /\
    mOlaWrite s' = mOlaWrite s /\
    framesPushed s' = framesPushed s /\ hopsProcessed s' = hopsProcessed s.
Proof.
  intros Ha Hmask Hm. unfold popTimeDomain.
  rewrite (i32_id (mAvail s)) by (unfold in_i32, INT32_MAX in *; lia).
  replace (Z.min m (mAvail s)) with m by lia.
  replace (Z.to_nat m) with 0%nat by lia. cbn [for_loop].
  eexists. split; [reflexivity|].
  unfold framesPopped, framesPushed, hopsProcessed, count_popped.
  destruct s; cbn in *. subst.
  rewrite land_mask, u64_neg.
  repeat split.
  - unfold u64 at 2.
    replace (mAvail0 - m mod 2 ^ 64) with (mAvail0 - m + (-1) * 2 ^ 64).
    + unfold u64. rewrite Z.mod_add by lia. apply Z.mod_small.
      unfold INT32_MAX in *. lia.
    + rewrite <- (Z.mod_unique m (2 ^ 64) (-1) (m + 2 ^ 64)); lia.
  - change 32768 with (2 ^ 15).
    rewrite <- Zplus_mod_idemp_r, mod_u64_15, Zplus_mod_idemp_r.
    reflexivity.
Qed.

End NegativeCounts.

Lemma pop_negative_request_witness :
  let s := StftProcessor.new Libm.cosf in
  let out16 := repeat F32.one 4 in
  exists s',
    StftProcessor.popTimeDomain s out16 (-5) = Some (s', out16, -5) /\
    StftProcessor.mAvail s' = StftProcessor.mAvail s - -5 /\
    StftProcessor.framesPopped s'
      = (StftProcessor.framesPopped s + -5) mod 2 ^ 64 /\
    StftProcessor.mOlaRead s' = (StftProcessor.mOlaRead s + -5) mod 2 ^ 15 /\
    StftProcessor.mOlaBuf s' = StftProcessor.mOlaBuf s /\
    StftProcessor.mNormBuf s' = StftProcessor.mNormBuf s /\
    StftProcessor.mOlaWrite s' = StftProcessor.mOlaWrite s /\
    StftProcessor.framesPushed s' = StftProcessor.framesPushed s /\
    StftProcessor.hopsProcessed s' = StftProcessor.hopsProcessed s.
Proof.
  intros s out16.
  apply (pop_negative_request s out16 (-5)).
  - change (StftProcessor.mAvail s) with 0. unfold INT32_MAX. lia.
  - reflexivity.
  - lia.
Defined.

(** ** StftProcessor: overlap-add *)

Section OlaAdd.
Import F32 StftProcessor.

Lemma ola_slot_iff w i j :
  0 <= i < 2 ^ 15 -> 0 <= j < 2 ^ 15 ->
  (j = (w + i) mod 2 ^ 15 <-> (j - w) mod 2 ^ 15 = i).
Proof.
  change (2 ^ 15) with 32768. intros Hi Hj.
  split; intros H; Z.div_mod_to_equations; lia.
Qed.

Lemma ola_slot w i :
  Z.land (u64 (w + u64 i)) (2 ^ 15 - 1) = (w + i) mod 2 ^ 15.
Proof.
  rewrite land_mask, <- Zplus_mod_idemp_r, mod_u64_15, Zplus_mod_idemp_r.
  reflexivity.
Qed.

(** [n] rounds of the loop of [olaAdd] from index [i0]: the slots at
    distance [i0 .. i0 + n - 1] from [mOlaWrite] have received their
    sample. *)
Lemma olaAdd_loop_spec blk n : forall i0 s,
  ring_ok s -> 0 <= i0 -> i0 + Z.of_nat n <= 2 ^ 15 ->
  let s' := for_loop n i0 (olaAdd_body blk) s in
  ring_ok s' /\ mOlaWrite s' = mOlaWrite s /\ mWin s' = mWin s /\
  forall j, 0 <= j < 2 ^ 15 ->
    let d := (j - mOlaWrite s) mod 2 ^ 15 in
    vget zero (mOlaBuf s') j
      = (if (i0 <=? d) && (d <? i0 + Z.of_nat n)
         then add (vget zero (mOlaBuf s) j) (vget zero blk d)
         else vget zero (mOlaBuf s) j) /\
    vget zero (mNormBuf s') j
      = (if (i0 <=? d) && (d <? i0 + Z.of_nat n)
         then add (vget zero (mNormBuf s) j)
                  (mul (vget zero (mWin s) d) (vget zero (mWin s) d))
         else vget zero (mNormBuf s) j).
Proof.
  induction n as [|n IH]; intros i0 s Hs Hi0 Hn; cbn [for_loop]; cbv zeta.
  - split; [exact Hs|]. split; [reflexivity|]. split; [reflexivity|].
    intros j Hj.
    replace ((i0 <=? _) && (_ <? i0 + Z.of_nat 0)) with false; [auto|].
    symmetry. apply andb_false_iff.
    destruct (Z.leb_spec i0 ((j - mOlaWrite s) mod 2 ^ 15)); [right|now left].
    apply Z.ltb_ge. lia.
  - pose proof Hs as (Hm & Hlo & Hln & Hr).
    set (s1 := olaAdd_body blk i0 s).
    set (idx := (mOlaWrite s + i0) mod 2 ^ 15).
    assert (Hidx : 0 <= idx < 2 ^ 15) by (apply Z.mod_pos_bound; lia).
    assert (E1 : s1 = set_rings s
              (vset (mOlaBuf s) idx
                 (add (vget zero (mOlaBuf s) idx) (vget zero blk i0)))
              (vset (mNormBuf s) idx
                 (add (vget zero (mNormBuf s) idx)
                      (mul (vget zero (mWin s) i0) (vget zero (mWin s) i0))))).
    { unfold s1, olaAdd_body. cbv zeta. rewrite Hm, ola_slot. reflexivity. }
    assert (Hs1 : ring_ok s1).
    { rewrite E1. unfold ring_ok. stft_fields.
      rewrite !vset_length. auto. }
    assert (W1 : mOlaWrite s1 = mOlaWrite s) by (rewrite E1; reflexivity).
    assert (N1 : mWin s1 = mWin s) by (rewrite E1; reflexivity).
    assert (O1 : forall j, 0 <= j ->
              vget zero (mOlaBuf s1) j
              = if j =? idx
                then add (vget zero (mOlaBuf s) idx) (vget zero blk i0)
                else vget zero (mOlaBuf s) j).
    { intros j Hj. rewrite E1. stft_fields. apply vget_vset; lia. }
    assert (Q1 : forall j, 0 <= j ->
              vget zero (mNormBuf s1) j
              = if j =? idx
                then add (vget zero (mNormBuf s) idx)
                       (mul (vget zero (mWin s) i0) (vget zero (mWin s) i0))
                else vget zero (mNormBuf s) j).
    { intros j Hj. rewrite E1. stft_fields. apply vget_vset; lia. }
    destruct (IH (i0 + 1) s1 Hs1 ltac:(lia) ltac:(lia))
      as (Hs' & W' & N' & Hslots).
    clearbody s1. clear E1.
    split; [exact Hs'|]. split; [congruence|]. split; [congruence|].
    intros j Hj. specialize (Hslots j Hj). cbv zeta in Hslots.
    rewrite W1, N1, O1, Q1 in Hslots by lia.
    destruct Hslots as [HO HQ]. rewrite HO, HQ. clear HO HQ.
    pose proof (ola_slot_iff (mOlaWrite s) i0 j ltac:(lia) Hj) as Hiff.
    fold idx in Hiff.
    assert (Hd : 0 <= (j - mOlaWrite s) mod 2 ^ 15 < 2 ^ 15)
      by (apply Z.mod_pos_bound; lia).
    revert Hiff Hd. generalize ((j - mOlaWrite s) mod 2 ^ 15).
    intros d Hiff Hd.
    destruct (Z.eqb_spec j idx) as [Hji | Hji].
    + assert (H : d = i0) by (apply Hiff, Hji). rewrite H.
      replace ((i0 + 1 <=? _) && _) with false
        by (symmetry; apply andb_false_iff; left; apply Z.leb_gt; lia).
      replace ((i0 <=? _) && _) with true
        by (symmetry; apply andb_true_iff; split;
            [apply Z.leb_le | apply Z.ltb_lt]; lia).
      rewrite Hji. auto.
    + assert (d <> i0) by (intros Hdi; apply Hji, Hiff, Hdi).
      replace ((i0 <=? d) && (d <? i0 + Z.of_nat (S n)))
        with ((i0 + 1 <=? d) && (d <? i0 + 1 + Z.of_nat n)); [auto|].
      destruct (Z.leb_spec (i0 + 1) d), (Z.leb_spec i0 d); try lia;
        cbn [andb]; try reflexivity.
      destruct (Z.ltb_spec d (i0 + 1 + Z.of_nat n)),
               (Z.ltb_spec d (i0 + Z.of_nat (S n))); try lia; reflexivity.
Qed.

(** Overlap-add.  [olaAdd] adds sample [d] of the block to the slot of
    [mOlaBuf] at distance [d] after the write cursor (modulo the ring size),
    and the square of the window at [d] to the same slot of [mNormBuf], for
    every [d < 512]; every other slot of the two rings is unchanged, and the
    write cursor advances by one hop, 96, modulo the ring size. *)
Theorem olaAdd_accumulates (s : t) (block512 : list float) (j : Z) :
  ring_ok s -> 0 <= j < 2 ^ 15 ->
  let s' := olaAdd s block512 in
  let d := (j - mOlaWrite s) mod 2 ^ 15 in
  vget zero (mOlaBuf s') j
    = (if d <? kNFFT
       then add (vget zero (mOlaBuf s) j) (vget zero block512 d)
       else vget zero (mOlaBuf s) j) /\
  vget zero (mNormBuf s') j
    = (if d <? kNFFT
       then add (vget zero (mNormBuf s) j)
                (mul (vget zero (mWin s) d) (vget zero (mWin s) d))
       else vget zero (mNormBuf s) j) /\
  mOlaWrite s' = (mOlaWrite s + kHOP) mod 2 ^ 15 /\
  ring_ok s'.
Proof.
  intros Hs Hj. cbv zeta. unfold olaAdd.
  destruct (olaAdd_loop_spec block512 (Z.to_nat kNFFT) 0 s Hs)
    as (Hs' & W' & _ & Hslots); [lia | unfold kNFFT; lia |].
  specialize (Hslots j Hj). cbv zeta in Hslots.
  revert Hs' W' Hslots.
  generalize (for_loop (Z.to_nat kNFFT) 0 (olaAdd_body block512) s).
  intros s1 Hs1 W1 [HO HQ].
  assert (Hd : 0 <= (j - mOlaWrite s) mod 2 ^ 15)
    by (apply Z.mod_pos_bound; lia).
  destruct (Z.leb_spec 0 ((j - mOlaWrite s) mod 2 ^ 15)); [|lia].
  cbn [andb] in HO, HQ.
  rewrite Z2Nat.id, Z.add_0_l in HO, HQ by (unfold kNFFT; lia).
  destruct Hs1 as (Hm & Hlo & Hln & Hr).
  unfold advance_write, ring_ok. stft_fields.
  rewrite Hm, land_mask, W1.
  split; [exact HO|]. split; [exact HQ|]. split; [reflexivity|].
  tauto.
Qed.

End OlaAdd.

Lemma olaAdd_accumulates_witness :
  let s := StftProcessor.set_cursors (StftProcessor.new Libm.cosf)
             32700 0 0 in
  let blk := repeat F32.one 512 in
  let j := 100 in
  let s' := StftProcessor.olaAdd s blk in
  let d := (j - StftProcessor.mOlaWrite s) mod 2 ^ 15 in
  vget F32.zero (StftProcessor.mOlaBuf s') j
    = (if d <? StftProcessor.kNFFT
       then F32.add (vget F32.zero (StftProcessor.mOlaBuf s) j)
                    (vget F32.zero blk d)
       else vget F32.zero (StftProcessor.mOlaBuf s) j) /\
  vget F32.zero (StftProcessor.mNormBuf s') j
    = (if d <? StftProcessor.kNFFT
       then F32.add (vget F32.zero (StftProcessor.mNormBuf s) j)
                    (F32.mul (vget F32.zero (StftProcessor.mWin s) d)
                             (vget F32.zero (StftProcessor.mWin s) d))
       else vget F32.zero (StftProcessor.mNormBuf s) j) /\
  StftProcessor.mOlaWrite s'
    = (StftProcessor.mOlaWrite s + StftProcessor.kHOP) mod 2 ^ 15 /\
  StftProcessor.ring_ok s'.
Proof.
  intros s blk j.
  apply (olaAdd_accumulates s blk j).
  - destruct (new_ring_ok Libm.cosf) as (H1 & H2 & H3 & H4).
    unfold StftProcessor.ring_ok. auto.
  - unfold j. lia.
Defined.

(** ** FullDuplexEngine: priming and delivery *)

Section Priming.
Import F32 EngineStart.

Lemma firstn_repeat {A : Type} (x : A) (n m : nat) :
  (n <= m)%nat -> firstn n (repeat x m) = repeat x n.
Proof.
  revert m. induction n as [|n IH]; intros m H; [reflexivity|].
  destruct m as [|m]; [lia|]. cbn [repeat firstn]. f_equal. apply IH. lia.
Qed.

Lemma prime_loop_spec n : forall rb zeros fpb,
  RingBuffer.ring_inv rb ->
  0 <= fpb ->
  Z.of_nat (length zeros) = fpb * RingBuffer.mChannels rb ->
  zeros = repeat zero (length zeros) ->
  RingQueue.contents rb
    = repeat zero (Z.to_nat (RingBuffer.availableToRead rb
                             * RingBuffer.mChannels rb)) ->
  exists rb',
    prime_loop n rb zeros fpb = Some rb' /\
    RingBuffer.ring_inv rb' /\
    RingBuffer.same_geometry rb rb' /\
    RingBuffer.availableToRead rb'
      = Z.min (RingBuffer.availableToRead rb + Z.of_nat n * fpb)
              (RingBuffer.mCapacityFrames rb) /\
    RingQueue.contents rb'
      = repeat zero (Z.to_nat (RingBuffer.availableToRead rb'
                               * RingBuffer.mChannels rb)).
Proof.
  induction n as [|n IH]; intros rb zeros fpb Hinv Hfpb Hlen Hz Hc.
  - exists rb. cbn [prime_loop].
    destruct (ring_inv_available rb Hinv) as [_ Hr].
    split; [reflexivity|]. split; [exact Hinv|].
    split; [unfold RingBuffer.same_geometry; auto|].
    split; [|exact Hc].
    change (Z.of_nat 0) with 0. lia.
  - cbn [prime_loop].
    destruct (ring_inv_available rb Hinv) as [_ Hr].
    pose proof Hinv as [(k & Hk & Hcap & _ & Hch & _) _].
    pose proof (pow2_le_2_30 k ltac:(lia)) as Hpk.
    set (ch := RingBuffer.mChannels rb) in *.
    set (a := RingBuffer.availableToRead rb) in *.
    assert (HavW : RingBuffer.availableToWrite rb
                   = RingBuffer.mCapacityFrames rb - a).
    { unfold RingBuffer.availableToWrite. fold a.
      apply i32_id. unfold in_i32, INT32_MAX. lia. }
    set (w := Z.max 0 (Z.min fpb (RingBuffer.availableToWrite rb))).
    assert (Hw : 0 <= w <= fpb) by (unfold w; lia).
    assert (Hwc : 0 <= w * ch <= fpb * ch).
    { split; [apply Z.mul_nonneg_nonneg; lia|].
      apply Z.mul_le_mono_nonneg_r; lia. }
    assert (Hac : 0 <= a * ch) by (apply Z.mul_nonneg_nonneg; lia).
    destruct (write_queue_spec rb zeros fpb Hinv) as
      (rb1 & E & Hinv1 & Hg & _ & Hav1 & Hc1 & _).
    { fold ch. fold w. lia. }
    fold ch in Hc1. fold w in E, Hav1, Hc1. fold a in Hav1.
    rewrite E.
    pose proof Hg as (G1 & G2 & G3 & G4). fold ch in G1.
    destruct (IH rb1 zeros fpb Hinv1 Hfpb) as
      (rb' & E' & Hinv' & Hg' & Hav' & Hc').
    { rewrite G1. exact Hlen. }
    { exact Hz. }
    { rewrite Hc1, Hc, Hav1, G1, Hz, firstn_repeat by lia.
      rewrite <- repeat_app. f_equal. lia. }
    exists rb'. split; [exact E'|]. split; [exact Hinv'|]. split.
    { destruct Hg' as (F1 & F2 & F3 & F4).
      unfold RingBuffer.same_geometry. fold ch.
      rewrite F1, F2, F3, F4, G1, G2, G3, G4. auto. }
    rewrite G1 in Hc'. split; [|exact Hc'].
    rewrite Hav', Hav1, G2. unfold w. rewrite HavW. lia.
Qed.

(** Priming in [start].  After [init] of the output ring, the twenty writes
    of one burst of silence succeed and leave
    [min (20 * fpb) (capacityFrames ())] frames to read, all of them zeros:
    the writes that find the ring full add nothing and fail nothing. *)
Theorem start_priming (rb0 rb1 : @RingBuffer.t float)
    (capFrames fpb ch : Z) :
  1 <= capFrames <= INT32_MAX ->
  1 <= ch <= INT32_MAX -> 0 <= fpb <= INT32_MAX ->
  RingBuffer.init zero rb0 capFrames ch = (true, rb1) ->
  exists rb,
    prime rb1 fpb ch = Some rb /\
    RingBuffer.ring_inv rb /\
    RingBuffer.availableToRead rb
      = Z.min (kPrimeBursts * fpb) (RingBuffer.capacityFrames rb1) /\
    RingQueue.contents rb
      = repeat zero (Z.to_nat (RingBuffer.availableToRead rb * ch)).
Proof.
  intros Hc Hch Hfpb Hinit.
  destruct (init_wf zero rb0 capFrames ch rb1 Hc Hch Hinit)
    as (Hwf & Hr0 & Hw0).
  assert (Hchan : RingBuffer.mChannels rb1 = ch).
  { revert Hinit. unfold RingBuffer.init.
    destruct (_ || _); [discriminate|]. now intros [= <-]. }
  assert (Hav0 : RingBuffer.availableToRead rb1 = 0).
  { unfold RingBuffer.availableToRead. rewrite Hr0, Hw0. reflexivity. }
  assert (Hinv1 : RingBuffer.ring_inv rb1).
  { split; [exact Hwf|]. rewrite Hr0, Hw0.
    destruct Hwf as (k & Hk & Hcap & _). rewrite Hcap.
    pose proof (pow2_le_2_30 k ltac:(lia)). cbn. lia. }
  assert (Hempty : RingQueue.contents rb1 = []).
  { unfold RingQueue.contents. rewrite Hav0. reflexivity. }
  unfold prime.
  assert (Hsz : u64 (u64 fpb * u64 ch) = fpb * ch).
  { unfold INT32_MAX in *.
    assert (0 <= fpb * ch <= (2 ^ 31 - 1) * (2 ^ 31 - 1)).
    { split; [apply Z.mul_nonneg_nonneg; lia|].
      apply Z.mul_le_mono_nonneg; lia. }
    rewrite (u64_id fpb), (u64_id ch) by (unfold in_u64; lia).
    apply u64_id. unfold in_u64. lia. }
  rewrite Hsz.
  assert (Hfc : 0 <= fpb * ch) by (apply Z.mul_nonneg_nonneg; lia).
  destruct (prime_loop_spec (Z.to_nat kPrimeBursts) rb1
              (repeat zero (Z.to_nat (fpb * ch))) fpb Hinv1)
    as (rb & E & Hinv & _ & Hav & Hcont).
  - lia.
  - rewrite repeat_length, Hchan. lia.
  - now rewrite repeat_length.
  - rewrite Hempty, Hav0. reflexivity.
  - exists rb. split; [exact E|]. split; [exact Hinv|].
    rewrite Hchan in Hcont. split; [|exact Hcont].
    rewrite Hav, Hav0. unfold RingBuffer.capacityFrames.
    rewrite Z2Nat.id by (unfold kPrimeBursts; lia). f_equal.
Qed.

End Priming.

Section PullQueue.
Import F32 FullDuplexEngine.

(** Delivery.  When the output ring holds at least the [numFrames >= 1]
    frames asked for, [pullTo] returns [numFrames], writes the oldest
    [numFrames] frames of the ring to [out], in order, leaves the rest of
    [out] alone, removes those frames from the ring, and does not count an
    underflow, whatever the time of the call. *)
Theorem pullTo_delivers_queue (e : FullDuplexEngine.t) (out : list float)
    (numFrames now : Z) :
  let rb := mOutRing e in
  let ch := outChannelCount e in
  RingBuffer.ring_inv rb ->
  RingBuffer.mChannels rb = ch ->
  1 <= numFrames <= RingBuffer.availableToRead rb ->
  numFrames * ch <= Z.of_nat (length out) ->
  exists e',
    pullTo e out numFrames now =
      Some (e',
            firstn (Z.to_nat (numFrames * ch)) (RingQueue.contents rb)
            ++ skipn (Z.to_nat (numFrames * ch)) out,
            numFrames) /\
    mUnderflows e' = mUnderflows e /\
    RingBuffer.ring_inv (mOutRing e') /\
    RingBuffer.availableToRead (mOutRing e')
      = RingBuffer.availableToRead rb - numFrames /\
    RingQueue.contents (mOutRing e')
      = skipn (Z.to_nat (numFrames * ch)) (RingQueue.contents rb).
Proof.
  intros rb ch Hinv Hchan Hn Hout.
  destruct (ring_inv_available rb Hinv) as [_ Hr].
  pose proof Hinv as [(k & Hk & Hcap & _ & Hch & _) _].
  pose proof (pow2_le_2_30 k ltac:(lia)) as Hpk.
  destruct (read_queue_spec rb out numFrames Hinv) as
    (rb' & E & Hinv' & _ & _ & _ & Hav' & Hc' & _).
  { rewrite Hchan. replace (Z.max 0 _) with numFrames by lia. exact Hout. }
  rewrite Hchan in E, Hc'. fold ch in E, Hc'.
  replace (Z.max 0 (Z.min numFrames (RingBuffer.availableToRead rb)))
    with numFrames in E, Hav', Hc' by lia.
  unfold pullTo. fold rb ch.
  assert (Hfuel : exists f, Z.to_nat numFrames = S f)
    by (exists (Z.to_nat numFrames - 1)%nat; lia).
  destruct Hfuel as [f Hfuel]. rewrite Hfuel. cbn [pull_loop].
  destruct (Z.ltb_spec 0 numFrames); [|lia].
  change (u64 (u64 0 * u64 ch)) with 0.
  rewrite read_at_0, Z.sub_0_r.
  rewrite (i32_id numFrames) by (unfold in_i32, INT32_MAX; lia).
  rewrite E. destruct (Z.leb_spec numFrames 0); [lia|].
  rewrite Z.add_0_l.
  rewrite (i32_id numFrames) by (unfold in_i32, INT32_MAX; lia).
  assert (Hstop : forall g o,
            pull_loop g rb' ch o numFrames numFrames
            = Some (rb', o, numFrames)).
  { intros g o. destruct g; cbn [pull_loop]; rewrite Z.ltb_irrefl;
      reflexivity. }
  rewrite Hstop, Z.ltb_irrefl.
  eexists. split; [reflexivity|]. cbn [mUnderflows mOutRing]. auto.
Qed.

End PullQueue.

Lemma start_priming_witness :
  let rb1 := snd (RingBuffer.init F32.zero RingBuffer.fresh 9600 2) in
  exists rb,
    EngineStart.prime rb1 96 2 = Some rb /\
    RingBuffer.ring_inv rb /\
    RingBuffer.availableToRead rb
      = Z.min (EngineStart.kPrimeBursts * 96) (RingBuffer.capacityFrames rb1)
    /\
    RingQueue.contents rb
      = repeat F32.zero (Z.to_nat (RingBuffer.availableToRead rb * 2)).
Proof.
  intros rb1.
  apply (start_priming RingBuffer.fresh rb1 9600 96 2);
    try (unfold INT32_MAX; lia).
  reflexivity.
Defined.

Lemma pullTo_delivers_queue_witness :
  let rb := {| RingBuffer.mData :=
                 map F32.of_Z [1; 2; 3; 4; 5; 6; 7; 8];
               RingBuffer.mChannels := 2;
               RingBuffer.mCapacityFrames := 4;
               RingBuffer.mMask := 3;
               RingBuffer.mRead := 3;
               RingBuffer.mWrite := 6 |} in
  let e := FullDuplexEngine.mk rb 2 7 1000 in
  let out := repeat F32.one 5 in
  exists e',
    FullDuplexEngine.pullTo e out 2 5000 =
      Some (e',
            firstn (Z.to_nat (2 * 2)) (RingQueue.contents rb)
            ++ skipn (Z.to_nat (2 * 2)) out,
            2) /\
    FullDuplexEngine.mUnderflows e' = FullDuplexEngine.mUnderflows e /\
    RingBuffer.ring_inv (FullDuplexEngine.mOutRing e') /\
    RingBuffer.availableToRead (FullDuplexEngine.mOutRing e')
      = RingBuffer.availableToRead rb - 2 /\
    RingQueue.contents (FullDuplexEngine.mOutRing e')
      = skipn (Z.to_nat (2 * 2)) (RingQueue.contents rb).
Proof.
  intros rb e out.
  apply (pullTo_delivers_queue e out 2 5000).
  - split.
    + exists 2. unfold in_u64, INT32_MAX. cbn. repeat split; lia.
    + vm_compute. discriminate.
  - reflexivity.
  - vm_compute. split; discriminate.
  - vm_compute. discriminate.
Defined.

(** ** binary32: rounding to nearest does not cross a power of two *)

Section Digits.

Lemma digits2_bounds p :
  2 ^ (Z.pos (digits2_pos p) - 1) <= Z.pos p < 2 ^ Z.pos (digits2_pos p).
Proof.
  induction p as [p IH | p IH |]; cbn [digits2_pos].
  - rewrite Pos2Z.inj_succ. replace (Z.succ _ - 1) with (Z.pos (digits2_pos p)) by lia.
    rewrite Z.pow_succ_r by lia.
    replace (Z.pos (digits2_pos p)) with (Z.succ (Z.pos (digits2_pos p) - 1)) at 1 by lia.
    rewrite Z.pow_succ_r by lia. lia.
  - rewrite Pos2Z.inj_succ. replace (Z.succ _ - 1) with (Z.pos (digits2_pos p)) by lia.
    rewrite Z.pow_succ_r by lia.
    replace (Z.pos (digits2_pos p)) with (Z.succ (Z.pos (digits2_pos p) - 1)) at 1 by lia.
    rewrite Z.pow_succ_r by lia. lia.
  - cbn. lia.
Qed.

Lemma Zdigits2_nonneg m : 0 <= Zdigits2 m.
Proof. destruct m; cbn; lia. Qed.

Lemma Zdigits2_bounds m :
  0 < m -> 2 ^ (Zdigits2 m - 1) <= m < 2 ^ Zdigits2 m.
Proof. destruct m as [|p|p]; try lia. intros _. apply digits2_bounds. Qed.

Lemma pow2_lt_mono a b : 0 <= b -> 2 ^ a < 2 ^ b -> a < b.
Proof.
  intros Hb H. destruct (Z_lt_le_dec a b) as [|Hge]; [assumption|].
  assert (2 ^ b <= 2 ^ a) by (apply Z.pow_le_mono_r; lia). lia.
Qed.

(** The number of digits is determined by the binade. *)
Lemma Zdigits2_unique m d :
  0 < d -> 2 ^ (d - 1) <= m < 2 ^ d -> Zdigits2 m = d.
Proof.
  intros Hd [H1 H2].
  assert (Hm : 0 < m).
  { assert (0 < 2 ^ (d - 1)) by (apply Z.pow_pos_nonneg; lia). lia. }
  pose proof (Zdigits2_bounds m Hm) as [B1 B2].
  pose proof (Zdigits2_nonneg m).
  assert (Zdigits2 m - 1 < d) by (apply pow2_lt_mono; lia).
  assert (d - 1 < Zdigits2 m) by (apply pow2_lt_mono; lia).
  lia.
Qed.

Lemma Zdigits2_le m d : 0 <= m -> 0 <= d -> m < 2 ^ d -> Zdigits2 m <= d.
Proof.
  intros Hm Hd H. destruct (Z.eq_dec m 0) as [-> | Hne]; [cbn; lia|].
  pose proof (Zdigits2_bounds m ltac:(lia)) as [B1 _].
  assert (Zdigits2 m - 1 < d) by (apply pow2_lt_mono; lia). lia.
Qed.

Lemma Zdigits2_ge m d : 2 ^ d <= m -> 0 <= d -> d < Zdigits2 m.
Proof.
  intros H Hd.
  assert (0 < 2 ^ d) by (apply Z.pow_pos_nonneg; lia).
  pose proof (Zdigits2_bounds m ltac:(lia)) as [_ B2].
  apply pow2_lt_mono; [apply Zdigits2_nonneg | lia].
Qed.

Lemma Zdigits2_mono a b : 0 <= a <= b -> Zdigits2 a <= Zdigits2 b.
Proof.
  intros H. destruct (Z.eq_dec a 0) as [-> | Hne].
  - apply Zdigits2_nonneg.
  - pose proof (Zdigits2_bounds a ltac:(lia)) as [A1 _].
    pose proof (Zdigits2_bounds b ltac:(lia)) as [_ B2].
    pose proof (Zdigits2_nonneg b).
    assert (Zdigits2 a - 1 < Zdigits2 b) by (apply pow2_lt_mono; lia). lia.
Qed.

(** Dropping [n] low bits drops [n] digits. *)
Lemma Zdigits2_shift m n :
  0 < m -> 0 <= n < Zdigits2 m -> Zdigits2 (m / 2 ^ n) = Zdigits2 m - n.
Proof.
  intros Hm Hn. pose proof (Zdigits2_bounds m Hm) as [B1 B2].
  assert (Hp : 0 < 2 ^ n) by (apply Z.pow_pos_nonneg; lia).
  apply Zdigits2_unique; [lia|]. split.
  - apply Z.div_le_lower_bound; [lia|].
    rewrite <- Z.pow_add_r by lia.
    replace (n + (Zdigits2 m - n - 1)) with (Zdigits2 m - 1) by lia. lia.
  - apply Z.div_lt_upper_bound; [lia|].
    rewrite <- Z.pow_add_r by lia.
    replace (n + (Zdigits2 m - n)) with (Zdigits2 m) by lia. lia.
Qed.

Lemma Zdigits2_shift_zero m n :
  0 <= m -> 0 <= n -> Zdigits2 m <= n -> m / 2 ^ n = 0.
Proof.
  intros Hm Hn Hd. destruct (Z.eq_dec m 0) as [-> | Hne].
  - apply Z.div_0_l. apply Z.pow_nonzero; lia.
  - pose proof (Zdigits2_bounds m ltac:(lia)) as [_ B2].
    apply Z.div_small. split; [lia|].
    assert (2 ^ Zdigits2 m <= 2 ^ n) by (apply Z.pow_le_mono_r; lia). lia.
Qed.

End Digits.

Section Shifts.

Lemma shr_1_spec mrs :
  0 <= shr_m mrs ->
  shr_m (shr_1 mrs) = shr_m mrs / 2 /\
  (shr_r mrs = false -> shr_s mrs = false -> shr_m mrs mod 2 = 0 ->
   shr_r (shr_1 mrs) = false /\ shr_s (shr_1 mrs) = false).
Proof.
  destruct mrs as [m r s]. cbn [shr_m shr_r shr_s]. intros Hm.
  destruct m as [|[p|p|]|p]; try lia; cbn [shr_1 shr_m shr_r shr_s].
  - split; [reflexivity|]. intros -> ->. auto.
  - split.
    + rewrite Pos2Z.inj_xI. apply (Z.div_unique _ 2 _ 1); lia.
    + intros _ _ H. rewrite Pos2Z.inj_xI in H.
      Z.div_mod_to_equations. lia.
  - split.
    + rewrite Pos2Z.inj_xO. apply (Z.div_unique _ 2 _ 0); lia.
    + intros -> ->. auto.
  - split; [reflexivity|]. intros _ _ H. discriminate H.
Qed.

Lemma div_pow2_add m a b :
  0 <= a -> 0 <= b -> m / 2 ^ a / 2 ^ b = m / 2 ^ (a + b).
Proof.
  intros Ha Hb. rewrite Z.pow_add_r by lia.
  apply Z.div_div; [apply Z.pow_nonzero; lia | apply Z.pow_pos_nonneg; lia].
Qed.

Lemma mod_pow2_split m a b :
  0 <= a -> 0 <= b -> m mod 2 ^ (a + b) = 0 ->
  m mod 2 ^ a = 0 /\ (m / 2 ^ a) mod 2 ^ b = 0.
Proof.
  intros Ha Hb H.
  assert (Pa : 0 < 2 ^ a) by (apply Z.pow_pos_nonneg; lia).
  assert (Pb : 0 < 2 ^ b) by (apply Z.pow_pos_nonneg; lia).
  apply Z.mod_divide in H; [|rewrite Z.pow_add_r by lia; nia].
  destruct H as [q Hq]. rewrite Z.pow_add_r in Hq by lia.
  assert (E : m = (q * 2 ^ b) * 2 ^ a) by lia.
  split.
  - rewrite E. apply Z.mod_mul. lia.
  - rewrite E, Z.div_mul by lia. apply Z.mod_mul. lia.
Qed.

Lemma iter_shr_spec p : forall mrs,
  0 <= shr_m mrs ->
  shr_m (iter_pos shr_1 p mrs) = shr_m mrs / 2 ^ Z.pos p /\
  (shr_r mrs = false -> shr_s mrs = false ->
   shr_m mrs mod 2 ^ Z.pos p = 0 ->
   shr_r (iter_pos shr_1 p mrs) = false /\
   shr_s (iter_pos shr_1 p mrs) = false).
Proof.
  induction p as [p IH | p IH |]; intros mrs Hm; cbn [iter_pos].
  - destruct (shr_1_spec mrs Hm) as [E1 X1].
    assert (H1 : 0 <= shr_m (shr_1 mrs)) by (apply shr_1_nonneg, Hm).
    destruct (IH _ H1) as [E2 X2].
    assert (H2 : 0 <= shr_m (iter_pos shr_1 p (shr_1 mrs)))
      by (apply iter_shr_1_nonneg, H1).
    destruct (IH _ H2) as [E3 X3].
    rewrite <- (Z.pow_1_r 2) in E1.
    split.
    + rewrite E3, E2, E1, !div_pow2_add by lia. f_equal. f_equal. lia.
    + intros Hr Hs Hd.
      replace (Z.pos p~1) with (1 + (Z.pos p + Z.pos p)) in Hd by lia.
      apply mod_pow2_split in Hd; try lia. destruct Hd as [D1 D2].
      apply mod_pow2_split in D2; try lia. destruct D2 as [D2 D3].
      destruct (X1 Hr Hs D1) as [R1 S1].
      rewrite <- E1 in D2, D3.
      destruct (X2 R1 S1 D2) as [R2 S2].
      rewrite <- E2 in D3.
      exact (X3 R2 S2 D3).
  - destruct (IH _ Hm) as [E2 X2].
    assert (H2 : 0 <= shr_m (iter_pos shr_1 p mrs))
      by (apply iter_shr_1_nonneg, Hm).
    destruct (IH _ H2) as [E3 X3].
    split.
    + rewrite E3, E2, !div_pow2_add by lia. f_equal. f_equal. lia.
    + intros Hr Hs Hd.
      replace (Z.pos p~0) with (Z.pos p + Z.pos p) in Hd by lia.
      apply mod_pow2_split in Hd; try lia. destruct Hd as [D2 D3].
      destruct (X2 Hr Hs D2) as [R2 S2].
      rewrite <- E2 in D3.
      exact (X3 R2 S2 D3).
  - apply shr_1_spec, Hm.
Qed.

(** [shr] by [n]: the mantissa loses [max 0 n] bits, and stays exact when
    those bits were zero. *)
Lemma shr_spec mrs e n :
  0 <= shr_m mrs ->
  shr_m (fst (shr mrs e n)) = shr_m mrs / 2 ^ Z.max 0 n /\
  snd (shr mrs e n) = e + Z.max 0 n /\
  (shr_r mrs = false -> shr_s mrs = false ->
   shr_m mrs mod 2 ^ Z.max 0 n = 0 ->
   shr_r (fst (shr mrs e n)) = false /\ shr_s (fst (shr mrs e n)) = false).
Proof.
  intros Hm. unfold shr. destruct n as [|p|p]; cbn [fst snd].
  - change (Z.max 0 0) with 0. rewrite Z.pow_0_r, Z.div_1_r, Z.add_0_r. auto.
  - replace (Z.max 0 (Z.pos p)) with (Z.pos p) by lia.
    destruct (iter_shr_spec p mrs Hm) as [E X]. auto.
  - replace (Z.max 0 (Z.neg p)) with 0 by lia.
    rewrite Z.pow_0_r, Z.div_1_r, Z.add_0_r. auto.
Qed.

Lemma shr_record_of_loc_m m l : shr_m (shr_record_of_loc m l) = m.
Proof. destruct l as [|[]]; reflexivity. Qed.

Lemma shr_record_of_loc_exact m :
  shr_r (shr_record_of_loc m loc_Exact) = false /\
  shr_s (shr_record_of_loc m loc_Exact) = false.
Proof. split; reflexivity. Qed.

Lemma round_nearest_even_spec mrs :
  let r := round_nearest_even (shr_m mrs) (loc_of_shr_record mrs) in
  shr_m mrs <= r <= shr_m mrs + 1 /\
  (shr_r mrs = false -> shr_s mrs = false -> r = shr_m mrs).
Proof.
  destruct mrs as [m [|] [|]]; cbn [shr_m shr_r shr_s loc_of_shr_record
    round_nearest_even]; try (split; [lia | intros; congruence]).
  destruct (Z.even m); split; try lia; intros; congruence.
Qed.

End Shifts.

Section Rounding.
Import F32 Magnitude.

Lemma fexp_eq x : fexp prec emax x = Z.max (x - 24) (-149).
Proof. reflexivity. Qed.

Lemma pow2_le_inv a b : 0 <= b -> 2 ^ a <= 2 ^ b -> a <= b.
Proof.
  intros Hb H. destruct (Z_le_gt_dec a b) as [|Hgt]; [assumption|].
  assert (2 ^ b < 2 ^ a) by (apply Z.pow_lt_mono_r; lia). lia.
Qed.

Lemma pow2_pos_exp k : 0 < 2 ^ k -> 0 <= k.
Proof.
  intros H. destruct (Z_lt_le_dec k 0) as [Hneg|]; [|assumption].
  rewrite Z.pow_neg_r in H by assumption. lia.
Qed.

Lemma div_pow2_le m n k :
  0 <= n -> 0 <= k -> m <= 2 ^ (k + n) -> m / 2 ^ n <= 2 ^ k.
Proof.
  intros Hn Hk H. rewrite Z.pow_add_r in H by lia.
  assert (0 < 2 ^ n) by (apply Z.pow_pos_nonneg; lia).
  apply Z.div_le_upper_bound; lia.
Qed.

Lemma div_pow2_lt m n k :
  0 <= n -> 0 <= k -> m < 2 ^ (k + n) -> m / 2 ^ n + 1 <= 2 ^ k.
Proof.
  intros Hn Hk H. rewrite Z.pow_add_r in H by lia.
  assert (0 < 2 ^ n) by (apply Z.pow_pos_nonneg; lia).
  assert (m / 2 ^ n < 2 ^ k) by (apply Z.div_lt_upper_bound; lia). lia.
Qed.

Lemma pow2_not_multiple m n k :
  0 <= n -> 0 <= k -> m <= 2 ^ (k + n) -> m mod 2 ^ n <> 0 ->
  m < 2 ^ (k + n).
Proof.
  intros Hn Hk H Hmod.
  destruct (Z.eq_dec m (2 ^ (k + n))) as [E|]; [|lia].
  exfalso. apply Hmod. rewrite E, Z.pow_add_r by lia.
  apply Z.mod_mul. apply Z.pow_nonzero; lia.
Qed.

(** The exponent that [fexp] gives to a mantissa below [2 ^ K]. *)
Lemma fexp_bound m e K :
  0 < m -> m <= 2 ^ (K - e) ->
  fexp prec emax (Zdigits2 m + e) <= Z.max (K - 23) (-149).
Proof.
  intros Hm Hb. rewrite fexp_eq.
  pose proof (Zdigits2_bounds m Hm) as [B1 _].
  pose proof (Zdigits2_nonneg m).
  assert (0 <= K - e) by (apply pow2_pos_exp; lia).
  assert (Zdigits2 m - 1 <= K - e) by (apply pow2_le_inv; lia).
  lia.
Qed.

(** Rounding to nearest does not cross a power of two: a value of
    magnitude at most [2 ^ K], [K <= 127], given by a mantissa that is not
    shorter than the format asks for, rounds to a canonical number of
    magnitude at most [2 ^ K]. *)
Lemma round_aux_bnd sx m e l K :
  0 <= m -> e <= fexp prec emax (Zdigits2 m + e) -> -149 <= K <= 127 ->
  (match l with loc_Exact => m | _ => m + 1 end) <= 2 ^ (K - e) ->
  bnd K (binary_round_aux prec emax sx m e l) = true.
Proof.
  intros Hm Hnorm HK Hb.
  assert (Hbm : m <= 2 ^ (K - e)) by (destruct l; lia).
  unfold binary_round_aux, shr_fexp.
  (* the exponent after the first shift *)
  assert (He1 : fexp prec emax (Zdigits2 m + e) <= Z.max (K - 23) (-149)).
  { destruct (Z.eq_dec m 0) as [-> | Hne].
    - cbn [Zdigits2] in *. rewrite fexp_eq in *. lia.
    - apply fexp_bound; lia. }
  pose proof (fexp_eq (Zdigits2 m + e)) as Ee1.
  set (e1 := fexp prec emax (Zdigits2 m + e)) in *. clearbody e1.
  assert (He1lo : -149 <= e1) by lia.
  (* first shift *)
  pose proof (shr_spec (shr_record_of_loc m l) e (e1 - e)) as S1.
  rewrite shr_record_of_loc_m in S1. specialize (S1 Hm).
  destruct (shr (shr_record_of_loc m l) e (e1 - e)) as [mrs1 e1'].
  cbn [fst snd] in S1. destruct S1 as (M1 & Es1 & X1).
  replace (Z.max 0 (e1 - e)) with (e1 - e) in * by lia.
  assert (He1' : e1' = e1) by lia. clear Es1. subst e1'.
  assert (Hm1 : 0 <= shr_m mrs1).
  { rewrite M1. apply Z.div_pos; [lia | apply Z.pow_pos_nonneg; lia]. }
  (* rounding *)
  pose proof (round_nearest_even_spec mrs1) as R. cbv zeta in R.
  set (m2 := round_nearest_even (shr_m mrs1) (loc_of_shr_record mrs1)) in *.
  destruct R as [R1 R2].
  assert (Hm2 : m2 <= 2 ^ (K - e1)).
  { destruct (Z.eq_dec m2 (shr_m mrs1)) as [E | N].
    - rewrite E, M1. apply div_pow2_le; try lia.
      replace (K - e1 + (e1 - e)) with (K - e) by lia. exact Hbm.
    - assert (E : m2 = shr_m mrs1 + 1) by lia. rewrite E, M1.
      apply div_pow2_lt; try lia.
      replace (K - e1 + (e1 - e)) with (K - e) by lia.
      destruct l as [|c].
      + destruct (Z.eq_dec (m mod 2 ^ (e1 - e)) 0) as [D | D].
        * destruct (X1 eq_refl eq_refl D) as [Hr Hs].
          exfalso. apply N. apply R2; assumption.
        * replace (K - e) with (K - e1 + (e1 - e)) in * by lia.
          apply pow2_not_multiple; try lia.
      + lia. }
  (* second shift *)
  pose proof (fexp_eq (Zdigits2 m2 + e1)) as Ee3.
  assert (He3 : 0 < m2 ->
                fexp prec emax (Zdigits2 m2 + e1) <= Z.max (K - 23) (-149))
    by (intros; apply fexp_bound; lia).
  set (e3 := fexp prec emax (Zdigits2 m2 + e1)) in *. clearbody e3.
  assert (Hn2 : e1 <= e3).
  { destruct (Z.eq_dec (shr_m mrs1) 0) as [Z1 | P1].
    - assert (e1 = -149); [|lia].
      destruct (Z.eq_dec m 0) as [-> | Hne].
      + cbn [Zdigits2] in *. lia.
      + assert (Zdigits2 m <= e1 - e); [|lia].
        destruct (Z_le_gt_dec (Zdigits2 m) (e1 - e)); [assumption|].
        exfalso. rewrite M1 in Z1.
        pose proof (Zdigits2_shift m (e1 - e) ltac:(lia) ltac:(lia)) as D.
        rewrite Z1 in D. cbn [Zdigits2] in D. lia.
    - assert (Hlt : e1 - e < Zdigits2 m).
      { destruct (Z_lt_le_dec (e1 - e) (Zdigits2 m)); [assumption|].
        exfalso. apply P1. rewrite M1.
        apply Zdigits2_shift_zero; lia. }
      assert (Hpos : 0 < m).
      { destruct (Z.eq_dec m 0) as [-> |]; [|lia].
        cbn [Zdigits2] in Hlt. lia. }
      pose proof (Zdigits2_shift m (e1 - e) Hpos ltac:(lia)) as D.
      rewrite <- M1 in D.
      pose proof (Zdigits2_mono (shr_m mrs1) m2 ltac:(lia)) as Dm.
      lia. }
  pose proof (shr_spec (shr_record_of_loc m2 loc_Exact) e1 (e3 - e1)) as S2.
  rewrite shr_record_of_loc_m in S2. specialize (S2 ltac:(lia)).
  destruct (shr (shr_record_of_loc m2 loc_Exact) e1 (e3 - e1))
    as [mrs3 e3'].
  cbn [fst snd] in S2. destruct S2 as (M3 & Es3 & _).
  replace (Z.max 0 (e3 - e1)) with (e3 - e1) in * by lia.
  assert (He3' : e3' = e3) by lia. clear Es3. subst e3'.
  destruct (shr_m mrs3) as [|p|p] eqn:Ep; [reflexivity | | ].
  2:{ exfalso.
      assert (0 <= m2 / 2 ^ (e3 - e1))
        by (apply Z.div_pos; [lia | apply Z.pow_pos_nonneg; lia]).
      lia. }
  assert (Hm2pos : 0 < m2).
  { destruct (Z.eq_dec m2 0) as [Z2 |]; [|lia].
    rewrite Z2, Z.div_0_l in M3 by (apply Z.pow_nonzero; lia). lia. }
  specialize (He3 Hm2pos).
  assert (Hlt : e3 - e1 < Zdigits2 m2).
  { destruct (Z_lt_le_dec (e3 - e1) (Zdigits2 m2)); [assumption|].
    exfalso. rewrite Zdigits2_shift_zero in M3 by lia. lia. }
  pose proof (Zdigits2_shift m2 (e3 - e1) Hm2pos ltac:(lia)) as D3.
  rewrite <- M3 in D3. cbn [Zdigits2] in D3.
  destruct (Z.leb_spec e3 (emax - prec)) as [_ | Hover].
  2:{ unfold emax, prec in Hover. lia. }
  cbn [bnd]. apply andb_true_iff. split.
  - unfold bounded, canonical_mantissa. apply andb_true_iff. split.
    + apply Z.eqb_eq. rewrite D3, fexp_eq. lia.
    + apply Z.leb_le. unfold emax, prec. lia.
  - apply Z.leb_le. rewrite M3. apply div_pow2_le; try lia.
    replace (K - e3 + (e3 - e1)) with (K - e1) by lia. exact Hm2.
Qed.

End Rounding.

(** ** binary32: magnitudes of sums, products and quotients *)

Section BoundedOps.
Import F32 Magnitude.

Lemma bnd_inv K s m e :
  bnd K (S754_finite s m e) = true ->
  e = Z.max (Z.pos (digits2_pos m) + e - 24) (-149) /\
  e <= 104 /\ Z.pos m <= 2 ^ (K - e) /\ 0 <= K - e.
Proof.
  cbn [bnd]. intros H. apply andb_true_iff in H. destruct H as [Hb Hm].
  unfold bounded, canonical_mantissa in Hb.
  apply andb_true_iff in Hb. destruct Hb as [Hc He].
  apply Z.eqb_eq in Hc. apply Z.leb_le in He. apply Z.leb_le in Hm.
  rewrite fexp_eq in Hc. unfold emax, prec in He.
  split; [lia|]. split; [lia|]. split; [exact Hm|].
  apply pow2_pos_exp. lia.
Qed.

Lemma bnd_finite K x : bnd K x = true -> is_finite x = true.
Proof. destruct x; cbn; congruence. Qed.

Lemma bnd_mono K K' x : K <= K' -> bnd K x = true -> bnd K' x = true.
Proof.
  intros HK. destruct x as [s | s | | s m e]; cbn [bnd]; try congruence.
  intros H. apply andb_true_iff in H. destruct H as [Hb Hm].
  apply andb_true_iff. split; [exact Hb|].
  apply Z.leb_le in Hm. apply Z.leb_le.
  assert (0 <= K - e) by (apply pow2_pos_exp; lia).
  assert (2 ^ (K - e) <= 2 ^ (K' - e)) by (apply Z.pow_le_mono_r; lia).
  lia.
Qed.

Lemma bnd_zero K s : bnd K (S754_zero s) = true.
Proof. reflexivity. Qed.

Lemma bnd_opp K s m e :
  bnd K (S754_finite s m e) = true ->
  bnd K (S754_finite (negb s) m e) = true.
Proof. exact (fun H => H). Qed.

Lemma Zdigits2_mul_pow2 m n :
  0 < m -> 0 <= n -> Zdigits2 (m * 2 ^ n) = Zdigits2 m + n.
Proof.
  intros Hm Hn. pose proof (Zdigits2_bounds m Hm) as [B1 B2].
  pose proof (Zdigits2_nonneg m).
  assert (0 < Zdigits2 m).
  { destruct (Z.eq_dec (Zdigits2 m) 0) as [E|]; [|lia].
    rewrite E in B2. cbn in B2. lia. }
  assert (0 < 2 ^ n) by (apply Z.pow_pos_nonneg; lia).
  apply Zdigits2_unique; [lia|].
  replace (Zdigits2 m + n - 1) with (Zdigits2 m - 1 + n) by lia.
  rewrite !Z.pow_add_r by lia. nia.
Qed.

Lemma iter_xO m d : Z.pos (Pos.iter xO m d) = Z.pos m * 2 ^ Z.pos d.
Proof.
  induction d as [|d IH] using Pos.peano_ind.
  - cbn [Pos.iter]. rewrite Pos2Z.inj_xO. change (2 ^ 1) with 2. lia.
  - rewrite Pos.iter_succ, Pos2Z.inj_xO, IH, Pos2Z.inj_succ,
      Z.pow_succ_r by lia. lia.
Qed.

Lemma shl_align_spec m e e' :
  let r := shl_align m e e' in
  snd r = Z.min e e' /\ Z.pos (fst r) = Z.pos m * 2 ^ (e - Z.min e e').
Proof.
  unfold shl_align. destruct (e' - e) as [|p|p] eqn:E; cbn [fst snd].
  - replace (Z.min e e') with e by lia. rewrite Z.sub_diag. cbn. lia.
  - replace (Z.min e e') with e by lia. rewrite Z.sub_diag. cbn. lia.
  - replace (Z.min e e') with e' by lia. split; [reflexivity|].
    rewrite iter_xO. f_equal. f_equal. lia.
Qed.

Lemma binary_round_bnd sx p e K :
  -149 <= K <= 127 -> Z.pos p <= 2 ^ (K - e) ->
  bnd K (binary_round prec emax sx p e) = true.
Proof.
  intros HK Hb. unfold binary_round.
  set (e' := fexp prec emax (Z.pos (digits2_pos p) + e)).
  pose proof (shl_align_spec p e e') as [S1 S2].
  destruct (shl_align p e e') as [mz ez]. cbn [fst snd] in S1, S2.
  assert (0 <= K - e) by (apply pow2_pos_exp; lia).
  assert (Hd : Zdigits2 (Z.pos mz) + ez = Z.pos (digits2_pos p) + e).
  { rewrite S2, Zdigits2_mul_pow2 by lia. cbn [Zdigits2]. lia. }
  apply round_aux_bnd; try lia.
  - rewrite Hd. fold e'. lia.
  - rewrite S2.
    replace (K - ez) with (K - e + (e - Z.min e e')) by lia.
    rewrite Z.pow_add_r by lia.
    apply Z.mul_le_mono_nonneg_r; [apply Z.pow_nonneg|]; lia.
Qed.

Lemma binary_normalize_bnd m e sz K :
  -149 <= K <= 127 -> Z.abs m <= 2 ^ (K - e) ->
  bnd K (binary_normalize prec emax m e sz) = true.
Proof.
  intros HK Hb. unfold binary_normalize.
  destruct m as [|p|p]; [reflexivity | |];
    apply binary_round_bnd; try assumption; cbn [Z.abs] in Hb; lia.
Qed.

Lemma bnd_mul j k x y :
  bnd j x = true -> bnd k y = true -> -149 <= j + k <= 127 ->
  bnd (j + k) (mul x y) = true.
Proof.
  intros Hx Hy HK.
  destruct x as [sx | sx | | sx mx ex]; try discriminate Hx;
    destruct y as [sy | sy | | sy my ey]; try discriminate Hy;
    try reflexivity.
  apply bnd_inv in Hx. destruct Hx as (Cx & Ex & Bx & Px).
  apply bnd_inv in Hy. destruct Hy as (Cy & Ey & By & Py).
  unfold mul, SFmul. apply round_aux_bnd; try lia.
  - pose proof (digits2_bounds mx) as [X1 X2].
    pose proof (digits2_bounds my) as [Y1 Y2].
    assert (Hd : Z.pos (digits2_pos mx) + Z.pos (digits2_pos my) - 1
                 <= Zdigits2 (Z.pos (mx * my))).
    { assert (Z.pos (digits2_pos mx) + Z.pos (digits2_pos my) - 2
              < Zdigits2 (Z.pos (mx * my))); [|lia].
      apply Zdigits2_ge; [|lia].
      replace (Z.pos (digits2_pos mx) + Z.pos (digits2_pos my) - 2)
        with ((Z.pos (digits2_pos mx) - 1) + (Z.pos (digits2_pos my) - 1))
        by lia.
      rewrite Z.pow_add_r, Pos2Z.inj_mul by lia.
      apply Z.mul_le_mono_nonneg; try lia; apply Z.pow_nonneg; lia. }
    rewrite fexp_eq. lia.
  - rewrite Pos2Z.inj_mul.
    replace (j + k - (ex + ey)) with ((j - ex) + (k - ey)) by lia.
    rewrite Z.pow_add_r by lia.
    apply Z.mul_le_mono_nonneg; lia.
Qed.

Lemma aligned_bound K m e ez :
  ez <= e -> 0 <= K - e -> Z.pos m <= 2 ^ (K - e) ->
  Z.pos m * 2 ^ (e - ez) <= 2 ^ (K - ez).
Proof.
  intros He HK Hm.
  replace (K - ez) with ((K - e) + (e - ez)) by lia.
  rewrite Z.pow_add_r by lia.
  apply Z.mul_le_mono_nonneg_r; [apply Z.pow_nonneg|]; lia.
Qed.

Lemma sum_bound K sx sy mx ex my ey (neg : bool) :
  0 <= K - ex -> 0 <= K - ey ->
  Z.pos mx <= 2 ^ (K - ex) -> Z.pos my <= 2 ^ (K - ey) ->
  let ez := Z.min ex ey in
  let a := cond_Zopp sx (Z.pos (fst (shl_align mx ex ez))) in
  let b := cond_Zopp sy (Z.pos (fst (shl_align my ey ez))) in
  Z.abs (if neg then a - b else a + b) <= 2 ^ (K + 1 - ez).
Proof.
  intros Px Py Bx By ez a b.
  assert (Zx : ez <= ex) by (unfold ez; lia).
  assert (Zy : ez <= ey) by (unfold ez; lia).
  unfold a, b. clearbody ez. clear a b.
  pose proof (shl_align_spec mx ex ez) as [_ Sx].
  pose proof (shl_align_spec my ey ez) as [_ Sy].
  replace (Z.min ex ez) with ez in Sx by lia.
  replace (Z.min ey ez) with ez in Sy by lia.
  pose proof (aligned_bound K mx ex ez Zx Px Bx) as Ax.
  pose proof (aligned_bound K my ey ez Zy Py By) as Ay.
  rewrite <- Sx in Ax. rewrite <- Sy in Ay.
  replace (K + 1 - ez) with (Z.succ (K - ez)) by lia.
  rewrite Z.pow_succ_r by lia.
  destruct neg, sx, sy; cbn [cond_Zopp]; lia.
Qed.

Lemma bnd_add K x y :
  bnd K x = true -> bnd K y = true -> -149 <= K -> K + 1 <= 127 ->
  bnd (K + 1) (add x y) = true.
Proof.
  intros Hx Hy HK1 HK2.
  destruct x as [sx | sx | | sx mx ex]; try discriminate Hx;
    destruct y as [sy | sy | | sy my ey]; try discriminate Hy.
  - cbn. destruct sx, sy; reflexivity.
  - cbn [add SFadd]. apply (bnd_mono K); [lia | assumption].
  - cbn [add SFadd]. apply (bnd_mono K); [lia | assumption].
  - apply bnd_inv in Hx. destruct Hx as (Cx & Ex & Bx & Px).
    apply bnd_inv in Hy. destruct Hy as (Cy & Ey & By & Py).
    unfold add, SFadd. apply binary_normalize_bnd; [lia|].
    exact (sum_bound K sx sy mx ex my ey false Px Py Bx By).
Qed.

Lemma bnd_sub K x y :
  bnd K x = true -> bnd K y = true -> -149 <= K -> K + 1 <= 127 ->
  bnd (K + 1) (sub x y) = true.
Proof.
  intros Hx Hy HK1 HK2.
  destruct x as [sx | sx | | sx mx ex]; try discriminate Hx;
    destruct y as [sy | sy | | sy my ey]; try discriminate Hy.
  - cbn. destruct sx, sy; reflexivity.
  - cbn [sub SFsub]. apply (bnd_mono K); [lia|]. exact Hy.
  - cbn [sub SFsub]. apply (bnd_mono K); [lia | assumption].
  - apply bnd_inv in Hx. destruct Hx as (Cx & Ex & Bx & Px).
    apply bnd_inv in Hy. destruct Hy as (Cy & Ey & By & Py).
    unfold sub, SFsub. apply binary_normalize_bnd; [lia|].
    exact (sum_bound K sx sy mx ex my ey true Px Py Bx By).
Qed.

End BoundedOps.

Section BoundedDiv.
Import F32 Magnitude StftProcessor.

Lemma kEps_value : kEps = S754_finite false 11258999 (-50).
Proof. vm_compute. reflexivity. Qed.

(** A canonical number above [kEps] is positive, normal and at least
    [2 ^ -27]. *)
Lemma gt_kEps_inv K n :
  bnd K n = true -> gt n kEps = true ->
  exists m e, n = S754_finite false m e /\ -50 <= e /\
              Z.pos (digits2_pos m) = 24.
Proof.
  intros Hb Hg. rewrite kEps_value in Hg.
  destruct n as [s | s | | s m e]; try discriminate Hb.
  { destruct s; discriminate Hg. }
  apply bnd_inv in Hb. destruct Hb as (C & _).
  unfold gt, SFltb in Hg. cbn [SFcompare] in Hg.
  destruct s; [discriminate Hg|].
  exists m, e. split; [reflexivity|].
  assert (-50 <= e).
  { destruct (Z.compare_spec (-50) e); try lia; discriminate Hg. }
  split; lia.
Qed.

Lemma new_location_cases nb r :
  (r = 0 /\ new_location nb r = loc_Exact) \/
  (r <> 0 /\ exists c, new_location nb r = loc_Inexact c).
Proof.
  unfold new_location.
  destruct (Z.even nb); unfold new_location_even, new_location_odd;
    (destruct (Z.eqb_spec r 0) as [-> | Hr];
     [left; split; reflexivity
     |right; split; [exact Hr | eexists; reflexivity]]).
Qed.

Lemma quotient_digits mo mn q r s d1 d2 :
  0 < mo -> 0 < mn -> 0 <= s -> 0 < d1 -> 0 <= d2 ->
  2 ^ (d1 - 1) <= mo -> mn < 2 ^ d2 ->
  mo * 2 ^ s = mn * q + r -> 0 <= r < mn ->
  d1 + s - d2 <= Zdigits2 q.
Proof.
  intros Hmo Hmn Hs Hd1 Hd2 B1 B2 E Hr.
  assert (Hq : 0 <= q) by nia.
  pose proof (Zdigits2_nonneg q).
  destruct (Z_le_gt_dec (d1 + s - d2) 0) as [|Hpos]; [lia|].
  assert (Hge : 2 ^ (d1 + s - d2 - 1) <= q).
  { destruct (Z_le_gt_dec (2 ^ (d1 + s - d2 - 1)) q) as [|Hlt];
      [assumption|]. exfalso.
    assert (X : 2 ^ (d1 + s - d2 - 1) * 2 ^ d2 = 2 ^ (d1 - 1) * 2 ^ s).
    { rewrite <- !Z.pow_add_r by lia. f_equal. lia. }
    assert (0 < 2 ^ s) by (apply Z.pow_pos_nonneg; lia).
    assert (0 < 2 ^ (d1 + s - d2 - 1)) by (apply Z.pow_pos_nonneg; lia).
    assert (0 < 2 ^ d2) by (apply Z.pow_pos_nonneg; lia).
    revert X Hlt B1 B2 E Hr Hq.
    generalize (2 ^ (d1 + s - d2 - 1)) (2 ^ d2) (2 ^ (d1 - 1)) (2 ^ s).
    intros A B C D. intros. 
    assert ((q + 1) * mn <= A * mn) by nia.
    assert (A * mn < A * B) by nia.
    assert (C * D <= mo * D) by nia.
    nia. }
  assert (d1 + s - d2 - 1 < Zdigits2 q) by (apply Zdigits2_ge; lia).
  lia.
Qed.

Lemma quotient_bound mo mn q r a b P :
  0 < mn -> 0 <= P -> 2 ^ 23 <= mn ->
  mo * a = mn * q + r -> 0 <= r < mn ->
  mo * a <= b -> b <= P * 2 ^ 23 ->
  q <= P /\ (r <> 0 -> q + 1 <= P).
Proof.
  intros Hmn HP Hn E Hr B1 B2.
  assert (q * 2 ^ 23 <= P * 2 ^ 23) by nia.
  split; [nia|]. intros Hr0.
  assert (q * 2 ^ 23 < P * 2 ^ 23) by nia. nia.
Qed.

(** The quotient of a number of magnitude at most [2 ^ K] by a number
    above [kEps] has magnitude at most [2 ^ (K + 27)]. *)
Lemma bnd_div K Kn o n :
  bnd K o = true -> bnd Kn n = true -> gt n kEps = true ->
  -149 <= K + 27 <= 127 ->
  bnd (K + 27) (div o n) = true.
Proof.
  intros Ho Hn Hg HK.
  destruct (gt_kEps_inv Kn n Hn Hg) as (mn & en & -> & Hen & Hdn).
  destruct o as [so | so | | so mo eo]; try discriminate Ho;
    [reflexivity|].
  apply bnd_inv in Ho. destruct Ho as (Co & Eo & Bo & Po).
  unfold div, SFdiv, SFdiv_core_binary. cbn [Zdigits2]. rewrite Hdn.
  pose proof (digits2_bounds mo) as [O1 O2].
  pose proof (digits2_bounds mn) as [N1 N2]. rewrite Hdn in N1, N2.
  set (d1 := Z.pos (digits2_pos mo)) in *.
  assert (Hd1 : d1 - 1 <= K - eo) by (apply pow2_le_inv; lia).
  pose proof (fexp_eq (d1 + eo - (24 + en))) as Ef.
  set (f := fexp prec emax (d1 + eo - (24 + en))) in *. clearbody f.
  set (e' := Z.min f (eo - en)).
  assert (He' : e' <= f /\ e' <= eo - en) by (unfold e'; lia).
  clearbody e'.
  set (s := eo - en - e').
  assert (Hs : 0 <= s) by (unfold s; lia).
  set (m' := match s with
             | 0 => Z.pos mo
             | Z.pos _ => Z.shiftl (Z.pos mo) s
             | Z.neg _ => 0
             end).
  assert (Hm' : m' = Z.pos mo * 2 ^ s).
  { unfold m'. destruct s as [|p|p] eqn:Es; try lia.
    rewrite Z.shiftl_mul_pow2 by lia. reflexivity. }
  clearbody m'.
  pose proof (Z_div_mod m' (Z.pos mn) ltac:(lia)) as Hdiv.
  destruct (Z.div_eucl m' (Z.pos mn)) as [q r].
  destruct Hdiv as [Ediv Hr]. rewrite Hm' in Ediv.
  assert (Hq : 0 <= q) by (assert (0 < 2 ^ s) by (apply Z.pow_pos_nonneg; lia); nia).
  pose proof (quotient_digits (Z.pos mo) (Z.pos mn) q r s d1 24
                ltac:(lia) ltac:(lia) Hs ltac:(unfold d1; lia) ltac:(lia)
                O1 N2 Ediv Hr) as Hdq.
  assert (Hexp : 0 <= K + 27 - e') by lia.
  assert (Hb : q <= 2 ^ (K + 27 - e') /\
               (r <> 0 -> q + 1 <= 2 ^ (K + 27 - e'))).
  { assert (A1 : 0 <= 2 ^ (K + 27 - e')) by (apply Z.pow_nonneg; lia).
    assert (A2 : 2 ^ 23 <= Z.pos mn) by (change (24 - 1) with 23 in N1; lia).
    assert (A3 : Z.pos mo * 2 ^ s <= 2 ^ (K - eo + s)).
    { rewrite Z.pow_add_r by lia.
      apply Z.mul_le_mono_nonneg_r; [apply Z.pow_nonneg|]; lia. }
    assert (A4 : 2 ^ (K - eo + s) <= 2 ^ (K + 27 - e') * 2 ^ 23).
    { rewrite <- Z.pow_add_r by lia.
      apply Z.pow_le_mono_r; unfold s; lia. }
    exact (quotient_bound (Z.pos mo) (Z.pos mn) q r (2 ^ s)
             (2 ^ (K - eo + s)) (2 ^ (K + 27 - e'))
             ltac:(lia) A1 A2 Ediv Hr A3 A4). }
  destruct Hb as [Hb1 Hb2].
  apply round_aux_bnd; try lia.
  - rewrite fexp_eq. lia.
  - destruct (new_location_cases (Z.pos mn) r) as [[_ ->] | [Hr0 [c ->]]].
    + exact Hb1.
    + exact (Hb2 Hr0).
Qed.

(** What [popTimeDomain] emits for bounded accumulators is finite. *)
Lemma normalized_finite K Kn o n :
  bnd K o = true -> bnd Kn n = true -> -149 <= K + 27 <= 127 ->
  is_finite (normalized o n) = true.
Proof.
  intros Ho Hn HK. unfold normalized.
  destruct (gt n kEps) eqn:Hg; [|reflexivity].
  apply (bnd_finite (K + 27)). now apply (bnd_div K Kn).
Qed.

End BoundedDiv.

(** ** StftProcessor: magnitudes through the transforms *)

Section VectorCases.
Context {A : Type}.

Lemma vget_vset_other (d : A) v i x j :
  j <> i -> vget d (vset v i x) j = vget d v j.
Proof.
  intros Hne. unfold vset.
  destruct (Z.leb_spec 0 i); [|reflexivity].
  destruct (Z.ltb_spec i (Z.of_nat (length v))); [|reflexivity].
  cbn [andb]. fold (vset v i x).
  destruct (Z_lt_le_dec j 0) as [Hneg | Hpos].
  - unfold vget. destruct (Z.leb_spec 0 j); [lia | reflexivity].
  - replace (firstn (Z.to_nat i) v ++ x :: skipn (Z.to_nat (i + 1)) v)
      with (vset v i x).
    + rewrite vget_vset by lia. destruct (Z.eqb_spec j i); [lia | reflexivity].
    + unfold vset. destruct (Z.leb_spec 0 i); [|lia].
      destruct (Z.ltb_spec i (Z.of_nat (length v))); [|lia]. reflexivity.
Qed.

Lemma vget_vset_cases (d : A) v i x j :
  vget d (vset v i x) j = x \/ vget d (vset v i x) j = vget d v j.
Proof.
  destruct (Z.eq_dec j i) as [-> | Hne].
  - unfold vset.
    destruct (Z.leb_spec 0 i); [|now right].
    destruct (Z.ltb_spec i (Z.of_nat (length v))); [|now right].
    cbn [andb]. left.
    replace (firstn (Z.to_nat i) v ++ x :: skipn (Z.to_nat (i + 1)) v)
      with (vset v i x).
    + rewrite vget_vset by lia. now rewrite Z.eqb_refl.
    + unfold vset. destruct (Z.leb_spec 0 i); [|lia].
      destruct (Z.ltb_spec i (Z.of_nat (length v))); [|lia]. reflexivity.
  - right. now apply vget_vset_other.
Qed.

Lemma vget_outside (d : A) v j :
  j < 0 \/ Z.of_nat (length v) <= j -> vget d v j = d.
Proof.
  intros H. unfold vget. destruct (Z.leb_spec 0 j); [|reflexivity].
  apply nth_overflow. lia.
Qed.

End VectorCases.

Lemma vget_map_cases {A B : Type} (f : A -> B) (d : A) (d' : B) v j :
  vget d' (map f v) j = d' \/ vget d' (map f v) j = f (vget d v j).
Proof.
  destruct (Z_lt_le_dec j 0) as [Hneg | Hpos].
  - left. apply vget_outside. now left.
  - destruct (Z_lt_le_dec j (Z.of_nat (length v))) as [Hin | Hout].
    + right. unfold vget. destruct (Z.leb_spec 0 j); [|lia].
      rewrite (nth_indep _ d' (f d)) by (rewrite length_map; lia).
      apply map_nth.
    + left. apply vget_outside. right. now rewrite length_map.
Qed.

Section IndexedLoops.
Context {S : Type}.

Lemma for_loop_ind (I : Z -> S -> Prop) (body : Z -> S -> S) n :
  forall i0 s,
    (forall i s, i0 <= i < i0 + Z.of_nat n -> I i s -> I (i + 1) (body i s)) ->
    I i0 s -> I (i0 + Z.of_nat n) (for_loop n i0 body s).
Proof.
  induction n as [|n IH]; intros i0 s Hstep H0; cbn [for_loop].
  - now rewrite Z.add_0_r.
  - replace (i0 + Z.of_nat (Datatypes.S n)) with (i0 + 1 + Z.of_nat n) by lia.
    apply IH.
    + intros i s' Hi. apply Hstep. lia.
    + apply Hstep; [lia | exact H0].
Qed.

End IndexedLoops.

Section ComplexBounds.
Import F32 Magnitude StftProcessor StftBounds.

Lemma cbnd_inv K z :
  cbnd K z = true -> bnd K (fst z) = true /\ bnd K (snd z) = true.
Proof. unfold cbnd. apply andb_true_iff. Qed.

Lemma cbnd_intro K z :
  bnd K (fst z) = true -> bnd K (snd z) = true -> cbnd K z = true.
Proof. intros H1 H2. unfold cbnd. now rewrite H1, H2. Qed.

Lemma cbnd_mono K K' z : K <= K' -> cbnd K z = true -> cbnd K' z = true.
Proof.
  intros HK H. apply cbnd_inv in H. destruct H.
  apply cbnd_intro; now apply (bnd_mono K).
Qed.

Lemma cbnd_czero K : cbnd K czero = true.
Proof. reflexivity. Qed.

Lemma cbnd_cadd K a b :
  cbnd K a = true -> cbnd K b = true -> -149 <= K -> K + 1 <= 127 ->
  cbnd (K + 1) (cadd a b) = true.
Proof.
  intros Ha Hb H1 H2. apply cbnd_inv in Ha, Hb. destruct Ha, Hb.
  apply cbnd_intro; cbn [cadd fst snd]; now apply bnd_add.
Qed.

Lemma cbnd_csub K a b :
  cbnd K a = true -> cbnd K b = true -> -149 <= K -> K + 1 <= 127 ->
  cbnd (K + 1) (csub a b) = true.
Proof.
  intros Ha Hb H1 H2. apply cbnd_inv in Ha, Hb. destruct Ha, Hb.
  apply cbnd_intro; cbn [csub fst snd]; now apply bnd_sub.
Qed.

Lemma cbnd_cmul j k a b :
  cbnd j a = true -> cbnd k b = true ->
  -149 <= j + k -> j + k + 1 <= 127 ->
  cbnd (j + k + 1) (cmul a b) = true.
Proof.
  intros Ha Hb H1 H2. apply cbnd_inv in Ha, Hb.
  destruct Ha as [A1 A2], Hb as [B1 B2].
  apply cbnd_intro; cbn [cmul fst snd].
  - apply bnd_sub; try lia; apply bnd_mul; auto; lia.
  - apply bnd_add; try lia; apply bnd_mul; auto; lia.
Qed.

Lemma cbnd_cscale j k a x :
  cbnd j a = true -> bnd k x = true -> -149 <= j + k <= 127 ->
  cbnd (j + k) (cscale a x) = true.
Proof.
  intros Ha Hx HK. apply cbnd_inv in Ha. destruct Ha.
  apply cbnd_intro; cbn [cscale fst snd]; now apply bnd_mul.
Qed.

Lemma cbounded_vset K a i z :
  cbounded K a -> cbnd K z = true -> cbounded K (vset a i z).
Proof.
  intros Ha Hz j.
  destruct (vget_vset_cases czero a i z j) as [-> | ->]; [exact Hz | apply Ha].
Qed.

Lemma fbounded_vset K a i x :
  fbounded K a -> bnd K x = true -> fbounded K (vset a i x).
Proof.
  intros Ha Hx j.
  destruct (vget_vset_cases zero a i x j) as [-> | ->]; [exact Hx | apply Ha].
Qed.

Lemma cbounded_mono K K' a : K <= K' -> cbounded K a -> cbounded K' a.
Proof. intros HK H i. apply (cbnd_mono K); auto. Qed.

Lemma fbounded_mono K K' a : K <= K' -> fbounded K a -> fbounded K' a.
Proof. intros HK H i. apply (bnd_mono K); auto. Qed.

End ComplexBounds.

Section FftBounds.
Import F32 Magnitude StftProcessor StftBounds.
Variables cosf sinf : float -> float.

Lemma bitrev_bounded K n m a :
  cbounded K a ->
  cbounded K (snd (for_loop m 1 (bitrev_body n) (0, a))).
Proof.
  intros Ha.
  apply (for_loop_inv (fun st => cbounded K (snd st))); [|exact Ha].
  intros i [j b] Hb. cbn [snd] in Hb. unfold bitrev_body.
  destruct (bitrev_carry 64 j (Z.shiftr n 1)) as [j' bit].
  cbn [snd]. destruct (i <? Z.lxor j' bit); [|exact Hb].
  apply cbounded_vset; [apply cbounded_vset|]; auto.
Qed.

(** One block of a stage: the entries of the block grow by at most three
    bits, the entries after it are not touched. *)
Lemma butterfly_block K i half wlen a :
  -149 <= K -> K + 3 <= 127 -> 0 <= half ->
  twiddles_bounded (Z.to_nat half) (one, zero) wlen = true ->
  cbounded (K + 3) a ->
  (forall idx, i <= idx -> cbnd K (vget czero a idx) = true) ->
  let a' := snd (for_loop (Z.to_nat half) 0 (butterfly i half wlen)
                          ((one, zero), a)) in
  cbounded (K + 3) a' /\
  (forall idx, i + 2 * half <= idx -> cbnd K (vget czero a' idx) = true).
Proof.
  intros HK1 HK2 Hhalf Htw Hall Hrest a'.
  set (I := fun (k : Z) (st : complex * list complex) =>
    twiddles_bounded (Z.to_nat (half - k)) (fst st) wlen = true /\
    cbounded (K + 3) (snd st) /\
    (forall idx, i + k <= idx -> idx < i + half \/ i + half + k <= idx ->
                 cbnd K (vget czero (snd st) idx) = true)).
  assert (Hend : I (0 + Z.of_nat (Z.to_nat half))
                   (for_loop (Z.to_nat half) 0 (butterfly i half wlen)
                             ((one, zero), a))).
  { apply (for_loop_ind I).
    - intros k [w b] Hk (Tw & Hb & Hun).
      cbn [fst snd] in Tw, Hb, Hun. rewrite Z2Nat.id in Hk by lia.
      replace (Z.to_nat (half - k))
        with (Datatypes.S (Z.to_nat (half - (k + 1)))) in Tw by lia.
      cbn [twiddles_bounded] in Tw. apply andb_true_iff in Tw.
      destruct Tw as [Hw Tw].
      unfold butterfly, I. cbn [fst snd].
      assert (Hu : cbnd (K + 2) (vget czero b (i + k)) = true).
      { apply (cbnd_mono K); [lia|]. apply Hun; lia. }
      assert (Hv : cbnd (K + 2) (cmul (vget czero b (i + k + half)) w) = true).
      { replace (K + 2) with (K + 1 + 1) by lia.
        apply cbnd_cmul; try lia; [|exact Hw]. apply Hun; lia. }
      replace (K + 3) with (K + 2 + 1) in * by lia.
      split; [exact Tw|]. split.
      + apply cbounded_vset; [apply cbounded_vset|]; try exact Hb.
        * apply cbnd_cadd; auto; lia.
        * apply cbnd_csub; auto; lia.
      + intros idx H1 H2.
        rewrite !vget_vset_other by lia. apply Hun; lia.
    - unfold I. cbn [fst snd]. rewrite Z.sub_0_r.
      split; [exact Htw|]. split; [exact Hall|].
      intros idx H1 _. apply Hrest. lia. }
  destruct Hend as (_ & Hb & Hun). rewrite Z2Nat.id in Hun by lia.
  split; [exact Hb|]. intros idx Hidx. apply Hun; lia.
Qed.

Lemma fft_blocks_bound K len wlen m : forall i a,
  -149 <= K -> K + 3 <= 127 -> 0 <= len ->
  twiddles_bounded (Z.to_nat (Z.shiftr len 1)) (one, zero) wlen = true ->
  cbounded (K + 3) a ->
  (forall idx, i <= idx -> cbnd K (vget czero a idx) = true) ->
  cbounded (K + 3) (fft_blocks m i len wlen a).
Proof.
  induction m as [|m IH]; intros i a HK1 HK2 Hlen Htw Hall Hrest;
    cbn [fft_blocks]; cbv zeta.
  - exact Hall.
  - assert (Hh : 0 <= Z.shiftr len 1 /\ 2 * Z.shiftr len 1 <= len).
    { rewrite Z.shiftr_div_pow2 by lia. change (2 ^ 1) with 2.
      Z.div_mod_to_equations. lia. }
    destruct (butterfly_block K i (Z.shiftr len 1) wlen a HK1 HK2
                ltac:(lia) Htw Hall Hrest) as [Hb Hun].
    apply IH; try assumption.
    intros idx Hidx. apply Hun. lia.
Qed.

Lemma fft_stages_S fuel n len inverse a :
  fft_stages cosf sinf (Datatypes.S fuel) n len inverse a
  = if len <=? n
    then fft_stages cosf sinf fuel n (u64 (Z.shiftl len 1)) inverse
           (fft_blocks (Z.to_nat ((n + len - 1) / len)) 0 len
                       (wlen_of cosf sinf inverse len) a)
    else a.
Proof. reflexivity. Qed.

Lemma fft_stage_step (P : list complex -> Prop) K fuel len len' inverse a :
  0 <= len <= 512 -> u64 (Z.shiftl len 1) = len' ->
  stage_ok cosf sinf inverse len = true ->
  -149 <= K -> K + 3 <= 127 ->
  cbounded K a ->
  (forall a', cbounded (K + 3) a' ->
              P (fft_stages cosf sinf fuel 512 len' inverse a')) ->
  P (fft_stages cosf sinf (Datatypes.S fuel) 512 len inverse a).
Proof.
  intros Hlen Hnext Hok HK1 HK2 Ha Hk.
  rewrite fft_stages_S. destruct (Z.leb_spec len 512); [|lia].
  rewrite Hnext. apply Hk.
  apply fft_blocks_bound; try assumption; try lia.
  - apply (cbounded_mono K); [lia | exact Ha].
  - intros idx _. apply Ha.
Qed.

Lemma fft_stages_bound K inverse a :
  stages_ok cosf sinf inverse -> -149 <= K -> K + 27 <= 127 ->
  cbounded K a ->
  cbounded (K + 27) (fft_stages cosf sinf 64 512 2 inverse a).
Proof.
  intros Hok HK1 HK2 Ha.
  apply (fft_stage_step _ K _ 2 4); try lia; try assumption;
    try (apply Hok; cbn; tauto); try reflexivity. intros a1 H1.
  apply (fft_stage_step _ (K + 3) _ 4 8); try lia; try assumption;
    try (apply Hok; cbn; tauto); try reflexivity. intros a2 H2.
  apply (fft_stage_step _ (K + 3 + 3) _ 8 16); try lia; try assumption;
    try (apply Hok; cbn; tauto); try reflexivity. intros a3 H3.
  apply (fft_stage_step _ (K + 3 + 3 + 3) _ 16 32); try lia; try assumption;
    try (apply Hok; cbn; tauto); try reflexivity. intros a4 H4.
  apply (fft_stage_step _ (K + 3 + 3 + 3 + 3) _ 32 64); try lia;
    try assumption; try (apply Hok; cbn; tauto); try reflexivity.
  intros a5 H5.
  apply (fft_stage_step _ (K + 3 + 3 + 3 + 3 + 3) _ 64 128); try lia;
    try assumption; try (apply Hok; cbn; tauto); try reflexivity.
  intros a6 H6.
  apply (fft_stage_step _ (K + 3 + 3 + 3 + 3 + 3 + 3) _ 128 256); try lia;
    try assumption; try (apply Hok; cbn; tauto); try reflexivity.
  intros a7 H7.
  apply (fft_stage_step _ (K + 3 + 3 + 3 + 3 + 3 + 3 + 3) _ 256 512); try lia;
    try assumption; try (apply Hok; cbn; tauto); try reflexivity.
  intros a8 H8.
  apply (fft_stage_step _ (K + 3 + 3 + 3 + 3 + 3 + 3 + 3 + 3) _ 512 1024);
    try lia; try assumption; try (apply Hok; cbn; tauto); try reflexivity.
  intros a9 H9.
  rewrite fft_stages_S. change (1024 <=? 512) with false. cbv iota.
  apply (cbounded_mono (K + 3 + 3 + 3 + 3 + 3 + 3 + 3 + 3 + 3)); [lia|].
  exact H9.
Qed.

Lemma invN_bound : bnd (-9) (div one (of_Z 512)) = true.
Proof. vm_compute. reflexivity. Qed.

(** The transform of 512 points of magnitude at most [2 ^ K]: at most
    [2 ^ (K + 27)] forward, and [2 ^ (K + 18)] backward, after the scaling
    by [1 / 512]. *)
Lemma fft_bound K a inverse :
  Z.of_nat (length a) = 512 ->
  stages_ok cosf sinf inverse -> -149 <= K -> K + 27 <= 127 ->
  cbounded K a ->
  cbounded (if inverse then K + 18 else K + 27) (fft cosf sinf a inverse).
Proof.
  intros Hl Hok HK1 HK2 Ha. unfold fft. rewrite Hl.
  pose proof (bitrev_bounded K 512 (Z.to_nat (512 - 1)) a Ha) as Hb.
  revert Hb.
  generalize (snd (for_loop (Z.to_nat (512 - 1)) 1 (bitrev_body 512) (0, a))).
  intros b Hb.
  pose proof (fft_stages_bound K inverse b Hok HK1 HK2 Hb) as Hs.
  revert Hs. generalize (fft_stages cosf sinf 64 512 2 inverse b).
  intros c Hc. destruct inverse; [|exact Hc].
  intros i.
  destruct (vget_map_cases (fun z => cscale z (div one (of_Z 512)))
              czero czero c i) as [-> | ->]; [reflexivity|].
  replace (K + 18) with (K + 27 + -9) by lia.
  apply cbnd_cscale; [apply Hc | exact invN_bound | lia].
Qed.

End FftBounds.

(** ** StftProcessor: the block of a hop and the levels of the ring *)

Section SetLoops.
Context {A : Type}.

(** A loop that sets the entries [0 .. n - 1] of a vector of at most [n]
    entries leaves only what it has set. *)
Lemma vset_loop_all (P : A -> Prop) (d : A) (f : Z -> A) n (v : list A) :
  (length v <= n)%nat -> P d -> (forall i, P (f i)) ->
  forall j, P (vget d (for_loop n 0 (fun i v => vset v i (f i)) v) j).
Proof.
  intros Hl Hd Hf.
  set (I := fun (k : Z) (w : list A) =>
              length w = length v /\ forall j, j < k -> P (vget d w j)).
  assert (H : I (0 + Z.of_nat n)
                (for_loop n 0 (fun i v => vset v i (f i)) v)).
  { apply (for_loop_ind I).
    - intros i w Hi [Lw Hw]. split; [now rewrite vset_length|].
      intros j Hj. destruct (vget_vset_cases d w i (f i) j) as [-> | E].
      + apply Hf.
      + destruct (Z.eq_dec j i) as [-> | Hne].
        * destruct (Z_lt_le_dec i (Z.of_nat (length w))).
          -- rewrite vget_vset by lia. rewrite Z.eqb_refl. apply Hf.
          -- rewrite vget_outside by (rewrite vset_length; lia). exact Hd.
        * rewrite E. apply Hw. lia.
    - split; [reflexivity|]. intros j Hj.
      rewrite vget_outside by lia. exact Hd. }
  destruct H as [Lw Hw]. intros j.
  destruct (Z_lt_le_dec j (Z.of_nat n)) as [Hin | Hout].
  - apply Hw. lia.
  - rewrite vget_outside by lia. exact Hd.
Qed.

End SetLoops.

Section HopBlock.
Import F32 Magnitude StftProcessor StftViews StftBounds.
Variables cosf sinf : float -> float.

Lemma fbounded_Forall K v :
  Forall (fun x => bnd K x = true) v -> fbounded K v.
Proof.
  intros H i. unfold vget. destruct (0 <=? i); [|reflexivity].
  destruct (Nat.lt_ge_cases (Z.to_nat i) (length v)) as [Hin | Hout].
  - rewrite Forall_forall in H. apply H, nth_In, Hin.
  - now rewrite nth_overflow.
Qed.

Lemma Forall_fbounded K v :
  fbounded K v -> Forall (fun x => bnd K x = true) v.
Proof.
  intros H. apply Forall_forall. intros x Hx.
  destruct (In_nth v x zero Hx) as (n & Hn & <-).
  specialize (H (Z.of_nat n)). unfold vget in H.
  destruct (Z.leb_spec 0 (Z.of_nat n)); [|lia].
  now rewrite Nat2Z.id in H.
Qed.

Lemma fbounded_app K u v : fbounded K u -> fbounded K v -> fbounded K (u ++ v).
Proof.
  intros Hu Hv. apply fbounded_Forall, Forall_app.
  split; now apply Forall_fbounded.
Qed.

Lemma fbounded_repeat_zero K n : fbounded K (repeat zero n).
Proof.
  apply fbounded_Forall, Forall_forall. intros x Hx.
  apply repeat_spec in Hx. now subst.
Qed.

Lemma fbounded_skipn K n v : fbounded K v -> fbounded K (skipn n v).
Proof.
  intros H. apply fbounded_Forall, Forall_forall. intros x Hx.
  apply Forall_fbounded in H. rewrite Forall_forall in H.
  apply H. rewrite <- (firstn_skipn n v). apply in_or_app. now right.
Qed.

Lemma fbounded_firstn K n v : fbounded K v -> fbounded K (firstn n v).
Proof.
  intros H. apply fbounded_Forall, Forall_forall. intros x Hx.
  apply Forall_fbounded in H. rewrite Forall_forall in H.
  apply H. rewrite <- (firstn_skipn n v). apply in_or_app. now left.
Qed.

(** The block that a hop adds to the ring: for samples of magnitude at most
    [2 ^ X], a window of magnitude at most 2 and bounded twiddle factors,
    its entries have magnitude at most [2 ^ (X + 47)]. *)
Lemma hop_block X s :
  sizes s -> -100 <= X <= 40 ->
  fbounded X (mHist384 s) -> fbounded X (mHopBuf s) ->
  fbounded 1 (mWin s) ->
  stages_ok cosf sinf false -> stages_ok cosf sinf true ->
  exists fi fo t tw,
    processOneHop cosf sinf s
      = count_hop (olaAdd (set_scratch s fi fo t tw) tw) /\
    fbounded (X + 47) tw.
Proof.
  intros Hs HX Hh Hb Hw Sf St.
  destruct Hs as (S1 & S2 & S3 & S4 & S5 & S6 & S7 & S8 & S9).
  unfold kNFFT, kHOP in S1, S2, S4, S5, S6, S7.
  unfold processOneHop. cbv zeta.
  do 4 eexists. split; [reflexivity|].
  rewrite frame_eq by assumption.
  assert (Ht : fbounded X (repeat zero 32 ++ mHist384 s ++ mHopBuf s)).
  { apply fbounded_app; [apply fbounded_repeat_zero|].
    now apply fbounded_app. }
  revert Ht. generalize (repeat zero 32 ++ mHist384 s ++ mHopBuf s).
  intros t Ht.
  set (tw1 := for_loop (Z.to_nat kNFFT) 0
                (fun i tw => vset tw i (mul (vget zero t i)
                                            (vget zero (mWin s) i)))
                (mTimeWin s)).
  assert (H1 : fbounded (X + 1) tw1).
  { unfold tw1, fbounded.
    apply (vset_loop_all (fun x => bnd (X + 1) x = true)); try reflexivity.
    - unfold kNFFT. lia.
    - intros i. apply bnd_mul; auto. lia. }
  assert (L1 : Z.of_nat (length tw1) = 512).
  { unfold tw1. rewrite (vset_loop_length (fun i _ => _)). exact S7. }
  clearbody tw1.
  set (fi := for_loop (Z.to_nat kNFFT) 0
               (fun i fi => vset fi i (vget zero tw1 i, zero)) (mFFTIn s)).
  assert (H2 : cbounded (X + 1) fi).
  { unfold fi, cbounded.
    apply (vset_loop_all (fun z => cbnd (X + 1) z = true)); try reflexivity.
    - unfold kNFFT. lia.
    - intros i. apply cbnd_intro; [apply H1 | reflexivity]. }
  assert (L2 : Z.of_nat (length fi) = 512).
  { unfold fi. rewrite (vset_loop_length (fun i _ => _)). exact S4. }
  clearbody fi.
  pose proof (fft_bound cosf sinf (X + 1) fi false L2 Sf ltac:(lia) ltac:(lia)
                H2) as H3.
  cbv iota in H3.
  assert (L3 : Z.of_nat (length (fft cosf sinf fi false)) = 512)
    by (rewrite fft_length; exact L2).
  revert H3 L3. generalize (fft cosf sinf fi false). intros fo H3 L3.
  pose proof (fft_bound cosf sinf (X + 1 + 27) fo true L3 St ltac:(lia)
                ltac:(lia) H3) as H4.
  cbv iota in H4.
  revert H4. generalize (fft cosf sinf fo true). intros y H4.
  unfold fbounded.
  apply (vset_loop_all (fun x => bnd (X + 47) x = true)); try reflexivity.
  - unfold kNFFT. lia.
  - intros i. replace (X + 47) with (X + 1 + 27 + 18 + 1) by lia.
    apply bnd_mul; auto; [|lia].
    specialize (H4 i). apply cbnd_inv in H4. tauto.
Qed.

End HopBlock.

Section Levels.
Import StftBounds.

Lemma level_range d avail : 0 <= d -> 0 <= level d avail <= 6.
Proof.
  intros Hd. unfold level.
  destruct (Z.ltb_spec d 416).
  - Z.div_mod_to_equations. lia.
  - destruct (d <? 2 ^ 15 - avail); lia.
Qed.

(** A hop moves the write cursor by 96: the slots of the block take one
    more addition, the others keep their place. *)
Lemma level_hop d avail :
  0 <= d < 2 ^ 15 -> 0 <= avail -> avail + 512 <= 2 ^ 15 ->
  let d' := (d - 96) mod 2 ^ 15 in
  (d < 512 -> level d avail + 1 <= level d' (avail + 96)) /\
  (512 <= d -> level d avail = level d' (avail + 96)).
Proof.
  change (2 ^ 15) with 32768. intros Hd Ha Hov d'.
  assert (Hd' : d' = if d <? 96 then d - 96 + 32768 else d - 96).
  { unfold d'. destruct (Z.ltb_spec d 96); Z.div_mod_to_equations; lia. }
  clearbody d'. unfold level. change (2 ^ 15) with 32768.
  destruct (Z.ltb_spec d 96); subst d';
    repeat (match goal with
            | |- context [?a <? ?b] => destruct (Z.ltb_spec a b); try lia
            end);
    split; intros; try lia; Z.div_mod_to_equations; lia.
Qed.

Lemma dist_after_hop j W :
  (j - (W + 96) mod 2 ^ 15) mod 2 ^ 15
  = ((j - W) mod 2 ^ 15 - 96) mod 2 ^ 15.
Proof.
  rewrite Zminus_mod_idemp_r, Zminus_mod_idemp_l. f_equal. lia.
Qed.

Lemma level_pop d avail want :
  0 <= d < 2 ^ 15 -> 0 <= want <= avail -> avail + 512 <= 2 ^ 15 ->
  d < 2 ^ 15 - avail \/ 2 ^ 15 - avail + want <= d ->
  level d (avail - want) = level d avail.
Proof.
  change (2 ^ 15) with 32768. intros Hd Hw Hov Hout. unfold level.
  change (2 ^ 15) with 32768.
  repeat (match goal with
          | |- context [?a <? ?b] => destruct (Z.ltb_spec a b); try lia
          end).
Qed.

Lemma slot_dist W avail i j :
  0 <= i < avail -> avail <= 2 ^ 15 ->
  j = ((W - avail) mod 2 ^ 15 + i) mod 2 ^ 15 ->
  (j - W) mod 2 ^ 15 = 2 ^ 15 - avail + i.
Proof.
  change (2 ^ 15) with 32768. intros Hi Ha ->.
  Z.div_mod_to_equations. lia.
Qed.

Lemma dist_slot W avail j :
  0 <= j < 2 ^ 15 -> 0 <= avail <= 2 ^ 15 ->
  2 ^ 15 - avail <= (j - W) mod 2 ^ 15 ->
  j = ((W - avail) mod 2 ^ 15
       + ((j - W) mod 2 ^ 15 - (2 ^ 15 - avail))) mod 2 ^ 15.
Proof.
  change (2 ^ 15) with 32768. intros Hj Ha Hd.
  Z.div_mod_to_equations. lia.
Qed.

End Levels.

Section RingLevels.
Import F32 Magnitude StftProcessor StftViews StftBounds.

Lemma bnd_level_add K L L' x y :
  bnd (K + L) x = true -> bnd K y = true ->
  0 <= L -> L + 1 <= L' -> -149 <= K -> K + L' <= 127 ->
  bnd (K + L') (add x y) = true.
Proof.
  intros Hx Hy HL HL' HK1 HK2.
  apply (bnd_mono (K + L + 1)); [lia|].
  apply bnd_add; try lia; [exact Hx|].
  apply (bnd_mono K); [lia | exact Hy].
Qed.

(** The overlap-add of a hop keeps the levels of the ring. *)
Lemma hop_levels B N s fi fo t tw :
  ring_ok s -> ring_levels B N s ->
  0 <= mAvail s -> mAvail s + 512 <= 2 ^ 15 ->
  fbounded B tw -> fbounded 1 (mWin s) ->
  -149 <= B -> B + 6 <= 127 -> 2 <= N -> N + 6 <= 127 ->
  ring_levels B N (count_hop (olaAdd (set_scratch s fi fo t tw) tw)).
Proof.
  intros Hs Hlev Ha Hov Htw Hw HB1 HB2 HN1 HN2.
  set (s0 := set_scratch s fi fo t tw).
  assert (Hs0 : ring_ok s0) by exact Hs.
  destruct (olaAdd_loop_spec tw (Z.to_nat kNFFT) 0 s0 Hs0 ltac:(lia)
              ltac:(unfold kNFFT; lia)) as (HsL & WL & NL & Hslots).
  pose proof (meta_for_loop (olaAdd_body tw) (meta_olaAdd_body tw)
                (Z.to_nat kNFFT) 0 s0) as Hm.
  apply meta_inv in Hm. destruct Hm as (_ & _ & _ & _ & ML & AL & _).
  unfold olaAdd.
  revert HsL WL NL Hslots ML AL.
  generalize (for_loop (Z.to_nat kNFFT) 0 (olaAdd_body tw) s0).
  intros sL HsL WL NL Hslots ML AL.
  change (mOlaWrite s0) with (mOlaWrite s) in *.
  change (mAvail s0) with (mAvail s) in *.
  change (mWin s0) with (mWin s) in *.
  change (mOlaBuf s0) with (mOlaBuf s) in *.
  change (mNormBuf s0) with (mNormBuf s) in *.
  destruct HsL as (Hmask & _).
  intros j Hj. cbv zeta.
  unfold count_hop, advance_write. stft_fields.
  rewrite Hmask, land_mask, WL, AL. unfold kHOP.
  rewrite (u64_id (mAvail s + 96)) by (unfold in_u64; lia).
  rewrite dist_after_hop.
  specialize (Hslots j Hj). cbv zeta in Hslots.
  destruct Hslots as [HO HQ]. rewrite HO, HQ. clear HO HQ.
  destruct (Hlev j Hj) as [LO LQ]. cbv zeta in LO, LQ.
  assert (Hd : 0 <= (j - mOlaWrite s) mod 2 ^ 15 < 2 ^ 15)
    by (apply Z.mod_pos_bound; lia).
  revert LO LQ Hd. generalize ((j - mOlaWrite s) mod 2 ^ 15).
  intros d LO LQ Hd.
  pose proof (level_hop d (mAvail s) Hd Ha Hov) as [Hin Hout].
  pose proof (level_range d (mAvail s) ltac:(lia)) as R1.
  pose proof (level_range ((d - 96) mod 2 ^ 15) (mAvail s + 96)
                ltac:(apply Z.mod_pos_bound; lia)) as R2.
  destruct (Z.leb_spec 0 d); [|lia]. cbn [andb].
  rewrite Z2Nat.id, Z.add_0_l by (unfold kNFFT; lia). unfold kNFFT.
  destruct (Z.ltb_spec d 512) as [Hlt | Hge].
  - specialize (Hin Hlt). split.
    + apply (bnd_level_add B (level d (mAvail s))); auto; lia.
    + apply (bnd_level_add N (level d (mAvail s))); auto; try lia.
      apply (bnd_mono (1 + 1)); [lia|]. apply bnd_mul; auto. lia.
  - rewrite <- (Hout Hge). auto.
Qed.

(** Popping clears the slots it reads; the others keep their level. *)
Lemma pop_levels B N s out want :
  ring_ok s -> ring_levels B N s ->
  0 <= want <= mAvail s -> mAvail s + 512 <= 2 ^ 15 ->
  want <= Z.of_nat (length out) ->
  mOlaRead s = (mOlaWrite s - mAvail s) mod 2 ^ 15 ->
  exists s1 out',
    for_loop (Z.to_nat want) 0 pop_body (Some (s, out)) = Some (s1, out') /\
    ring_levels B N (count_popped s1 want).
Proof.
  intros Hs Hlev Hw Hov Hout Hr.
  destruct (pop_loop_spec (Z.to_nat want) 0 s out Hs) as
    (s1 & out' & El & Hm & Hs1 & _ & Pin & _ & Pk);
    try (unfold INT32_MAX; lia).
  exists s1, out'. split; [exact El|].
  apply meta_inv in Hm. destruct Hm as (_ & _ & W1 & _ & _ & A1 & _).
  intros j Hj. cbv zeta. unfold count_popped. stft_fields.
  rewrite W1, A1. rewrite (u64_id want) by (unfold in_u64; lia).
  rewrite (u64_id (mAvail s - want)) by (unfold in_u64; lia).
  destruct (Hlev j Hj) as [LO LQ]. cbv zeta in LO, LQ.
  assert (Hd : 0 <= (j - mOlaWrite s) mod 2 ^ 15 < 2 ^ 15)
    by (apply Z.mod_pos_bound; lia).
  set (d := (j - mOlaWrite s) mod 2 ^ 15) in *.
  assert (Hslot : forall i, 0 <= i < want ->
            read_slot s i = ((mOlaWrite s - mAvail s) mod 2 ^ 15 + i)
                            mod 2 ^ 15).
  { intros i Hi. rewrite read_slot_mod, Hr by (unfold INT32_MAX; auto; lia).
    reflexivity. }
  destruct (Z_lt_le_dec d (2 ^ 15 - mAvail s)) as [Hlow | Hhigh].
  - (* ahead of the samples that wait: untouched *)
    rewrite level_pop by lia.
    destruct (Pk j ltac:(lia)) as [-> ->]; [|auto].
    intros i Hi Hji. rewrite Z2Nat.id in Hi by lia.
    rewrite Hslot in Hji by lia.
    pose proof (slot_dist (mOlaWrite s) (mAvail s) i j ltac:(lia) ltac:(lia)
                  Hji) as D.
    fold d in D. lia.
  - destruct (Z_lt_le_dec d (2 ^ 15 - mAvail s + want)) as [Hpop | Hkeep].
    + (* popped: cleared *)
      pose proof (dist_slot (mOlaWrite s) (mAvail s) j Hj ltac:(lia) Hhigh)
        as Ej. fold d in Ej.
      rewrite <- Hslot in Ej by lia.
      destruct (Pin (d - (2 ^ 15 - mAvail s))) as (_ & Z1 & Z2).
      { rewrite Z2Nat.id by lia. lia. }
      rewrite <- Ej in Z1, Z2. rewrite Z1, Z2. split; reflexivity.
    + rewrite level_pop by lia.
      destruct (Pk j ltac:(lia)) as [-> ->]; [|auto].
      intros i Hi Hji. rewrite Z2Nat.id in Hi by lia.
      rewrite Hslot in Hji by lia.
      pose proof (slot_dist (mOlaWrite s) (mAvail s) i j ltac:(lia)
                    ltac:(lia) Hji) as D.
      fold d in D. lia.
Qed.

End RingLevels.

(** ** StftProcessor: bounded runs, and what [popTimeDomain] emits *)

Section BoundedPush.
Import F32 Magnitude StftProcessor StftViews StftHop StftBounds.
Variables cosf sinf : float -> float.

Lemma memcpy_fbounded K dst doff src soff n r :
  memcpy dst doff src soff n = Some r ->
  fbounded K dst -> fbounded K src -> fbounded K r.
Proof.
  intros E Hd Hs. apply memcpy_inv in E. destruct E as [_ ->].
  apply fbounded_app; [now apply fbounded_firstn|].
  apply fbounded_app; [|now apply fbounded_skipn].
  now apply fbounded_firstn, fbounded_skipn.
Qed.

Lemma ring_levels_eq B N s s' :
  mOlaWrite s' = mOlaWrite s -> mAvail s' = mAvail s ->
  mOlaBuf s' = mOlaBuf s -> mNormBuf s' = mNormBuf s ->
  ring_levels B N s -> ring_levels B N s'.
Proof.
  intros H1 H2 H3 H4 H. unfold ring_levels. rewrite H1, H2, H3, H4. exact H.
Qed.

Lemma roll_history_rings s :
  mOlaWrite (roll_history s) = mOlaWrite s /\
  mAvail (roll_history s) = mAvail s /\
  mOlaBuf (roll_history s) = mOlaBuf s /\
  mNormBuf (roll_history s) = mNormBuf s /\
  mWin (roll_history s) = mWin s.
Proof. repeat split; reflexivity. Qed.

Lemma mWin_processOneHop s : mWin (processOneHop cosf sinf s) = mWin s.
Proof.
  destruct (statics_processOneHop cosf sinf s) as (tw & fi & fo & E & _).
  apply statics_inv in E. tauto.
Qed.

Lemma cursor_gap s P Q :
  counts s P Q -> cursors s ->
  mOlaRead s = (mOlaWrite s - mAvail s) mod 2 ^ 15.
Proof.
  intros (Hp & Hq & Hf & Hh & Ha & _) (_ & W & R).
  rewrite R, W, Ha, Hq, Hh, Zminus_mod_idemp_l. f_equal. lia.
Qed.

(** One round of the loop of [pushTimeDomain] keeps the counters. *)
Lemma push_body_inv mono16 frames P0 Q s idx :
  0 <= P0 -> 0 <= frames <= Z.of_nat (length mono16) ->
  frames <= INT32_MAX -> P0 + frames < 2 ^ 63 ->
  0 <= Q <= kHOP * (P0 / kHOP) ->
  0 <= idx < frames -> push_inv frames P0 Q s idx ->
  let take := Z.min (kHOP - mHopFill s) (frames - idx) in
  1 <= take /\ idx + take <= frames /\
  exists s', push_body cosf sinf s mono16 frames idx = Some (s', idx + take)
             /\ push_inv frames P0 Q s' (idx + take).
Proof.
  intros HP0 Hframes Hint Hmax HQ Hidx Hinv.
  unfold INT32_MAX, kHOP in *.
  destruct Hinv as (Hp & Hq & Hf & Hh & Ha & Hl). unfold kHOP in *.
  pose proof (Z.mod_pos_bound (P0 + idx) 96 ltac:(lia)) as Hr.
  destruct (push_body_spec cosf sinf s mono16 frames idx) as
    (s' & Eb & Hl' & Hp' & Hq' & Hcase);
    try (unfold kHOP, INT32_MAX; lia).
  unfold kHOP in Eb, Hcase, Hl'. rewrite Hf in Eb, Hcase. rewrite Hf.
  cbv zeta.
  set (take := Z.min (96 - (P0 + idx) mod 96) (frames - idx)) in *.
  assert (Htake : 1 <= take <= 96 - (P0 + idx) mod 96) by lia.
  split; [lia|]. split; [lia|].
  exists s'. split; [exact Eb|].
  unfold push_inv, kHOP. rewrite Hp', Hq'.
  replace (P0 + (idx + take)) with (P0 + idx + take) by lia.
  destruct (Z.eqb_spec ((P0 + idx) mod 96 + take) 96) as [Heq | Hne].
  - destruct Hcase as (Hf' & Ha' & Hh'). rewrite Hf', Ha', Hh', Ha, Hh.
    assert (Hd : (P0 + idx + take) / 96 = (P0 + idx) / 96 + 1
                 /\ (P0 + idx + take) mod 96 = 0).
    { Z.div_mod_to_equations. lia. }
    destruct Hd as [Hd1 Hd2]. rewrite Hd1, Hd2.
    assert (0 <= (P0 + idx) / 96 /\ 96 * ((P0 + idx) / 96) <= P0 + idx)
      by (Z.div_mod_to_equations; lia).
    assert (P0 / 96 <= (P0 + idx) / 96)
      by (apply Z.div_le_mono; lia).
    rewrite !u64_id by (unfold in_u64; lia).
    repeat split; try assumption; lia.
  - destruct Hcase as (Hf' & Ha' & Hh'). rewrite Hf', Ha', Hh', Ha, Hh.
    assert (Hd : (P0 + idx + take) / 96 = (P0 + idx) / 96
                 /\ (P0 + idx + take) mod 96 = (P0 + idx) mod 96 + take).
    { Z.div_mod_to_equations. lia. }
    destruct Hd as [Hd1 Hd2]. rewrite Hd1, Hd2.
    repeat split; try assumption; lia.
Qed.

Lemma push_body_bounds mono16 frames s idx :
  stages_ok cosf sinf false -> stages_ok cosf sinf true ->
  fbounded 16 mono16 ->
  hop_ready s -> 0 <= idx < frames ->
  frames <= Z.of_nat (length mono16) -> frames <= INT32_MAX ->
  0 <= mAvail s -> mAvail s + 512 <= 2 ^ 15 ->
  push_bounds s ->
  exists s' idx',
    push_body cosf sinf s mono16 frames idx = Some (s', idx') /\
    push_bounds s'.
Proof.
  intros Sf St Hmono Hready Hidx Hlen Hint Ha Hov
         (Hsz & Hok & Hwin & Hhop & Hhist & Hlev).
  destruct (push_body_eq cosf sinf s mono16 frames idx Hready Hidx Hlen Hint)
    as (hb & Ehb & Lhb & Eb & _).
  cbv zeta in Eb. rewrite Eb. clear Eb.
  assert (Hhb : fbounded 16 hb) by (eapply memcpy_fbounded; eassumption).
  do 2 eexists. split; [reflexivity|].
  destruct (mHopFill s + Z.min (kHOP - mHopFill s) (frames - idx) =? kHOP).
  - (* a hop *)
    set (s1 := set_hop s hb kHOP).
    destruct (hop_frame cosf sinf s hb Hsz Lhb) as (E1 & _ & _ & E4 & Hsz').
    fold s1 in E1, E4, Hsz'.
    assert (Hsz1 : sizes s1) by (apply sizes_set_hop; assumption).
    destruct (hop_block cosf sinf 16 s1 Hsz1 ltac:(lia) Hhist Hhb Hwin Sf St)
      as (fi & fo & t & tw & Ehop & Htw).
    pose proof (hop_levels 63 2 s1 fi fo t tw Hok Hlev Ha Hov Htw Hwin
                  ltac:(lia) ltac:(lia) ltac:(lia) ltac:(lia)) as Hlev'.
    rewrite <- Ehop in Hlev'.
    pose proof (mWin_processOneHop s1) as Ewin.
    assert (Hok' : ring_ok (processOneHop cosf sinf s1)).
    { pose proof (rings_processOneHop cosf sinf s1) as Er.
      pose proof (meta_processOneHop cosf sinf s1) as Em.
      revert Er Em. generalize (processOneHop cosf sinf s1). intros x Er Em.
      unfold meta in Em. injection Em as _ _ _ Er' _ _ _ _ _.
      unfold rings in Er. injection Er as R1 R2 R3.
      destruct Hok as (K1 & K2 & K3 & K4).
      unfold ring_ok. rewrite Er', R1, R2, R3. auto. }
    revert E1 E4 Hsz' Hlev' Ewin Hok'.
    generalize (processOneHop cosf sinf s1). intros x E1 E4 Hsz' Hlev' Ewin Hok'.
    destruct (roll_history_rings x) as (R1 & R2 & R3 & R4 & R5).
    unfold push_bounds. split; [exact Hsz'|]. split.
    { destruct Hok' as (K1 & K2 & K3 & K4). unfold ring_ok.
      unfold roll_history. stft_fields. auto. }
    split; [rewrite R5, Ewin; exact Hwin|].
    split; [rewrite E4; exact Hhb|].
    split.
    { rewrite E1. apply fbounded_app; [|exact Hhb].
      now apply fbounded_skipn. }
    apply (ring_levels_eq 63 2 x); assumption.
  - unfold push_bounds.
    split; [apply sizes_set_hop; assumption|].
    split; [exact Hok|]. split; [exact Hwin|]. split; [exact Hhb|].
    split; [exact Hhist|]. exact Hlev.
Qed.

End BoundedPush.

Section BoundedRuns.
Import F32 Magnitude StftProcessor StftViews StftHop StftBounds.
Variables cosf sinf : float -> float.
Hypothesis Sf : stages_ok cosf sinf false.
Hypothesis St : stages_ok cosf sinf true.

Lemma forallb_fbounded K v :
  forallb (bnd K) v = true -> fbounded K v.
Proof.
  intros H. apply fbounded_Forall, Forall_forall.
  intros x Hx. rewrite forallb_forall in H. now apply H.
Qed.

Lemma push_bounded s mono16 frames P Q :
  bounded_state s P Q ->
  0 <= frames <= Z.of_nat (length mono16) ->
  frames <= INT32_MAX -> P + frames < 2 ^ 63 ->
  fbounded 16 mono16 ->
  kHOP * ((P + frames) / kHOP) - Q <= 2 ^ 15 - kNFFT ->
  exists s', pushTimeDomain cosf sinf s mono16 frames = Some s' /\
             bounded_state s' (P + frames) Q.
Proof.
  intros (Hc & Hsz & Hcur & Hok & Hwin & Hhop & Hhist & Hlev & Hav)
         Hframes Hint Hmax Hmono Hover.
  destruct (pushTimeDomain_counts cosf sinf s mono16 frames P Q Hc Hframes
              Hint Hmax) as (s2 & E2 & Hc2).
  pose proof (step_cursors cosf sinf s (Push mono16 frames) s2 E2 Hcur)
    as Hcur2.
  pose proof Hc as (Hp & Hq & Hf & Hh & Ha & HQ & HP & Hl).
  unfold kHOP, kNFFT in *.
  assert (Hstep : forall st idx, idx < frames ->
            (0 <= idx /\ push_inv frames P Q st idx /\ push_bounds st) ->
            exists st' idx',
              push_body cosf sinf st mono16 frames idx = Some (st', idx') /\
              idx < idx' <= frames /\
              (0 <= idx' /\ push_inv frames P Q st' idx' /\ push_bounds st')).
  { intros st idx Hlt (Hidx & Hinv & Hb).
    destruct (push_body_inv cosf sinf mono16 frames P Q st idx) as
      (T1 & T2 & st' & Eb & Hinv'); unfold kHOP; try lia; try assumption.
    cbv zeta in Eb, Hinv'.
    destruct Hinv as (_ & _ & If & _ & Ia & Il). unfold kHOP in *.
    assert (Hdiv : P / 96 <= (P + idx) / 96 <= (P + frames) / 96)
      by (split; apply Z.div_le_mono; lia).
    pose proof (Z.mod_pos_bound (P + idx) 96 ltac:(lia)).
    destruct (push_body_bounds cosf sinf mono16 frames st idx Sf St Hmono)
      as (st'' & idx'' & Eb' & Hb'); try lia; try assumption.
    { split; [exact Il | unfold kHOP; lia]. }
    rewrite Eb in Eb'. injection Eb' as <- <-.
    exists st', (idx + Z.min (96 - mHopFill st) (frames - idx)).
    split; [exact Eb|]. split; [lia|]. split; [lia|]. split; assumption. }
  unfold pushTimeDomain in *.
  destruct (push_loop_invariant cosf sinf
              (fun st idx => 0 <= idx /\ push_inv frames P Q st idx
                             /\ push_bounds st)
              mono16 frames Hstep (Z.to_nat frames)
              (count_pushed s frames) 0)
    as (s' & El & _ & _ & Hb); try lia.
  { split; [lia|]. split.
    - unfold push_inv, count_pushed. stft_fields. rewrite Z.add_0_r.
      unfold INT32_MAX in *.
      rewrite (u64_id frames) by (unfold in_u64; lia).
      rewrite Hp, u64_id by (unfold in_u64; lia). unfold kHOP. auto 10.
    - unfold push_bounds. auto 10. }
  rewrite E2 in El. injection El as <-.
  exists s2. split; [exact E2|].
  destruct Hb as (B1 & B2 & B3 & B4 & B5 & B6).
  unfold bounded_state.
  split; [exact Hc2|]. split; [exact B1|]. split; [exact Hcur2|].
  split; [exact B2|]. split; [exact B3|]. split; [exact B4|].
  split; [exact B5|]. split; [exact B6|].
  destruct Hc2 as (_ & _ & _ & _ & C5 & _). rewrite C5.
  unfold kHOP, kNFFT. lia.
Qed.

Lemma pop_bounded s out16 maxFrames P Q :
  bounded_state s P Q ->
  0 <= maxFrames <= Z.of_nat (length out16) ->
  let want := Z.min maxFrames (kHOP * (P / kHOP) - Q) in
  exists s' out',
    popTimeDomain s out16 maxFrames = Some (s', out', want) /\
    bounded_state s' P (Q + want).
Proof.
  intros (Hc & Hsz & Hcur & Hok & Hwin & Hhop & Hhist & Hlev & Hav)
         Hmax want.
  pose proof Hc as (Hp & Hq & Hf & Hh & Ha & HQ & HP & Hl).
  unfold kNFFT in *.
  assert (Hint : kHOP * (P / kHOP) - Q <= INT32_MAX)
    by (unfold INT32_MAX; lia).
  destruct (popTimeDomain_counts s out16 maxFrames P Q Hc Hmax Hint)
    as (s2 & out2 & E2 & Hc2 & _).
  fold want in E2, Hc2.
  assert (Es : step cosf sinf s (Pop out16 maxFrames) = Some s2)
    by (cbn [step]; now rewrite E2).
  pose proof (step_cursors cosf sinf s _ s2 Es Hcur) as Hcur2.
  pose proof (step_sizes cosf sinf s _ s2 Es Hsz) as Hsz2.
  pose proof (step_ring_ok cosf sinf s _ s2 Hok Es) as Hok2.
  exists s2, out2. split; [exact E2|].
  assert (Hw : 0 <= want <= mAvail s) by (unfold want; lia).
  destruct (pop_levels 63 2 s out16 want Hok Hlev Hw ltac:(lia)
              ltac:(unfold want; lia) (cursor_gap s P Q Hc Hcur))
    as (s1 & out' & El & Hlev').
  pose proof (pop_loop_statics _ _ _ _ _ _ El) as Est.
  destruct (pop_loop_meta (Z.to_nat want) 0 s out16) as
    (s1' & out1' & El' & Hm & _); try lia.
  rewrite El in El'. injection El' as <- <-.
  apply meta_inv in Hm. destruct Hm as (M1 & _ & _ & _ & _ & M6 & _).
  unfold popTimeDomain in E2. rewrite Ha in E2.
  rewrite i32_id in E2 by (unfold in_i32, INT32_MAX in *; lia).
  fold want in E2. rewrite El in E2. injection E2 as <- <-.
  unfold statics in Est. injection Est as T1 T2 _ _ _ _.
  unfold bounded_state.
  split; [exact Hc2|]. split; [exact Hsz2|]. split; [exact Hcur2|].
  split; [exact Hok2|].
  unfold count_popped. stft_fields. rewrite T1, T2, M1.
  split; [exact Hwin|]. split; [exact Hhop|]. split; [exact Hhist|].
  split; [exact Hlev'|].
  rewrite M6. rewrite (u64_id want) by (unfold in_u64; lia).
  rewrite u64_id by (unfold in_u64; lia). unfold kNFFT. lia.
Qed.

Lemma run_bounded calls : forall s P Q,
  bounded_state s P Q -> in_limits P Q calls ->
  samples_ok calls -> never_overrun P Q calls ->
  exists s', run cosf sinf s calls = Some s' /\
             bounded_state s' (fst (tally P Q calls))
                              (snd (tally P Q calls)).
Proof.
  induction calls as [|c calls IH]; intros s P Q Hs Hl Hr Hn.
  - exists s. split; [reflexivity | exact Hs].
  - destruct c as [mono16 frames | out16 maxFrames];
      cbn [in_limits samples_ok never_overrun tally run step] in *.
    + destruct Hl as (L1 & L2 & L3 & L4). destruct Hr as [R1 R2].
      destruct Hn as [N1 N2].
      destruct (push_bounded s mono16 frames P Q Hs L1 L2 L3
                  (forallb_fbounded 16 mono16 R1) N1) as (s1 & E1 & Hs1).
      rewrite E1. now apply IH.
    + destruct Hl as (L1 & L2 & L3).
      destruct (pop_bounded s out16 maxFrames P Q Hs L1)
        as (s1 & out' & E1 & Hs1).
      rewrite E1. now apply IH.
Qed.

End BoundedRuns.

Section Protection.
Import F32 Magnitude StftProcessor StftViews StftHop StftBounds.
Variables cosf sinf : float -> float.

Lemma libm_ok_inv :
  libm_ok cosf sinf = true ->
  fbounded 1 (mWin (new cosf)) /\
  stages_ok cosf sinf false /\ stages_ok cosf sinf true.
Proof.
  unfold libm_ok. intros H. apply andb_true_iff in H. destruct H as [Hw Hs].
  split; [now apply forallb_fbounded|].
  rewrite forallb_forall in Hs.
  split; intros len Hlen; specialize (Hs len Hlen);
    apply andb_true_iff in Hs; tauto.
Qed.

Lemma vget_repeat {A : Type} (d : A) n j : vget d (repeat d n) j = d.
Proof.
  unfold vget. destruct (0 <=? j); [|reflexivity].
  destruct (Nat.lt_ge_cases (Z.to_nat j) n).
  - now apply nth_repeat_lt.
  - apply nth_overflow. now rewrite repeat_length.
Qed.

Lemma new_bounded :
  libm_ok cosf sinf = true -> bounded_state (new cosf) 0 0.
Proof.
  intros H. destruct (libm_ok_inv H) as (Hw & _ & _).
  unfold bounded_state.
  split; [apply new_counts|]. split; [apply new_sizes|].
  split; [apply new_cursors|]. split; [apply new_ring_ok|].
  split; [exact Hw|].
  split; [apply fbounded_repeat_zero|].
  split; [apply fbounded_repeat_zero|].
  split.
  - intros j Hj. cbv zeta. unfold new. cbv zeta. stft_fields.
    rewrite !vget_repeat. split; reflexivity.
  - unfold new. cbv zeta. stft_fields. unfold kNFFT. lia.
Qed.

End Protection.

(** C5. Along any sequence of calls within the limits of their types, on
    samples in range, that never overruns the ring, and with a C library
    whose cosines and sines are bounded, every sample that [popTimeDomain]
    emits is [ola_ring[i] / norm_ring[i]] when [norm_ring[i] > kEps] and 0
    otherwise, both ring slots are zero after the emission, and the sample
    is finite: neither NaN nor an infinity. *)
Theorem pop_protection (cosf sinf : F32.float -> F32.float)
    (calls : list StftProcessor.call) (out16 : list F32.float)
    (maxFrames : Z) :
  StftBounds.libm_ok cosf sinf = true ->
  StftProcessor.in_limits 0 0 (calls ++ [StftProcessor.Pop out16 maxFrames]) ->
  StftBounds.samples_ok calls ->
  StftBounds.never_overrun 0 0 calls ->
  exists s s' out',
    StftProcessor.run cosf sinf (StftProcessor.new cosf) calls = Some s /\
    let want := Z.min maxFrames (StftProcessor.mAvail s) in
    StftProcessor.popTimeDomain s out16 maxFrames = Some (s', out', want) /\
    forall i, 0 <= i < want ->
      let idx := StftProcessor.read_slot s i in
      let o := vget F32.zero (StftProcessor.mOlaBuf s) idx in
      let n := vget F32.zero (StftProcessor.mNormBuf s) idx in
      load out' i =
        Some (if F32.gt n StftProcessor.kEps then F32.div o n else F32.zero)
      /\
      vget F32.zero (StftProcessor.mOlaBuf s') idx = F32.zero /\
      vget F32.zero (StftProcessor.mNormBuf s') idx = F32.zero /\
      exists y, load out' i = Some y /\ F32.is_finite y = true.
Proof.
  intros Hlibm Hlim Hsamples Hover.
  destruct (libm_ok_inv cosf sinf Hlibm) as (_ & Sf & St).
  apply in_limits_app in Hlim. destruct Hlim as [Hl1 Hl2].
  destruct (run_bounded cosf sinf Sf St calls _ 0 0
              (new_bounded cosf sinf Hlibm) Hl1 Hsamples Hover)
    as (s & Erun & Hs).
  cbn [StftProcessor.in_limits] in Hl2. destruct Hl2 as (Hmax & Hint & _).
  destruct Hs as (Hc & _ & _ & Hok & _ & _ & _ & Hlev & Hav).
  destruct Hc as (_ & _ & _ & _ & Ha & HQ & _).
  rewrite <- Ha in Hint. unfold StftProcessor.kNFFT in Hav.
  assert (Ha0 : 0 <= StftProcessor.mAvail s) by lia.
  exists s. unfold StftProcessor.popTimeDomain.
  rewrite i32_id by (unfold in_i32, INT32_MAX in *; lia).
  set (want := Z.min maxFrames (StftProcessor.mAvail s)).
  destruct (pop_loop_spec (Z.to_nat want) 0 s out16 Hok) as
    (s1 & out' & El & _ & _ & _ & Pin & _);
    unfold INT32_MAX in *; try (unfold want; lia).
  rewrite El. do 2 eexists. split; [exact Erun|].
  cbv zeta. split; [reflexivity|].
  intros i Hi. destruct (Pin i ltac:(lia)) as (Q1 & Q2 & Q3).
  pose proof (read_slot_range s i Hok ltac:(unfold INT32_MAX; lia)) as Hidx.
  destruct (Hlev _ Hidx) as [LO LQ]. cbv zeta in LO, LQ.
  revert Q1 Q2 Q3 LO LQ.
  generalize (StftBounds.level
                ((StftProcessor.read_slot s i - StftProcessor.mOlaWrite s)
                 mod 2 ^ 15) (StftProcessor.mAvail s))
             (level_range
                ((StftProcessor.read_slot s i - StftProcessor.mOlaWrite s)
                 mod 2 ^ 15) (StftProcessor.mAvail s)
                ltac:(apply Z.mod_pos_bound; lia)).
  intros L HL.
  generalize (StftProcessor.read_slot s i). intros idx Q1 Q2 Q3 LO LQ.
  unfold StftProcessor.normalized in Q1.
  unfold StftProcessor.count_popped. stft_fields.
  split; [exact Q1|]. split; [exact Q2|]. split; [exact Q3|].
  eexists. split; [exact Q1|].
  apply (normalized_finite (63 + L) (2 + L)); try assumption. lia.
Qed.

Lemma pop_protection_witness :
  let calls := [StftProcessor.Push
                  (map (fun k => F32.of_scaled (Z.of_nat k - 100) (-7))
                       (seq 0 200)) 200;
                StftProcessor.Pop (repeat F32.zero 50) 50;
                StftProcessor.Push (repeat F32.one 100) 100] in
  let out16 := repeat F32.zero 300 in
  exists s s' out',
    StftProcessor.run Libm.cosf Libm.sinf (StftProcessor.new Libm.cosf) calls
      = Some s /\
    let want := Z.min 300 (StftProcessor.mAvail s) in
    StftProcessor.popTimeDomain s out16 300 = Some (s', out', want) /\
    forall i, 0 <= i < want ->
      let idx := StftProcessor.read_slot s i in
      let o := vget F32.zero (StftProcessor.mOlaBuf s) idx in
      let n := vget F32.zero (StftProcessor.mNormBuf s) idx in
      load out' i =
        Some (if F32.gt n StftProcessor.kEps then F32.div o n else F32.zero)
      /\
      vget F32.zero (StftProcessor.mOlaBuf s') idx = F32.zero /\
      vget F32.zero (StftProcessor.mNormBuf s') idx = F32.zero /\
      exists y, load out' i = Some y /\ F32.is_finite y = true.
Proof.
  intros calls out16.
  apply (pop_protection Libm.cosf Libm.sinf calls out16 300).
  - vm_compute. reflexivity.
  - vm_compute. repeat split; discriminate.
  - vm_compute. repeat split; reflexivity.
  - vm_compute. repeat split; discriminate.
Defined.
